(** * Aither: block-structured finite-volume solver -- verification of the
    natural-language specification against the C++ sources.

    Sources embedded here:
    - [src/src/utility.cpp]   : [CalcTimeStep], [HyperplaneReorder],
                                [LagrangeCoeff], [StencilWidth]
    - [src/parallel.cpp]      : [ManualDecomposition], [GetProcBlocks], [MaxLinf]
    - [src/procBlock.cpp]     : the constructor [procBlock(ni, nj, nk, numG)],
                                [AddToResidual], [ResetResidWS], [CalcCellDt],
                                [CalcBlockTimeStep], [UpdateBlock],
                                [ExplicitEulerTimeAdvance],
                                [ImplicitTimeAdvance], [RK4TimeAdvance],
                                [CalcInvFluxI/J/K], [CalcViscFluxI/J/K],
                                [PadWithGhosts], [AssignGhostCellsGeom],
                                [IsPhysical], [AtCorner], [AtEdge],
                                [GetSwapLoc], [PutGeomSlice], [PutStateSlice],
                                [SwapSlice], [CleanResizeVecs],
                                [PackSendSolMPI], [RecvUnpackSolMPI]
    - [src/slices.hpp]        : [geomSlice], [stateSlice]

    Conventions of the embedding:
    - a C++ [int] is a [Z] (block dimensions and indices are far below 2^31);
    - a C++ [double] is an element of an arbitrary type [D] carrying the
      operations of the class [DoubleOps]; no law is assumed about them unless
      a theorem says so, so the structural theorems hold for IEEE-754
      arithmetic as well as for exact arithmetic.  The instance [Qc_ops]
      (exact rationals) is used to run the definitions on concrete inputs;
    - [exit(0)] is the constructor [Abort] of the result type [res];
    - [for (x = 0; x < n; x++)] is [for_loop n];
    - the messages in flight between the processes are a list, oldest
      first; a send appends to it and a receive takes the oldest message
      with the wanted source and tag. *)

From Stdlib Require Import ZArith QArith Qabs Qcanon Lia List String.
From stdpp Require Import base list numbers.

Open Scope Z_scope.

(** ** Loops *)

(** [for (int x = 0; x < n; x++) body]: the body is run for x = 0, 1, ..., n-1
    in this order; for [n <= 0] it is not run at all. *)
Definition for_loop {S : Type} (n : Z) (body : Z -> S -> S) (s : S) : S :=
  foldl (fun acc x => body x acc) s (seqZ 0 n).

(** [v[z]] for a [std::vector] and an [int] index; an index outside the
    vector has no defined meaning in C++ and gives [None]. *)
Definition nthZ {A : Type} (l : list A) (z : Z) : option A :=
  if z <? 0 then None else l !! Z.to_nat z.

(** [vector3d<T>]: three components, indexed 0, 1, 2 in the source. *)
Record vector3d (T : Type) : Type := Vec3 { v0 : T; v1 : T; v2 : T }.
Arguments Vec3 {T} _ _ _.
Arguments v0 {T} _.
Arguments v1 {T} _.
Arguments v2 {T} _.

#[export] Instance vector3d_Z_eq_dec : EqDecision (vector3d Z).
Proof. solve_decision. Defined.

(** ** Doubles *)

(** The operations the sources apply to [double] values.  [dlit q] is the
    double written as the literal [q] in the source ([0.0], [0.25], [2.0],
    ...). *)
Class DoubleOps (D : Type) : Type := {
  dlit : Q -> D;
  dadd : D -> D -> D;
  dsub : D -> D -> D;
  dmul : D -> D -> D;
  ddiv : D -> D -> D;
  dabs : D -> D;
  deqb : D -> D -> bool;
  dltb : D -> D -> bool;
  dleb : D -> D -> bool }.

(** [a > b] and [a >= b] are [b < a] and [b <= a]. *)
Definition dgtb {D} `{DoubleOps D} (a b : D) : bool := dltb b a.
Definition dgeb {D} `{DoubleOps D} (a b : D) : bool := dleb b a.

(** [std::max(a, b)] is [(a < b) ? b : a]. *)
Definition dmax {D} `{DoubleOps D} (a b : D) : D := if dltb a b then b else a.

Declare Scope dbl_scope.
Delimit Scope dbl_scope with dbl.
Infix "+" := dadd : dbl_scope.
Infix "-" := dsub : dbl_scope.
Infix "*" := dmul : dbl_scope.
Infix "/" := ddiv : dbl_scope.

(** Exact rational arithmetic, used to run the definitions. *)
#[export] Instance Qc_ops : DoubleOps Qc := {|
  dlit := Q2Qc;
  dadd := Qcplus;
  dsub := Qcminus;
  dmul := Qcmult;
  ddiv := Qcdiv;
  dabs := fun a => Q2Qc (Qabs (this a));
  deqb := Qc_eq_bool;
  dltb := fun a b => negb (Qle_bool (this b) (this a));
  dleb := fun a b => Qle_bool (this a) (this b) |}.

(** The laws of real arithmetic that relate the time step the code computes
    to the formula of the specification.  They hold for exact arithmetic; for
    doubles they hold up to rounding. *)
Class RealArith (D : Type) `{DoubleOps D} : Prop := {
  dadd_0_l : forall x : D, (dlit 0 + x)%dbl = x;
  dadd_assoc : forall x y z : D, (x + y + z)%dbl = (x + (y + z))%dbl;
  dmul_add_distr_l : forall c x y : D, (c * (x + y))%dbl = (c * x + c * y)%dbl;
  dmul_div_assoc : forall c v a : D, (c * (v / a))%dbl = (c * v / a)%dbl }.

(** The laws of addition and subtraction of real numbers under which moving
    a point by a cell width is a reflection.  They hold for exact
    arithmetic; for doubles they hold up to rounding. *)
Class RealGroup (D : Type) `{DoubleOps D} : Prop := {
  dadd_comm : forall x y : D, (x + y)%dbl = (y + x)%dbl;
  dadd_sub : forall x y : D, (x + y - y)%dbl = x;
  dsub_add : forall x y : D, (x - y + y)%dbl = x;
  dsub_add_distr : forall x y z : D, (x - (y + z))%dbl = (x - y - z)%dbl }.

(** The order laws of real numbers (they hold for doubles that are not NaN):
    [>=] is total and transitive. *)
Class DoubleOrder (D : Type) `{DoubleOps D} : Prop := {
  dgeb_total : forall a b : D, dgeb a b = false -> dgeb b a = true;
  dgeb_trans : forall a b c : D,
    dgeb a b = true -> dgeb b c = true -> dgeb a c = true }.

(** ** Results of code that may terminate the job *)

(** [exit(0)] ends the job: [Abort].  Otherwise the code returns: [Ok]. *)
Inductive res (A : Type) : Type :=
| Ok (a : A)
| Abort.
Arguments Ok {A} _.
Arguments Abort {A}.

Definition res_bind {A B : Type} (r : res A) (f : A -> res B) : res B :=
  match r with
  | Ok a => f a
  | Abort => Abort
  end.

Notation "x <-- r ;; k" := (res_bind r (fun x => k))
  (at level 100, r at next level, right associativity).

(** A [for] loop whose body may terminate the job. *)
Definition for_loop_res {S : Type} (n : Z) (body : Z -> S -> res S) (s : S)
  : res S :=
  for_loop n (fun x r => res_bind r (body x)) (Ok s).

(** ** Padded three-dimensional arrays *)

(** Modelled from the spec: [multiArray3d.hpp] is not among the sources.  A
    [multiArray3d<T>] has three extents and one element per index triple;
    [a(i,j,k)] reads and writes an element.  The callers in [procBlock.cpp]
    pass inclusive bounds to [Slice] and [Insert] ([Slice(g1, g1, ...)] is one
    layer thick).  [Insert] fails with a shape mismatch (a fatal error) when
    the source does not have the extents of the destination range.  The sum
    and difference of two arrays and the product with a double are taken
    element by element; [GrowJ] adds one layer in J that duplicates the last
    one. *)
Record multiArray3d (T : Type) : Type := mkArray {
  maNumI : Z;
  maNumJ : Z;
  maNumK : Z;
  maData : Z -> Z -> Z -> T }.
Arguments mkArray {T} _ _ _ _.
Arguments maNumI {T} _.
Arguments maNumJ {T} _.
Arguments maNumK {T} _.
Arguments maData {T} _ _ _ _.

Section Arrays.
Context {T : Type}.

Definition maSize (a : multiArray3d T) : Z := maNumI a * maNumJ a * maNumK a.

(** [a(i,j,k)] *)
Definition ma_get (a : multiArray3d T) (i j k : Z) : T := maData a i j k.

(** [a(i,j,k) = v] *)
Definition ma_set (a : multiArray3d T) (i j k : Z) (v : T) : multiArray3d T :=
  mkArray (maNumI a) (maNumJ a) (maNumK a)
    (fun i' j' k' =>
       if (i' =? i) && (j' =? j) && (k' =? k) then v else maData a i' j' k').

(** An array filled with one value. *)
Definition ma_const (ni nj nk : Z) (v : T) : multiArray3d T :=
  mkArray ni nj nk (fun _ _ _ => v).

(** [a.Slice(is, ie, js, je, ks, ke)] *)
Definition Slice (a : multiArray3d T) (is_ ie js je ks ke : Z)
  : multiArray3d T :=
  mkArray (ie - is_ + 1) (je - js + 1) (ke - ks + 1)
    (fun i j k => maData a (is_ + i) (js + j) (ks + k)).

Definition in_range (lo hi x : Z) : bool := (lo <=? x) && (x <=? hi).

(** The array [a] with the elements of [src] written over the index range
    [is..ie] x [js..je] x [ks..ke]. *)
Definition overwrite (a : multiArray3d T) (is_ ie js je ks ke : Z)
           (src : multiArray3d T) : multiArray3d T :=
  mkArray (maNumI a) (maNumJ a) (maNumK a)
    (fun i j k =>
       if in_range is_ ie i && in_range js je j && in_range ks ke k
       then maData src (i - is_) (j - js) (k - ks)
       else maData a i j k).

(** [a.Insert(is, ie, js, je, ks, ke, src)] *)
Definition Insert (a : multiArray3d T) (is_ ie js je ks ke : Z)
           (src : multiArray3d T) : res (multiArray3d T) :=
  if (maNumI src =? ie - is_ + 1) && (maNumJ src =? je - js + 1) &&
     (maNumK src =? ke - ks + 1)
  then Ok (overwrite a is_ ie js je ks ke src)
  else Abort.

Definition GrowI (a : multiArray3d T) : multiArray3d T :=
  mkArray (maNumI a + 1) (maNumJ a) (maNumK a)
    (fun i j k => maData a (Z.min i (maNumI a - 1)) j k).
Definition GrowJ (a : multiArray3d T) : multiArray3d T :=
  mkArray (maNumI a) (maNumJ a + 1) (maNumK a)
    (fun i j k => maData a i (Z.min j (maNumJ a - 1)) k).
Definition GrowK (a : multiArray3d T) : multiArray3d T :=
  mkArray (maNumI a) (maNumJ a) (maNumK a + 1)
    (fun i j k => maData a i j (Z.min k (maNumK a - 1))).

(** Element-wise combination; the extents are those of the left operand. *)
Definition ma_zip (f : T -> T -> T) (a b : multiArray3d T) : multiArray3d T :=
  mkArray (maNumI a) (maNumJ a) (maNumK a)
    (fun i j k => f (maData a i j k) (maData b i j k)).

Definition ma_map (f : T -> T) (a : multiArray3d T) : multiArray3d T :=
  mkArray (maNumI a) (maNumJ a) (maNumK a) (fun i j k => f (maData a i j k)).
End Arrays.

(** ** Cell and face records *)

Section CellData.
Context {D : Type} `{DoubleOps D}.

(** Number of equations ([NUMVARS]): density, three momentum components,
    energy and two turbulence scalars. *)
Definition NUMVARS : Z := 7.

(** Modelled from the spec: the class [genArray] is not among the sources.
    A [genArray] holds [NUMVARS] doubles; sum, difference and product of two
    [genArray]s and the product with a double act component by component
    ([residual * residual] in [UpdateBlock] is the component-wise square). *)
Definition genArray : Type := list D.

Definition genArray_const (v : D) : genArray := replicate (Z.to_nat NUMVARS) v.
Definition ga_add (a b : genArray) : genArray := zip_with dadd a b.
Definition ga_sub (a b : genArray) : genArray := zip_with dsub a b.
Definition ga_mul (a b : genArray) : genArray := zip_with dmul a b.
Definition ga_scale (c : D) (a : genArray) : genArray := dmul c <$> a.

(** Sum, difference and scaling of [vector3d<double>]. *)
Definition vec_add (a b : vector3d D) : vector3d D :=
  Vec3 (v0 a + v0 b)%dbl (v1 a + v1 b)%dbl (v2 a + v2 b)%dbl.
Definition vec_sub (a b : vector3d D) : vector3d D :=
  Vec3 (v0 a - v0 b)%dbl (v1 a - v1 b)%dbl (v2 a - v2 b)%dbl.
Definition vec_scale (a : vector3d D) (c : D) : vector3d D :=
  Vec3 (v0 a * c)%dbl (v1 a * c)%dbl (v2 a * c)%dbl.
Definition vec_scale_l (c : D) (a : vector3d D) : vector3d D :=
  Vec3 (c * v0 a)%dbl (c * v1 a)%dbl (c * v2 a)%dbl.

(** Modelled from the spec: the class [unitVec3dMag] is not among the
    sources.  A face area is a unit normal and a magnitude; the product with
    a double ([aFac3 * slice.FAreaI(...)], a factor 1.0 or -1.0) scales the
    normal, which flips its sign for -1.0. *)
Record unitVec3dMag : Type := mkArea {
  unitVec : vector3d D;
  areaMag : D }.

Definition area_scale (c : D) (a : unitVec3dMag) : unitVec3dMag :=
  mkArea (Vec3 (c * v0 (unitVec a))%dbl (c * v1 (unitVec a))%dbl
               (c * v2 (unitVec a))%dbl) (areaMag a).
End CellData.
Arguments genArray D : clear implicits.
Arguments unitVec3dMag D : clear implicits.

(** ** Boundary conditions and inter-block records *)

(** Modelled from the spec: the class [boundaryConditions] is not among the
    sources.  A block has an ordered sequence of surface patches; each carries
    a tag string ([GetBCTypes]), a surface id in 1..6 for I-low, I-high,
    J-low, J-high, K-low, K-high ([GetSurfaceType]), an index range in node
    numbers starting at 1 ([GetIMin] .. [GetKMax]) and an integer tag. *)
Record boundarySurface : Type := mkSurface {
  bcType : string;
  surfaceType : Z;
  iMin : Z; iMax : Z;
  jMin : Z; jMax : Z;
  kMin : Z; kMax : Z;
  bcTag : Z }.

Definition boundaryConditions : Type := list boundarySurface.

Definition NumSurfaces (bc : boundaryConditions) : Z := Z.of_nat (length bc).

(** The class [interblock]; the ten integer groups are those that
    [SetDataTypesMPI] registers ([rank], [block], [localBlock], [boundary],
    [d1Start], [d1End], [d2Start], [d2End], [constSurf] with one entry per
    side, and [orientation]), followed by the border flags: four per side, for
    the edges direction-1 start, direction-1 end, direction-2 start and
    direction-2 end of the patch. *)
Record interblock : Type := mkInterblock {
  ib_rank : Z * Z;
  ib_block : Z * Z;
  ib_localBlock : Z * Z;
  ib_boundary : Z * Z;
  ib_d1Start : Z * Z;
  ib_d1End : Z * Z;
  ib_d2Start : Z * Z;
  ib_d2End : Z * Z;
  ib_constSurf : Z * Z;
  ib_orientation : Z;
  ib_borderFirst : list bool;
  ib_borderSecond : list bool }.

Definition RankFirst (c : interblock) : Z := fst (ib_rank c).
Definition RankSecond (c : interblock) : Z := snd (ib_rank c).
Definition BlockFirst (c : interblock) : Z := fst (ib_block c).
Definition BlockSecond (c : interblock) : Z := snd (ib_block c).
Definition BoundaryFirst (c : interblock) : Z := fst (ib_boundary c).
Definition BoundarySecond (c : interblock) : Z := snd (ib_boundary c).
Definition Dir1StartFirst (c : interblock) : Z := fst (ib_d1Start c).
Definition Dir1StartSecond (c : interblock) : Z := snd (ib_d1Start c).
Definition Dir1EndFirst (c : interblock) : Z := fst (ib_d1End c).
Definition Dir1EndSecond (c : interblock) : Z := snd (ib_d1End c).
Definition Dir2StartFirst (c : interblock) : Z := fst (ib_d2Start c).
Definition Dir2StartSecond (c : interblock) : Z := snd (ib_d2Start c).
Definition Dir2EndFirst (c : interblock) : Z := fst (ib_d2End c).
Definition Dir2EndSecond (c : interblock) : Z := snd (ib_d2End c).
Definition ConstSurfaceFirst (c : interblock) : Z := fst (ib_constSurf c).
Definition ConstSurfaceSecond (c : interblock) : Z := snd (ib_constSurf c).
Definition Orientation (c : interblock) : Z := ib_orientation c.

Definition SetRankFirst (r : Z) (c : interblock) : interblock :=
  mkInterblock (r, snd (ib_rank c)) (ib_block c) (ib_localBlock c)
    (ib_boundary c) (ib_d1Start c) (ib_d1End c) (ib_d2Start c) (ib_d2End c)
    (ib_constSurf c) (ib_orientation c) (ib_borderFirst c) (ib_borderSecond c).
Definition SetRankSecond (r : Z) (c : interblock) : interblock :=
  mkInterblock (fst (ib_rank c), r) (ib_block c) (ib_localBlock c)
    (ib_boundary c) (ib_d1Start c) (ib_d1End c) (ib_d2Start c) (ib_d2End c)
    (ib_constSurf c) (ib_orientation c) (ib_borderFirst c) (ib_borderSecond c).

(** ** Blocks *)

Section Block.
Context {D : Type} `{DoubleOps D}.
(** The class [primVars] (a primitive state) is not among the sources; it is
    a parameter of the development. *)
Context {PV : Type}.

(** The data members of the class [procBlock]. *)
Record procBlock : Type := mkProcBlock {
  state_ : multiArray3d PV;
  center_ : multiArray3d (vector3d D);
  fAreaI_ : multiArray3d (unitVec3dMag D);
  fAreaJ_ : multiArray3d (unitVec3dMag D);
  fAreaK_ : multiArray3d (unitVec3dMag D);
  fCenterI_ : multiArray3d (vector3d D);
  fCenterJ_ : multiArray3d (vector3d D);
  fCenterK_ : multiArray3d (vector3d D);
  residual_ : multiArray3d (genArray D);
  vol_ : multiArray3d D;
  avgWaveSpeed_ : multiArray3d D;
  dt_ : multiArray3d D;
  wallDist_ : multiArray3d D;
  bc_ : boundaryConditions;
  numGhosts_ : Z;
  parBlock_ : Z;
  rank_ : Z;
  globalPos_ : Z;
  localPos_ : Z }.

Definition set_state_ (v : multiArray3d PV) (b : procBlock) : procBlock :=
  mkProcBlock v (center_ b) (fAreaI_ b) (fAreaJ_ b) (fAreaK_ b) (fCenterI_ b) (fCenterJ_ b) (fCenterK_ b) (residual_ b) (vol_ b) (avgWaveSpeed_ b) (dt_ b) (wallDist_ b) (bc_ b) (numGhosts_ b) (parBlock_ b) (rank_ b) (globalPos_ b) (localPos_ b).
Definition set_center_ (v : multiArray3d (vector3d D)) (b : procBlock) : procBlock :=
  mkProcBlock (state_ b) v (fAreaI_ b) (fAreaJ_ b) (fAreaK_ b) (fCenterI_ b) (fCenterJ_ b) (fCenterK_ b) (residual_ b) (vol_ b) (avgWaveSpeed_ b) (dt_ b) (wallDist_ b) (bc_ b) (numGhosts_ b) (parBlock_ b) (rank_ b) (globalPos_ b) (localPos_ b).
Definition set_fAreaI_ (v : multiArray3d (unitVec3dMag D)) (b : procBlock) : procBlock :=
  mkProcBlock (state_ b) (center_ b) v (fAreaJ_ b) (fAreaK_ b) (fCenterI_ b) (fCenterJ_ b) (fCenterK_ b) (residual_ b) (vol_ b) (avgWaveSpeed_ b) (dt_ b) (wallDist_ b) (bc_ b) (numGhosts_ b) (parBlock_ b) (rank_ b) (globalPos_ b) (localPos_ b).
Definition set_fAreaJ_ (v : multiArray3d (unitVec3dMag D)) (b : procBlock) : procBlock :=
  mkProcBlock (state_ b) (center_ b) (fAreaI_ b) v (fAreaK_ b) (fCenterI_ b) (fCenterJ_ b) (fCenterK_ b) (residual_ b) (vol_ b) (avgWaveSpeed_ b) (dt_ b) (wallDist_ b) (bc_ b) (numGhosts_ b) (parBlock_ b) (rank_ b) (globalPos_ b) (localPos_ b).
Definition set_fAreaK_ (v : multiArray3d (unitVec3dMag D)) (b : procBlock) : procBlock :=
  mkProcBlock (state_ b) (center_ b) (fAreaI_ b) (fAreaJ_ b) v (fCenterI_ b) (fCenterJ_ b) (fCenterK_ b) (residual_ b) (vol_ b) (avgWaveSpeed_ b) (dt_ b) (wallDist_ b) (bc_ b) (numGhosts_ b) (parBlock_ b) (rank_ b) (globalPos_ b) (localPos_ b).
Definition set_fCenterI_ (v : multiArray3d (vector3d D)) (b : procBlock) : procBlock :=
  mkProcBlock (state_ b) (center_ b) (fAreaI_ b) (fAreaJ_ b) (fAreaK_ b) v (fCenterJ_ b) (fCenterK_ b) (residual_ b) (vol_ b) (avgWaveSpeed_ b) (dt_ b) (wallDist_ b) (bc_ b) (numGhosts_ b) (parBlock_ b) (rank_ b) (globalPos_ b) (localPos_ b).
Definition set_fCenterJ_ (v : multiArray3d (vector3d D)) (b : procBlock) : procBlock :=
  mkProcBlock (state_ b) (center_ b) (fAreaI_ b) (fAreaJ_ b) (fAreaK_ b) (fCenterI_ b) v (fCenterK_ b) (residual_ b) (vol_ b) (avgWaveSpeed_ b) (dt_ b) (wallDist_ b) (bc_ b) (numGhosts_ b) (parBlock_ b) (rank_ b) (globalPos_ b) (localPos_ b).
Definition set_fCenterK_ (v : multiArray3d (vector3d D)) (b : procBlock) : procBlock :=
  mkProcBlock (state_ b) (center_ b) (fAreaI_ b) (fAreaJ_ b) (fAreaK_ b) (fCenterI_ b) (fCenterJ_ b) v (residual_ b) (vol_ b) (avgWaveSpeed_ b) (dt_ b) (wallDist_ b) (bc_ b) (numGhosts_ b) (parBlock_ b) (rank_ b) (globalPos_ b) (localPos_ b).
Definition set_residual_ (v : multiArray3d (genArray D)) (b : procBlock) : procBlock :=
  mkProcBlock (state_ b) (center_ b) (fAreaI_ b) (fAreaJ_ b) (fAreaK_ b) (fCenterI_ b) (fCenterJ_ b) (fCenterK_ b) v (vol_ b) (avgWaveSpeed_ b) (dt_ b) (wallDist_ b) (bc_ b) (numGhosts_ b) (parBlock_ b) (rank_ b) (globalPos_ b) (localPos_ b).
Definition set_vol_ (v : multiArray3d D) (b : procBlock) : procBlock :=
  mkProcBlock (state_ b) (center_ b) (fAreaI_ b) (fAreaJ_ b) (fAreaK_ b) (fCenterI_ b) (fCenterJ_ b) (fCenterK_ b) (residual_ b) v (avgWaveSpeed_ b) (dt_ b) (wallDist_ b) (bc_ b) (numGhosts_ b) (parBlock_ b) (rank_ b) (globalPos_ b) (localPos_ b).
Definition set_avgWaveSpeed_ (v : multiArray3d D) (b : procBlock) : procBlock :=
  mkProcBlock (state_ b) (center_ b) (fAreaI_ b) (fAreaJ_ b) (fAreaK_ b) (fCenterI_ b) (fCenterJ_ b) (fCenterK_ b) (residual_ b) (vol_ b) v (dt_ b) (wallDist_ b) (bc_ b) (numGhosts_ b) (parBlock_ b) (rank_ b) (globalPos_ b) (localPos_ b).
Definition set_dt_ (v : multiArray3d D) (b : procBlock) : procBlock :=
  mkProcBlock (state_ b) (center_ b) (fAreaI_ b) (fAreaJ_ b) (fAreaK_ b) (fCenterI_ b) (fCenterJ_ b) (fCenterK_ b) (residual_ b) (vol_ b) (avgWaveSpeed_ b) v (wallDist_ b) (bc_ b) (numGhosts_ b) (parBlock_ b) (rank_ b) (globalPos_ b) (localPos_ b).
Definition set_wallDist_ (v : multiArray3d D) (b : procBlock) : procBlock :=
  mkProcBlock (state_ b) (center_ b) (fAreaI_ b) (fAreaJ_ b) (fAreaK_ b) (fCenterI_ b) (fCenterJ_ b) (fCenterK_ b) (residual_ b) (vol_ b) (avgWaveSpeed_ b) (dt_ b) v (bc_ b) (numGhosts_ b) (parBlock_ b) (rank_ b) (globalPos_ b) (localPos_ b).
Definition set_rank_ (v : Z) (b : procBlock) : procBlock :=
  mkProcBlock (state_ b) (center_ b) (fAreaI_ b) (fAreaJ_ b) (fAreaK_ b) (fCenterI_ b) (fCenterJ_ b) (fCenterK_ b) (residual_ b) (vol_ b) (avgWaveSpeed_ b) (dt_ b) (wallDist_ b) (bc_ b) (numGhosts_ b) (parBlock_ b) v (globalPos_ b) (localPos_ b).
Definition set_globalPos_ (v : Z) (b : procBlock) : procBlock :=
  mkProcBlock (state_ b) (center_ b) (fAreaI_ b) (fAreaJ_ b) (fAreaK_ b) (fCenterI_ b) (fCenterJ_ b) (fCenterK_ b) (residual_ b) (vol_ b) (avgWaveSpeed_ b) (dt_ b) (wallDist_ b) (bc_ b) (numGhosts_ b) (parBlock_ b) (rank_ b) v (localPos_ b).

(** Modelled from the spec: [procBlock.hpp] is not among the sources.  The
    block dimensions are the extents of the arrays without ghost cells
    ([CleanResizeVecs] sizes [residual_] with them and no other member keeps
    them). *)
Definition NumI (b : procBlock) : Z := maNumI (residual_ b).
Definition NumJ (b : procBlock) : Z := maNumJ (residual_ b).
Definition NumK (b : procBlock) : Z := maNumK (residual_ b).
Definition NumCells (b : procBlock) : Z := maSize (residual_ b).
Definition NumGhosts (b : procBlock) : Z := numGhosts_ b.
Definition Rank (b : procBlock) : Z := rank_ b.
Definition GlobalPos (b : procBlock) : Z := globalPos_ b.
Definition SetRank (r : Z) (b : procBlock) : procBlock := set_rank_ r b.
Definition SetGlobalPos (p : Z) (b : procBlock) : procBlock :=
  set_globalPos_ p b.

(** The physical (interior) cells, in indices without ghosts. *)
Definition interior (b : procBlock) (i j k : Z) : Prop :=
  (0 <= k < NumK b) /\ (0 <= j < NumJ b) /\ (0 <= i < NumI b).
End Block.
Arguments procBlock D PV : clear implicits.

(** ** Residual records and their reduction ([src/parallel.cpp], [MaxLinf]) *)

Module Resid.
Section Defs.
Context {D : Type} `{DoubleOps D}.

(** The class [resid]: an L-infinity magnitude followed by five integers
    (block, i, j, k, equation), the layout [SetDataTypesMPI] registers as
    [MPI_DOUBLE_5INT]. *)
Record resid : Type := mkResid {
  linf : D;
  blk : Z;
  i_ : Z;
  j_ : Z;
  k_ : Z;
  eqn : Z }.

(** One entry of the loop of [MaxLinf]: [resLinf] is [*in] when
    [in->linf >= inout->linf] and [*inout] otherwise. *)
Definition maxLinf1 (in_ inout : resid) : resid :=
  if dgeb (linf in_) (linf inout) then in_ else inout.

(** [MaxLinf(in, inout, len, type)]: the arrays are lists; entry [ii] of
    [inout] is overwritten for ii = 0 .. len-1.  (Reading past the end of an
    array is undefined in C++; the model leaves [inout] unchanged there.) *)
Definition MaxLinf (in_ inout : list resid) (len : Z) : list resid :=
  for_loop len (fun ii inout' =>
    match in_ !! Z.to_nat ii, inout' !! Z.to_nat ii with
    | Some a, Some b => <[Z.to_nat ii := maxLinf1 a b]> inout'
    | _, _ => inout'
    end) inout.

(** A global reduction with the user operation [MaxLinf] combines the
    workers' records, kept in rank order, along some binary tree (MPI fixes
    the order of the operands, not the bracketing). *)
Inductive reduction : list resid -> resid -> Prop :=
| reduction_leaf (w : resid) : reduction [w] w
| reduction_node (ws1 ws2 : list resid) (a b : resid) :
    reduction ws1 a -> reduction ws2 b ->
    reduction (ws1 ++ ws2) (maxLinf1 a b).

(** The reduction MPI performs for a commutative-free operation on ranks
    0, 1, ..., n-1 when it folds from the highest rank down. *)
Fixpoint reduce_ranks (w : resid) (ws : list resid) : resid :=
  match ws with
  | [] => w
  | w' :: ws' => maxLinf1 w (reduce_ranks w' ws')
  end.
End Defs.
Arguments resid D : clear implicits.
End Resid.

(** ** Hyperplane ordering ([src/src/utility.cpp], [HyperplaneReorder]) *)

Module Hyperplane.

(** The four nested loops of the source; [reorder.push_back] appends. *)
Definition HyperplaneReorder (imax jmax kmax : Z) : list (vector3d Z) :=
  let numPlanes := imax + jmax + kmax - 2 in
  for_loop numPlanes (fun pp =>
    for_loop kmax (fun kk =>
      for_loop jmax (fun jj =>
        for_loop imax (fun ii reorder =>
          if ii + jj + kk =? pp
          then reorder ++ [Vec3 ii jj kk]
          else reorder)))) [].

(** The hyperplane of a cell. *)
Definition plane (c : vector3d Z) : Z := v0 c + v1 c + v2 c.

(** A cell of the [imax] x [jmax] x [kmax] grid. *)
Definition in_grid (imax jmax kmax : Z) (c : vector3d Z) : Prop :=
  0 <= v0 c < imax /\ 0 <= v1 c < jmax /\ 0 <= v2 c < kmax.

(** The three lower neighbours of a cell. *)
Definition lower_neighbors (c : vector3d Z) : list (vector3d Z) :=
  [Vec3 (v0 c - 1) (v1 c) (v2 c);
   Vec3 (v0 c) (v1 c - 1) (v2 c);
   Vec3 (v0 c) (v1 c) (v2 c - 1)].

(** [x] is visited strictly before [y] in the ordering [l]. *)
Definition visited_before (l : list (vector3d Z)) (x y : vector3d Z) : Prop :=
  exists m n : nat, (m < n)%nat /\ l !! m = Some x /\ l !! n = Some y.

(** The cells of one hyperplane, in the order the three inner loops meet
    them. *)
Definition plane_cells (imax jmax kmax pp : Z) : list (vector3d Z) :=
  kk ← seqZ 0 kmax; jj ← seqZ 0 jmax; ii ← seqZ 0 imax;
  if ii + jj + kk =? pp then [Vec3 ii jj kk] else [].

End Hyperplane.

(** ** Collaborators of the block *)

(** Modelled from the spec: the class [input] is not among the sources.  The
    resolved input record (section 6) with the options the embedded functions
    read: the fixed time step [Dt()], [CFL()], the reference length [LRef()],
    the time integration scheme, the order of accuracy, the MUSCL parameter,
    the limiter and the equation set. *)
Record input (D : Type) : Type := mkInput {
  inp_Dt : D;
  inp_CFL : D;
  inp_LRef : D;
  inp_TimeIntegration : string;
  inp_OrderOfAccuracy : string;
  inp_Kappa : D;
  inp_Limiter : string;
  inp_IsTurbulent : bool }.
Arguments mkInput {D} _ _ _ _ _ _ _ _.
Arguments inp_Dt {D} _.
Arguments inp_CFL {D} _.
Arguments inp_LRef {D} _.
Arguments inp_TimeIntegration {D} _.
Arguments inp_OrderOfAccuracy {D} _.
Arguments inp_Kappa {D} _.
Arguments inp_Limiter {D} _.
Arguments inp_IsTurbulent {D} _.

(** The classes and functions that [procBlock.cpp] calls and that are not
    among the sources: the primitive state [primVars], the equation of state
    [idealGas], [sutherland], the turbulence model, the gradient store, the
    flux classes [inviscidFlux] and [viscousFlux] with the Roe flux, and the
    length, dot product and normalisation of [vector3d<double>].  They are
    parameters; nothing is assumed about them. *)
Class Physics (D PV : Type) : Type := {
  idealGas : Type;
  sutherland : Type;
  turbModel : Type;
  gradients : Type;
  tensor : Type;
  inviscidFlux : Type;
  viscousFlux : Type;
  (* primVars *)
  ConsVars : PV -> idealGas -> genArray D;
  primVars_of_cons : genArray D -> bool -> idealGas -> PV;
  UpdateWithConsVars : PV -> idealGas -> genArray D -> PV;
  FaceReconConst : PV -> PV;
  FaceReconMUSCL : PV -> PV -> PV -> D -> string -> D -> D -> D -> PV;
  Velocity : PV -> vector3d D;
  SoS : PV -> idealGas -> D;
  Rho : PV -> D;
  Temperature : PV -> idealGas -> D;
  pv_add : PV -> PV -> PV;
  pv_scale : PV -> D -> PV;
  (* vector3d<double> *)
  Distance : vector3d D -> vector3d D -> D;
  DotProd : vector3d D -> vector3d D -> D;
  Normalize : vector3d D -> vector3d D;
  (* idealGas, sutherland, turbModel *)
  Gamma : idealGas -> D;
  Prandtl : idealGas -> D;
  Viscosity : sutherland -> D -> D;
  EffectiveViscosity : sutherland -> D -> D;
  NondimScaling : sutherland -> D;
  EddyVisc : turbModel -> PV -> tensor -> sutherland -> D;
  (* gradients *)
  VelGradI : gradients -> Z -> Z -> Z -> tensor;
  VelGradJ : gradients -> Z -> Z -> Z -> tensor;
  VelGradK : gradients -> Z -> Z -> Z -> tensor;
  TempGradI : gradients -> Z -> Z -> Z -> vector3d D;
  TempGradJ : gradients -> Z -> Z -> Z -> vector3d D;
  TempGradK : gradients -> Z -> Z -> Z -> vector3d D;
  TkeGradI : gradients -> Z -> Z -> Z -> vector3d D;
  TkeGradJ : gradients -> Z -> Z -> Z -> vector3d D;
  TkeGradK : gradients -> Z -> Z -> Z -> vector3d D;
  OmegaGradI : gradients -> Z -> Z -> Z -> vector3d D;
  OmegaGradJ : gradients -> Z -> Z -> Z -> vector3d D;
  OmegaGradK : gradients -> Z -> Z -> Z -> vector3d D;
  (* inviscidFlux *)
  RoeFlux : PV -> PV -> idealGas -> vector3d D -> inviscidFlux;
  iflux_mul : inviscidFlux -> D -> inviscidFlux;
  iflux_mul_l : D -> inviscidFlux -> inviscidFlux;
  RhoVel : inviscidFlux -> D;
  RhoVelU : inviscidFlux -> D;
  RhoVelV : inviscidFlux -> D;
  RhoVelW : inviscidFlux -> D;
  RhoVelH : inviscidFlux -> D;
  RhoVelK : inviscidFlux -> D;
  RhoVelO : inviscidFlux -> D;
  (* viscousFlux *)
  mkViscousFlux : tensor -> vector3d D -> D -> D -> sutherland -> idealGas ->
                  vector3d D -> vector3d D -> vector3d D -> vector3d D ->
                  turbModel -> PV -> viscousFlux;
  vflux_mul : viscousFlux -> D -> viscousFlux;
  vflux_mul_l : D -> viscousFlux -> viscousFlux;
  MomX : viscousFlux -> D;
  MomY : viscousFlux -> D;
  MomZ : viscousFlux -> D;
  Engy : viscousFlux -> D;
  MomK : viscousFlux -> D;
  MomO : viscousFlux -> D }.

(** ** Flux assembly, time step and update ([src/procBlock.cpp]) *)

Module Solver.
Section Defs.
Context {D PV : Type} `{DoubleOps D} `{!Physics D PV}.
Import Resid.

(** [residual_(ii, jj, kk)[n] += v] *)
Definition residual_add (ii jj kk : Z) (n : nat) (v : D)
           (b : procBlock D PV) : procBlock D PV :=
  set_residual_
    (ma_set (residual_ b) ii jj kk
       (alter (fun r => (r + v)%dbl) n (ma_get (residual_ b) ii jj kk))) b.

(** [AddToResidual(const inviscidFlux &, ii, jj, kk)] *)
Definition AddToResidual_inv (flux : inviscidFlux) (ii jj kk : Z)
           (b : procBlock D PV) : procBlock D PV :=
  let b := residual_add ii jj kk 0 (RhoVel flux) b in
  let b := residual_add ii jj kk 1 (RhoVelU flux) b in
  let b := residual_add ii jj kk 2 (RhoVelV flux) b in
  let b := residual_add ii jj kk 3 (RhoVelW flux) b in
  let b := residual_add ii jj kk 4 (RhoVelH flux) b in
  let b := residual_add ii jj kk 5 (RhoVelK flux) b in
  residual_add ii jj kk 6 (RhoVelO flux) b.

(** [AddToResidual(const viscousFlux &, ii, jj, kk)] *)
Definition AddToResidual_visc (flux : viscousFlux) (ii jj kk : Z)
           (b : procBlock D PV) : procBlock D PV :=
  let b := residual_add ii jj kk 1 (MomX flux) b in
  let b := residual_add ii jj kk 2 (MomY flux) b in
  let b := residual_add ii jj kk 3 (MomZ flux) b in
  let b := residual_add ii jj kk 4 (Engy flux) b in
  let b := residual_add ii jj kk 5 (MomK flux) b in
  residual_add ii jj kk 6 (MomO flux) b.

(** [CellSpectralRadius(fAreaL, fAreaR, state, eqnState)] *)
Definition CellSpectralRadius (fAreaL fAreaR : unitVec3dMag D) (state : PV)
           (eqnState : idealGas) : D :=
  let normAvg :=
    Normalize (vec_scale_l (dlit (1 # 2))
                 (vec_add (unitVec fAreaL) (unitVec fAreaR))) in
  let fMag := (dlit (1 # 2) * (areaMag fAreaL + areaMag fAreaR))%dbl in
  ((dabs (DotProd (Velocity state) normAvg) + SoS state eqnState) * fMag)%dbl.

(** [ViscCellSpectralRadius(fAreaL, fAreaR, state, eqnState, suth, vol,
    eddyVisc)] *)
Definition ViscCellSpectralRadius (fAreaL fAreaR : unitVec3dMag D)
           (state : PV) (eqnState : idealGas) (suth : sutherland)
           (vol eddyVisc : D) : D :=
  let fMag := (dlit (1 # 2) * (areaMag fAreaL + areaMag fAreaR))%dbl in
  let maxTerm := dmax (dlit 4 / (dlit 3 * Rho state))%dbl
                      (Gamma eqnState / Rho state)%dbl in
  let mu := ((Viscosity suth (Temperature state eqnState) + eddyVisc) *
             NondimScaling suth)%dbl in
  let viscTerm := (mu / Prandtl eqnState)%dbl in
  (maxTerm * viscTerm * fMag * fMag / vol)%dbl.

(** The template [FaceReconCentral<T>]; [scale] and [add] are the product
    with a double and the sum of the type [T]. *)
Definition FaceReconCentral {T : Type} (scale : T -> D -> T)
           (add : T -> T -> T) (velU velD : T) (pU pD pF : vector3d D) : T :=
  let cen2cen := Distance pU pD in
  let up2face := Distance pU pF in
  add (scale velD (up2face / cen2cen)%dbl)
      (scale velU (dlit 1 - (up2face / cen2cen))%dbl).

(** [CalcInvFluxI]: the loop over the physical i-faces.  [kp], [jp],
    [ip] are the physical indices ([kk.p], ...) and [kg], [jg], [ig] the
    indices with ghosts ([kk.g], ...); the loop bounds are extents of
    [fAreaI_], which the body does not change. *)
Definition CalcInvFluxI_face (eqnState : idealGas) (inp : input D)
           (kp jp ip : Z) (b : procBlock D PV) : procBlock D PV :=
  let G := numGhosts_ b in
  let kg := kp + G in let jg := jp + G in let ig := ip + G in
  let '(faceStateLower, faceStateUpper) :=
    if String.eqb (inp_OrderOfAccuracy inp) "first" then
      (FaceReconConst (ma_get (state_ b) (ig - 1) jg kg),
       FaceReconConst (ma_get (state_ b) ig jg kg))
    else
      let upwind2L := Distance (ma_get (fCenterI_ b) (ig - 1) jg kg)
                               (ma_get (fCenterI_ b) (ig - 2) jg kg) in
      let upwindL := Distance (ma_get (fCenterI_ b) ig jg kg)
                              (ma_get (fCenterI_ b) (ig - 1) jg kg) in
      let downwindL := Distance (ma_get (fCenterI_ b) ig jg kg)
                                (ma_get (fCenterI_ b) (ig + 1) jg kg) in
      let lower :=
        FaceReconMUSCL (ma_get (state_ b) (ig - 1) jg kg)
          (ma_get (state_ b) (ig - 2) jg kg) (ma_get (state_ b) ig jg kg)
          (inp_Kappa inp) (inp_Limiter inp) upwindL upwind2L downwindL in
      let upwind2U := Distance (ma_get (fCenterI_ b) (ig + 1) jg kg)
                               (ma_get (fCenterI_ b) (ig + 2) jg kg) in
      let upwindU := Distance (ma_get (fCenterI_ b) ig jg kg)
                              (ma_get (fCenterI_ b) (ig + 1) jg kg) in
      let downwindU := Distance (ma_get (fCenterI_ b) ig jg kg)
                                (ma_get (fCenterI_ b) (ig - 1) jg kg) in
      let upper :=
        FaceReconMUSCL (ma_get (state_ b) ig jg kg)
          (ma_get (state_ b) (ig + 1) jg kg) (ma_get (state_ b) (ig - 1) jg kg)
          (inp_Kappa inp) (inp_Limiter inp) upwindU upwind2U downwindU in
      (lower, upper) in
  let tempFlux := RoeFlux faceStateLower faceStateUpper eqnState
                    (unitVec (ma_get (fAreaI_ b) ig jg kg)) in
  let b1 :=
    if G <? ig then
      AddToResidual_inv
        (iflux_mul tempFlux (areaMag (ma_get (fAreaI_ b) ig jg kg)))
        (ip - 1) jp kp b
    else b in
  if ig <? maNumI (fAreaI_ b1) - G - 1 then
    let b2 :=
      AddToResidual_inv
        (iflux_mul (iflux_mul_l (dlit (-1)) tempFlux)
                   (areaMag (ma_get (fAreaI_ b1) ig jg kg)))
        ip jp kp b1 in
    set_avgWaveSpeed_
      (ma_set (avgWaveSpeed_ b2) ip jp kp
         (ma_get (avgWaveSpeed_ b2) ip jp kp +
          CellSpectralRadius (ma_get (fAreaI_ b2) ig jg kg)
                             (ma_get (fAreaI_ b2) (ig + 1) jg kg)
                             (ma_get (state_ b2) ig jg kg) eqnState)%dbl)
      b2
  else b1.

Definition CalcInvFluxI (eqnState : idealGas) (inp : input D)
           (b : procBlock D PV) : procBlock D PV :=
  let G := numGhosts_ b in
  for_loop (maNumK (fAreaI_ b) - G - G) (fun kp =>
    for_loop (maNumJ (fAreaI_ b) - G - G) (fun jp =>
      for_loop (maNumI (fAreaI_ b) - G - G) (fun ip =>
        CalcInvFluxI_face eqnState inp kp jp ip))) b.

(** [CalcInvFluxJ]: the loop over the physical j-faces.  [kp], [jp],
    [ip] are the physical indices ([kk.p], ...) and [kg], [jg], [ig] the
    indices with ghosts ([kk.g], ...); the loop bounds are extents of
    [fAreaJ_], which the body does not change. *)
Definition CalcInvFluxJ_face (eqnState : idealGas) (inp : input D)
           (kp jp ip : Z) (b : procBlock D PV) : procBlock D PV :=
  let G := numGhosts_ b in
  let kg := kp + G in let jg := jp + G in let ig := ip + G in
  let '(faceStateLower, faceStateUpper) :=
    if String.eqb (inp_OrderOfAccuracy inp) "first" then
      (FaceReconConst (ma_get (state_ b) ig (jg - 1) kg),
       FaceReconConst (ma_get (state_ b) ig jg kg))
    else
      let upwind2L := Distance (ma_get (fCenterJ_ b) ig (jg - 1) kg)
                               (ma_get (fCenterJ_ b) ig (jg - 2) kg) in
      let upwindL := Distance (ma_get (fCenterJ_ b) ig jg kg)
                              (ma_get (fCenterJ_ b) ig (jg - 1) kg) in
      let downwindL := Distance (ma_get (fCenterJ_ b) ig jg kg)
                                (ma_get (fCenterJ_ b) ig (jg + 1) kg) in
      let lower :=
        FaceReconMUSCL (ma_get (state_ b) ig (jg - 1) kg)
          (ma_get (state_ b) ig (jg - 2) kg) (ma_get (state_ b) ig jg kg)
          (inp_Kappa inp) (inp_Limiter inp) upwindL upwind2L downwindL in
      let upwind2U := Distance (ma_get (fCenterJ_ b) ig (jg + 1) kg)
                               (ma_get (fCenterJ_ b) ig (jg + 2) kg) in
      let upwindU := Distance (ma_get (fCenterJ_ b) ig jg kg)
                              (ma_get (fCenterJ_ b) ig (jg + 1) kg) in
      let downwindU := Distance (ma_get (fCenterJ_ b) ig jg kg)
                                (ma_get (fCenterJ_ b) ig (jg - 1) kg) in
      let upper :=
        FaceReconMUSCL (ma_get (state_ b) ig jg kg)
          (ma_get (state_ b) ig (jg + 1) kg) (ma_get (state_ b) ig (jg - 1) kg)
          (inp_Kappa inp) (inp_Limiter inp) upwindU upwind2U downwindU in
      (lower, upper) in
  let tempFlux := RoeFlux faceStateLower faceStateUpper eqnState
                    (unitVec (ma_get (fAreaJ_ b) ig jg kg)) in
  let b1 :=
    if G <? jg then
      AddToResidual_inv
        (iflux_mul tempFlux (areaMag (ma_get (fAreaJ_ b) ig jg kg)))
        ip (jp - 1) kp b
    else b in
  if jg <? maNumJ (fAreaJ_ b1) - G - 1 then
    let b2 :=
      AddToResidual_inv
        (iflux_mul (iflux_mul_l (dlit (-1)) tempFlux)
                   (areaMag (ma_get (fAreaJ_ b1) ig jg kg)))
        ip jp kp b1 in
    set_avgWaveSpeed_
      (ma_set (avgWaveSpeed_ b2) ip jp kp
         (ma_get (avgWaveSpeed_ b2) ip jp kp +
          CellSpectralRadius (ma_get (fAreaJ_ b2) ig jg kg)
                             (ma_get (fAreaJ_ b2) ig (jg + 1) kg)
                             (ma_get (state_ b2) ig jg kg) eqnState)%dbl)
      b2
  else b1.

Definition CalcInvFluxJ (eqnState : idealGas) (inp : input D)
           (b : procBlock D PV) : procBlock D PV :=
  let G := numGhosts_ b in
  for_loop (maNumK (fAreaJ_ b) - G - G) (fun kp =>
    for_loop (maNumJ (fAreaJ_ b) - G - G) (fun jp =>
      for_loop (maNumI (fAreaJ_ b) - G - G) (fun ip =>
        CalcInvFluxJ_face eqnState inp kp jp ip))) b.

(** [CalcInvFluxK]: the loop over the physical k-faces.  [kp], [jp],
    [ip] are the physical indices ([kk.p], ...) and [kg], [jg], [ig] the
    indices with ghosts ([kk.g], ...); the loop bounds are extents of
    [fAreaK_], which the body does not change. *)
Definition CalcInvFluxK_face (eqnState : idealGas) (inp : input D)
           (kp jp ip : Z) (b : procBlock D PV) : procBlock D PV :=
  let G := numGhosts_ b in
  let kg := kp + G in let jg := jp + G in let ig := ip + G in
  let '(faceStateLower, faceStateUpper) :=
    if String.eqb (inp_OrderOfAccuracy inp) "first" then
      (FaceReconConst (ma_get (state_ b) ig jg (kg - 1)),
       FaceReconConst (ma_get (state_ b) ig jg kg))
    else
      let upwind2L := Distance (ma_get (fCenterK_ b) ig jg (kg - 1))
                               (ma_get (fCenterK_ b) ig jg (kg - 2)) in
      let upwindL := Distance (ma_get (fCenterK_ b) ig jg kg)
                              (ma_get (fCenterK_ b) ig jg (kg - 1)) in
      let downwindL := Distance (ma_get (fCenterK_ b) ig jg kg)
                                (ma_get (fCenterK_ b) ig jg (kg + 1)) in
      let lower :=
        FaceReconMUSCL (ma_get (state_ b) ig jg (kg - 1))
          (ma_get (state_ b) ig jg (kg - 2)) (ma_get (state_ b) ig jg kg)
          (inp_Kappa inp) (inp_Limiter inp) upwindL upwind2L downwindL in
      let upwind2U := Distance (ma_get (fCenterK_ b) ig jg (kg + 1))
                               (ma_get (fCenterK_ b) ig jg (kg + 2)) in
      let upwindU := Distance (ma_get (fCenterK_ b) ig jg kg)
                              (ma_get (fCenterK_ b) ig jg (kg + 1)) in
      let downwindU := Distance (ma_get (fCenterK_ b) ig jg kg)
                                (ma_get (fCenterK_ b) ig jg (kg - 1)) in
      let upper :=
        FaceReconMUSCL (ma_get (state_ b) ig jg kg)
          (ma_get (state_ b) ig jg (kg + 1)) (ma_get (state_ b) ig jg (kg - 1))
          (inp_Kappa inp) (inp_Limiter inp) upwindU upwind2U downwindU in
      (lower, upper) in
  let tempFlux := RoeFlux faceStateLower faceStateUpper eqnState
                    (unitVec (ma_get (fAreaK_ b) ig jg kg)) in
  let b1 :=
    if G <? kg then
      AddToResidual_inv
        (iflux_mul tempFlux (areaMag (ma_get (fAreaK_ b) ig jg kg)))
        ip jp (kp - 1) b
    else b in
  if kg <? maNumK (fAreaK_ b1) - G - 1 then
    let b2 :=
      AddToResidual_inv
        (iflux_mul (iflux_mul_l (dlit (-1)) tempFlux)
                   (areaMag (ma_get (fAreaK_ b1) ig jg kg)))
        ip jp kp b1 in
    set_avgWaveSpeed_
      (ma_set (avgWaveSpeed_ b2) ip jp kp
         (ma_get (avgWaveSpeed_ b2) ip jp kp +
          CellSpectralRadius (ma_get (fAreaK_ b2) ig jg kg)
                             (ma_get (fAreaK_ b2) ig jg (kg + 1))
                             (ma_get (state_ b2) ig jg kg) eqnState)%dbl)
      b2
  else b1.

Definition CalcInvFluxK (eqnState : idealGas) (inp : input D)
           (b : procBlock D PV) : procBlock D PV :=
  let G := numGhosts_ b in
  for_loop (maNumK (fAreaK_ b) - G - G) (fun kp =>
    for_loop (maNumJ (fAreaK_ b) - G - G) (fun jp =>
      for_loop (maNumI (fAreaK_ b) - G - G) (fun ip =>
        CalcInvFluxK_face eqnState inp kp jp ip))) b.

(** [CalcViscFluxI]: the loop over the physical i-faces. *)
Definition CalcViscFluxI_face (suth : sutherland) (eqnState : idealGas)
           (inp : input D) (grads : gradients) (turb : turbModel)
           (kp jp ip : Z) (b : procBlock D PV) : procBlock D PV :=
  let vCoeff := dlit 1 in
  let G := numGhosts_ b in
  let kg := kp + G in let jg := jp + G in let ig := ip + G in
  let vel :=
    FaceReconCentral vec_scale vec_add
      (Velocity (ma_get (state_ b) (ig - 1) jg kg))
      (Velocity (ma_get (state_ b) ig jg kg))
      (ma_get (center_ b) (ig - 1) jg kg) (ma_get (center_ b) ig jg kg)
      (ma_get (fCenterI_ b) ig jg kg) in
  let state :=
    FaceReconCentral pv_scale pv_add
      (ma_get (state_ b) (ig - 1) jg kg) (ma_get (state_ b) ig jg kg)
      (ma_get (center_ b) (ig - 1) jg kg) (ma_get (center_ b) ig jg kg)
      (ma_get (fCenterI_ b) ig jg kg) in
  let mu :=
    FaceReconCentral dmul dadd
      (EffectiveViscosity suth
         (Temperature (ma_get (state_ b) (ig - 1) jg kg) eqnState))
      (EffectiveViscosity suth
         (Temperature (ma_get (state_ b) ig jg kg) eqnState))
      (ma_get (center_ b) (ig - 1) jg kg) (ma_get (center_ b) ig jg kg)
      (ma_get (fCenterI_ b) ig jg kg) in
  let eddyVisc0 :=
    FaceReconCentral dmul dadd
      (EddyVisc turb (ma_get (state_ b) (ig - 1) jg kg)
                (VelGradI grads ip jp kp) suth)
      (EddyVisc turb (ma_get (state_ b) ig jg kg)
                (VelGradI grads ip jp kp) suth)
      (ma_get (center_ b) (ig - 1) jg kg) (ma_get (center_ b) ig jg kg)
      (ma_get (fCenterI_ b) ig jg kg) in
  let eddyVisc := (eddyVisc0 * NondimScaling suth)%dbl in
  let zeroVec := Vec3 (dlit 0) (dlit 0) (dlit 0) in
  let '(tkeGrad, omegaGrad) :=
    if inp_IsTurbulent inp
    then (TkeGradI grads ip jp kp, OmegaGradI grads ip jp kp)
    else (zeroVec, zeroVec) in
  let tempViscFlux :=
    mkViscousFlux (VelGradI grads ip jp kp) vel mu eddyVisc suth eqnState
      (TempGradI grads ip jp kp) (unitVec (ma_get (fAreaI_ b) ig jg kg))
      tkeGrad omegaGrad turb state in
  let b1 :=
    if G <? ig then
      AddToResidual_visc
        (vflux_mul (vflux_mul_l (dlit (-1)) tempViscFlux)
                   (areaMag (ma_get (fAreaI_ b) ig jg kg)))
        (ip - 1) jp kp b
    else b in
  if ig <? maNumI (fAreaI_ b1) - G - 1 then
    let b2 :=
      AddToResidual_visc
        (vflux_mul tempViscFlux (areaMag (ma_get (fAreaI_ b1) ig jg kg)))
        ip jp kp b1 in
    set_avgWaveSpeed_
      (ma_set (avgWaveSpeed_ b2) ip jp kp
         (ma_get (avgWaveSpeed_ b2) ip jp kp +
          vCoeff *
          ViscCellSpectralRadius
            (ma_get (fAreaI_ b2) ig jg kg) (ma_get (fAreaI_ b2) (ig + 1) jg kg)
            (ma_get (state_ b2) ig jg kg) eqnState suth
            (ma_get (vol_ b2) ig jg kg)
            (EddyVisc turb (ma_get (state_ b2) ig jg kg)
                      (VelGradI grads ip jp kp) suth))%dbl)
      b2
  else b1.

Definition CalcViscFluxI (suth : sutherland) (eqnState : idealGas)
           (inp : input D) (grads : gradients) (turb : turbModel)
           (b : procBlock D PV) : procBlock D PV :=
  let G := numGhosts_ b in
  for_loop (maNumK (fAreaI_ b) - G - G) (fun kp =>
    for_loop (maNumJ (fAreaI_ b) - G - G) (fun jp =>
      for_loop (maNumI (fAreaI_ b) - G - G) (fun ip =>
        CalcViscFluxI_face suth eqnState inp grads turb kp jp ip))) b.

(** [CalcViscFluxJ]: the loop over the physical j-faces. *)
Definition CalcViscFluxJ_face (suth : sutherland) (eqnState : idealGas)
           (inp : input D) (grads : gradients) (turb : turbModel)
           (kp jp ip : Z) (b : procBlock D PV) : procBlock D PV :=
  let vCoeff := dlit 1 in
  let G := numGhosts_ b in
  let kg := kp + G in let jg := jp + G in let ig := ip + G in
  let vel :=
    FaceReconCentral vec_scale vec_add
      (Velocity (ma_get (state_ b) ig (jg - 1) kg))
      (Velocity (ma_get (state_ b) ig jg kg))
      (ma_get (center_ b) ig (jg - 1) kg) (ma_get (center_ b) ig jg kg)
      (ma_get (fCenterJ_ b) ig jg kg) in
  let state :=
    FaceReconCentral pv_scale pv_add
      (ma_get (state_ b) ig (jg - 1) kg) (ma_get (state_ b) ig jg kg)
      (ma_get (center_ b) ig (jg - 1) kg) (ma_get (center_ b) ig jg kg)
      (ma_get (fCenterJ_ b) ig jg kg) in
  let mu :=
    FaceReconCentral dmul dadd
      (EffectiveViscosity suth
         (Temperature (ma_get (state_ b) ig (jg - 1) kg) eqnState))
      (EffectiveViscosity suth
         (Temperature (ma_get (state_ b) ig jg kg) eqnState))
      (ma_get (center_ b) ig (jg - 1) kg) (ma_get (center_ b) ig jg kg)
      (ma_get (fCenterJ_ b) ig jg kg) in
  let eddyVisc0 :=
    FaceReconCentral dmul dadd
      (EddyVisc turb (ma_get (state_ b) ig (jg - 1) kg)
                (VelGradJ grads ip jp kp) suth)
      (EddyVisc turb (ma_get (state_ b) ig jg kg)
                (VelGradJ grads ip jp kp) suth)
      (ma_get (center_ b) ig (jg - 1) kg) (ma_get (center_ b) ig jg kg)
      (ma_get (fCenterJ_ b) ig jg kg) in
  let eddyVisc := (eddyVisc0 * NondimScaling suth)%dbl in
  let zeroVec := Vec3 (dlit 0) (dlit 0) (dlit 0) in
  let '(tkeGrad, omegaGrad) :=
    if inp_IsTurbulent inp
    then (TkeGradJ grads ip jp kp, OmegaGradJ grads ip jp kp)
    else (zeroVec, zeroVec) in
  let tempViscFlux :=
    mkViscousFlux (VelGradJ grads ip jp kp) vel mu eddyVisc suth eqnState
      (TempGradJ grads ip jp kp) (unitVec (ma_get (fAreaJ_ b) ig jg kg))
      tkeGrad omegaGrad turb state in
  let b1 :=
    if G <? jg then
      AddToResidual_visc
        (vflux_mul (vflux_mul_l (dlit (-1)) tempViscFlux)
                   (areaMag (ma_get (fAreaJ_ b) ig jg kg)))
        ip (jp - 1) kp b
    else b in
  if jg <? maNumJ (fAreaJ_ b1) - G - 1 then
    let b2 :=
      AddToResidual_visc
        (vflux_mul tempViscFlux (areaMag (ma_get (fAreaJ_ b1) ig jg kg)))
        ip jp kp b1 in
    set_avgWaveSpeed_
      (ma_set (avgWaveSpeed_ b2) ip jp kp
         (ma_get (avgWaveSpeed_ b2) ip jp kp +
          vCoeff *
          ViscCellSpectralRadius
            (ma_get (fAreaJ_ b2) ig jg kg) (ma_get (fAreaJ_ b2) ig (jg + 1) kg)
            (ma_get (state_ b2) ig jg kg) eqnState suth
            (ma_get (vol_ b2) ig jg kg)
            (EddyVisc turb (ma_get (state_ b2) ig jg kg)
                      (VelGradJ grads ip jp kp) suth))%dbl)
      b2
  else b1.

Definition CalcViscFluxJ (suth : sutherland) (eqnState : idealGas)
           (inp : input D) (grads : gradients) (turb : turbModel)
           (b : procBlock D PV) : procBlock D PV :=
  let G := numGhosts_ b in
  for_loop (maNumK (fAreaJ_ b) - G - G) (fun kp =>
    for_loop (maNumJ (fAreaJ_ b) - G - G) (fun jp =>
      for_loop (maNumI (fAreaJ_ b) - G - G) (fun ip =>
        CalcViscFluxJ_face suth eqnState inp grads turb kp jp ip))) b.

(** [CalcViscFluxK]: the loop over the physical k-faces. *)
Definition CalcViscFluxK_face (suth : sutherland) (eqnState : idealGas)
           (inp : input D) (grads : gradients) (turb : turbModel)
           (kp jp ip : Z) (b : procBlock D PV) : procBlock D PV :=
  let vCoeff := dlit 1 in
  let G := numGhosts_ b in
  let kg := kp + G in let jg := jp + G in let ig := ip + G in
  let vel :=
    FaceReconCentral vec_scale vec_add
      (Velocity (ma_get (state_ b) ig jg (kg - 1)))
      (Velocity (ma_get (state_ b) ig jg kg))
      (ma_get (center_ b) ig jg (kg - 1)) (ma_get (center_ b) ig jg kg)
      (ma_get (fCenterK_ b) ig jg kg) in
  let state :=
    FaceReconCentral pv_scale pv_add
      (ma_get (state_ b) ig jg (kg - 1)) (ma_get (state_ b) ig jg kg)
      (ma_get (center_ b) ig jg (kg - 1)) (ma_get (center_ b) ig jg kg)
      (ma_get (fCenterK_ b) ig jg kg) in
  let mu :=
    FaceReconCentral dmul dadd
      (EffectiveViscosity suth
         (Temperature (ma_get (state_ b) ig jg (kg - 1)) eqnState))
      (EffectiveViscosity suth
         (Temperature (ma_get (state_ b) ig jg kg) eqnState))
      (ma_get (center_ b) ig jg (kg - 1)) (ma_get (center_ b) ig jg kg)
      (ma_get (fCenterK_ b) ig jg kg) in
  let eddyVisc0 :=
    FaceReconCentral dmul dadd
      (EddyVisc turb (ma_get (state_ b) ig jg (kg - 1))
                (VelGradK grads ip jp kp) suth)
      (EddyVisc turb (ma_get (state_ b) ig jg kg)
                (VelGradK grads ip jp kp) suth)
      (ma_get (center_ b) ig jg (kg - 1)) (ma_get (center_ b) ig jg kg)
      (ma_get (fCenterK_ b) ig jg kg) in
  let eddyVisc := (eddyVisc0 * NondimScaling suth)%dbl in
  let zeroVec := Vec3 (dlit 0) (dlit 0) (dlit 0) in
  let '(tkeGrad, omegaGrad) :=
    if inp_IsTurbulent inp
    then (TkeGradK grads ip jp kp, OmegaGradK grads ip jp kp)
    else (zeroVec, zeroVec) in
  let tempViscFlux :=
    mkViscousFlux (VelGradK grads ip jp kp) vel mu eddyVisc suth eqnState
      (TempGradK grads ip jp kp) (unitVec (ma_get (fAreaK_ b) ig jg kg))
      tkeGrad omegaGrad turb state in
  let b1 :=
    if G <? kg then
      AddToResidual_visc
        (vflux_mul (vflux_mul_l (dlit (-1)) tempViscFlux)
                   (areaMag (ma_get (fAreaK_ b) ig jg kg)))
        ip jp (kp - 1) b
    else b in
  if kg <? maNumK (fAreaK_ b1) - G - 1 then
    let b2 :=
      AddToResidual_visc
        (vflux_mul tempViscFlux (areaMag (ma_get (fAreaK_ b1) ig jg kg)))
        ip jp kp b1 in
    set_avgWaveSpeed_
      (ma_set (avgWaveSpeed_ b2) ip jp kp
         (ma_get (avgWaveSpeed_ b2) ip jp kp +
          vCoeff *
          ViscCellSpectralRadius
            (ma_get (fAreaK_ b2) ig jg kg) (ma_get (fAreaK_ b2) ig jg (kg + 1))
            (ma_get (state_ b2) ig jg kg) eqnState suth
            (ma_get (vol_ b2) ig jg kg)
            (EddyVisc turb (ma_get (state_ b2) ig jg kg)
                      (VelGradK grads ip jp kp) suth))%dbl)
      b2
  else b1.

Definition CalcViscFluxK (suth : sutherland) (eqnState : idealGas)
           (inp : input D) (grads : gradients) (turb : turbModel)
           (b : procBlock D PV) : procBlock D PV :=
  let G := numGhosts_ b in
  for_loop (maNumK (fAreaK_ b) - G - G) (fun kp =>
    for_loop (maNumJ (fAreaK_ b) - G - G) (fun jp =>
      for_loop (maNumI (fAreaK_ b) - G - G) (fun ip =>
        CalcViscFluxK_face suth eqnState inp grads turb kp jp ip))) b.


(** [ResetResidWS] *)
Definition ResetResidWS (b : procBlock D PV) : procBlock D PV :=
  for_loop (NumK b) (fun kk =>
    for_loop (NumJ b) (fun jj =>
      for_loop (NumI b) (fun ii b =>
        let b := set_residual_
                   (ma_set (residual_ b) ii jj kk (genArray_const (dlit 0))) b in
        set_avgWaveSpeed_ (ma_set (avgWaveSpeed_ b) ii jj kk (dlit 0)) b))) b.

(** [CalcCellDt(ii, jj, kk, cfl)] *)
Definition CalcCellDt (ii jj kk : Z) (cfl : D) (b : procBlock D PV)
  : procBlock D PV :=
  set_dt_
    (ma_set (dt_ b) ii jj kk
       (cfl * (ma_get (vol_ b) (ii + numGhosts_ b) (jj + numGhosts_ b)
                      (kk + numGhosts_ b) /
               ma_get (avgWaveSpeed_ b) ii jj kk))%dbl) b.

(** The body of the loops of [CalcBlockTimeStep] for one cell. *)
Definition CalcBlockTimeStep_cell (inputVars : input D) (aRef : D)
           (kk jj ii : Z) (b : procBlock D PV) : res (procBlock D PV) :=
  if dgtb (inp_Dt inputVars) (dlit 0) then
    Ok (set_dt_ (ma_set (dt_ b) ii jj kk
                   (inp_Dt inputVars * aRef / inp_LRef inputVars)%dbl) b)
  else if dgtb (inp_CFL inputVars) (dlit 0) then
    Ok (CalcCellDt ii jj kk (inp_CFL inputVars) b)
  else Abort.

(** [CalcBlockTimeStep(inputVars, aRef)] *)
Definition CalcBlockTimeStep (inputVars : input D) (aRef : D)
           (b : procBlock D PV) : res (procBlock D PV) :=
  for_loop_res (NumK b) (fun kk =>
    for_loop_res (NumJ b) (fun jj =>
      for_loop_res (NumI b) (fun ii =>
        CalcBlockTimeStep_cell inputVars aRef kk jj ii))) b.

(** [ExplicitEulerTimeAdvance(eqnState, ig, jg, kg, ip, jp, kp)] *)
Definition ExplicitEulerTimeAdvance (eqnState : idealGas)
           (ig jg kg ip jp kp : Z) (b : procBlock D PV) : procBlock D PV :=
  let consVars := ConsVars (ma_get (state_ b) ig jg kg) eqnState in
  let consVars :=
    ga_sub consVars
      (ga_scale (ma_get (dt_ b) ip jp kp / ma_get (vol_ b) ig jg kg)%dbl
                (ma_get (residual_ b) ip jp kp)) in
  set_state_
    (ma_set (state_ b) ig jg kg (primVars_of_cons consVars false eqnState)) b.

(** [ImplicitTimeAdvance(du, eqnState, ii, jj, kk)] *)
Definition ImplicitTimeAdvance (du : genArray D) (eqnState : idealGas)
           (ii jj kk : Z) (b : procBlock D PV) : procBlock D PV :=
  set_state_
    (ma_set (state_ b) ii jj kk
       (UpdateWithConsVars (ma_get (state_ b) ii jj kk) eqnState du)) b.

(** The coefficients [alpha] of [RK4TimeAdvance]. *)
Definition alpha : list D :=
  [dlit (1 # 4); (dlit 1 / dlit 3)%dbl; dlit (1 # 2); dlit 1].

(** [RK4TimeAdvance(currState, eqnState, ig, jg, kg, ip, jp, kp, rk)]; the
    stage number [rk] indexes [alpha] (the caller passes 0 .. 3; an index
    outside the array has no defined meaning and leaves the block as it
    is). *)
Definition RK4TimeAdvance (currState : PV) (eqnState : idealGas)
           (ig jg kg ip jp kp rk : Z) (b : procBlock D PV) : procBlock D PV :=
  match nthZ alpha rk with
  | Some alpha_rk =>
      let consVars :=
        ga_sub (ConsVars currState eqnState)
          (ga_scale (ma_get (dt_ b) ip jp kp / ma_get (vol_ b) ig jg kg *
                     alpha_rk)%dbl
                    (ma_get (residual_ b) ip jp kp)) in
      set_state_
        (ma_set (state_ b) ig jg kg
           (primVars_of_cons consVars false eqnState)) b
  | None => b
  end.

(** Modelled from the spec: the class [resid] is not among the sources;
    [UpdateMax] records the new maximum and its locator (section 4.3.7). *)
Definition UpdateMax (a : D) (b i j k e : Z) : resid D := mkResid a b i j k e.

(** The accumulation of the norms for one cell, shared by both branches of
    [UpdateBlock]: [l2 = l2 + residual * residual], then the loop over the
    equations [ll] that compares [Residual(ip, jp, kp, ll)] with
    [linf.Linf()]. *)
Definition accumulate_norms (ip jp kp : Z) (b : procBlock D PV)
           (l2 : genArray D) (linf0 : resid D) : genArray D * resid D :=
  let r := ma_get (residual_ b) ip jp kp in
  let l2 := ga_add l2 (ga_mul r r) in
  let linf' :=
    for_loop NUMVARS (fun ll lf =>
      match r !! Z.to_nat ll with
      | Some r_ll =>
          if dgtb r_ll (linf lf)
          then UpdateMax r_ll (parBlock_ b) ip jp kp (ll + 1)
          else lf
      | None => lf
      end) linf0 in
  (l2, linf').

(** The state threaded through [UpdateBlock]: the block and the two
    reference parameters [l2] and [linf]. *)
Definition upd_state : Type := procBlock D PV * genArray D * resid D.

(** [UpdateBlock(inputVars, impFlag, eos, aRef, du, l2, linf)] *)
Definition UpdateBlock (inputVars : input D) (impFlag : bool)
           (eos : idealGas) (aRef : D) (du : multiArray3d (genArray D))
           (st : upd_state) : res upd_state :=
  let '(b0, l2_0, linf_0) := st in
  let G := numGhosts_ b0 in
  if negb (String.eqb (inp_TimeIntegration inputVars) "rk4") then
    Ok (for_loop (NumK b0) (fun kp =>
          for_loop (NumJ b0) (fun jp =>
            for_loop (NumI b0) (fun ip '(b, l2, lf) =>
              let kg := kp + G in let jg := jp + G in let ig := ip + G in
              let b :=
                if String.eqb (inp_TimeIntegration inputVars) "explicitEuler"
                then ExplicitEulerTimeAdvance eos ig jg kg ip jp kp b
                else if impFlag
                     then ImplicitTimeAdvance (ma_get du ip jp kp) eos
                                              ig jg kg b
                     else b in
              let '(l2, lf) := accumulate_norms ip jp kp b l2 lf in
              (b, l2, lf)))) st)
  else if String.eqb (inp_TimeIntegration inputVars) "rk4" then
    let stateN := state_ b0 in
    let dtN := dt_ b0 in
    for_loop_res 4 (fun rr '(b, l2, lf) =>
      let '(b, l2, lf) :=
        for_loop (NumK b) (fun kp =>
          for_loop (NumJ b) (fun jp =>
            for_loop (NumI b) (fun ip '(b, l2, lf) =>
              let kg := kp + G in let jg := jp + G in let ig := ip + G in
              let b := RK4TimeAdvance (ma_get stateN ig jg kg) eos
                                      ig jg kg ip jp kp rr b in
              if rr =? 3 then
                let '(l2, lf) := accumulate_norms ip jp kp b l2 lf in
                (b, l2, lf)
              else (b, l2, lf)))) (b, l2, lf) in
      if rr <? 3 then
        let b := CalcInvFluxI eos inputVars b in
        let b := CalcInvFluxJ eos inputVars b in
        let b := CalcInvFluxK eos inputVars b in
        b <-- CalcBlockTimeStep inputVars aRef b ;;
        Ok (b, l2, lf)
      else Ok (b, l2, lf)) st
  else Ok st.

(** Modelled from the spec: the driver is not among the sources.  One
    residual assembly (section 2, data flow (b) then (d)): the residual and
    the wave speed are reset, the inviscid fluxes are assembled in the
    directions I, J, K and, for a viscous run, the viscous fluxes after
    them; the time step is computed next. *)
Definition assemble_inviscid (eos : idealGas) (inp : input D)
           (b : procBlock D PV) : procBlock D PV :=
  CalcInvFluxK eos inp (CalcInvFluxJ eos inp (CalcInvFluxI eos inp
    (ResetResidWS b))).

Definition assemble_viscous (suth : sutherland) (eos : idealGas)
           (inp : input D) (grads : gradients) (turb : turbModel)
           (b : procBlock D PV) : procBlock D PV :=
  CalcViscFluxK suth eos inp grads turb
    (CalcViscFluxJ suth eos inp grads turb
       (CalcViscFluxI suth eos inp grads turb (assemble_inviscid eos inp b))).

(** The inviscid and viscous spectral radii of the cell (i, j, k) (indices
    without ghosts) in the three directions, as the flux loops compute
    them. *)
Definition lambda_cI (eos : idealGas) (b : procBlock D PV) (i j k : Z) : D :=
  let G := numGhosts_ b in
  CellSpectralRadius (ma_get (fAreaI_ b) (i + G) (j + G) (k + G))
    (ma_get (fAreaI_ b) (i + G + 1) (j + G) (k + G))
    (ma_get (state_ b) (i + G) (j + G) (k + G)) eos.
Definition lambda_cJ (eos : idealGas) (b : procBlock D PV) (i j k : Z) : D :=
  let G := numGhosts_ b in
  CellSpectralRadius (ma_get (fAreaJ_ b) (i + G) (j + G) (k + G))
    (ma_get (fAreaJ_ b) (i + G) (j + G + 1) (k + G))
    (ma_get (state_ b) (i + G) (j + G) (k + G)) eos.
Definition lambda_cK (eos : idealGas) (b : procBlock D PV) (i j k : Z) : D :=
  let G := numGhosts_ b in
  CellSpectralRadius (ma_get (fAreaK_ b) (i + G) (j + G) (k + G))
    (ma_get (fAreaK_ b) (i + G) (j + G) (k + G + 1))
    (ma_get (state_ b) (i + G) (j + G) (k + G)) eos.

Definition lambda_vI (suth : sutherland) (eos : idealGas) (grads : gradients)
           (turb : turbModel) (b : procBlock D PV) (i j k : Z) : D :=
  let G := numGhosts_ b in
  ViscCellSpectralRadius (ma_get (fAreaI_ b) (i + G) (j + G) (k + G))
    (ma_get (fAreaI_ b) (i + G + 1) (j + G) (k + G))
    (ma_get (state_ b) (i + G) (j + G) (k + G)) eos suth
    (ma_get (vol_ b) (i + G) (j + G) (k + G))
    (EddyVisc turb (ma_get (state_ b) (i + G) (j + G) (k + G))
              (VelGradI grads i j k) suth).
Definition lambda_vJ (suth : sutherland) (eos : idealGas) (grads : gradients)
           (turb : turbModel) (b : procBlock D PV) (i j k : Z) : D :=
  let G := numGhosts_ b in
  ViscCellSpectralRadius (ma_get (fAreaJ_ b) (i + G) (j + G) (k + G))
    (ma_get (fAreaJ_ b) (i + G) (j + G + 1) (k + G))
    (ma_get (state_ b) (i + G) (j + G) (k + G)) eos suth
    (ma_get (vol_ b) (i + G) (j + G) (k + G))
    (EddyVisc turb (ma_get (state_ b) (i + G) (j + G) (k + G))
              (VelGradJ grads i j k) suth).
Definition lambda_vK (suth : sutherland) (eos : idealGas) (grads : gradients)
           (turb : turbModel) (b : procBlock D PV) (i j k : Z) : D :=
  let G := numGhosts_ b in
  ViscCellSpectralRadius (ma_get (fAreaK_ b) (i + G) (j + G) (k + G))
    (ma_get (fAreaK_ b) (i + G) (j + G) (k + G + 1))
    (ma_get (state_ b) (i + G) (j + G) (k + G)) eos suth
    (ma_get (vol_ b) (i + G) (j + G) (k + G))
    (EddyVisc turb (ma_get (state_ b) (i + G) (j + G) (k + G))
              (VelGradK grads i j k) suth).

(** The time step of the specification (section 4.3.4):
    [dt = CFL * V / (lcI + lcJ + lcK + C * (lvI + lvJ + lvK))], and without
    the viscous sum for an inviscid run. *)
Definition dt_spec_viscous (cfl vol lcI lcJ lcK C lvI lvJ lvK : D) : D :=
  (cfl * vol / (lcI + lcJ + lcK + C * (lvI + lvJ + lvK)))%dbl.
Definition dt_spec_inviscid (cfl vol lcI lcJ lcK : D) : D :=
  (cfl * vol / (lcI + lcJ + lcK))%dbl.

(** The extents that the constructor [procBlock(ni, nj, nk, numG)] gives
    the face-area arrays. *)
Definition dims_ok (b : procBlock D PV) : Prop :=
  let G := numGhosts_ b in
  maNumI (fAreaI_ b) = NumI b + 2 * G + 1 /\
  maNumJ (fAreaI_ b) = NumJ b + 2 * G /\
  maNumK (fAreaI_ b) = NumK b + 2 * G /\
  maNumI (fAreaJ_ b) = NumI b + 2 * G /\
  maNumJ (fAreaJ_ b) = NumJ b + 2 * G + 1 /\
  maNumK (fAreaJ_ b) = NumK b + 2 * G /\
  maNumI (fAreaK_ b) = NumI b + 2 * G /\
  maNumJ (fAreaK_ b) = NumJ b + 2 * G /\
  maNumK (fAreaK_ b) = NumK b + 2 * G + 1.

(** *** Auxiliary notions used to state the results *)

(** What the flux loops leave alone: everything but [residual_] and
    [avgWaveSpeed_]. *)
Definition flux_frame (b b0 : procBlock D PV) : procBlock D PV :=
  set_residual_ (residual_ b) (set_avgWaveSpeed_ (avgWaveSpeed_ b) b0).

Definition res_dims (b0 : procBlock D PV) : Z * Z * Z :=
  (NumI b0, NumJ b0, NumK b0).

(** [b'] differs from [b] in [residual_] and [avgWaveSpeed_] at most. *)
Definition same_frame (b b' : procBlock D PV) : Prop :=
  flux_frame b b' = flux_frame b b.

(** The conserved variables that [ExplicitEulerTimeAdvance] computes for the
    cell (ip, jp, kp): [ConsVars(U^n) - dt / V * R]. *)
Definition euler_cons (eos : idealGas) (b : procBlock D PV) (ip jp kp : Z)
  : genArray D :=
  let G := numGhosts_ b in
  ga_sub (ConsVars (ma_get (state_ b) (ip + G) (jp + G) (kp + G)) eos)
    (ga_scale (ma_get (dt_ b) ip jp kp /
               ma_get (vol_ b) (ip + G) (jp + G) (kp + G))%dbl
              (ma_get (residual_ b) ip jp kp)).


(** A function that changes [residual_] only, and not its extents. *)
Definition residual_only (R : procBlock D PV -> procBlock D PV) : Prop :=
  forall b0, exists r,
    R b0 = set_residual_ r b0 /\
    (maNumI r, maNumJ r, maNumK r) =
    (maNumI (residual_ b0), maNumJ (residual_ b0), maNumK (residual_ b0)).

(** The form common to the bodies of the six flux loops: the residual of the
    lower cell is updated when [c1] holds; when [c2] holds the residual of
    the upper cell (ip, jp, kp) is updated and [lam] is added to its wave
    speed. *)
Definition face_shape (R1 R2 : procBlock D PV -> procBlock D PV)
           (c1 c2 : bool) (ip jp kp : Z) (lam : D) (b : procBlock D PV)
  : procBlock D PV :=
  let b1 := if c1 then R1 b else b in
  if c2 then
    let b2 := R2 b1 in
    set_avgWaveSpeed_
      (ma_set (avgWaveSpeed_ b2) ip jp kp
         (ma_get (avgWaveSpeed_ b2) ip jp kp + lam)%dbl) b2
  else b1.

End Defs.
End Solver.

(** ** Manual decomposition ([src/parallel.cpp], [ManualDecomposition]) *)

Module Decomp.
Section Defs.
Context {D PV : Type}.

(** First loop: [grid[ii].SetRank(ii)] for ii = 0 .. numProc-1. *)
Definition assign_ranks (numProc : Z) (grid : list (procBlock D PV))
  : list (procBlock D PV) :=
  for_loop numProc (fun ii g => alter (SetRank ii) (Z.to_nat ii) g) grid.

(** Second loop: [grid[ii].SetGlobalPos(ii)] for ii = 0 .. grid.size()-1,
    together with the running maximum of the cell counts. *)
Definition assign_globalPos (grid : list (procBlock D PV))
  : list (procBlock D PV) * Z :=
  for_loop (Z.of_nat (length grid)) (fun ii '(g, maxLoad) =>
    let g' := alter (SetGlobalPos ii) (Z.to_nat ii) g in
    (g', match g' !! Z.to_nat ii with
         | Some blk => Z.max maxLoad (NumCells blk)
         | None => maxLoad
         end)) (grid, 0).

(** Third loop: both ranks of each connection are read from the blocks the
    connection names.  (A block number outside the grid has no defined
    meaning in C++; the model then leaves that rank as it is.) *)
Definition adjust_connection (grid : list (procBlock D PV)) (c : interblock)
  : interblock :=
  let c1 := match nthZ grid (BlockFirst c) with
            | Some blk => SetRankFirst (Rank blk) c
            | None => c
            end in
  match nthZ grid (BlockSecond c1) with
  | Some blk => SetRankSecond (Rank blk) c1
  | None => c1
  end.

Definition adjust_connections (grid : list (procBlock D PV))
           (connections : list interblock) : list interblock :=
  for_loop (Z.of_nat (length connections)) (fun ii cs =>
    alter (adjust_connection grid) (Z.to_nat ii) cs) connections.

(** [ManualDecomposition(grid, numProc, connections, totalCells)]: returns
    [loadBal]; [grid] and [connections] are passed by reference and are
    returned too.  The messages written to [cout] and [cerr] (among them the
    load ratio computed from [totalCells] and [maxLoad]) are not modelled. *)
Definition ManualDecomposition (grid : list (procBlock D PV)) (numProc : Z)
           (connections : list interblock) (totalCells : Z)
  : res (list Z * list (procBlock D PV) * list interblock) :=
  if negb (Z.of_nat (length grid) =? numProc) then Abort
  else
    let loadBal := replicate (Z.to_nat numProc) 1 in
    let grid1 := assign_ranks numProc grid in
    let '(grid2, maxLoad) := assign_globalPos grid1 in
    let connections' := adjust_connections grid2 connections in
    Ok (loadBal, grid2, connections').
End Defs.
End Decomp.

(** ** The solution gather ([src/parallel.cpp], [GetProcBlocks];
       [src/procBlock.cpp], [PackSendSolMPI], [RecvUnpackSolMPI]) *)

Module Gather.
Section Defs.
Context {D PV : Type}.

(** One [MPI_Pack] call puts the elements of one array into the buffer: the
    states and the residuals as [MPI_cellData] records, the scalar arrays as
    [MPI_DOUBLE]s.  A buffer is the sequence of the packed arrays, in the
    order of the calls. *)
Inductive packed : Type :=
| PackedStates (a : multiArray3d PV)
| PackedResiduals (a : multiArray3d (genArray D))
| PackedDoubles (a : multiArray3d D).

(** A message in flight: sender, receiver, tag and the packed buffer. *)
Record message : Type := mkMessage {
  msg_source : Z;
  msg_dest : Z;
  msg_tag : Z;
  msg_buffer : list packed }.

(** The message layer: the messages sent and not yet received, oldest
    first. *)
Definition network : Type := list message.

(** What a call that receives can do: return, wait for ever for a message
    that is not there, or fail in the message layer because the buffer does
    not hold what is unpacked. *)
Inductive outcome (A : Type) : Type :=
| Done (a : A)
| Blocked
| Failed.
Arguments Done {A} _.
Arguments Blocked {A}.
Arguments Failed {A}.

(** [MPI_Send(buffer, size, MPI_PACKED, dest, tag, MPI_COMM_WORLD)] *)
Definition MPI_Send (source dest tag : Z) (buffer : list packed)
           (net : network) : network :=
  net ++ [mkMessage source dest tag buffer].

(** [MPI_Probe] and [MPI_Recv] with a source and a tag: the oldest message
    for [me] with this source and this tag is taken out of the network. *)
Fixpoint MPI_Recv (source tag me : Z) (net : network)
  : option (message * network) :=
  match net with
  | [] => None
  | m :: net' =>
      if (msg_source m =? source) && (msg_tag m =? tag) && (msg_dest m =? me)
      then Some (m, net')
      else match MPI_Recv source tag me net' with
           | Some (m', rest) => Some (m', m :: rest)
           | None => None
           end
  end.

Definition same_extents {A B : Type} (a : multiArray3d A) (b : multiArray3d B)
  : bool :=
  (maNumI a =? maNumI b) && (maNumJ a =? maNumJ b) && (maNumK a =? maNumK b).

(** [MPI_Unpack] of the next array of the buffer into the storage of [dst];
    the extents of [dst] stay, its elements become those of the packed
    array.  (The model does not describe the re-interpretation of a packed
    array whose extents differ from those of [dst]: it is a failure.) *)
Definition unpack_states (dst : multiArray3d PV) (buf : list packed)
  : option (multiArray3d PV * list packed) :=
  match buf with
  | PackedStates a :: rest =>
      if same_extents a dst then Some (a, rest) else None
  | _ => None
  end.

Definition unpack_residuals (dst : multiArray3d (genArray D))
           (buf : list packed)
  : option (multiArray3d (genArray D) * list packed) :=
  match buf with
  | PackedResiduals a :: rest =>
      if same_extents a dst then Some (a, rest) else None
  | _ => None
  end.

Definition unpack_doubles (dst : multiArray3d D) (buf : list packed)
  : option (multiArray3d D * list packed) :=
  match buf with
  | PackedDoubles a :: rest =>
      if same_extents a dst then Some (a, rest) else None
  | _ => None
  end.

(** The rank of the coordinator: the macros [ROOT] of [parallel.cpp] and
    [ROOTP] of [procBlock.cpp], not among the sources. *)
Context (ROOT : Z).

(** *** [procBlock.cpp] *)

(** [procBlock::PackSendSolMPI]: five [MPI_Pack] calls, then [MPI_Send] to
    the coordinator with the tag [globalPos_].  The sender is the process
    the block lives on, of rank [rank_]. *)
Definition PackSendSolMPI (b : procBlock D PV) (net : network) : network :=
  let sendBuffer := [] in
  let sendBuffer := sendBuffer ++ [PackedStates (state_ b)] in
  let sendBuffer := sendBuffer ++ [PackedResiduals (residual_ b)] in
  let sendBuffer := sendBuffer ++ [PackedDoubles (dt_ b)] in
  let sendBuffer := sendBuffer ++ [PackedDoubles (wallDist_ b)] in
  let sendBuffer := sendBuffer ++ [PackedDoubles (avgWaveSpeed_ b)] in
  MPI_Send (rank_ b) ROOT (globalPos_ b) sendBuffer net.

(** [procBlock::RecvUnpackSolMPI]: probe and receive from [rank_] with the
    tag [globalPos_], then five [MPI_Unpack] calls. *)
Definition RecvUnpackSolMPI (b : procBlock D PV) (net : network)
  : outcome (procBlock D PV * network) :=
  match MPI_Recv (rank_ b) (globalPos_ b) ROOT net with
  | None => Blocked
  | Some (m, net') =>
      match unpack_states (state_ b) (msg_buffer m) with
      | None => Failed
      | Some (st, buf) =>
      match unpack_residuals (residual_ b) buf with
      | None => Failed
      | Some (rs, buf) =>
      match unpack_doubles (dt_ b) buf with
      | None => Failed
      | Some (dt, buf) =>
      match unpack_doubles (wallDist_ b) buf with
      | None => Failed
      | Some (wd, buf) =>
      match unpack_doubles (avgWaveSpeed_ b) buf with
      | None => Failed
      | Some (ws, buf) =>
          Done (set_avgWaveSpeed_ ws (set_wallDist_ wd (set_dt_ dt
                  (set_residual_ rs (set_state_ st b)))), net')
      end end end end end
  end.

(** *** [parallel.cpp] *)

(** [GetProcBlocks], branch of a process that is not the coordinator: for
    every local block four [MPI_Pack] calls, then [MPI_Send] to the
    coordinator with the tag [GlobalPos()]. *)
Definition GetProcBlocks_send (localBlocks : list (procBlock D PV))
           (rank : Z) (net : network) : network :=
  for_loop (Z.of_nat (length localBlocks)) (fun ii net =>
    match nthZ localBlocks ii with
    | Some blk =>
        let sendBuffer := [] in
        let sendBuffer := sendBuffer ++ [PackedStates (state_ blk)] in
        let sendBuffer := sendBuffer ++ [PackedResiduals (residual_ blk)] in
        let sendBuffer := sendBuffer ++ [PackedDoubles (dt_ blk)] in
        let sendBuffer := sendBuffer ++ [PackedDoubles (avgWaveSpeed_ blk)] in
        MPI_Send rank ROOT (GlobalPos blk) sendBuffer net
    | None => net
    end) net.

(** The arrays the coordinator allocates before unpacking, with the extents
    of its own copy of the block ([numCells] elements with ghosts,
    [numCellsNG] without); only their extents matter. *)
Definition GetProcBlocks_recv_block (blk : procBlock D PV) (net : network)
  : outcome (procBlock D PV * network) :=
  match MPI_Recv (Rank blk) (GlobalPos blk) ROOT net with
  | None => Blocked
  | Some (m, net') =>
      match unpack_states (state_ blk) (msg_buffer m) with
      | None => Failed
      | Some (primVecR, buf) =>
      match unpack_residuals (residual_ blk) buf with
      | None => Failed
      | Some (residR, buf) =>
      match unpack_doubles (dt_ blk) buf with
      | None => Failed
      | Some (dtR, buf) =>
      match unpack_doubles (avgWaveSpeed_ blk) buf with
      | None => Failed
      | Some (waveR, buf) =>
          Done (set_avgWaveSpeed_ waveR (set_dt_ dtR
                  (set_residual_ residR (set_state_ primVecR blk))), net')
      end end end end
  end.

(** [GetProcBlocks], branch of the coordinator: the loop over all blocks;
    [locNum] counts the blocks that already live on the coordinator. *)
Definition GetProcBlocks_root (blocks localBlocks : list (procBlock D PV))
           (net : network)
  : outcome (list (procBlock D PV) * network) :=
  let step (ii : Z)
           (acc : outcome (list (procBlock D PV) * Z * network)) :=
    match acc with
    | Done (blocks, locNum, net) =>
        match nthZ blocks ii with
        | Some blk =>
            if Rank blk =? ROOT then
              match nthZ localBlocks locNum with
              | Some lb =>
                  Done (<[Z.to_nat ii := lb]> blocks, locNum + 1, net)
              | None => Failed
              end
            else
              match GetProcBlocks_recv_block blk net with
              | Done (blk', net') =>
                  Done (<[Z.to_nat ii := blk']> blocks, locNum, net')
              | Blocked => Blocked
              | Failed => Failed
              end
        | None => Failed
        end
    | Blocked => Blocked
    | Failed => Failed
    end in
  match for_loop (Z.of_nat (length blocks)) step (Done (blocks, 0, net)) with
  | Done (blocks', _, net') => Done (blocks', net')
  | Blocked => Blocked
  | Failed => Failed
  end.

(** [GetProcBlocks(blocks, localBlocks, rank, MPI_cellData)] *)
Definition GetProcBlocks (blocks localBlocks : list (procBlock D PV))
           (rank : Z) (net : network)
  : outcome (list (procBlock D PV) * network) :=
  if rank =? ROOT then GetProcBlocks_root blocks localBlocks net
  else Done (blocks, GetProcBlocks_send localBlocks rank net).

(** *** Notions used to state the results *)

(** [r] is the coordinator's copy of the block [w] of a worker: same rank,
    same global position, arrays of the same extents. *)
Definition copy_of (r w : procBlock D PV) : Prop :=
  rank_ r = rank_ w /\ globalPos_ r = globalPos_ w /\
  same_extents (state_ w) (state_ r) = true /\
  same_extents (residual_ w) (residual_ r) = true /\
  same_extents (dt_ w) (dt_ r) = true /\
  same_extents (wallDist_ w) (wallDist_ r) = true /\
  same_extents (avgWaveSpeed_ w) (avgWaveSpeed_ r) = true.

(** No message of the network can be taken for one sent from [source] with
    the tag [tag]. *)
Definition no_message (source tag : Z) (net : network) : Prop :=
  MPI_Recv source tag ROOT net = None.

(** The claim as the specification words it: the buffer of a block holds
    exactly the arrays state, residual, dt and avgWaveSpeed, in this
    order. *)
Definition buffer_of_claim (b : procBlock D PV) : list packed :=
  [PackedStates (state_ b); PackedResiduals (residual_ b);
   PackedDoubles (dt_ b); PackedDoubles (avgWaveSpeed_ b)].

End Defs.
Arguments packed D PV : clear implicits.
Arguments message D PV : clear implicits.
Arguments network D PV : clear implicits.
Arguments Done {A} _.
Arguments Blocked {A}.
Arguments Failed {A}.
End Gather.

(** ** Geometry of the ghost cells ([src/procBlock.cpp],
       [AssignGhostCellsGeom]) *)

Module Ghost.
Section Defs.
Context {D PV : Type} `{DoubleOps D}.

(** Sum and difference of two arrays of vectors, and the product of an array
    of vectors with a double ([dist2Move * 2.0]). *)
Definition ma_add (a b : multiArray3d (vector3d D)) : multiArray3d (vector3d D) :=
  ma_zip vec_add a b.
Definition ma_sub (a b : multiArray3d (vector3d D)) : multiArray3d (vector3d D) :=
  ma_zip vec_sub a b.
Definition ma_scale (a : multiArray3d (vector3d D)) (c : D)
  : multiArray3d (vector3d D) :=
  ma_map (fun v => vec_scale v c) a.

(** The indices along the direction normal to the surface: the two ghost
    cells [g1], [g2], the two interior cells [i1], [i2], and the faces of the
    ghost cells [fg1], [fg2], of the boundary [bnd] and of the interior
    [fi1], [fi2]. *)
Record ghostIndices : Type := mkGhostIndices {
  g1 : Z; g2 : Z; i1 : Z; i2 : Z;
  fg1 : Z; fg2 : Z; bnd : Z; fi1 : Z; fi2 : Z }.

(** Upper surfaces count from the last cell of the patch; a lower surface
    uses the fixed indices of a block with two ghost layers. *)
Definition surface_indices (surfType imax jmax kmax : Z) : ghostIndices :=
  if surfType =? 2 then
    mkGhostIndices (imax + 1) (imax + 2) imax (imax - 1)
                   (imax + 2) (imax + 3) (imax + 1) imax (imax - 1)
  else if surfType =? 4 then
    mkGhostIndices (jmax + 1) (jmax + 2) jmax (jmax - 1)
                   (jmax + 2) (jmax + 3) (jmax + 1) jmax (jmax - 1)
  else if surfType =? 6 then
    mkGhostIndices (kmax + 1) (kmax + 2) kmax (kmax - 1)
                   (kmax + 2) (kmax + 3) (kmax + 1) kmax (kmax - 1)
  else
    mkGhostIndices 1 0 2 3 1 0 2 3 4.

(** The three branches of the loop body.  Each member array that a branch
    writes is threaded through the branch as a local of the same name, and
    the block is put together at the end; the branch reads [NumI()] (or
    [NumJ()], [NumK()]) only, which no [Insert] changes. *)

(** Branch of the i-surfaces. *)
Definition AssignGhostCellsGeom_I (x : ghostIndices)
           (jmin jmax kmin kmax jmaxF kmaxF : Z) (b : procBlock D PV)
  : res (procBlock D PV) :=
  let thin := NumI b <? 2 in
  (* volumes of the first and second layer *)
  vol <-- Insert (vol_ b) (g1 x) (g1 x) jmin jmax kmin kmax
            (Slice (vol_ b) (i1 x) (i1 x) jmin jmax kmin kmax) ;;
  vol <-- (if thin
           then Insert vol (g2 x) (g2 x) jmin jmax kmin kmax
                  (Slice vol (i1 x) (i1 x) jmin jmax kmin kmax)
           else Insert vol (g2 x) (g2 x) jmin jmax kmin kmax
                  (Slice vol (i2 x) (i2 x) jmin jmax kmin kmax)) ;;
  (* face areas of the first layer *)
  fAreaI <-- Insert (fAreaI_ b) (fg1 x) (fg1 x) jmin jmax kmin kmax
               (Slice (fAreaI_ b) (fi1 x) (fi1 x) jmin jmax kmin kmax) ;;
  fAreaJ <-- Insert (fAreaJ_ b) (g1 x) (g1 x) jmin jmaxF kmin kmax
               (Slice (fAreaJ_ b) (i1 x) (i1 x) jmin jmaxF kmin kmax) ;;
  fAreaK <-- Insert (fAreaK_ b) (g1 x) (g1 x) jmin jmax kmin kmaxF
               (Slice (fAreaK_ b) (i1 x) (i1 x) jmin jmax kmin kmaxF) ;;
  (* face areas of the second layer *)
  fAreaI <-- (if thin
              then Insert fAreaI (fg2 x) (fg2 x) jmin jmax kmin kmax
                     (Slice fAreaI (fi1 x) (fi1 x) jmin jmax kmin kmax)
              else Insert fAreaI (fg2 x) (fg2 x) jmin jmax kmin kmax
                     (Slice fAreaI (fi2 x) (fi2 x) jmin jmax kmin kmax)) ;;
  fAreaJ <-- (if thin
              then Insert fAreaJ (g2 x) (g2 x) jmin jmaxF kmin kmax
                     (Slice fAreaJ (i1 x) (i1 x) jmin jmaxF kmin kmax)
              else Insert fAreaJ (g2 x) (g2 x) jmin jmaxF kmin kmax
                     (Slice fAreaJ (i2 x) (i2 x) jmin jmaxF kmin kmax)) ;;
  fAreaK <-- (if thin
              then Insert fAreaK (g2 x) (g2 x) jmin jmax kmin kmaxF
                     (Slice fAreaK (i1 x) (i1 x) jmin jmax kmin kmaxF)
              else Insert fAreaK (g2 x) (g2 x) jmin jmax kmin kmaxF
                     (Slice fAreaK (i2 x) (i2 x) jmin jmax kmin kmaxF)) ;;
  (* the centroid is moved by the width of the interior cell *)
  let dist2Move :=
    ma_sub (Slice (fCenterI_ b) (bnd x) (bnd x) jmin jmax kmin kmax)
           (Slice (fCenterI_ b) (fi1 x) (fi1 x) jmin jmax kmin kmax) in
  let dist2MoveJ := GrowJ dist2Move in
  let dist2MoveK := GrowK dist2Move in
  (* first layer *)
  center <-- Insert (center_ b) (g1 x) (g1 x) jmin jmax kmin kmax
               (ma_add (Slice (center_ b) (i1 x) (i1 x) jmin jmax kmin kmax)
                       dist2Move) ;;
  fCenterI <-- Insert (fCenterI_ b) (fg1 x) (fg1 x) jmin jmax kmin kmax
                 (ma_add (Slice (fCenterI_ b) (bnd x) (bnd x)
                                jmin jmax kmin kmax)
                         dist2Move) ;;
  fCenterJ <-- Insert (fCenterJ_ b) (g1 x) (g1 x) jmin jmaxF kmin kmax
                 (ma_add (Slice (fCenterJ_ b) (i1 x) (i1 x)
                                jmin jmaxF kmin kmax)
                         dist2MoveJ) ;;
  fCenterK <-- Insert (fCenterK_ b) (g1 x) (g1 x) jmin jmax kmin kmaxF
                 (ma_add (Slice (fCenterK_ b) (i1 x) (i1 x)
                                jmin jmax kmin kmaxF)
                         dist2MoveK) ;;
  (* second layer *)
  let dist2Move' :=
    if thin then ma_scale dist2Move (dlit 2)
    else ma_sub (Slice fCenterI (bnd x) (bnd x) jmin jmax kmin kmax)
                (Slice fCenterI (fi2 x) (fi2 x) jmin jmax kmin kmax) in
  let dist2MoveJ' :=
    if thin then ma_scale dist2MoveJ (dlit 2) else GrowJ dist2Move' in
  let dist2MoveK' :=
    if thin then ma_scale dist2MoveK (dlit 2) else GrowK dist2Move' in
  center <-- Insert center (g2 x) (g2 x) jmin jmax kmin kmax
               (ma_add (Slice center (i1 x) (i1 x) jmin jmax kmin kmax)
                       dist2Move') ;;
  fCenterI <-- Insert fCenterI (fg2 x) (fg2 x) jmin jmax kmin kmax
                 (ma_add (Slice fCenterI (bnd x) (bnd x) jmin jmax kmin kmax)
                         dist2Move') ;;
  fCenterJ <-- Insert fCenterJ (g2 x) (g2 x) jmin jmaxF kmin kmax
                 (ma_add (Slice fCenterJ (i1 x) (i1 x) jmin jmaxF kmin kmax)
                         dist2MoveJ') ;;
  fCenterK <-- Insert fCenterK (g2 x) (g2 x) jmin jmax kmin kmaxF
                 (ma_add (Slice fCenterK (i1 x) (i1 x) jmin jmax kmin kmaxF)
                         dist2MoveK') ;;
  Ok (mkProcBlock (state_ b) center fAreaI fAreaJ fAreaK
        fCenterI fCenterJ fCenterK (residual_ b) vol (avgWaveSpeed_ b)
        (dt_ b) (wallDist_ b) (bc_ b) (numGhosts_ b) (parBlock_ b)
        (rank_ b) (globalPos_ b) (localPos_ b)).

(** Branch of the j-surfaces. *)
Definition AssignGhostCellsGeom_J (x : ghostIndices)
           (imin imax kmin kmax imaxF kmaxF : Z) (b : procBlock D PV)
  : res (procBlock D PV) :=
  let thin := NumJ b <? 2 in
  (* volumes of the first and second layer *)
  vol <-- Insert (vol_ b) imin imax (g1 x) (g1 x) kmin kmax
            (Slice (vol_ b) imin imax (i1 x) (i1 x) kmin kmax) ;;
  vol <-- (if thin
           then Insert vol imin imax (g2 x) (g2 x) kmin kmax
                  (Slice vol imin imax (i1 x) (i1 x) kmin kmax)
           else Insert vol imin imax (g2 x) (g2 x) kmin kmax
                  (Slice vol imin imax (i2 x) (i2 x) kmin kmax)) ;;
  (* face areas of the first layer *)
  fAreaI <-- Insert (fAreaI_ b) imin imaxF (g1 x) (g1 x) kmin kmax
               (Slice (fAreaI_ b) imin imaxF (i1 x) (i1 x) kmin kmax) ;;
  fAreaJ <-- Insert (fAreaJ_ b) imin imax (fg1 x) (fg1 x) kmin kmax
               (Slice (fAreaJ_ b) imin imax (fi1 x) (fi1 x) kmin kmax) ;;
  fAreaK <-- Insert (fAreaK_ b) imin imax (g1 x) (g1 x) kmin kmaxF
               (Slice (fAreaK_ b) imin imax (i1 x) (i1 x) kmin kmaxF) ;;
  (* face areas of the second layer *)
  fAreaI <-- (if thin
              then Insert fAreaI imin imaxF (g2 x) (g2 x) kmin kmax
                     (Slice fAreaI imin imaxF (i1 x) (i1 x) kmin kmax)
              else Insert fAreaI imin imaxF (g2 x) (g2 x) kmin kmax
                     (Slice fAreaI imin imaxF (i2 x) (i2 x) kmin kmax)) ;;
  fAreaJ <-- (if thin
              then Insert fAreaJ imin imax (fg2 x) (fg2 x) kmin kmax
                     (Slice fAreaJ imin imax (fi1 x) (fi1 x) kmin kmax)
              else Insert fAreaJ imin imax (fg2 x) (fg2 x) kmin kmax
                     (Slice fAreaJ imin imax (fi2 x) (fi2 x) kmin kmax)) ;;
  fAreaK <-- (if thin
              then Insert fAreaK imin imax (g2 x) (g2 x) kmin kmaxF
                     (Slice fAreaK imin imax (i1 x) (i1 x) kmin kmaxF)
              else Insert fAreaK imin imax (g2 x) (g2 x) kmin kmaxF
                     (Slice fAreaK imin imax (i2 x) (i2 x) kmin kmaxF)) ;;
  (* the centroid is moved by the width of the interior cell *)
  let dist2Move :=
    ma_sub (Slice (fCenterJ_ b) imin imax (bnd x) (bnd x) kmin kmax)
           (Slice (fCenterJ_ b) imin imax (fi1 x) (fi1 x) kmin kmax) in
  let dist2MoveI := GrowI dist2Move in
  let dist2MoveK := GrowK dist2Move in
  (* first layer *)
  center <-- Insert (center_ b) imin imax (g1 x) (g1 x) kmin kmax
               (ma_add (Slice (center_ b) imin imax (i1 x) (i1 x) kmin kmax)
                       dist2Move) ;;
  fCenterI <-- Insert (fCenterI_ b) imin imaxF (g1 x) (g1 x) kmin kmax
                 (ma_add (Slice (fCenterI_ b) imin imaxF (i1 x) (i1 x)
                                kmin kmax)
                         dist2MoveI) ;;
  fCenterJ <-- Insert (fCenterJ_ b) imin imax (fg1 x) (fg1 x) kmin kmax
                 (ma_add (Slice (fCenterJ_ b) imin imax (bnd x) (bnd x)
                                kmin kmax)
                         dist2Move) ;;
  fCenterK <-- Insert (fCenterK_ b) imin imax (g1 x) (g1 x) kmin kmaxF
                 (ma_add (Slice (fCenterK_ b) imin imax (i1 x) (i1 x)
                                kmin kmaxF)
                         dist2MoveK) ;;
  (* second layer *)
  let dist2Move' :=
    if thin then ma_scale dist2Move (dlit 2)
    else ma_sub (Slice fCenterJ imin imax (bnd x) (bnd x) kmin kmax)
                (Slice fCenterJ imin imax (fi2 x) (fi2 x) kmin kmax) in
  let dist2MoveI' :=
    if thin then ma_scale dist2MoveI (dlit 2) else GrowI dist2Move' in
  let dist2MoveK' :=
    if thin then ma_scale dist2MoveK (dlit 2) else GrowK dist2Move' in
  center <-- Insert center imin imax (g2 x) (g2 x) kmin kmax
               (ma_add (Slice center imin imax (i1 x) (i1 x) kmin kmax)
                       dist2Move') ;;
  fCenterI <-- Insert fCenterI imin imaxF (g2 x) (g2 x) kmin kmax
                 (ma_add (Slice fCenterI imin imaxF (i1 x) (i1 x) kmin kmax)
                         dist2MoveI') ;;
  fCenterJ <-- Insert fCenterJ imin imax (fg2 x) (fg2 x) kmin kmax
                 (ma_add (Slice fCenterJ imin imax (bnd x) (bnd x) kmin kmax)
                         dist2Move') ;;
  fCenterK <-- Insert fCenterK imin imax (g2 x) (g2 x) kmin kmaxF
                 (ma_add (Slice fCenterK imin imax (i1 x) (i1 x) kmin kmaxF)
                         dist2MoveK') ;;
  Ok (mkProcBlock (state_ b) center fAreaI fAreaJ fAreaK
        fCenterI fCenterJ fCenterK (residual_ b) vol (avgWaveSpeed_ b)
        (dt_ b) (wallDist_ b) (bc_ b) (numGhosts_ b) (parBlock_ b)
        (rank_ b) (globalPos_ b) (localPos_ b)).

(** Branch of the k-surfaces. *)
Definition AssignGhostCellsGeom_K (x : ghostIndices)
           (imin imax jmin jmax imaxF jmaxF : Z) (b : procBlock D PV)
  : res (procBlock D PV) :=
  let thin := NumK b <? 2 in
  (* volumes of the first and second layer *)
  vol <-- Insert (vol_ b) imin imax jmin jmax (g1 x) (g1 x)
            (Slice (vol_ b) imin imax jmin jmax (i1 x) (i1 x)) ;;
  vol <-- (if thin
           then Insert vol imin imax jmin jmax (g2 x) (g2 x)
                  (Slice vol imin imax jmin jmax (i1 x) (i1 x))
           else Insert vol imin imax jmin jmax (g2 x) (g2 x)
                  (Slice vol imin imax jmin jmax (i2 x) (i2 x))) ;;
  (* face areas of the first layer *)
  fAreaI <-- Insert (fAreaI_ b) imin imaxF jmin jmax (g1 x) (g1 x)
               (Slice (fAreaI_ b) imin imaxF jmin jmax (i1 x) (i1 x)) ;;
  fAreaJ <-- Insert (fAreaJ_ b) imin imax jmin jmaxF (g1 x) (g1 x)
               (Slice (fAreaJ_ b) imin imax jmin jmaxF (i1 x) (i1 x)) ;;
  fAreaK <-- Insert (fAreaK_ b) imin imax jmin jmax (fg1 x) (fg1 x)
               (Slice (fAreaK_ b) imin imax jmin jmax (fi1 x) (fi1 x)) ;;
  (* face areas of the second layer *)
  fAreaI <-- (if thin
              then Insert fAreaI imin imaxF jmin jmax (g2 x) (g2 x)
                     (Slice fAreaI imin imaxF jmin jmax (i1 x) (i1 x))
              else Insert fAreaI imin imaxF jmin jmax (g2 x) (g2 x)
                     (Slice fAreaI imin imaxF jmin jmax (i2 x) (i2 x))) ;;
  fAreaJ <-- (if thin
              then Insert fAreaJ imin imax jmin jmaxF (g2 x) (g2 x)
                     (Slice fAreaJ imin imax jmin jmaxF (i1 x) (i1 x))
              else Insert fAreaJ imin imax jmin jmaxF (g2 x) (g2 x)
                     (Slice fAreaJ imin imax jmin jmaxF (i2 x) (i2 x))) ;;
  fAreaK <-- (if thin
              then Insert fAreaK imin imax jmin jmax (fg2 x) (fg2 x)
                     (Slice fAreaK imin imax jmin jmax (fi1 x) (fi1 x))
              else Insert fAreaK imin imax jmin jmax (fg2 x) (fg2 x)
                     (Slice fAreaK imin imax jmin jmax (fi2 x) (fi2 x))) ;;
  (* the centroid is moved by the width of the interior cell *)
  let dist2Move :=
    ma_sub (Slice (fCenterK_ b) imin imax jmin jmax (bnd x) (bnd x))
           (Slice (fCenterK_ b) imin imax jmin jmax (fi1 x) (fi1 x)) in
  let dist2MoveI := GrowI dist2Move in
  let dist2MoveJ := GrowJ dist2Move in
  (* first layer *)
  center <-- Insert (center_ b) imin imax jmin jmax (g1 x) (g1 x)
               (ma_add (Slice (center_ b) imin imax jmin jmax (i1 x) (i1 x))
                       dist2Move) ;;
  fCenterI <-- Insert (fCenterI_ b) imin imaxF jmin jmax (g1 x) (g1 x)
                 (ma_add (Slice (fCenterI_ b) imin imaxF jmin jmax
                                (i1 x) (i1 x))
                         dist2MoveI) ;;
  fCenterJ <-- Insert (fCenterJ_ b) imin imax jmin jmaxF (g1 x) (g1 x)
                 (ma_add (Slice (fCenterJ_ b) imin imax jmin jmaxF
                                (i1 x) (i1 x))
                         dist2MoveJ) ;;
  fCenterK <-- Insert (fCenterK_ b) imin imax jmin jmax (fg1 x) (fg1 x)
                 (ma_add (Slice (fCenterK_ b) imin imax jmin jmax
                                (bnd x) (bnd x))
                         dist2Move) ;;
  (* second layer *)
  let dist2Move' :=
    if thin then ma_scale dist2Move (dlit 2)
    else ma_sub (Slice fCenterK imin imax jmin jmax (bnd x) (bnd x))
                (Slice fCenterK imin imax jmin jmax (fi2 x) (fi2 x)) in
  let dist2MoveI' :=
    if thin then ma_scale dist2MoveI (dlit 2) else GrowI dist2Move' in
  let dist2MoveJ' :=
    if thin then ma_scale dist2MoveJ (dlit 2) else GrowJ dist2Move' in
  center <-- Insert center imin imax jmin jmax (g2 x) (g2 x)
               (ma_add (Slice center imin imax jmin jmax (i1 x) (i1 x))
                       dist2Move') ;;
  fCenterI <-- Insert fCenterI imin imaxF jmin jmax (g2 x) (g2 x)
                 (ma_add (Slice fCenterI imin imaxF jmin jmax (i1 x) (i1 x))
                         dist2MoveI') ;;
  fCenterJ <-- Insert fCenterJ imin imax jmin jmaxF (g2 x) (g2 x)
                 (ma_add (Slice fCenterJ imin imax jmin jmaxF (i1 x) (i1 x))
                         dist2MoveJ') ;;
  fCenterK <-- Insert fCenterK imin imax jmin jmax (fg2 x) (fg2 x)
                 (ma_add (Slice fCenterK imin imax jmin jmax (bnd x) (bnd x))
                         dist2Move') ;;
  Ok (mkProcBlock (state_ b) center fAreaI fAreaJ fAreaK
        fCenterI fCenterJ fCenterK (residual_ b) vol (avgWaveSpeed_ b)
        (dt_ b) (wallDist_ b) (bc_ b) (numGhosts_ b) (parBlock_ b)
        (rank_ b) (globalPos_ b) (localPos_ b)).

(** The body of the loop over the boundary surfaces, for the surface [s].
    [GetIMin(ii)] .. [GetKMax(ii)], [GetSurfaceType(ii)] and [GetBCTypes(ii)]
    are the fields of the surface. *)
Definition AssignGhostCellsGeom_surface (s : boundarySurface)
           (b : procBlock D PV) : res (procBlock D PV) :=
  let imin := iMin s - 1 + numGhosts_ b in
  let imax := iMax s - 2 + numGhosts_ b in
  let jmin := jMin s - 1 + numGhosts_ b in
  let jmax := jMax s - 2 + numGhosts_ b in
  let kmin := kMin s - 1 + numGhosts_ b in
  let kmax := kMax s - 2 + numGhosts_ b in
  let imaxF := imax + 1 in
  let jmaxF := jmax + 1 in
  let kmaxF := kmax + 1 in
  let x := surface_indices (surfaceType s) imax jmax kmax in
  if ((surfaceType s =? 1) || (surfaceType s =? 2)) &&
     negb (bcType s =? "interblock")%string
  then AssignGhostCellsGeom_I x jmin jmax kmin kmax jmaxF kmaxF b
  else if ((surfaceType s =? 3) || (surfaceType s =? 4)) &&
          negb (bcType s =? "interblock")%string
  then AssignGhostCellsGeom_J x imin imax kmin kmax imaxF kmaxF b
  else if ((surfaceType s =? 5) || (surfaceType s =? 6)) &&
          negb (bcType s =? "interblock")%string
  then AssignGhostCellsGeom_K x imin imax jmin jmax imaxF jmaxF b
  else Ok b.

(** [procBlock::AssignGhostCellsGeom]: the loop over all boundary
    surfaces. *)
Definition AssignGhostCellsGeom (b : procBlock D PV) : res (procBlock D PV) :=
  for_loop_res (NumSurfaces (bc_ b)) (fun ii b =>
    match nthZ (bc_ b) ii with
    | Some s => AssignGhostCellsGeom_surface s b
    | None => Ok b
    end) b.

(** *** Notions used to state the results *)

(** The cells of a patch: the surface gives node numbers that start at 1,
    the cells between the nodes [lo] and [hi] are [lo - 1 .. hi - 2] without
    ghost layers. *)
Definition on_patch (lo hi G x : Z) : Prop := lo - 1 + G <= x <= hi - 2 + G.

(** A surface of the block as the grid reader produces it: it lies on the
    side of the block that its type names and its patch is within the
    block. *)
Definition patch_within (lo hi n : Z) : Prop := 1 <= lo /\ lo <= hi /\ hi <= n + 1.

Definition surface_ok (b : procBlock D PV) (s : boundarySurface) : Prop :=
  (surfaceType s = 1 /\ iMin s = 1 /\ iMax s = 1 \/
   surfaceType s = 2 /\ iMin s = NumI b + 1 /\ iMax s = NumI b + 1 \/
   surfaceType s = 3 /\ jMin s = 1 /\ jMax s = 1 \/
   surfaceType s = 4 /\ jMin s = NumJ b + 1 /\ jMax s = NumJ b + 1 \/
   surfaceType s = 5 /\ kMin s = 1 /\ kMax s = 1 \/
   surfaceType s = 6 /\ kMin s = NumK b + 1 /\ kMax s = NumK b + 1) /\
  (surfaceType s <> 1 -> surfaceType s <> 2 ->
   patch_within (iMin s) (iMax s) (NumI b)) /\
  (surfaceType s <> 3 -> surfaceType s <> 4 ->
   patch_within (jMin s) (jMax s) (NumJ b)) /\
  (surfaceType s <> 5 -> surfaceType s <> 6 ->
   patch_within (kMin s) (kMax s) (NumK b)).

(** A block with two ghost layers, at least one cell in each direction and
    surfaces as above. *)
Definition block_ok (b : procBlock D PV) : Prop :=
  numGhosts_ b = 2 /\ 0 < NumI b /\ 0 < NumJ b /\ 0 < NumK b /\
  forall s, s ∈ bc_ b -> surface_ok b s.

(** The centre the code gives to the first ghost cell: the centre of the
    interior cell moved by the vector from the centre of the interior face
    [fi1] to the centre of the boundary face [bnd]. *)
Definition moved_center (c fb fi : vector3d D) : vector3d D :=
  vec_add c (vec_sub fb fi).

(** The reflection of the claim: the ghost centre [g], the boundary face
    centre [fb] and the interior centre [c] satisfy g - fb = fb - c. *)
Definition reflected (g fb c : vector3d D) : Prop :=
  vec_sub g fb = vec_sub fb c.

(** The members that [AssignGhostCellsGeom] never writes and that fix the
    extents and the surfaces of the block. *)
Definition ghost_frame (b b' : procBlock D PV) : Prop :=
  bc_ b' = bc_ b /\ numGhosts_ b' = numGhosts_ b /\ residual_ b' = residual_ b.

(** A relation [R g c fb fi] between the centre [g] of the first ghost
    cell, the centre [c] of the interior cell next to the boundary, the
    centre [fb] of the boundary face and the centre [fi] of the opposite face
    of the interior cell, at every cell of the patch of a surface, for the
    three kinds of surfaces. *)
Definition layer_I (R : vector3d D -> vector3d D -> vector3d D ->
                        vector3d D -> Prop)
           (b' : procBlock D PV) (s : boundarySurface) : Prop :=
  let G := numGhosts_ b' in
  let x := surface_indices (surfaceType s) (iMax s - 2 + G) (jMax s - 2 + G)
                           (kMax s - 2 + G) in
  forall j k,
    on_patch (jMin s) (jMax s) G j -> on_patch (kMin s) (kMax s) G k ->
    R (ma_get (center_ b') (g1 x) j k) (ma_get (center_ b') (i1 x) j k)
      (ma_get (fCenterI_ b') (bnd x) j k)
      (ma_get (fCenterI_ b') (fi1 x) j k).

Definition layer_J (R : vector3d D -> vector3d D -> vector3d D ->
                        vector3d D -> Prop)
           (b' : procBlock D PV) (s : boundarySurface) : Prop :=
  let G := numGhosts_ b' in
  let x := surface_indices (surfaceType s) (iMax s - 2 + G) (jMax s - 2 + G)
                           (kMax s - 2 + G) in
  forall i k,
    on_patch (iMin s) (iMax s) G i -> on_patch (kMin s) (kMax s) G k ->
    R (ma_get (center_ b') i (g1 x) k) (ma_get (center_ b') i (i1 x) k)
      (ma_get (fCenterJ_ b') i (bnd x) k)
      (ma_get (fCenterJ_ b') i (fi1 x) k).

Definition layer_K (R : vector3d D -> vector3d D -> vector3d D ->
                        vector3d D -> Prop)
           (b' : procBlock D PV) (s : boundarySurface) : Prop :=
  let G := numGhosts_ b' in
  let x := surface_indices (surfaceType s) (iMax s - 2 + G) (jMax s - 2 + G)
                           (kMax s - 2 + G) in
  forall i j,
    on_patch (iMin s) (iMax s) G i -> on_patch (jMin s) (jMax s) G j ->
    R (ma_get (center_ b') i j (g1 x)) (ma_get (center_ b') i j (i1 x))
      (ma_get (fCenterK_ b') i j (bnd x))
      (ma_get (fCenterK_ b') i j (fi1 x)).

Definition ghost_layer (R : vector3d D -> vector3d D -> vector3d D ->
                            vector3d D -> Prop)
           (b' : procBlock D PV) (s : boundarySurface) : Prop :=
  (surfaceType s = 1 \/ surfaceType s = 2 -> layer_I R b' s) /\
  (surfaceType s = 3 \/ surfaceType s = 4 -> layer_J R b' s) /\
  (surfaceType s = 5 \/ surfaceType s = 6 -> layer_K R b' s).

(** What the code establishes: the ghost centre is the moved centre of the
    interior cell. *)
Definition is_moved (g c fb fi : vector3d D) : Prop :=
  g = moved_center c fb fi.

Definition ghost_centers (b' : procBlock D PV) (s : boundarySurface) : Prop :=
  ghost_layer is_moved b' s.

(** The claim as the specification words it: the ghost centre is the
    reflection of the interior centre through the centre of the boundary
    face. *)
Definition is_reflected (g c fb fi : vector3d D) : Prop := reflected g fb c.

Definition ghost_reflected (b' : procBlock D PV) (s : boundarySurface)
  : Prop :=
  ghost_layer is_reflected b' s.

(** The interior centre is half-way between the centres of the two faces. *)
Definition midway (c fb fi : vector3d D) : Prop :=
  vec_add c c = vec_add fb fi.

Definition is_reflected_if_midway (g c fb fi : vector3d D) : Prop :=
  midway c fb fi -> reflected g fb c.

(** The indices of a surface of a block with two ghost layers and [N] cells
    along the normal direction: those of a lower or of an upper surface. *)
Definition normal_indices (N : Z) (x : ghostIndices) : Prop :=
  x = mkGhostIndices 1 0 2 3 1 0 2 3 4 \/
  x = mkGhostIndices (N + 2) (N + 3) (N + 1) N
                     (N + 3) (N + 4) (N + 2) (N + 1) N.

(** What one branch does to the centres: the cell centres change in the two
    ghost layers over the patch only, the first layer gets the moved centre,
    and the face centres change in the ghost layers only. *)
Definition effect_I (x : ghostIndices) (jmin jmax kmin kmax : Z)
           (b b2 : procBlock D PV) : Prop :=
  ghost_frame b b2 /\
  (forall X Y Z,
     (X <> g1 x /\ X <> g2 x) \/
     ~ (jmin <= Y <= jmax /\ kmin <= Z <= kmax) ->
     ma_get (center_ b2) X Y Z = ma_get (center_ b) X Y Z) /\
  (g1 x <> g2 x -> forall Y Z,
     jmin <= Y <= jmax -> kmin <= Z <= kmax ->
     ma_get (center_ b2) (g1 x) Y Z =
     moved_center (ma_get (center_ b) (i1 x) Y Z)
                  (ma_get (fCenterI_ b) (bnd x) Y Z)
                  (ma_get (fCenterI_ b) (fi1 x) Y Z)) /\
  (forall X Y Z, X <> fg1 x -> X <> fg2 x ->
     ma_get (fCenterI_ b2) X Y Z = ma_get (fCenterI_ b) X Y Z) /\
  (forall X Y Z, X <> g1 x -> X <> g2 x ->
     ma_get (fCenterJ_ b2) X Y Z = ma_get (fCenterJ_ b) X Y Z) /\
  (forall X Y Z, X <> g1 x -> X <> g2 x ->
     ma_get (fCenterK_ b2) X Y Z = ma_get (fCenterK_ b) X Y Z).

Definition effect_J (x : ghostIndices) (imin imax kmin kmax : Z)
           (b b2 : procBlock D PV) : Prop :=
  ghost_frame b b2 /\
  (forall X Y Z,
     (Y <> g1 x /\ Y <> g2 x) \/
     ~ (imin <= X <= imax /\ kmin <= Z <= kmax) ->
     ma_get (center_ b2) X Y Z = ma_get (center_ b) X Y Z) /\
  (g1 x <> g2 x -> forall X Z,
     imin <= X <= imax -> kmin <= Z <= kmax ->
     ma_get (center_ b2) X (g1 x) Z =
     moved_center (ma_get (center_ b) X (i1 x) Z)
                  (ma_get (fCenterJ_ b) X (bnd x) Z)
                  (ma_get (fCenterJ_ b) X (fi1 x) Z)) /\
  (forall X Y Z, Y <> g1 x -> Y <> g2 x ->
     ma_get (fCenterI_ b2) X Y Z = ma_get (fCenterI_ b) X Y Z) /\
  (forall X Y Z, Y <> fg1 x -> Y <> fg2 x ->
     ma_get (fCenterJ_ b2) X Y Z = ma_get (fCenterJ_ b) X Y Z) /\
  (forall X Y Z, Y <> g1 x -> Y <> g2 x ->
     ma_get (fCenterK_ b2) X Y Z = ma_get (fCenterK_ b) X Y Z).

Definition effect_K (x : ghostIndices) (imin imax jmin jmax : Z)
           (b b2 : procBlock D PV) : Prop :=
  ghost_frame b b2 /\
  (forall X Y Z,
     (Z <> g1 x /\ Z <> g2 x) \/
     ~ (imin <= X <= imax /\ jmin <= Y <= jmax) ->
     ma_get (center_ b2) X Y Z = ma_get (center_ b) X Y Z) /\
  (g1 x <> g2 x -> forall X Y,
     imin <= X <= imax -> jmin <= Y <= jmax ->
     ma_get (center_ b2) X Y (g1 x) =
     moved_center (ma_get (center_ b) X Y (i1 x))
                  (ma_get (fCenterK_ b) X Y (bnd x))
                  (ma_get (fCenterK_ b) X Y (fi1 x))) /\
  (forall X Y Z, Z <> g1 x -> Z <> g2 x ->
     ma_get (fCenterI_ b2) X Y Z = ma_get (fCenterI_ b) X Y Z) /\
  (forall X Y Z, Z <> g1 x -> Z <> g2 x ->
     ma_get (fCenterJ_ b2) X Y Z = ma_get (fCenterJ_ b) X Y Z) /\
  (forall X Y Z, Z <> fg1 x -> Z <> fg2 x ->
     ma_get (fCenterK_ b2) X Y Z = ma_get (fCenterK_ b) X Y Z).

End Defs.
End Ghost.

(** ** Swap of ghost geometry between two blocks ([src/procBlock.cpp]:
       [AtEdge], [GetSwapLoc], [PutGeomSlice], [PutStateSlice], [SwapSlice];
       [src/slices.hpp]) *)

Module Swap.

(** Loops that do not start at 0:
    [for (int x = lo; x < hi; x++)], with a body that may terminate the
    job. *)
Definition for_range_res {S : Type} (lo hi : Z) (body : Z -> S -> res S)
           (s : S) : res S :=
  foldl (fun r x => res_bind r (body x)) (Ok s) (seqZ lo (hi - lo)).

(** [a > b] for two [std::string]s: the lexicographic order. *)
Definition string_gtb (a b : string) : bool := String.ltb b a.

(** [v[n]] for a [vector3d<int>]. *)
Definition vec_at (v : vector3d Z) (n : Z) : Z :=
  if n =? 0 then v0 v else if n =? 1 then v1 v else v2 v.

(** Modelled from the spec: the members of [interblock] that give the
    directions of a patch are not among the sources.  A patch on the
    boundary 1 or 2 has the normal (direction 3) i, direction 1 j and
    direction 2 k; on the boundary 3 or 4 they are j, k, i; on the boundary
    5 or 6 they are k, i, j (the comments of [SwapSlice] and [GetSwapLoc]).
    A boundary outside 1..6 has no direction. *)
Definition direction3 (bnd : Z) : string :=
  if (bnd =? 1) || (bnd =? 2) then "i"
  else if (bnd =? 3) || (bnd =? 4) then "j"
  else if (bnd =? 5) || (bnd =? 6) then "k"
  else "undefined".
Definition direction1 (bnd : Z) : string :=
  if (bnd =? 1) || (bnd =? 2) then "j"
  else if (bnd =? 3) || (bnd =? 4) then "k"
  else if (bnd =? 5) || (bnd =? 6) then "i"
  else "undefined".
Definition direction2 (bnd : Z) : string :=
  if (bnd =? 1) || (bnd =? 2) then "k"
  else if (bnd =? 3) || (bnd =? 4) then "i"
  else if (bnd =? 5) || (bnd =? 6) then "j"
  else "undefined".

Definition Direction1First (c : interblock) : string :=
  direction1 (BoundaryFirst c).
Definition Direction2First (c : interblock) : string :=
  direction2 (BoundaryFirst c).
Definition Direction3First (c : interblock) : string :=
  direction3 (BoundaryFirst c).
Definition Direction3Second (c : interblock) : string :=
  direction3 (BoundarySecond c).

(** Modelled from the spec: the four border flags of the first patch say
    whether its edges at the start and at the end of direction 1 and at the
    start and at the end of direction 2 abut another inter-block patch;
    [UpdateBorderFirst(ii)] and [UpdateBorderSecond(ii)] set flag [ii] of
    one side (the returned bits are OR'd into the record). *)
Definition border (flags : list bool) (n : nat) : bool :=
  default false (flags !! n).
Definition Dir1StartInterBorderFirst (c : interblock) : bool :=
  border (ib_borderFirst c) 0.
Definition Dir1EndInterBorderFirst (c : interblock) : bool :=
  border (ib_borderFirst c) 1.
Definition Dir2StartInterBorderFirst (c : interblock) : bool :=
  border (ib_borderFirst c) 2.
Definition Dir2EndInterBorderFirst (c : interblock) : bool :=
  border (ib_borderFirst c) 3.

Definition UpdateBorderFirst (ii : Z) (c : interblock) : interblock :=
  mkInterblock (ib_rank c) (ib_block c) (ib_localBlock c) (ib_boundary c)
    (ib_d1Start c) (ib_d1End c) (ib_d2Start c) (ib_d2End c) (ib_constSurf c)
    (ib_orientation c) (<[Z.to_nat ii := true]> (ib_borderFirst c))
    (ib_borderSecond c).
Definition UpdateBorderSecond (ii : Z) (c : interblock) : interblock :=
  mkInterblock (ib_rank c) (ib_block c) (ib_localBlock c) (ib_boundary c)
    (ib_d1Start c) (ib_d1End c) (ib_d2Start c) (ib_d2End c) (ib_constSurf c)
    (ib_orientation c) (ib_borderFirst c)
    (<[Z.to_nat ii := true]> (ib_borderSecond c)).

(** [GetSwapLoc]: the cell of the first patch ([pairID] true) or of the
    second patch that belongs to the position [l1], [l2], [l3] of the
    slice. *)
Definition GetSwapLoc (l1 l2 l3 : Z) (inter : interblock) (pairID : bool)
  : res (vector3d Z) :=
  let o := Orientation inter in
  let swapped := (o =? 2) || (o =? 4) || (o =? 5) || (o =? 7) in
  if pairID then
    if (Direction3First inter =? "i")%string then
      Ok (Vec3 (ConstSurfaceFirst inter + l3) (Dir1StartFirst inter + l1)
               (Dir2StartFirst inter + l2))
    else if (Direction3First inter =? "j")%string then
      Ok (Vec3 (Dir2StartFirst inter + l2) (ConstSurfaceFirst inter + l3)
               (Dir1StartFirst inter + l1))
    else if (Direction3First inter =? "k")%string then
      Ok (Vec3 (Dir1StartFirst inter + l1) (Dir2StartFirst inter + l2)
               (ConstSurfaceFirst inter + l3))
    else Abort
  else
    if (Direction3Second inter =? "i")%string then
      if swapped then
        let loc2 := if (o =? 5) || (o =? 7)
                    then Dir2EndSecond inter - 1 - l1
                    else Dir2StartSecond inter + l1 in
        let loc1 := if (o =? 4) || (o =? 7)
                    then Dir1EndSecond inter - 1 - l2
                    else Dir1StartSecond inter + l2 in
        Ok (Vec3 (ConstSurfaceSecond inter + l3) loc1 loc2)
      else
        let loc1 := if (o =? 6) || (o =? 8)
                    then Dir1EndSecond inter - 1 - l1
                    else Dir1StartSecond inter + l1 in
        let loc2 := if (o =? 3) || (o =? 8)
                    then Dir2EndSecond inter - 1 - l2
                    else Dir2StartSecond inter + l2 in
        Ok (Vec3 (ConstSurfaceSecond inter + l3) loc1 loc2)
    else if (Direction3Second inter =? "j")%string then
      if swapped then
        let loc0 := if (o =? 5) || (o =? 7)
                    then Dir2EndSecond inter - 1 - l1
                    else Dir2StartSecond inter + l1 in
        let loc2 := if (o =? 4) || (o =? 7)
                    then Dir1EndSecond inter - 1 - l2
                    else Dir1StartSecond inter + l2 in
        Ok (Vec3 loc0 (ConstSurfaceSecond inter + l3) loc2)
      else
        let loc2 := if (o =? 3) || (o =? 8)
                    then Dir1EndSecond inter - 1 - l1
                    else Dir1StartSecond inter + l1 in
        let loc0 := if (o =? 6) || (o =? 8)
                    then Dir2EndSecond inter - 1 - l2
                    else Dir2StartSecond inter + l2 in
        Ok (Vec3 loc0 (ConstSurfaceSecond inter + l3) loc2)
    else if (Direction3Second inter =? "k")%string then
      if swapped then
        let loc1 := if (o =? 5) || (o =? 7)
                    then Dir2EndSecond inter - 1 - l1
                    else Dir2StartSecond inter + l1 in
        let loc0 := if (o =? 4) || (o =? 7)
                    then Dir1EndSecond inter - 1 - l2
                    else Dir1StartSecond inter + l2 in
        Ok (Vec3 loc0 loc1 (ConstSurfaceSecond inter + l3))
      else
        let loc0 := if (o =? 3) || (o =? 8)
                    then Dir1EndSecond inter - 1 - l1
                    else Dir1StartSecond inter + l1 in
        let loc1 := if (o =? 6) || (o =? 8)
                    then Dir2EndSecond inter - 1 - l2
                    else Dir2StartSecond inter + l2 in
        Ok (Vec3 loc0 loc1 (ConstSurfaceSecond inter + l3))
    else Abort.

Section Defs.
Context {D PV : Type} `{DoubleOps D}.

(** The class [geomSlice] ([slices.hpp]). *)
Record geomSlice : Type := mkGeomSlice {
  gs_center : multiArray3d (vector3d D);
  gs_fAreaI : multiArray3d (unitVec3dMag D);
  gs_fAreaJ : multiArray3d (unitVec3dMag D);
  gs_fAreaK : multiArray3d (unitVec3dMag D);
  gs_fCenterI : multiArray3d (vector3d D);
  gs_fCenterJ : multiArray3d (vector3d D);
  gs_fCenterK : multiArray3d (vector3d D);
  gs_vol : multiArray3d D;
  gs_parBlock : Z }.

Definition geom_NumCells (slice : geomSlice) : Z := maSize (gs_vol slice).
Definition Vol (slice : geomSlice) (ii jj kk : Z) : D :=
  ma_get (gs_vol slice) ii jj kk.
Definition Center (slice : geomSlice) (ii jj kk : Z) : vector3d D :=
  ma_get (gs_center slice) ii jj kk.
Definition FAreaI (slice : geomSlice) (ii jj kk : Z) : unitVec3dMag D :=
  ma_get (gs_fAreaI slice) ii jj kk.
Definition FAreaJ (slice : geomSlice) (ii jj kk : Z) : unitVec3dMag D :=
  ma_get (gs_fAreaJ slice) ii jj kk.
Definition FAreaK (slice : geomSlice) (ii jj kk : Z) : unitVec3dMag D :=
  ma_get (gs_fAreaK slice) ii jj kk.
Definition FCenterI (slice : geomSlice) (ii jj kk : Z) : vector3d D :=
  ma_get (gs_fCenterI slice) ii jj kk.
Definition FCenterJ (slice : geomSlice) (ii jj kk : Z) : vector3d D :=
  ma_get (gs_fCenterJ slice) ii jj kk.
Definition FCenterK (slice : geomSlice) (ii jj kk : Z) : vector3d D :=
  ma_get (gs_fCenterK slice) ii jj kk.

(** The class [stateSlice] ([slices.hpp]). *)
Record stateSlice : Type := mkStateSlice {
  ss_state : multiArray3d PV;
  ss_parBlock : Z }.

Definition state_NumCells (slice : stateSlice) : Z := maSize (ss_state slice).
Definition State (slice : stateSlice) (ii jj kk : Z) : PV :=
  ma_get (ss_state slice) ii jj kk.

(** [procBlock::AtEdge]: whether the cell lies on an edge of the block, one
    index within the physical cells and the other two in the first ghost
    layer; the result carries the direction in which the edge runs (the
    reference parameter [dir]). *)
Definition AtEdge (b : procBlock D PV) (ii jj kk : Z) (includeGhost : bool)
  : option string :=
  let offset := if includeGhost then numGhosts_ b else 0 in
  if ((offset <=? ii) && (ii <? NumI b + offset)) &&
     ((jj =? offset - 1) || (jj =? NumJ b + offset)) &&
     ((kk =? offset - 1) || (kk =? NumK b + offset))
  then Some "i"%string
  else if ((ii =? offset - 1) || (ii =? NumI b + offset)) &&
          ((offset <=? jj) && (jj <? NumJ b + offset)) &&
          ((kk =? offset - 1) || (kk =? NumK b + offset))
  then Some "j"%string
  else if ((ii =? offset - 1) || (ii =? NumI b + offset)) &&
          ((jj =? offset - 1) || (jj =? NumJ b + offset)) &&
          ((offset <=? kk) && (kk <? NumK b + offset))
  then Some "k"%string
  else None.

(** [member_(i, j, k) = v] for the geometry members of a block. *)
Definition put_vol (i j k : Z) (v : D) (b : procBlock D PV) :=
  set_vol_ (ma_set (vol_ b) i j k v) b.
Definition put_center (i j k : Z) (v : vector3d D) (b : procBlock D PV) :=
  set_center_ (ma_set (center_ b) i j k v) b.
Definition put_fAreaI (i j k : Z) (v : unitVec3dMag D) (b : procBlock D PV) :=
  set_fAreaI_ (ma_set (fAreaI_ b) i j k v) b.
Definition put_fAreaJ (i j k : Z) (v : unitVec3dMag D) (b : procBlock D PV) :=
  set_fAreaJ_ (ma_set (fAreaJ_ b) i j k v) b.
Definition put_fAreaK (i j k : Z) (v : unitVec3dMag D) (b : procBlock D PV) :=
  set_fAreaK_ (ma_set (fAreaK_ b) i j k v) b.
Definition put_fCenterI (i j k : Z) (v : vector3d D) (b : procBlock D PV) :=
  set_fCenterI_ (ma_set (fCenterI_ b) i j k v) b.
Definition put_fCenterJ (i j k : Z) (v : vector3d D) (b : procBlock D PV) :=
  set_fCenterJ_ (ma_set (fCenterJ_ b) i j k v) b.
Definition put_fCenterK (i j k : Z) (v : vector3d D) (b : procBlock D PV) :=
  set_fCenterK_ (ma_set (fCenterK_ b) i j k v) b.

(** *** [PutGeomSlice]: an element whose volume is not 0

    The nine cases of the source, one per pair of normal directions of the
    two patches, statement by statement. *)

(** Faces for [Direction3First() == "i"] and [Direction3Second() == "i"]. *)
Definition PutGeomSlice_faces_ii (inter : interblock) (slice : geomSlice)
           (d3 l1 l2 l3 : Z) (aFac1 aFac2 aFac3 : D)
           (indB indS : vector3d Z) (b : procBlock D PV)
  : procBlock D PV :=
  let b := put_fCenterI (v0 indB) (v1 indB) (v2 indB)
             (FCenterI slice (v0 indS) (v1 indS) (v2 indS)) b in
  let b := put_fAreaI (v0 indB) (v1 indB) (v2 indB)
             (area_scale aFac3
                (FAreaI slice (v0 indS) (v1 indS) (v2 indS))) b in
  let b :=
    if l3 =? d3 - 1 then
      let b := put_fCenterI (v0 indB + 1) (v1 indB) (v2 indB)
                 (FCenterI slice (v0 indS + 1) (v1 indS) (v2 indS)) b in
      let b := put_fAreaI (v0 indB + 1) (v1 indB) (v2 indB)
                 (area_scale aFac3
                    (FAreaI slice (v0 indS + 1) (v1 indS) (v2 indS))) b in
      b
    else
      b in
  let b :=
    if deqb aFac1 (dlit 1) then
      let b := put_fCenterJ (v0 indB) (v1 indB) (v2 indB)
                 (FCenterJ slice (v0 indS) (v1 indS) (v2 indS)) b in
      let b := put_fAreaJ (v0 indB) (v1 indB) (v2 indB)
                 (area_scale aFac1
                    (FAreaJ slice (v0 indS) (v1 indS) (v2 indS))) b in
      let b :=
        if l1 =? Dir1EndFirst inter - Dir1StartFirst inter - 1 then
          let b := put_fCenterJ (v0 indB) (v1 indB + 1) (v2 indB)
                     (FCenterJ slice (v0 indS) (v1 indS + 1) (v2 indS)) b in
          let b := put_fAreaJ (v0 indB) (v1 indB + 1) (v2 indB)
                     (area_scale aFac1
                        (FAreaJ slice (v0 indS) (v1 indS + 1) (v2 indS))) b in
          b
        else
          b in
      b
    else
      let b := put_fCenterJ (v0 indB) (v1 indB) (v2 indB)
                 (FCenterJ slice (v0 indS) (v1 indS + 1) (v2 indS)) b in
      let b := put_fAreaJ (v0 indB) (v1 indB) (v2 indB)
                 (area_scale aFac1
                    (FAreaJ slice (v0 indS) (v1 indS + 1) (v2 indS))) b in
      let b :=
        if l1 =? Dir1EndFirst inter - Dir1StartFirst inter - 1 then
          let b := put_fCenterJ (v0 indB) (v1 indB + 1) (v2 indB)
                     (FCenterJ slice (v0 indS) (v1 indS) (v2 indS)) b in
          let b := put_fAreaJ (v0 indB) (v1 indB + 1) (v2 indB)
                     (area_scale aFac1
                        (FAreaJ slice (v0 indS) (v1 indS) (v2 indS))) b in
          b
        else
          b in
      b in
  let b :=
    if deqb aFac2 (dlit 1) then
      let b := put_fCenterK (v0 indB) (v1 indB) (v2 indB)
                 (FCenterK slice (v0 indS) (v1 indS) (v2 indS)) b in
      let b := put_fAreaK (v0 indB) (v1 indB) (v2 indB)
                 (area_scale aFac2
                    (FAreaK slice (v0 indS) (v1 indS) (v2 indS))) b in
      let b :=
        if l2 =? Dir2EndFirst inter - Dir2StartFirst inter - 1 then
          let b := put_fCenterK (v0 indB) (v1 indB) (v2 indB + 1)
                     (FCenterK slice (v0 indS) (v1 indS) (v2 indS + 1)) b in
          let b := put_fAreaK (v0 indB) (v1 indB) (v2 indB + 1)
                     (area_scale aFac2
                        (FAreaK slice (v0 indS) (v1 indS) (v2 indS + 1))) b in
          b
        else
          b in
      b
    else
      let b := put_fCenterK (v0 indB) (v1 indB) (v2 indB)
                 (FCenterK slice (v0 indS) (v1 indS) (v2 indS + 1)) b in
      let b := put_fAreaK (v0 indB) (v1 indB) (v2 indB)
                 (area_scale aFac2
                    (FAreaK slice (v0 indS) (v1 indS) (v2 indS + 1))) b in
      let b :=
        if l2 =? Dir2EndFirst inter - Dir2StartFirst inter - 1 then
          let b := put_fCenterK (v0 indB) (v1 indB) (v2 indB + 1)
                     (FCenterK slice (v0 indS) (v1 indS) (v2 indS)) b in
          let b := put_fAreaK (v0 indB) (v1 indB) (v2 indB + 1)
                     (area_scale aFac2
                        (FAreaK slice (v0 indS) (v1 indS) (v2 indS))) b in
          b
        else
          b in
      b in
  b.

(** Faces for [Direction3First() == "j"] and [Direction3Second() == "j"]. *)
Definition PutGeomSlice_faces_jj (inter : interblock) (slice : geomSlice)
           (d3 l1 l2 l3 : Z) (aFac1 aFac2 aFac3 : D)
           (indB indS : vector3d Z) (b : procBlock D PV)
  : procBlock D PV :=
  let b := put_fCenterJ (v0 indB) (v1 indB) (v2 indB)
             (FCenterJ slice (v0 indS) (v1 indS) (v2 indS)) b in
  let b := put_fAreaJ (v0 indB) (v1 indB) (v2 indB)
             (area_scale aFac3
                (FAreaJ slice (v0 indS) (v1 indS) (v2 indS))) b in
  let b :=
    if l3 =? d3 - 1 then
      let b := put_fCenterJ (v0 indB) (v1 indB + 1) (v2 indB)
                 (FCenterJ slice (v0 indS) (v1 indS + 1) (v2 indS)) b in
      let b := put_fAreaJ (v0 indB) (v1 indB + 1) (v2 indB)
                 (area_scale aFac3
                    (FAreaJ slice (v0 indS) (v1 indS + 1) (v2 indS))) b in
      b
    else
      b in
  let b :=
    if deqb aFac1 (dlit 1) then
      let b := put_fCenterK (v0 indB) (v1 indB) (v2 indB)
                 (FCenterK slice (v0 indS) (v1 indS) (v2 indS)) b in
      let b := put_fAreaK (v0 indB) (v1 indB) (v2 indB)
                 (area_scale aFac1
                    (FAreaK slice (v0 indS) (v1 indS) (v2 indS))) b in
      let b :=
        if l1 =? Dir1EndFirst inter - Dir1StartFirst inter - 1 then
          let b := put_fCenterK (v0 indB) (v1 indB) (v2 indB + 1)
                     (FCenterK slice (v0 indS) (v1 indS) (v2 indS + 1)) b in
          let b := put_fAreaK (v0 indB) (v1 indB) (v2 indB + 1)
                     (area_scale aFac1
                        (FAreaK slice (v0 indS) (v1 indS) (v2 indS + 1))) b in
          b
        else
          b in
      b
    else
      let b := put_fCenterK (v0 indB) (v1 indB) (v2 indB)
                 (FCenterK slice (v0 indS) (v1 indS) (v2 indS + 1)) b in
      let b := put_fAreaK (v0 indB) (v1 indB) (v2 indB)
                 (area_scale aFac1
                    (FAreaK slice (v0 indS) (v1 indS) (v2 indS + 1))) b in
      let b :=
        if l1 =? Dir1EndFirst inter - Dir1StartFirst inter - 1 then
          let b := put_fCenterK (v0 indB) (v1 indB) (v2 indB + 1)
                     (FCenterK slice (v0 indS) (v1 indS) (v2 indS)) b in
          let b := put_fAreaK (v0 indB) (v1 indB) (v2 indB + 1)
                     (area_scale aFac1
                        (FAreaK slice (v0 indS) (v1 indS) (v2 indS))) b in
          b
        else
          b in
      b in
  let b :=
    if deqb aFac2 (dlit 1) then
      let b := put_fCenterI (v0 indB) (v1 indB) (v2 indB)
                 (FCenterI slice (v0 indS) (v1 indS) (v2 indS)) b in
      let b := put_fAreaI (v0 indB) (v1 indB) (v2 indB)
                 (area_scale aFac2
                    (FAreaI slice (v0 indS) (v1 indS) (v2 indS))) b in
      let b :=
        if l2 =? Dir2EndFirst inter - Dir2StartFirst inter - 1 then
          let b := put_fCenterI (v0 indB + 1) (v1 indB) (v2 indB)
                     (FCenterI slice (v0 indS + 1) (v1 indS) (v2 indS)) b in
          let b := put_fAreaI (v0 indB + 1) (v1 indB) (v2 indB)
                     (area_scale aFac2
                        (FAreaI slice (v0 indS + 1) (v1 indS) (v2 indS))) b in
          b
        else
          b in
      b
    else
      let b := put_fCenterI (v0 indB) (v1 indB) (v2 indB)
                 (FCenterI slice (v0 indS + 1) (v1 indS) (v2 indS)) b in
      let b := put_fAreaI (v0 indB) (v1 indB) (v2 indB)
                 (area_scale aFac2
                    (FAreaI slice (v0 indS + 1) (v1 indS) (v2 indS))) b in
      let b :=
        if l2 =? Dir2EndFirst inter - Dir2StartFirst inter - 1 then
          let b := put_fCenterI (v0 indB + 1) (v1 indB) (v2 indB)
                     (FCenterI slice (v0 indS) (v1 indS) (v2 indS)) b in
          let b := put_fAreaI (v0 indB + 1) (v1 indB) (v2 indB)
                     (area_scale aFac2
                        (FAreaI slice (v0 indS) (v1 indS) (v2 indS))) b in
          b
        else
          b in
      b in
  b.

(** Faces for [Direction3First() == "k"] and [Direction3Second() == "k"]. *)
Definition PutGeomSlice_faces_kk (inter : interblock) (slice : geomSlice)
           (d3 l1 l2 l3 : Z) (aFac1 aFac2 aFac3 : D)
           (indB indS : vector3d Z) (b : procBlock D PV)
  : procBlock D PV :=
  let b := put_fCenterK (v0 indB) (v1 indB) (v2 indB)
             (FCenterK slice (v0 indS) (v1 indS) (v2 indS)) b in
  let b := put_fAreaK (v0 indB) (v1 indB) (v2 indB)
             (area_scale aFac3
                (FAreaK slice (v0 indS) (v1 indS) (v2 indS))) b in
  let b :=
    if l3 =? d3 - 1 then
      let b := put_fCenterK (v0 indB) (v1 indB) (v2 indB + 1)
                 (FCenterK slice (v0 indS) (v1 indS) (v2 indS + 1)) b in
      let b := put_fAreaK (v0 indB) (v1 indB) (v2 indB + 1)
                 (area_scale aFac3
                    (FAreaK slice (v0 indS) (v1 indS) (v2 indS + 1))) b in
      b
    else
      b in
  let b :=
    if deqb aFac1 (dlit 1) then
      let b := put_fCenterI (v0 indB) (v1 indB) (v2 indB)
                 (FCenterI slice (v0 indS) (v1 indS) (v2 indS)) b in
      let b := put_fAreaI (v0 indB) (v1 indB) (v2 indB)
                 (area_scale aFac1
                    (FAreaI slice (v0 indS) (v1 indS) (v2 indS))) b in
      let b :=
        if l1 =? Dir1EndFirst inter - Dir1StartFirst inter - 1 then
          let b := put_fCenterI (v0 indB + 1) (v1 indB) (v2 indB)
                     (FCenterI slice (v0 indS + 1) (v1 indS) (v2 indS)) b in
          let b := put_fAreaI (v0 indB + 1) (v1 indB) (v2 indB)
                     (area_scale aFac1
                        (FAreaI slice (v0 indS + 1) (v1 indS) (v2 indS))) b in
          b
        else
          b in
      b
    else
      let b := put_fCenterI (v0 indB) (v1 indB) (v2 indB)
                 (FCenterI slice (v0 indS + 1) (v1 indS) (v2 indS)) b in
      let b := put_fAreaI (v0 indB) (v1 indB) (v2 indB)
                 (area_scale aFac1
                    (FAreaI slice (v0 indS + 1) (v1 indS) (v2 indS))) b in
      let b :=
        if l1 =? Dir1EndFirst inter - Dir1StartFirst inter - 1 then
          let b := put_fCenterI (v0 indB + 1) (v1 indB) (v2 indB)
                     (FCenterI slice (v0 indS) (v1 indS) (v2 indS)) b in
          let b := put_fAreaI (v0 indB + 1) (v1 indB) (v2 indB)
                     (area_scale aFac1
                        (FAreaI slice (v0 indS) (v1 indS) (v2 indS))) b in
          b
        else
          b in
      b in
  let b :=
    if deqb aFac2 (dlit 1) then
      let b := put_fCenterJ (v0 indB) (v1 indB) (v2 indB)
                 (FCenterJ slice (v0 indS) (v1 indS) (v2 indS)) b in
      let b := put_fAreaJ (v0 indB) (v1 indB) (v2 indB)
                 (area_scale aFac2
                    (FAreaJ slice (v0 indS) (v1 indS) (v2 indS))) b in
      let b :=
        if l2 =? Dir2EndFirst inter - Dir2StartFirst inter - 1 then
          let b := put_fCenterJ (v0 indB) (v1 indB + 1) (v2 indB)
                     (FCenterJ slice (v0 indS) (v1 indS + 1) (v2 indS)) b in
          let b := put_fAreaJ (v0 indB) (v1 indB + 1) (v2 indB)
                     (area_scale aFac2
                        (FAreaJ slice (v0 indS) (v1 indS + 1) (v2 indS))) b in
          b
        else
          b in
      b
    else
      let b := put_fCenterJ (v0 indB) (v1 indB) (v2 indB)
                 (FCenterJ slice (v0 indS) (v1 indS + 1) (v2 indS)) b in
      let b := put_fAreaJ (v0 indB) (v1 indB) (v2 indB)
                 (area_scale aFac2
                    (FAreaJ slice (v0 indS) (v1 indS + 1) (v2 indS))) b in
      let b :=
        if l2 =? Dir2EndFirst inter - Dir2StartFirst inter - 1 then
          let b := put_fCenterJ (v0 indB) (v1 indB + 1) (v2 indB)
                     (FCenterJ slice (v0 indS) (v1 indS) (v2 indS)) b in
          let b := put_fAreaJ (v0 indB) (v1 indB + 1) (v2 indB)
                     (area_scale aFac2
                        (FAreaJ slice (v0 indS) (v1 indS) (v2 indS))) b in
          b
        else
          b in
      b in
  b.

(** Faces for [Direction3First() == "i"] and [Direction3Second() == "j"]. *)
Definition PutGeomSlice_faces_ij (inter : interblock) (slice : geomSlice)
           (d3 l1 l2 l3 : Z) (aFac1 aFac2 aFac3 : D)
           (indB indS : vector3d Z) (b : procBlock D PV)
  : procBlock D PV :=
  let b := put_fCenterI (v0 indB) (v1 indB) (v2 indB)
             (FCenterJ slice (v0 indS) (v1 indS) (v2 indS)) b in
  let b := put_fAreaI (v0 indB) (v1 indB) (v2 indB)
             (area_scale aFac3
                (FAreaJ slice (v0 indS) (v1 indS) (v2 indS))) b in
  let b :=
    if l3 =? d3 - 1 then
      let b := put_fCenterI (v0 indB + 1) (v1 indB) (v2 indB)
                 (FCenterJ slice (v0 indS) (v1 indS + 1) (v2 indS)) b in
      let b := put_fAreaI (v0 indB + 1) (v1 indB) (v2 indB)
                 (area_scale aFac3
                    (FAreaJ slice (v0 indS) (v1 indS + 1) (v2 indS))) b in
      b
    else
      b in
  let b :=
    if deqb aFac1 (dlit 1) then
      let b := put_fCenterJ (v0 indB) (v1 indB) (v2 indB)
                 (FCenterK slice (v0 indS) (v1 indS) (v2 indS)) b in
      let b := put_fAreaJ (v0 indB) (v1 indB) (v2 indB)
                 (area_scale aFac1
                    (FAreaK slice (v0 indS) (v1 indS) (v2 indS))) b in
      let b :=
        if l1 =? Dir1EndFirst inter - Dir1StartFirst inter - 1 then
          let b := put_fCenterJ (v0 indB) (v1 indB + 1) (v2 indB)
                     (FCenterK slice (v0 indS) (v1 indS) (v2 indS + 1)) b in
          let b := put_fAreaJ (v0 indB) (v1 indB + 1) (v2 indB)
                     (area_scale aFac1
                        (FAreaK slice (v0 indS) (v1 indS) (v2 indS + 1))) b in
          b
        else
          b in
      b
    else
      let b := put_fCenterJ (v0 indB) (v1 indB) (v2 indB)
                 (FCenterK slice (v0 indS) (v1 indS) (v2 indS + 1)) b in
      let b := put_fAreaJ (v0 indB) (v1 indB) (v2 indB)
                 (area_scale aFac1
                    (FAreaK slice (v0 indS) (v1 indS) (v2 indS + 1))) b in
      let b :=
        if l1 =? Dir1EndFirst inter - Dir1StartFirst inter - 1 then
          let b := put_fCenterJ (v0 indB) (v1 indB + 1) (v2 indB)
                     (FCenterK slice (v0 indS) (v1 indS) (v2 indS)) b in
          let b := put_fAreaJ (v0 indB) (v1 indB + 1) (v2 indB)
                     (area_scale aFac1
                        (FAreaK slice (v0 indS) (v1 indS) (v2 indS))) b in
          b
        else
          b in
      b in
  let b :=
    if deqb aFac2 (dlit 1) then
      let b := put_fCenterK (v0 indB) (v1 indB) (v2 indB)
                 (FCenterI slice (v0 indS) (v1 indS) (v2 indS)) b in
      let b := put_fAreaK (v0 indB) (v1 indB) (v2 indB)
                 (area_scale aFac2
                    (FAreaI slice (v0 indS) (v1 indS) (v2 indS))) b in
      let b :=
        if l2 =? Dir2EndFirst inter - Dir2StartFirst inter - 1 then
          let b := put_fCenterK (v0 indB) (v1 indB) (v2 indB + 1)
                     (FCenterI slice (v0 indS + 1) (v1 indS) (v2 indS)) b in
          let b := put_fAreaK (v0 indB) (v1 indB) (v2 indB + 1)
                     (area_scale aFac2
                        (FAreaI slice (v0 indS + 1) (v1 indS) (v2 indS))) b in
          b
        else
          b in
      b
    else
      let b := put_fCenterK (v0 indB) (v1 indB) (v2 indB)
                 (FCenterI slice (v0 indS + 1) (v1 indS) (v2 indS)) b in
      let b := put_fAreaK (v0 indB) (v1 indB) (v2 indB)
                 (area_scale aFac2
                    (FAreaI slice (v0 indS + 1) (v1 indS) (v2 indS))) b in
      let b :=
        if l2 =? Dir2EndFirst inter - Dir2StartFirst inter - 1 then
          let b := put_fCenterK (v0 indB) (v1 indB) (v2 indB + 1)
                     (FCenterI slice (v0 indS) (v1 indS) (v2 indS)) b in
          let b := put_fAreaK (v0 indB) (v1 indB) (v2 indB + 1)
                     (area_scale aFac2
                        (FAreaI slice (v0 indS) (v1 indS) (v2 indS))) b in
          b
        else
          b in
      b in
  b.

(** Faces for [Direction3First() == "i"] and [Direction3Second() == "k"]. *)
Definition PutGeomSlice_faces_ik (inter : interblock) (slice : geomSlice)
           (d3 l1 l2 l3 : Z) (aFac1 aFac2 aFac3 : D)
           (indB indS : vector3d Z) (b : procBlock D PV)
  : procBlock D PV :=
  let b := put_fCenterI (v0 indB) (v1 indB) (v2 indB)
             (FCenterK slice (v0 indS) (v1 indS) (v2 indS)) b in
  let b := put_fAreaI (v0 indB) (v1 indB) (v2 indB)
             (area_scale aFac3
                (FAreaK slice (v0 indS) (v1 indS) (v2 indS))) b in
  let b :=
    if l3 =? d3 - 1 then
      let b := put_fCenterI (v0 indB + 1) (v1 indB) (v2 indB)
                 (FCenterK slice (v0 indS) (v1 indS) (v2 indS + 1)) b in
      let b := put_fAreaI (v0 indB + 1) (v1 indB) (v2 indB)
                 (area_scale aFac3
                    (FAreaK slice (v0 indS) (v1 indS) (v2 indS + 1))) b in
      b
    else
      b in
  let b :=
    if deqb aFac1 (dlit 1) then
      let b := put_fCenterJ (v0 indB) (v1 indB) (v2 indB)
                 (FCenterI slice (v0 indS) (v1 indS) (v2 indS)) b in
      let b := put_fAreaJ (v0 indB) (v1 indB) (v2 indB)
                 (area_scale aFac1
                    (FAreaI slice (v0 indS) (v1 indS) (v2 indS))) b in
      let b :=
        if l1 =? Dir1EndFirst inter - Dir1StartFirst inter - 1 then
          let b := put_fCenterJ (v0 indB) (v1 indB + 1) (v2 indB)
                     (FCenterI slice (v0 indS + 1) (v1 indS) (v2 indS)) b in
          let b := put_fAreaJ (v0 indB) (v1 indB + 1) (v2 indB)
                     (area_scale aFac1
                        (FAreaI slice (v0 indS + 1) (v1 indS) (v2 indS))) b in
          b
        else
          b in
      b
    else
      let b := put_fCenterJ (v0 indB) (v1 indB) (v2 indB)
                 (FCenterI slice (v0 indS + 1) (v1 indS) (v2 indS)) b in
      let b := put_fAreaJ (v0 indB) (v1 indB) (v2 indB)
                 (area_scale aFac1
                    (FAreaI slice (v0 indS + 1) (v1 indS) (v2 indS))) b in
      let b :=
        if l1 =? Dir1EndFirst inter - Dir1StartFirst inter - 1 then
          let b := put_fCenterJ (v0 indB) (v1 indB + 1) (v2 indB)
                     (FCenterI slice (v0 indS) (v1 indS) (v2 indS)) b in
          let b := put_fAreaJ (v0 indB) (v1 indB + 1) (v2 indB)
                     (area_scale aFac1
                        (FAreaI slice (v0 indS) (v1 indS) (v2 indS))) b in
          b
        else
          b in
      b in
  let b :=
    if deqb aFac2 (dlit 1) then
      let b := put_fCenterK (v0 indB) (v1 indB) (v2 indB)
                 (FCenterJ slice (v0 indS) (v1 indS) (v2 indS)) b in
      let b := put_fAreaK (v0 indB) (v1 indB) (v2 indB)
                 (area_scale aFac2
                    (FAreaJ slice (v0 indS) (v1 indS) (v2 indS))) b in
      let b :=
        if l2 =? Dir2EndFirst inter - Dir2StartFirst inter - 1 then
          let b := put_fCenterK (v0 indB) (v1 indB) (v2 indB + 1)
                     (FCenterJ slice (v0 indS) (v1 indS + 1) (v2 indS)) b in
          let b := put_fAreaK (v0 indB) (v1 indB) (v2 indB + 1)
                     (area_scale aFac2
                        (FAreaJ slice (v0 indS) (v1 indS + 1) (v2 indS))) b in
          b
        else
          b in
      b
    else
      let b := put_fCenterK (v0 indB) (v1 indB) (v2 indB)
                 (FCenterJ slice (v0 indS) (v1 indS + 1) (v2 indS)) b in
      let b := put_fAreaK (v0 indB) (v1 indB) (v2 indB)
                 (area_scale aFac2
                    (FAreaJ slice (v0 indS) (v1 indS + 1) (v2 indS))) b in
      let b :=
        if l2 =? Dir2EndFirst inter - Dir2StartFirst inter - 1 then
          let b := put_fCenterK (v0 indB) (v1 indB) (v2 indB + 1)
                     (FCenterJ slice (v0 indS) (v1 indS) (v2 indS)) b in
          let b := put_fAreaK (v0 indB) (v1 indB) (v2 indB + 1)
                     (area_scale aFac2
                        (FAreaJ slice (v0 indS) (v1 indS) (v2 indS))) b in
          b
        else
          b in
      b in
  b.

(** Faces for [Direction3First() == "j"] and [Direction3Second() == "i"]. *)
Definition PutGeomSlice_faces_ji (inter : interblock) (slice : geomSlice)
           (d3 l1 l2 l3 : Z) (aFac1 aFac2 aFac3 : D)
           (indB indS : vector3d Z) (b : procBlock D PV)
  : procBlock D PV :=
  let b := put_fCenterJ (v0 indB) (v1 indB) (v2 indB)
             (FCenterI slice (v0 indS) (v1 indS) (v2 indS)) b in
  let b := put_fAreaJ (v0 indB) (v1 indB) (v2 indB)
             (area_scale aFac3
                (FAreaI slice (v0 indS) (v1 indS) (v2 indS))) b in
  let b :=
    if l3 =? d3 - 1 then
      let b := put_fCenterJ (v0 indB) (v1 indB + 1) (v2 indB)
                 (FCenterI slice (v0 indS + 1) (v1 indS) (v2 indS)) b in
      let b := put_fAreaJ (v0 indB) (v1 indB + 1) (v2 indB)
                 (area_scale aFac3
                    (FAreaI slice (v0 indS + 1) (v1 indS) (v2 indS))) b in
      b
    else
      b in
  let b :=
    if deqb aFac1 (dlit 1) then
      let b := put_fCenterK (v0 indB) (v1 indB) (v2 indB)
                 (FCenterJ slice (v0 indS) (v1 indS) (v2 indS)) b in
      let b := put_fAreaK (v0 indB) (v1 indB) (v2 indB)
                 (area_scale aFac1
                    (FAreaJ slice (v0 indS) (v1 indS) (v2 indS))) b in
      let b :=
        if l1 =? Dir1EndFirst inter - Dir1StartFirst inter - 1 then
          let b := put_fCenterK (v0 indB) (v1 indB) (v2 indB + 1)
                     (FCenterJ slice (v0 indS) (v1 indS + 1) (v2 indS)) b in
          let b := put_fAreaK (v0 indB) (v1 indB) (v2 indB + 1)
                     (area_scale aFac1
                        (FAreaJ slice (v0 indS) (v1 indS + 1) (v2 indS))) b in
          b
        else
          b in
      b
    else
      let b := put_fCenterK (v0 indB) (v1 indB) (v2 indB)
                 (FCenterJ slice (v0 indS) (v1 indS + 1) (v2 indS)) b in
      let b := put_fAreaK (v0 indB) (v1 indB) (v2 indB)
                 (area_scale aFac1
                    (FAreaJ slice (v0 indS) (v1 indS + 1) (v2 indS))) b in
      let b :=
        if l1 =? Dir1EndFirst inter - Dir1StartFirst inter - 1 then
          let b := put_fCenterK (v0 indB) (v1 indB) (v2 indB + 1)
                     (FCenterJ slice (v0 indS) (v1 indS) (v2 indS)) b in
          let b := put_fAreaK (v0 indB) (v1 indB) (v2 indB + 1)
                     (area_scale aFac1
                        (FAreaJ slice (v0 indS) (v1 indS) (v2 indS))) b in
          b
        else
          b in
      b in
  let b :=
    if deqb aFac2 (dlit 1) then
      let b := put_fCenterI (v0 indB) (v1 indB) (v2 indB)
                 (FCenterK slice (v0 indS) (v1 indS) (v2 indS)) b in
      let b := put_fAreaI (v0 indB) (v1 indB) (v2 indB)
                 (area_scale aFac2
                    (FAreaK slice (v0 indS) (v1 indS) (v2 indS))) b in
      let b :=
        if l2 =? Dir2EndFirst inter - Dir2StartFirst inter - 1 then
          let b := put_fCenterI (v0 indB + 1) (v1 indB) (v2 indB)
                     (FCenterK slice (v0 indS) (v1 indS) (v2 indS + 1)) b in
          let b := put_fAreaI (v0 indB + 1) (v1 indB) (v2 indB)
                     (area_scale aFac2
                        (FAreaK slice (v0 indS) (v1 indS) (v2 indS + 1))) b in
          b
        else
          b in
      b
    else
      let b := put_fCenterI (v0 indB) (v1 indB) (v2 indB)
                 (FCenterK slice (v0 indS) (v1 indS) (v2 indS + 1)) b in
      let b := put_fAreaI (v0 indB) (v1 indB) (v2 indB)
                 (area_scale aFac2
                    (FAreaK slice (v0 indS) (v1 indS) (v2 indS + 1))) b in
      let b :=
        if l2 =? Dir2EndFirst inter - Dir2StartFirst inter - 1 then
          let b := put_fCenterI (v0 indB + 1) (v1 indB) (v2 indB)
                     (FCenterK slice (v0 indS) (v1 indS) (v2 indS)) b in
          let b := put_fAreaI (v0 indB + 1) (v1 indB) (v2 indB)
                     (area_scale aFac2
                        (FAreaK slice (v0 indS) (v1 indS) (v2 indS))) b in
          b
        else
          b in
      b in
  b.

(** Faces for [Direction3First() > "j"] and [Direction3Second() == "k"]. *)
Definition PutGeomSlice_faces_jk (inter : interblock) (slice : geomSlice)
           (d3 l1 l2 l3 : Z) (aFac1 aFac2 aFac3 : D)
           (indB indS : vector3d Z) (b : procBlock D PV)
  : procBlock D PV :=
  let b := put_fCenterJ (v0 indB) (v1 indB) (v2 indB)
             (FCenterK slice (v0 indS) (v1 indS) (v2 indS)) b in
  let b := put_fAreaJ (v0 indB) (v1 indB) (v2 indB)
             (area_scale aFac3
                (FAreaK slice (v0 indS) (v1 indS) (v2 indS))) b in
  let b :=
    if l3 =? d3 - 1 then
      let b := put_fCenterJ (v0 indB) (v1 indB + 1) (v2 indB)
                 (FCenterJ slice (v0 indS) (v1 indS + 1) (v2 indS)) b in
      let b := put_fAreaJ (v0 indB) (v1 indB + 1) (v2 indB)
                 (area_scale aFac3
                    (FAreaJ slice (v0 indS) (v1 indS + 1) (v2 indS))) b in
      b
    else
      b in
  let b :=
    if deqb aFac1 (dlit 1) then
      let b := put_fCenterK (v0 indB) (v1 indB) (v2 indB)
                 (FCenterI slice (v0 indS) (v1 indS) (v2 indS)) b in
      let b := put_fAreaK (v0 indB) (v1 indB) (v2 indB)
                 (area_scale aFac1
                    (FAreaI slice (v0 indS) (v1 indS) (v2 indS))) b in
      let b :=
        if l1 =? Dir1EndFirst inter - Dir1StartFirst inter - 1 then
          let b := put_fCenterK (v0 indB) (v1 indB) (v2 indB + 1)
                     (FCenterI slice (v0 indS + 1) (v1 indS) (v2 indS)) b in
          let b := put_fAreaK (v0 indB) (v1 indB) (v2 indB + 1)
                     (area_scale aFac1
                        (FAreaI slice (v0 indS + 1) (v1 indS) (v2 indS))) b in
          b
        else
          b in
      b
    else
      let b := put_fCenterK (v0 indB) (v1 indB) (v2 indB)
                 (FCenterI slice (v0 indS + 1) (v1 indS) (v2 indS)) b in
      let b := put_fAreaK (v0 indB) (v1 indB) (v2 indB)
                 (area_scale aFac1
                    (FAreaI slice (v0 indS + 1) (v1 indS) (v2 indS))) b in
      let b :=
        if l1 =? Dir1EndFirst inter - Dir1StartFirst inter - 1 then
          let b := put_fCenterK (v0 indB) (v1 indB) (v2 indB + 1)
                     (FCenterI slice (v0 indS) (v1 indS) (v2 indS)) b in
          let b := put_fAreaK (v0 indB) (v1 indB) (v2 indB + 1)
                     (area_scale aFac1
                        (FAreaI slice (v0 indS) (v1 indS) (v2 indS))) b in
          b
        else
          b in
      b in
  let b :=
    if deqb aFac2 (dlit 1) then
      let b := put_fCenterI (v0 indB) (v1 indB) (v2 indB)
                 (FCenterJ slice (v0 indS) (v1 indS) (v2 indS)) b in
      let b := put_fAreaI (v0 indB) (v1 indB) (v2 indB)
                 (area_scale aFac2
                    (FAreaJ slice (v0 indS) (v1 indS) (v2 indS))) b in
      let b :=
        if l2 =? Dir2EndFirst inter - Dir2StartFirst inter - 1 then
          let b := put_fCenterI (v0 indB + 1) (v1 indB) (v2 indB)
                     (FCenterJ slice (v0 indS) (v1 indS + 1) (v2 indS)) b in
          let b := put_fAreaI (v0 indB + 1) (v1 indB) (v2 indB)
                     (area_scale aFac2
                        (FAreaJ slice (v0 indS) (v1 indS + 1) (v2 indS))) b in
          b
        else
          b in
      b
    else
      let b := put_fCenterI (v0 indB) (v1 indB) (v2 indB)
                 (FCenterJ slice (v0 indS) (v1 indS + 1) (v2 indS)) b in
      let b := put_fAreaI (v0 indB) (v1 indB) (v2 indB)
                 (area_scale aFac2
                    (FAreaJ slice (v0 indS) (v1 indS + 1) (v2 indS))) b in
      let b :=
        if l2 =? Dir2EndFirst inter - Dir2StartFirst inter - 1 then
          let b := put_fCenterI (v0 indB + 1) (v1 indB) (v2 indB)
                     (FCenterJ slice (v0 indS) (v1 indS) (v2 indS)) b in
          let b := put_fAreaI (v0 indB + 1) (v1 indB) (v2 indB)
                     (area_scale aFac2
                        (FAreaJ slice (v0 indS) (v1 indS) (v2 indS))) b in
          b
        else
          b in
      b in
  b.

(** Faces for [Direction3First() == "k"] and [Direction3Second() == "i"]. *)
Definition PutGeomSlice_faces_ki (inter : interblock) (slice : geomSlice)
           (d3 l1 l2 l3 : Z) (aFac1 aFac2 aFac3 : D)
           (indB indS : vector3d Z) (b : procBlock D PV)
  : procBlock D PV :=
  let b := put_fCenterK (v0 indB) (v1 indB) (v2 indB)
             (FCenterI slice (v0 indS) (v1 indS) (v2 indS)) b in
  let b := put_fAreaK (v0 indB) (v1 indB) (v2 indB)
             (area_scale aFac3
                (FAreaI slice (v0 indS) (v1 indS) (v2 indS))) b in
  let b :=
    if l3 =? d3 - 1 then
      let b := put_fCenterK (v0 indB) (v1 indB) (v2 indB + 1)
                 (FCenterI slice (v0 indS + 1) (v1 indS) (v2 indS)) b in
      let b := put_fAreaK (v0 indB) (v1 indB) (v2 indB + 1)
                 (area_scale aFac3
                    (FAreaI slice (v0 indS + 1) (v1 indS) (v2 indS))) b in
      b
    else
      b in
  let b :=
    if deqb aFac1 (dlit 1) then
      let b := put_fCenterI (v0 indB) (v1 indB) (v2 indB)
                 (FCenterJ slice (v0 indS) (v1 indS) (v2 indS)) b in
      let b := put_fAreaI (v0 indB) (v1 indB) (v2 indB)
                 (area_scale aFac1
                    (FAreaJ slice (v0 indS) (v1 indS) (v2 indS))) b in
      let b :=
        if l1 =? Dir1EndFirst inter - Dir1StartFirst inter - 1 then
          let b := put_fCenterI (v0 indB + 1) (v1 indB) (v2 indB)
                     (FCenterJ slice (v0 indS) (v1 indS + 1) (v2 indS)) b in
          let b := put_fAreaI (v0 indB + 1) (v1 indB) (v2 indB)
                     (area_scale aFac1
                        (FAreaJ slice (v0 indS) (v1 indS + 1) (v2 indS))) b in
          b
        else
          b in
      b
    else
      let b := put_fCenterI (v0 indB) (v1 indB) (v2 indB)
                 (FCenterJ slice (v0 indS) (v1 indS + 1) (v2 indS)) b in
      let b := put_fAreaI (v0 indB) (v1 indB) (v2 indB)
                 (area_scale aFac1
                    (FAreaJ slice (v0 indS) (v1 indS + 1) (v2 indS))) b in
      let b :=
        if l1 =? Dir1EndFirst inter - Dir1StartFirst inter - 1 then
          let b := put_fCenterI (v0 indB + 1) (v1 indB) (v2 indB)
                     (FCenterJ slice (v0 indS) (v1 indS) (v2 indS)) b in
          let b := put_fAreaI (v0 indB + 1) (v1 indB) (v2 indB)
                     (area_scale aFac1
                        (FAreaJ slice (v0 indS) (v1 indS) (v2 indS))) b in
          b
        else
          b in
      b in
  let b :=
    if deqb aFac2 (dlit 1) then
      let b := put_fCenterJ (v0 indB) (v1 indB) (v2 indB)
                 (FCenterK slice (v0 indS) (v1 indS) (v2 indS)) b in
      let b := put_fAreaJ (v0 indB) (v1 indB) (v2 indB)
                 (area_scale aFac2
                    (FAreaK slice (v0 indS) (v1 indS) (v2 indS))) b in
      let b :=
        if l2 =? Dir2EndFirst inter - Dir2StartFirst inter - 1 then
          let b := put_fCenterJ (v0 indB) (v1 indB + 1) (v2 indB)
                     (FCenterK slice (v0 indS) (v1 indS) (v2 indS + 1)) b in
          let b := put_fAreaJ (v0 indB) (v1 indB + 1) (v2 indB)
                     (area_scale aFac2
                        (FAreaK slice (v0 indS) (v1 indS) (v2 indS + 1))) b in
          b
        else
          b in
      b
    else
      let b := put_fCenterJ (v0 indB) (v1 indB) (v2 indB)
                 (FCenterK slice (v0 indS) (v1 indS) (v2 indS + 1)) b in
      let b := put_fAreaJ (v0 indB) (v1 indB) (v2 indB)
                 (area_scale aFac2
                    (FAreaK slice (v0 indS) (v1 indS) (v2 indS + 1))) b in
      let b :=
        if l2 =? Dir2EndFirst inter - Dir2StartFirst inter - 1 then
          let b := put_fCenterJ (v0 indB) (v1 indB + 1) (v2 indB)
                     (FCenterK slice (v0 indS) (v1 indS) (v2 indS)) b in
          let b := put_fAreaJ (v0 indB) (v1 indB + 1) (v2 indB)
                     (area_scale aFac2
                        (FAreaK slice (v0 indS) (v1 indS) (v2 indS))) b in
          b
        else
          b in
      b in
  b.

(** Faces for [Direction3First() == "k"] and [Direction3Second() == "j"]. *)
Definition PutGeomSlice_faces_kj (inter : interblock) (slice : geomSlice)
           (d3 l1 l2 l3 : Z) (aFac1 aFac2 aFac3 : D)
           (indB indS : vector3d Z) (b : procBlock D PV)
  : procBlock D PV :=
  let b := put_fCenterK (v0 indB) (v1 indB) (v2 indB)
             (FCenterJ slice (v0 indS) (v1 indS) (v2 indS)) b in
  let b := put_fAreaK (v0 indB) (v1 indB) (v2 indB)
             (area_scale aFac3
                (FAreaJ slice (v0 indS) (v1 indS) (v2 indS))) b in
  let b :=
    if l3 =? d3 - 1 then
      let b := put_fCenterK (v0 indB) (v1 indB) (v2 indB + 1)
                 (FCenterJ slice (v0 indS) (v1 indS + 1) (v2 indS)) b in
      let b := put_fAreaK (v0 indB) (v1 indB) (v2 indB + 1)
                 (area_scale aFac3
                    (FAreaJ slice (v0 indS) (v1 indS + 1) (v2 indS))) b in
      b
    else
      b in
  let b :=
    if deqb aFac1 (dlit 1) then
      let b := put_fCenterI (v0 indB) (v1 indB) (v2 indB)
                 (FCenterK slice (v0 indS) (v1 indS) (v2 indS)) b in
      let b := put_fAreaI (v0 indB) (v1 indB) (v2 indB)
                 (area_scale aFac1
                    (FAreaK slice (v0 indS) (v1 indS) (v2 indS))) b in
      let b :=
        if l1 =? Dir1EndFirst inter - Dir1StartFirst inter - 1 then
          let b := put_fCenterI (v0 indB + 1) (v1 indB) (v2 indB)
                     (FCenterK slice (v0 indS) (v1 indS) (v2 indS + 1)) b in
          let b := put_fAreaI (v0 indB + 1) (v1 indB) (v2 indB)
                     (area_scale aFac1
                        (FAreaK slice (v0 indS) (v1 indS) (v2 indS + 1))) b in
          b
        else
          b in
      b
    else
      let b := put_fCenterI (v0 indB) (v1 indB) (v2 indB)
                 (FCenterK slice (v0 indS) (v1 indS) (v2 indS + 1)) b in
      let b := put_fAreaI (v0 indB) (v1 indB) (v2 indB)
                 (area_scale aFac1
                    (FAreaK slice (v0 indS) (v1 indS) (v2 indS + 1))) b in
      let b :=
        if l1 =? Dir1EndFirst inter - Dir1StartFirst inter - 1 then
          let b := put_fCenterI (v0 indB + 1) (v1 indB) (v2 indB)
                     (FCenterK slice (v0 indS) (v1 indS) (v2 indS)) b in
          let b := put_fAreaI (v0 indB + 1) (v1 indB) (v2 indB)
                     (area_scale aFac1
                        (FAreaK slice (v0 indS) (v1 indS) (v2 indS))) b in
          b
        else
          b in
      b in
  let b :=
    if deqb aFac2 (dlit 1) then
      let b := put_fCenterJ (v0 indB) (v1 indB) (v2 indB)
                 (FCenterI slice (v0 indS) (v1 indS) (v2 indS)) b in
      let b := put_fAreaJ (v0 indB) (v1 indB) (v2 indB)
                 (area_scale aFac2
                    (FAreaI slice (v0 indS) (v1 indS) (v2 indS))) b in
      let b :=
        if l2 =? Dir2EndFirst inter - Dir2StartFirst inter - 1 then
          let b := put_fCenterJ (v0 indB) (v1 indB + 1) (v2 indB)
                     (FCenterI slice (v0 indS + 1) (v1 indS) (v2 indS)) b in
          let b := put_fAreaJ (v0 indB) (v1 indB + 1) (v2 indB)
                     (area_scale aFac2
                        (FAreaI slice (v0 indS + 1) (v1 indS) (v2 indS))) b in
          b
        else
          b in
      b
    else
      let b := put_fCenterJ (v0 indB) (v1 indB) (v2 indB)
                 (FCenterI slice (v0 indS + 1) (v1 indS) (v2 indS)) b in
      let b := put_fAreaJ (v0 indB) (v1 indB) (v2 indB)
                 (area_scale aFac2
                    (FAreaI slice (v0 indS + 1) (v1 indS) (v2 indS))) b in
      let b :=
        if l2 =? Dir2EndFirst inter - Dir2StartFirst inter - 1 then
          let b := put_fCenterJ (v0 indB) (v1 indB + 1) (v2 indB)
                     (FCenterI slice (v0 indS) (v1 indS) (v2 indS)) b in
          let b := put_fAreaJ (v0 indB) (v1 indB + 1) (v2 indB)
                     (area_scale aFac2
                        (FAreaI slice (v0 indS) (v1 indS) (v2 indS))) b in
          b
        else
          b in
      b in
  b.

(** The cell data and the chain of the nine cases; a pair of directions
    that no case takes terminates the job. *)
Definition PutGeomSlice_cell (inter : interblock) (slice : geomSlice)
           (d3 l1 l2 l3 : Z) (aFac1 aFac2 aFac3 : D)
           (indB indS : vector3d Z) (b : procBlock D PV)
  : res (procBlock D PV) :=
  let b := put_vol (v0 indB) (v1 indB) (v2 indB)
             (Vol slice (v0 indS) (v1 indS) (v2 indS)) b in
  let b := put_center (v0 indB) (v1 indB) (v2 indB)
             (Center slice (v0 indS) (v1 indS) (v2 indS)) b in
  if (Direction3First inter =? "i")%string && (Direction3Second inter =? "i")%string
  then Ok (PutGeomSlice_faces_ii inter slice d3 l1 l2 l3 aFac1 aFac2 aFac3
             indB indS b)
  else if (Direction3First inter =? "j")%string && (Direction3Second inter =? "j")%string
  then Ok (PutGeomSlice_faces_jj inter slice d3 l1 l2 l3 aFac1 aFac2 aFac3
             indB indS b)
  else if (Direction3First inter =? "k")%string && (Direction3Second inter =? "k")%string
  then Ok (PutGeomSlice_faces_kk inter slice d3 l1 l2 l3 aFac1 aFac2 aFac3
             indB indS b)
  else if (Direction3First inter =? "i")%string && (Direction3Second inter =? "j")%string
  then Ok (PutGeomSlice_faces_ij inter slice d3 l1 l2 l3 aFac1 aFac2 aFac3
             indB indS b)
  else if (Direction3First inter =? "i")%string && (Direction3Second inter =? "k")%string
  then Ok (PutGeomSlice_faces_ik inter slice d3 l1 l2 l3 aFac1 aFac2 aFac3
             indB indS b)
  else if (Direction3First inter =? "j")%string && (Direction3Second inter =? "i")%string
  then Ok (PutGeomSlice_faces_ji inter slice d3 l1 l2 l3 aFac1 aFac2 aFac3
             indB indS b)
  else if string_gtb (Direction3First inter) "j" && (Direction3Second inter =? "k")%string
  then Ok (PutGeomSlice_faces_jk inter slice d3 l1 l2 l3 aFac1 aFac2 aFac3
             indB indS b)
  else if (Direction3First inter =? "k")%string && (Direction3Second inter =? "i")%string
  then Ok (PutGeomSlice_faces_ki inter slice d3 l1 l2 l3 aFac1 aFac2 aFac3
             indB indS b)
  else if (Direction3First inter =? "k")%string && (Direction3Second inter =? "j")%string
  then Ok (PutGeomSlice_faces_kj inter slice d3 l1 l2 l3 aFac1 aFac2 aFac3
             indB indS b)
  else Abort.

(** *** [PutGeomSlice]: an element whose volume is 0

    Nothing is written.  If the target cell lies on an edge of the block, the
    flag of the edge of the patch it belongs to is set; an edge that runs
    along neither direction 1 nor direction 2 of the patch terminates the
    job. *)
Definition PutGeomSlice_skip (inter : interblock) (indB : vector3d Z)
           (b : procBlock D PV) (adjEdge : list bool)
  : res (procBlock D PV * list bool) :=
  match AtEdge b (v0 indB) (v1 indB) (v2 indB) true with
  | Some edgeDir =>
      let dir1 := if (Direction1First inter =? "i")%string then 0
                  else if (Direction1First inter =? "j")%string then 1
                  else 2 in
      let dir2 := if (Direction1First inter =? "i")%string then 1
                  else if (Direction1First inter =? "j")%string then 2
                  else 0 in
      if (edgeDir =? Direction1First inter)%string then
        if vec_at indB dir2 <? Dir2StartFirst inter + numGhosts_ b
        then Ok (b, <[2%nat := true]> adjEdge)
        else Ok (b, <[3%nat := true]> adjEdge)
      else if (edgeDir =? Direction2First inter)%string then
        if vec_at indB dir1 <? Dir1StartFirst inter + numGhosts_ b
        then Ok (b, <[0%nat := true]> adjEdge)
        else Ok (b, <[1%nat := true]> adjEdge)
      else Abort
  | None => Ok (b, adjEdge)
  end.

(** The factors that reverse the direction of an area. *)
Definition aFac3_of (inter : interblock) : D :=
  if Z.rem (BoundaryFirst inter + BoundarySecond inter) 2 =? 0
  then dlit (-1) else dlit 1.
Definition aFac1_of (inter : interblock) : D :=
  let o := Orientation inter in
  if (o =? 3) || (o =? 4) || (o =? 7) || (o =? 8) then dlit (-1) else dlit 1.
Definition aFac2_of (inter : interblock) : D :=
  let o := Orientation inter in
  if (o =? 5) || (o =? 6) || (o =? 7) || (o =? 8) then dlit (-1) else dlit 1.

(** The body of the three loops, for the position [l1], [l2], [l3]. *)
Definition PutGeomSlice_body (slice : geomSlice) (inter : interblock)
           (d3 : Z) (l3 l2 l1 : Z) (s : procBlock D PV * list bool)
  : res (procBlock D PV * list bool) :=
  let '(b, adjEdge) := s in
  indB <-- GetSwapLoc l1 l2 l3 inter true ;;
  indS <-- GetSwapLoc l1 l2 l3 inter false ;;
  if deqb (Vol slice (v0 indS) (v1 indS) (v2 indS)) (dlit 0)
  then PutGeomSlice_skip inter indB b adjEdge
  else
    b' <-- PutGeomSlice_cell inter slice d3 l1 l2 l3 (aFac1_of inter)
             (aFac2_of inter) (aFac3_of inter) indB indS b ;;
    Ok (b', adjEdge).

(** [procBlock::PutGeomSlice]; the result is the block and the four flags
    [adjEdge]. *)
Definition PutGeomSlice (slice : geomSlice) (inter : interblock)
           (d3 numG : Z) (b : procBlock D PV)
  : res (procBlock D PV * list bool) :=
  let blkCell := (Dir1EndFirst inter - Dir1StartFirst inter) *
                 (Dir2EndFirst inter - Dir2StartFirst inter) * d3 in
  if negb (blkCell =? geom_NumCells slice) then Abort
  else
    let adjS1 := if Dir1StartInterBorderFirst inter then numG else 0 in
    let adjE1 := if Dir1EndInterBorderFirst inter then numG else 0 in
    let adjS2 := if Dir2StartInterBorderFirst inter then numG else 0 in
    let adjE2 := if Dir2EndInterBorderFirst inter then numG else 0 in
    let adjEdge := replicate 4 false in
    for_range_res 0 d3 (fun l3 =>
      for_range_res adjS2
        (Dir2EndFirst inter - Dir2StartFirst inter - adjE2) (fun l2 =>
        for_range_res adjS1
          (Dir1EndFirst inter - Dir1StartFirst inter - adjE1) (fun l1 =>
          PutGeomSlice_body slice inter d3 l3 l2 l1)))
      (b, adjEdge).

(** [procBlock::PutStateSlice] *)
Definition PutStateSlice (slice : stateSlice) (inter : interblock)
           (d3 numG : Z) (b : procBlock D PV) : res (procBlock D PV) :=
  let blkCell := (Dir1EndFirst inter - Dir1StartFirst inter) *
                 (Dir2EndFirst inter - Dir2StartFirst inter) * d3 in
  if negb (blkCell =? state_NumCells slice) then Abort
  else
    let adjS1 := if Dir1StartInterBorderFirst inter then numG else 0 in
    let adjE1 := if Dir1EndInterBorderFirst inter then numG else 0 in
    let adjS2 := if Dir2StartInterBorderFirst inter then numG else 0 in
    let adjE2 := if Dir2EndInterBorderFirst inter then numG else 0 in
    for_range_res 0 d3 (fun l3 =>
      for_range_res adjS2
        (Dir2EndFirst inter - Dir2StartFirst inter - adjE2) (fun l2 =>
        for_range_res adjS1
          (Dir1EndFirst inter - Dir1StartFirst inter - adjE1) (fun l1 b =>
          indB <-- GetSwapLoc l1 l2 l3 inter true ;;
          indS <-- GetSwapLoc l1 l2 l3 inter false ;;
          Ok (set_state_
                (ma_set (state_ b) (v0 indB) (v1 indB) (v2 indB)
                        (State slice (v0 indS) (v1 indS) (v2 indS))) b))))
      b.

(** *** [SwapSlice] *)

(** The index range of a slice: [is], [ie], [js], [je], [ks], [ke]. *)
Record sliceRange : Type := mkRange {
  r_is : Z; r_ie : Z; r_js : Z; r_je : Z; r_ks : Z; r_ke : Z }.

(** The range of the slice that one side gives: the ghost layers deep along
    the normal, from the first interior cell, and the patch with the ghost
    cells along directions 1 and 2. *)
Definition slice_range (boundary constSurface d1Start d1End d2Start d2End
                        numGhosts : Z) : res sliceRange :=
  let upLowFac := if Z.rem boundary 2 =? 0 then 0 else numGhosts in
  if (boundary =? 1) || (boundary =? 2) then
    let is1 := constSurface + upLowFac in
    let ie1 := is1 + numGhosts - 1 in
    let js1 := d1Start in
    let je1 := d1End - 1 + 2 * numGhosts in
    let ks1 := d2Start in
    let ke1 := d2End - 1 + 2 * numGhosts in
    Ok (mkRange is1 ie1 js1 je1 ks1 ke1)
  else if (boundary =? 3) || (boundary =? 4) then
    let js1 := constSurface + upLowFac in
    let je1 := js1 + numGhosts - 1 in
    let ks1 := d1Start in
    let ke1 := d1End - 1 + 2 * numGhosts in
    let is1 := d2Start in
    let ie1 := d2End - 1 + 2 * numGhosts in
    Ok (mkRange is1 ie1 js1 je1 ks1 ke1)
  else if (boundary =? 5) || (boundary =? 6) then
    let ks1 := constSurface + upLowFac in
    let ke1 := ks1 + numGhosts - 1 in
    let is1 := d1Start in
    let ie1 := d1End - 1 + 2 * numGhosts in
    let js1 := d2Start in
    let je1 := d2End - 1 + 2 * numGhosts in
    Ok (mkRange is1 ie1 js1 je1 ks1 ke1)
  else Abort.

(** Parts of the repository that are not among the sources: the
    constructors of the two slices from a block and an index range
    ([slices.cpp]) and [interblock::AdjustForSlice]. *)
Context (geomSlice_of : procBlock D PV -> sliceRange -> geomSlice).
Context (stateSlice_of : procBlock D PV -> sliceRange -> stateSlice).
Context (AdjustForSlice : bool -> Z -> interblock -> interblock).

(** The loop that records the flags in the inter-block record. *)
Definition update_borders (adjEdge1 adjEdge2 : list bool)
           (inter : interblock) : interblock :=
  for_loop (Z.of_nat (length adjEdge1)) (fun ii inter =>
    let inter := if border adjEdge1 (Z.to_nat ii)
                 then UpdateBorderFirst ii inter else inter in
    if border adjEdge2 (Z.to_nat ii)
    then UpdateBorderSecond ii inter else inter) inter.

(** [SwapSlice(inter, blk1, blk2, geom)]; the result is the inter-block
    record and the two blocks. *)
Definition SwapSlice (inter : interblock) (blk1 blk2 : procBlock D PV)
           (geom : bool)
  : res (interblock * procBlock D PV * procBlock D PV) :=
  r1 <-- slice_range (BoundaryFirst inter) (ConstSurfaceFirst inter)
           (Dir1StartFirst inter) (Dir1EndFirst inter)
           (Dir2StartFirst inter) (Dir2EndFirst inter) (NumGhosts blk1) ;;
  r2 <-- slice_range (BoundarySecond inter) (ConstSurfaceSecond inter)
           (Dir1StartSecond inter) (Dir1EndSecond inter)
           (Dir2StartSecond inter) (Dir2EndSecond inter) (NumGhosts blk2) ;;
  let inter1 := AdjustForSlice false (NumGhosts blk1) inter in
  let inter2 := AdjustForSlice true (NumGhosts blk2) inter in
  if geom then
    let geom1 := geomSlice_of blk1 r1 in
    let geom2 := geomSlice_of blk2 r2 in
    p1 <-- PutGeomSlice geom2 inter2 (NumGhosts blk2) (NumGhosts blk2) blk1 ;;
    p2 <-- PutGeomSlice geom1 inter1 (NumGhosts blk1) (NumGhosts blk1) blk2 ;;
    Ok (update_borders (snd p1) (snd p2) inter, fst p1, fst p2)
  else
    let state1 := stateSlice_of blk1 r1 in
    let state2 := stateSlice_of blk2 r2 in
    blk1' <-- PutStateSlice state2 inter2 (NumGhosts blk2) (NumGhosts blk2)
                blk1 ;;
    blk2' <-- PutStateSlice state1 inter1 (NumGhosts blk1) (NumGhosts blk1)
                blk2 ;;
    Ok (inter, blk1', blk2').

(** *** Notions used to state the results *)

(** The positions of the slice that the loops of [PutGeomSlice] visit. *)
Definition visited (inter : interblock) (d3 numG l1 l2 l3 : Z) : Prop :=
  let adjS1 := if Dir1StartInterBorderFirst inter then numG else 0 in
  let adjE1 := if Dir1EndInterBorderFirst inter then numG else 0 in
  let adjS2 := if Dir2StartInterBorderFirst inter then numG else 0 in
  let adjE2 := if Dir2EndInterBorderFirst inter then numG else 0 in
  0 <= l3 < d3 /\
  adjS2 <= l2 < Dir2EndFirst inter - Dir2StartFirst inter - adjE2 /\
  adjS1 <= l1 < Dir1EndFirst inter - Dir1StartFirst inter - adjE1.

(** The flag that belongs to a target cell on an edge of the block that
    runs in the direction [edgeDir]: an edge along direction 1 of the patch
    lies at the start (flag 2) or at the end (flag 3) of direction 2, an
    edge along direction 2 at the start (flag 0) or at the end (flag 1) of
    direction 1; the start side is the one whose index is below the first
    cell of the patch.  An edge along the normal of the patch has no flag. *)
Definition edge_flag (inter : interblock) (b : procBlock D PV)
           (indB : vector3d Z) (edgeDir : string) : option nat :=
  let along (d : string) : Z :=
    if (d =? "i")%string then v0 indB
    else if (d =? "j")%string then v1 indB else v2 indB in
  if (edgeDir =? Direction1First inter)%string then
    if along (Direction2First inter) <? Dir2StartFirst inter + numGhosts_ b
    then Some 2%nat else Some 3%nat
  else if (edgeDir =? Direction2First inter)%string then
    if along (Direction1First inter) <? Dir1StartFirst inter + numGhosts_ b
    then Some 0%nat else Some 1%nat
  else None.

(** The flags after a skipped element with the target cell [indB]. *)
Definition flags_after_skip (inter : interblock) (b : procBlock D PV)
           (indB : vector3d Z) (adjEdge : list bool) : list bool :=
  match AtEdge b (v0 indB) (v1 indB) (v2 indB) true with
  | Some edgeDir =>
      match edge_flag inter b indB edgeDir with
      | Some n => <[n := true]> adjEdge
      | None => adjEdge
      end
  | None => adjEdge
  end.

(** The target cell lies in the ghost layers along the normal of the first
    patch, where a swap writes: its index along the normal is not the index
    of a physical cell. *)
Definition in_ghost_layers (inter : interblock) (b : procBlock D PV)
           (indB : vector3d Z) : Prop :=
  let G := numGhosts_ b in
  ((Direction3First inter =? "i")%string = true ->
   ~ (G <= v0 indB < NumI b + G)) /\
  ((Direction3First inter =? "j")%string = true ->
   ~ (G <= v1 indB < NumJ b + G)) /\
  ((Direction3First inter =? "k")%string = true ->
   ~ (G <= v2 indB < NumK b + G)).

(** Two blocks with the same extents and the same number of ghost
    layers. *)
Definition same_extent (b b' : procBlock D PV) : Prop :=
  residual_ b' = residual_ b /\ numGhosts_ b' = numGhosts_ b.

(** From one state of the loops of [PutGeomSlice] to a later one the
    extents stay, there are as many flags, and a flag that is set stays
    set. *)
Definition flags_grow (s1 s2 : procBlock D PV * list bool) : Prop :=
  same_extent (fst s1) (fst s2) /\
  length (snd s2) = length (snd s1) /\
  forall n : nat, snd s1 !! n = Some true -> snd s2 !! n = Some true.

(** The geometry of a block at one index: the volume, the cell centre, the
    three face areas and the three face centres stored there. *)
Definition geometry_at (b : procBlock D PV) (i j k : Z) :=
  (ma_get (vol_ b) i j k, ma_get (center_ b) i j k,
   ma_get (fAreaI_ b) i j k, ma_get (fAreaJ_ b) i j k,
   ma_get (fAreaK_ b) i j k, ma_get (fCenterI_ b) i j k,
   ma_get (fCenterJ_ b) i j k, ma_get (fCenterK_ b) i j k).

End Defs.
Arguments geomSlice D : clear implicits.
Arguments stateSlice PV : clear implicits.
End Swap.

(** ** Classes of cells and padding ([src/procBlock.cpp]: [IsPhysical],
       [AtCorner], [PadWithGhosts]) *)

Module Cells.
Section Defs.
Context {D PV : Type}.

(** [procBlock::IsPhysical]: no index lies outside the physical cells. *)
Definition IsPhysical (b : procBlock D PV) (ii jj kk : Z)
           (includeGhost : bool) : bool :=
  let offset := if includeGhost then numGhosts_ b else 0 in
  if ((ii <? offset) || (ii >? NumI b - 1 + offset)) ||
     ((jj <? offset) || (jj >? NumJ b - 1 + offset)) ||
     ((kk <? offset) || (kk >? NumK b - 1 + offset))
  then false
  else true.

(** [procBlock::AtCorner]: every index lies outside the physical cells. *)
Definition AtCorner (b : procBlock D PV) (ii jj kk : Z)
           (includeGhost : bool) : bool :=
  let offset := if includeGhost then numGhosts_ b else 0 in
  if ((ii <? offset) || (ii >? NumI b - 1 + offset)) &&
     ((jj <? offset) || (jj >? NumJ b - 1 + offset)) &&
     ((kk <? offset) || (kk >? NumK b - 1 + offset))
  then true
  else false.
End Defs.

(** [PadWithGhosts(var, numGhosts)]: a new array with [numGhosts] more
    layers on every side, into whose middle [var] is inserted.  [dflt] is
    the value [T()] that the elements of a new array have. *)
Definition PadWithGhosts {T : Type} (dflt : T) (var : multiArray3d T)
           (numGhosts : Z) : res (multiArray3d T) :=
  let padBlk := ma_const (maNumI var + 2 * numGhosts)
                         (maNumJ var + 2 * numGhosts)
                         (maNumK var + 2 * numGhosts) dflt in
  Insert padBlk numGhosts (maNumI padBlk - numGhosts - 1)
         numGhosts (maNumJ padBlk - numGhosts - 1)
         numGhosts (maNumK padBlk - numGhosts - 1) var.
End Cells.

(** ** Stencil widths ([src/src/utility.cpp], [StencilWidth]) *)

Module Stencil.
Section Defs.
Context {D : Type} `{DoubleOps D}.

(** [std::accumulate(std::begin(v) + first, std::begin(v) + last, init)]:
    the elements [first .. last - 1] are added to [init] from the left.
    (Iterators outside the container have no defined meaning in C++; the
    model stops at the end of the container.) *)
Definition accumulate (v : list D) (first last : Z) (init : D) : D :=
  foldl dadd init (take (Z.to_nat (last - first)) (drop (Z.to_nat first) v)).

(** [StencilWidth(cellWidth, start, end)] *)
Definition StencilWidth (cellWidth : list D) (start end_ : Z) : D :=
  let width := dlit 0 in
  if end_ >? start then accumulate cellWidth start end_ (dlit 0)
  else if start >? end_
       then (dlit (-1) * accumulate cellWidth end_ start (dlit 0))%dbl
       else width.
End Defs.
End Stencil.

(** ** Coefficients of the WENO reconstructions ([src/src/utility.cpp],
       [LagrangeCoeff]) *)

Module Weno.
Import Stencil.
Section Defs.
Context {D : Type} `{DoubleOps D}.

(** [LagrangeCoeff(cellWidth, degree, rr, ii)].  The result is [None] when
    [cellWidth[ii - rr + jj]] lies outside the vector. *)
Definition LagrangeCoeff (cellWidth : list D) (degree rr ii : Z)
  : option (list D) :=
  let coeffs := replicate (Z.to_nat (degree + 1)) (dlit 0) in
  for_loop (Z.of_nat (length coeffs)) (fun jj r =>
    coeffs ← r;
    let coeffs :=
      for_loop (degree + 1 - jj) (fun x coeffs =>
        let mm := jj + 1 + x in
        let nd :=  (* numer, denom *)
          for_loop (degree + 2) (fun ll nd =>
            if negb (ll =? mm) then
              let numProd :=
                for_loop (degree + 2) (fun qq numProd =>
                  if negb (qq =? mm) && negb (qq =? ll)
                  then (numProd *
                        StencilWidth cellWidth (ii - rr + qq) (ii + 1))%dbl
                  else numProd) (dlit 1) in
              ((fst nd + numProd)%dbl,
               (snd nd *
                StencilWidth cellWidth (ii - rr + ll) (ii - rr + mm))%dbl)
            else nd) (dlit 0, dlit 1) in
        alter (fun c => (c + fst nd / snd nd)%dbl) (Z.to_nat jj) coeffs)
        coeffs in
    w ← nthZ cellWidth (ii - rr + jj);
    Some (alter (fun c => (c * w)%dbl) (Z.to_nat jj) coeffs)) (Some coeffs).
End Defs.
End Weno.

(** ** Allocation of a block ([src/procBlock.cpp]: the constructor
       [procBlock(ni, nj, nk, numG)] and [CleanResizeVecs]) *)

Module Alloc.
Section Defs.
Context {D PV : Type} `{DoubleOps D}.

(** The elements of a new array are [T()], or the value given.
    [primVars()] and the macro [DEFAULTWALLDIST] are not among the sources;
    they are parameters. *)
Context (primVars0 : PV) (DEFAULTWALLDIST : D).

Definition vector3d0 : vector3d D := Vec3 (dlit 0) (dlit 0) (dlit 0).
Definition unitVec3dMag0 : unitVec3dMag D := mkArea vector3d0 (dlit 0).
Definition genArray0 : genArray D := genArray_const (dlit 0).

(** [a.ClearResize(ni, nj, nk)] and [a.ClearResize(ni, nj, nk, val)],
    modelled from their use ([multiArray3d.hpp] is not among the sources):
    the array is emptied and given the extents [ni], [nj], [nk], all its
    elements being [val] ([T()] where no value is given). *)
Definition ClearResize {T : Type} (a : multiArray3d T) (ni nj nk : Z)
           (val : T) : multiArray3d T :=
  ma_const ni nj nk val.

(** The constructor [procBlock(ni, nj, nk, numG)], which allocates the
    space of a block. *)
Definition procBlock_alloc (ni nj nk numG : Z) : procBlock D PV :=
  mkProcBlock
    (ma_const (ni + 2 * numG) (nj + 2 * numG) (nk + 2 * numG) primVars0)
    (ma_const (ni + 2 * numG) (nj + 2 * numG) (nk + 2 * numG) vector3d0)
    (ma_const (ni + 2 * numG + 1) (nj + 2 * numG) (nk + 2 * numG)
              unitVec3dMag0)
    (ma_const (ni + 2 * numG) (nj + 2 * numG + 1) (nk + 2 * numG)
              unitVec3dMag0)
    (ma_const (ni + 2 * numG) (nj + 2 * numG) (nk + 2 * numG + 1)
              unitVec3dMag0)
    (ma_const (ni + 2 * numG + 1) (nj + 2 * numG) (nk + 2 * numG) vector3d0)
    (ma_const (ni + 2 * numG) (nj + 2 * numG + 1) (nk + 2 * numG) vector3d0)
    (ma_const (ni + 2 * numG) (nj + 2 * numG) (nk + 2 * numG + 1) vector3d0)
    (ma_const ni nj nk genArray0)
    (ma_const (ni + 2 * numG) (nj + 2 * numG) (nk + 2 * numG) (dlit 0))
    (ma_const ni nj nk (dlit 0))
    (ma_const ni nj nk (dlit 0))
    (ma_const ni nj nk (dlit 0))
    [] numG 0 0 0 0.

(** [procBlock::CleanResizeVecs(numI, numJ, numK)] *)
Definition CleanResizeVecs (numI numJ numK : Z) (b : procBlock D PV)
  : procBlock D PV :=
  let ig := numI + numGhosts_ b in
  let jg := numJ + numGhosts_ b in
  let kg := numK + numGhosts_ b in
  let state := ClearResize (state_ b) ig jg kg primVars0 in
  let center := ClearResize (center_ b) ig jg kg vector3d0 in
  let vol := ClearResize (vol_ b) ig jg kg (dlit 0) in
  let fCenterI := ClearResize (fCenterI_ b) (ig + 1) jg kg vector3d0 in
  let fAreaI := ClearResize (fAreaI_ b) (ig + 1) jg kg unitVec3dMag0 in
  let fCenterJ := ClearResize (fCenterJ_ b) ig (jg + 1) kg vector3d0 in
  let fAreaJ := ClearResize (fAreaJ_ b) ig (jg + 1) kg unitVec3dMag0 in
  let fCenterK := ClearResize (fCenterK_ b) ig jg (kg + 1) vector3d0 in
  let fAreaK := ClearResize (fAreaK_ b) ig jg (kg + 1) unitVec3dMag0 in
  let residual := ClearResize (residual_ b) numI numJ numK genArray0 in
  let avgWaveSpeed := ClearResize (avgWaveSpeed_ b) numI numJ numK (dlit 0) in
  let dt := ClearResize (dt_ b) numI numJ numK (dlit 0) in
  let wallDist :=
    ClearResize (wallDist_ b) numI numJ numK DEFAULTWALLDIST in
  mkProcBlock state center fAreaI fAreaJ fAreaK fCenterI fCenterJ fCenterK
    residual vol avgWaveSpeed dt wallDist (bc_ b) (numGhosts_ b)
    (parBlock_ b) (rank_ b) (globalPos_ b) (localPos_ b).
End Defs.

Section Extents.
Context {D PV : Type}.

(** The extents of an array, and those of all arrays of a block. *)
Definition extents {T : Type} (a : multiArray3d T) : Z * Z * Z :=
  (maNumI a, maNumJ a, maNumK a).

Definition block_extents (b : procBlock D PV) :=
  (extents (state_ b), extents (center_ b), extents (vol_ b),
   extents (fAreaI_ b), extents (fAreaJ_ b), extents (fAreaK_ b),
   extents (fCenterI_ b), extents (fCenterJ_ b), extents (fCenterK_ b),
   extents (residual_ b), extents (avgWaveSpeed_ b), extents (dt_ b),
   extents (wallDist_ b)).
End Extents.
End Alloc.

(** ** The time step of all blocks ([src/src/utility.cpp], [CalcTimeStep]) *)

Module Driver.
Import Solver.
Section Defs.
Context {D PV : Type} `{DoubleOps D} `{!Physics D PV}.

(** [CalcTimeStep(states, inp, aRef)]: the time step of every block of the
    processor, one block after the other. *)
Definition CalcTimeStep (inp : input D) (aRef : D)
           (states : list (procBlock D PV)) : res (list (procBlock D PV)) :=
  for_loop_res (Z.of_nat (length states)) (fun bb states =>
    match nthZ states bb with
    | Some blk =>
        blk' <-- CalcBlockTimeStep inp aRef blk ;;
        Ok (<[Z.to_nat bb := blk']> states)
    | None => Ok states
    end) states.

(** The state of the loop of [CalcTimeStep] after [m] blocks. *)
Definition blocks_inv (inp : input D) (aRef : D)
           (states : list (procBlock D PV)) (m : Z)
           (r : res (list (procBlock D PV))) : Prop :=
  match r with
  | Ok l =>
      length l = length states /\
      (forall i : nat, m <= Z.of_nat i -> l !! i = states !! i) /\
      (forall (i : nat) b, Z.of_nat i < m -> states !! i = Some b ->
         exists b', l !! i = Some b' /\ CalcBlockTimeStep inp aRef b = Ok b')
  | Abort =>
      exists (i : nat) b, Z.of_nat i < m /\ states !! i = Some b /\
        CalcBlockTimeStep inp aRef b = Abort
  end.
End Defs.
End Driver.

(** ** Further notions used to state results *)

Module Notions.
Import Resid Hyperplane Gather Ghost.

(** The order of the hyperplane sweep: by hyperplane, within a hyperplane by
    k, then by j, then by i. *)
Definition sweep_lt (x y : vector3d Z) : Prop :=
  plane x < plane y \/
  plane x = plane y /\
  (v2 x < v2 y \/
   v2 x = v2 y /\ (v1 x < v1 y \/ v1 x = v1 y /\ v0 x < v0 y)).

(** A surface that [AssignGhostCellsGeom] passes over: an inter-block
    surface, or one whose type is none of the six sides. *)
Definition passed_over (s : boundarySurface) : Prop :=
  bcType s = "interblock"%string \/ ~ (1 <= surfaceType s <= 6).

(** The coordinates of a cell along the first and the second direction of a
    patch whose normal is [d3], and along the normal: for an i-patch they are
    j, k and i, for a j-patch k, i and j, for a k-patch i, j and k. *)
Definition along (d3 : string) (v : vector3d Z) : Z * Z * Z :=
  if (d3 =? "i")%string then (v1 v, v2 v, v0 v)
  else if (d3 =? "j")%string then (v2 v, v0 v, v1 v)
  else (v0 v, v1 v, v2 v).

Section Defs.
Context {D PV : Type}.

(** The members of a block other than the six arrays of face areas and face
    centres. *)
Definition cell_members (b : procBlock D PV) :=
  (state_ b, center_ b, vol_ b, residual_ b, avgWaveSpeed_ b, dt_ b,
   wallDist_ b, bc_ b, numGhosts_ b, parBlock_ b, rank_ b, globalPos_ b,
   localPos_ b).

(** The members of a block that are not geometry: all but the volumes, the
    cell centres and the six face arrays. *)
Definition solution_members (b : procBlock D PV) :=
  (state_ b, residual_ b, avgWaveSpeed_ b, dt_ b, wallDist_ b, bc_ b,
   numGhosts_ b, parBlock_ b, rank_ b, globalPos_ b, localPos_ b).

(** A function on blocks that leaves the mass component [residual_(i, j,
    k)[0]] of every residual as it is. *)
Definition keeps_mass (R : procBlock D PV -> procBlock D PV) : Prop :=
  forall b i j k,
    ma_get (residual_ (R b)) i j k !! 0%nat =
    ma_get (residual_ b) i j k !! 0%nat.

(** [blk'] is [blk] with other elements in the arrays state, residual, dt
    and avgWaveSpeed, of the same extents. *)
Definition gathered (blk blk' : procBlock D PV) : Prop :=
  blk' = set_avgWaveSpeed_ (avgWaveSpeed_ blk') (set_dt_ (dt_ blk')
           (set_residual_ (residual_ blk') (set_state_ (state_ blk') blk))) /\
  same_extents (state_ blk') (state_ blk) = true /\
  same_extents (residual_ blk') (residual_ blk) = true /\
  same_extents (dt_ blk') (dt_ blk) = true /\
  same_extents (avgWaveSpeed_ blk') (avgWaveSpeed_ blk) = true.

(** The number of blocks of the coordinator among the first [n] blocks: the
    value of [locNum] when the loop of [GetProcBlocks] reaches block [n]. *)
Definition locNum_at (ROOT : Z) (blocks : list (procBlock D PV)) (n : nat)
  : nat :=
  length (filter (fun blk => Rank blk = ROOT) (take n blocks)).

(** The state of the loop of the coordinator in [GetProcBlocks] after [m]
    iterations. *)
Definition root_inv (ROOT : Z) (blocks localBlocks : list (procBlock D PV))
           (net : network D PV) (m : Z)
           (acc : outcome (list (procBlock D PV) * Z * network D PV))
  : Prop :=
  match acc with
  | Done (bl, locNum, nt) =>
      length bl = length blocks /\
      locNum = Z.of_nat (locNum_at ROOT blocks (Z.to_nat m)) /\
      (forall i : nat, (Z.to_nat m <= i)%nat -> bl !! i = blocks !! i) /\
      (forall (i : nat) blk, (i < Z.to_nat m)%nat -> blocks !! i = Some blk ->
         (Rank blk = ROOT ->
          bl !! i = localBlocks !! locNum_at ROOT blocks i) /\
         (Rank blk <> ROOT ->
          exists blk', bl !! i = Some blk' /\ gathered blk blk')) /\
      (Forall (fun blk => Rank blk = ROOT) (take (Z.to_nat m) blocks) ->
       nt = net)
  | _ => True
  end.

(** The blocks that the processes [workers] own, each with the rank of its
    process; a process is given by its rank and its local blocks. *)
Definition sent_blocks (workers : list (Z * list (procBlock D PV)))
  : list (Z * procBlock D PV) :=
  workers ≫= (fun p => (fun w => (fst p, w)) <$> snd p).

(** The processes [workers] call [GetProcBlocks] one after the other, each
    with its local blocks and a dummy for the list of all blocks; the result
    is the network after the last call. *)
Fixpoint workers_gather (ROOT : Z)
         (workers : list (Z * list (procBlock D PV))) (net : network D PV)
  : outcome (network D PV) :=
  match workers with
  | [] => Done net
  | (rank, localBlocks) :: rest =>
      match GetProcBlocks ROOT [] localBlocks rank net with
      | Done (_, net') => workers_gather ROOT rest net'
      | Blocked => Blocked
      | Failed => Failed
      end
  end.

(** The four arrays of [w] that are gathered have the extents of those of
    [blk]. *)
Definition fits (w blk : procBlock D PV) : Prop :=
  same_extents (state_ w) (state_ blk) = true /\
  same_extents (residual_ w) (residual_ blk) = true /\
  same_extents (dt_ w) (dt_ blk) = true /\
  same_extents (avgWaveSpeed_ w) (avgWaveSpeed_ blk) = true.

(** The message that [GetProcBlocks] sends for a block, given with the rank
    of its process. *)
Definition message_of (ROOT : Z) (q : Z * procBlock D PV) : message D PV :=
  mkMessage (fst q) ROOT (GlobalPos (snd q)) (buffer_of_claim (snd q)).

(** The oldest message for the coordinator from [source] with the tag
    [tag]. *)
Definition first_message (ROOT source tag : Z) (net : network D PV)
  : option (message D PV) :=
  fst <$> MPI_Recv source tag ROOT net.

(** The state of the loop of the coordinator in [GetProcBlocks] after [m]
    iterations, when the network [net] it starts from holds a fitting
    message for every block of another rank: the blocks done hold the local
    blocks or the arrays of their messages, and the messages of the blocks
    to come are still there. *)
Definition gather_inv (ROOT : Z) (blocks localBlocks : list (procBlock D PV))
           (net : network D PV) (m : Z)
           (acc : outcome (list (procBlock D PV) * Z * network D PV))
  : Prop :=
  match acc with
  | Done (bl, locNum, nt) =>
      length bl = length blocks /\
      locNum = Z.of_nat (locNum_at ROOT blocks (Z.to_nat m)) /\
      (forall i : nat, (Z.to_nat m <= i)%nat -> bl !! i = blocks !! i) /\
      (forall (i : nat) blk, (i < Z.to_nat m)%nat -> blocks !! i = Some blk ->
         (Rank blk = ROOT ->
          bl !! i = localBlocks !! locNum_at ROOT blocks i) /\
         (Rank blk <> ROOT ->
          forall w,
            first_message ROOT (Rank blk) (GlobalPos blk) net =
              Some (message_of ROOT (Rank blk, w)) ->
            bl !! i =
              Some (set_avgWaveSpeed_ (avgWaveSpeed_ w) (set_dt_ (dt_ w)
                      (set_residual_ (residual_ w)
                         (set_state_ (state_ w) blk)))))) /\
      (forall (i : nat) blk, (Z.to_nat m <= i)%nat -> blocks !! i = Some blk ->
         Rank blk <> ROOT ->
         first_message ROOT (Rank blk) (GlobalPos blk) nt =
         first_message ROOT (Rank blk) (GlobalPos blk) net)
  | _ => False
  end.

(** The volume of the cell with the index [n] along the normal of an i-, a
    j- or a k-surface and the indices [a] and [c] along the two other
    directions, in their order. *)
Definition vol_I (b : procBlock D PV) (n a c : Z) : D := ma_get (vol_ b) n a c.
Definition vol_J (b : procBlock D PV) (n a c : Z) : D := ma_get (vol_ b) a n c.
Definition vol_K (b : procBlock D PV) (n a c : Z) : D := ma_get (vol_ b) a c n.

(** The two ghost cells behind the cell [(a, c)] of a patch have the
    volumes of the interior cells: the first that of the cell next to the
    boundary, the second that of the next cell or, in a block one cell
    thick, that of the same cell. *)
Definition mirrored (v v' : Z -> Z -> Z -> D) (x : ghostIndices)
           (thin : bool) (a c : Z) : Prop :=
  v' (g1 x) a c = v (i1 x) a c /\
  v' (g2 x) a c = v (if thin then i1 x else i2 x) a c.

Definition ghost_volumes (b b' : procBlock D PV) (s : boundarySurface)
  : Prop :=
  let G := numGhosts_ b in
  let x := surface_indices (surfaceType s) (iMax s - 2 + G) (jMax s - 2 + G)
                           (kMax s - 2 + G) in
  (surfaceType s = 1 \/ surfaceType s = 2 ->
   forall j k,
     on_patch (jMin s) (jMax s) G j -> on_patch (kMin s) (kMax s) G k ->
     mirrored (vol_I b) (vol_I b') x (NumI b <? 2) j k) /\
  (surfaceType s = 3 \/ surfaceType s = 4 ->
   forall i k,
     on_patch (iMin s) (iMax s) G i -> on_patch (kMin s) (kMax s) G k ->
     mirrored (vol_J b) (vol_J b') x (NumJ b <? 2) i k) /\
  (surfaceType s = 5 \/ surfaceType s = 6 ->
   forall i j,
     on_patch (iMin s) (iMax s) G i -> on_patch (jMin s) (jMax s) G j ->
     mirrored (vol_K b) (vol_K b') x (NumK b <? 2) i j).

(** A cell that is no ghost cell behind a face of the block: a physical
    cell, or a ghost cell at an edge or a corner, which lies outside the
    physical cells along two directions or more. *)
Definition off_faces (b : procBlock D PV) (i j k : Z) : Prop :=
  let G := numGhosts_ b in
  let pi := G <= i < NumI b + G in
  let pj := G <= j < NumJ b + G in
  let pk := G <= k < NumK b + G in
  (pi /\ pj /\ pk) \/ (~ pi /\ ~ pj) \/ (~ pi /\ ~ pk) \/ (~ pj /\ ~ pk).

(** What one branch of [AssignGhostCellsGeom] does to the volumes [v], seen
    along its normal: nothing outside the two ghost layers over the patch,
    and the two layers get the volumes of the interior cells. *)
Definition vol_effect (x : ghostIndices) (thin : bool)
           (amin amax cmin cmax : Z) (v v2 : Z -> Z -> Z -> D) : Prop :=
  (forall n a c,
     (n <> g1 x /\ n <> g2 x) \/
     ~ (amin <= a <= amax /\ cmin <= c <= cmax) ->
     v2 n a c = v n a c) /\
  (forall a c, amin <= a <= amax -> cmin <= c <= cmax ->
     mirrored v v2 x thin a c).

(** The state of the loop of [AssignGhostCellsGeom] over the surfaces, seen
    from the volumes: the cells off the faces have the volumes of the block
    [b] the loop started from, and the ghost cells of the surfaces done have
    those of the interior cells. *)
Definition volumes_inv (b : procBlock D PV) (m : Z)
           (r : res (procBlock D PV)) : Prop :=
  exists b1, r = Ok b1 /\ ghost_frame b b1 /\
    (forall i j k, off_faces b i j k ->
       ma_get (vol_ b1) i j k = ma_get (vol_ b) i j k) /\
    forall (n : nat) s, Z.of_nat n < m -> bc_ b !! n = Some s ->
      bcType s <> "interblock"%string -> ghost_volumes b b1 s.
End Defs.

Section Norms.
Context {D PV : Type} `{DoubleOps D}.

(** The record [lf] points at an interior cell of the block [b] and at one
    of its equations, counted from 1, and its magnitude is that component of
    the residual of the cell. *)
Definition located (b : procBlock D PV) (lf : resid D) : Prop :=
  interior b (i_ lf) (j_ lf) (k_ lf) /\
  1 <= eqn lf <= NUMVARS /\
  blk lf = parBlock_ b /\
  ma_get (residual_ b) (i_ lf) (j_ lf) (k_ lf) !! Z.to_nat (eqn lf - 1) =
    Some (linf lf).

(** The state of the loops of [UpdateBlock] over the cells: the residual
    and the block number are those of [b], and the record is [lf] or points
    into [b]. *)
Definition norms_inv (b : procBlock D PV) (lf : resid D)
           (s : procBlock D PV * genArray D * resid D) : Prop :=
  residual_ (fst (fst s)) = residual_ b /\
  parBlock_ (fst (fst s)) = parBlock_ b /\
  (snd s = lf \/ located b (snd s)).
End Norms.
End Notions.

(** ** Concrete inputs *)

(** A small instance on which the definitions are run: exact rational
    arithmetic, a primitive state that is the list of its seven conserved
    values, a fluid at rest with unit sound speed and no flux through the
    faces, and unit cubes as cells. *)
Module Examples.
Import Solver Resid.

Definition qnth (l : list Qc) (n : nat) : Qc := default (Q2Qc 0) (l !! n).

#[export] Instance toyPhysics : Physics Qc (list Qc) := {|
  idealGas := unit;
  sutherland := unit;
  turbModel := unit;
  gradients := unit;
  tensor := unit;
  inviscidFlux := list Qc;
  viscousFlux := list Qc;
  ConsVars := fun pv _ => pv;
  primVars_of_cons := fun c _ _ => c;
  UpdateWithConsVars := fun pv _ du => ga_add pv du;
  FaceReconConst := fun pv => pv;
  FaceReconMUSCL := fun pv _ _ _ _ _ _ _ => pv;
  Velocity := fun _ => Vec3 (Q2Qc 0) (Q2Qc 0) (Q2Qc 0);
  SoS := fun _ _ => Q2Qc 1;
  Rho := fun _ => Q2Qc 1;
  Temperature := fun _ _ => Q2Qc 1;
  pv_add := ga_add;
  pv_scale := fun pv c => ga_scale c pv;
  Distance := fun _ _ => Q2Qc 1;
  DotProd := fun a b => (v0 a * v0 b + v1 a * v1 b + v2 a * v2 b)%dbl;
  Normalize := fun v => v;
  Gamma := fun _ => Q2Qc (7 # 5);
  Prandtl := fun _ => Q2Qc (18 # 25);
  Viscosity := fun _ _ => Q2Qc 1;
  EffectiveViscosity := fun _ _ => Q2Qc 1;
  NondimScaling := fun _ => Q2Qc 1;
  EddyVisc := fun _ _ _ _ => Q2Qc 0;
  VelGradI := fun _ _ _ _ => tt;
  VelGradJ := fun _ _ _ _ => tt;
  VelGradK := fun _ _ _ _ => tt;
  TempGradI := fun _ _ _ _ => Vec3 (Q2Qc 0) (Q2Qc 0) (Q2Qc 0);
  TempGradJ := fun _ _ _ _ => Vec3 (Q2Qc 0) (Q2Qc 0) (Q2Qc 0);
  TempGradK := fun _ _ _ _ => Vec3 (Q2Qc 0) (Q2Qc 0) (Q2Qc 0);
  TkeGradI := fun _ _ _ _ => Vec3 (Q2Qc 0) (Q2Qc 0) (Q2Qc 0);
  TkeGradJ := fun _ _ _ _ => Vec3 (Q2Qc 0) (Q2Qc 0) (Q2Qc 0);
  TkeGradK := fun _ _ _ _ => Vec3 (Q2Qc 0) (Q2Qc 0) (Q2Qc 0);
  OmegaGradI := fun _ _ _ _ => Vec3 (Q2Qc 0) (Q2Qc 0) (Q2Qc 0);
  OmegaGradJ := fun _ _ _ _ => Vec3 (Q2Qc 0) (Q2Qc 0) (Q2Qc 0);
  OmegaGradK := fun _ _ _ _ => Vec3 (Q2Qc 0) (Q2Qc 0) (Q2Qc 0);
  RoeFlux := fun _ _ _ _ => replicate 7 (Q2Qc 0);
  iflux_mul := fun f c => ga_scale c f;
  iflux_mul_l := fun c f => ga_scale c f;
  RhoVel := fun f => qnth f 0;
  RhoVelU := fun f => qnth f 1;
  RhoVelV := fun f => qnth f 2;
  RhoVelW := fun f => qnth f 3;
  RhoVelH := fun f => qnth f 4;
  RhoVelK := fun f => qnth f 5;
  RhoVelO := fun f => qnth f 6;
  mkViscousFlux := fun _ _ _ _ _ _ _ _ _ _ _ _ => replicate 6 (Q2Qc 0);
  vflux_mul := fun f c => ga_scale c f;
  vflux_mul_l := fun c f => ga_scale c f;
  MomX := fun f => qnth f 0;
  MomY := fun f => qnth f 1;
  MomZ := fun f => qnth f 2;
  Engy := fun f => qnth f 3;
  MomK := fun f => qnth f 4;
  MomO := fun f => qnth f 5 |}.

Definition toy_eos : @idealGas Qc (list Qc) toyPhysics := tt.
Definition toy_suth : @sutherland Qc (list Qc) toyPhysics := tt.
Definition toy_grads : @gradients Qc (list Qc) toyPhysics := tt.
Definition toy_turb : @turbModel Qc (list Qc) toyPhysics := tt.

Definition qvec (x y z : Q) : vector3d Qc := Vec3 (Q2Qc x) (Q2Qc y) (Q2Qc z).

(** A block of ni x nj x nk unit cubes with two ghost layers, state
    (1, 0, 0, 0, 1, 0, 0) and residual (1, 0, 0, 0, 0, 0, 0) in every cell,
    wave speed [aws] and time step [dt]. *)
Definition cube_block (ni nj nk : Z) (aws dt : Q) (bc : boundaryConditions)
  : procBlock Qc (list Qc) :=
  let G := 2 in
  mkProcBlock
    (ma_const (ni + 2 * G) (nj + 2 * G) (nk + 2 * G)
       (Q2Qc <$> [1; 0; 0; 0; 1; 0; 0]%Q))
    (mkArray (ni + 2 * G) (nj + 2 * G) (nk + 2 * G)
       (fun i j k => qvec (inject_Z (2 * i + 1) / 2) (inject_Z (2 * j + 1) / 2)
                          (inject_Z (2 * k + 1) / 2)))
    (ma_const (ni + 2 * G + 1) (nj + 2 * G) (nk + 2 * G)
       (mkArea (qvec 1 0 0) (Q2Qc 1)))
    (ma_const (ni + 2 * G) (nj + 2 * G + 1) (nk + 2 * G)
       (mkArea (qvec 0 1 0) (Q2Qc 1)))
    (ma_const (ni + 2 * G) (nj + 2 * G) (nk + 2 * G + 1)
       (mkArea (qvec 0 0 1) (Q2Qc 1)))
    (mkArray (ni + 2 * G + 1) (nj + 2 * G) (nk + 2 * G)
       (fun i j k => qvec (inject_Z i) (inject_Z (2 * j + 1) / 2)
                          (inject_Z (2 * k + 1) / 2)))
    (mkArray (ni + 2 * G) (nj + 2 * G + 1) (nk + 2 * G)
       (fun i j k => qvec (inject_Z (2 * i + 1) / 2) (inject_Z j)
                          (inject_Z (2 * k + 1) / 2)))
    (mkArray (ni + 2 * G) (nj + 2 * G) (nk + 2 * G + 1)
       (fun i j k => qvec (inject_Z (2 * i + 1) / 2) (inject_Z (2 * j + 1) / 2)
                          (inject_Z k)))
    (ma_const ni nj nk (Q2Qc <$> [1; 0; 0; 0; 0; 0; 0]%Q))
    (ma_const (ni + 2 * G) (nj + 2 * G) (nk + 2 * G) (Q2Qc 1))
    (ma_const ni nj nk (Q2Qc aws))
    (ma_const ni nj nk (Q2Qc dt))
    (ma_const ni nj nk (Q2Qc 1))
    bc G 0 0 0 0.

(** Inputs: explicit Euler or RK4 with CFL = 1/2 and no fixed time step; a
    fixed time step 1/4; and neither of the two. *)
Definition input_of (scheme : string) (dt cfl : Q) : input Qc :=
  mkInput (Q2Qc dt) (Q2Qc cfl) (Q2Qc 1) scheme "first" (Q2Qc (1 # 3))
          "none" false.

Definition inp_euler : input Qc := input_of "explicitEuler" 0 (1 # 2).
Definition inp_rk4 : input Qc := input_of "rk4" 0 (1 # 2).
Definition inp_fixed : input Qc := input_of "explicitEuler" (1 # 4) (1 # 2).
Definition inp_none : input Qc := input_of "explicitEuler" 0 0.

(** One cell; its wave speed 3 is the sum of the three inviscid spectral
    radii and its time step 1/6 is CFL * V / 3. *)
Definition one_cell : procBlock Qc (list Qc) := cube_block 1 1 1 3 (1 # 6) [].

(** A block of a worker of rank 1, at global position 1, and the
    coordinator's copy of it, which holds other values. *)
Definition worker_block : procBlock Qc (list Qc) :=
  SetGlobalPos 1 (SetRank 1 (cube_block 1 1 1 3 (1 # 6) [])).
Definition root_copy : procBlock Qc (list Qc) :=
  SetGlobalPos 1 (SetRank 1 (cube_block 1 1 1 0 0 [])).

(** A second block of the worker of rank 1, at global position 2, with the
    wave speed 7 and the time step 1/14, and the coordinator's copy of
    it. *)
Definition next_block : procBlock Qc (list Qc) :=
  SetGlobalPos 2 (SetRank 1 (cube_block 1 1 1 7 (1 # 14) [])).
Definition next_copy : procBlock Qc (list Qc) :=
  SetGlobalPos 2 (SetRank 1 (cube_block 1 1 1 0 0 [])).

(** Wall patches over the whole lower i-side and the whole upper j-side of
    a block of one cell. *)
Definition wall_i_lower : boundarySurface :=
  mkSurface "slipWall" 1 1 1 1 2 1 2 0.
Definition wall_j_upper : boundarySurface :=
  mkSurface "slipWall" 4 1 2 2 2 1 2 0.

(** One unit cube with these two walls. *)
Definition walled_cell : procBlock Qc (list Qc) :=
  cube_block 1 1 1 3 (1 # 6) [wall_i_lower; wall_j_upper].

(** One cell between the i-faces at x = 2 and x = 3 whose centroid, at
    x = 2 + 1/3, is not half-way between them (a cell that narrows towards
    its upper i-face), with a wall on its lower i-side. *)
Definition taper_cell : procBlock Qc (list Qc) :=
  set_center_
    (mkArray 5 5 5
       (fun i j k => qvec (inject_Z (3 * i + 1) / 3) (inject_Z (2 * j + 1) / 2)
                          (inject_Z (2 * k + 1) / 2)))
    (cube_block 1 1 1 3 (1 # 6) [wall_i_lower]).

(** A patch on the upper i-side of the unit cube, given as [PutGeomSlice]
    gets it: with the ghost cells along j and k (five cells each way) and
    the first ghost layer, i = 3, as its constant surface; the partner's
    patch is a lower i-side, in the same orientation. *)
Definition upper_i_patch : interblock :=
  mkInterblock (0, 0) (0, 1) (0, 1) (2, 1) (0, 0) (5, 5) (0, 0) (5, 5)
    (3, 0) 1 (replicate 4 false) (replicate 4 false).

(** A slice of the partner, two layers deep, whose cells with k < 2 have
    not been given their geometry yet (volume 0); the others have the
    volume 2. *)
Definition half_filled_slice : Swap.geomSlice Qc :=
  Swap.mkGeomSlice
    (ma_const 2 5 5 (qvec 0 0 0))
    (ma_const 3 5 5 (mkArea (qvec 1 0 0) (Q2Qc 1)))
    (ma_const 2 6 5 (mkArea (qvec 0 1 0) (Q2Qc 1)))
    (ma_const 2 5 6 (mkArea (qvec 0 0 1) (Q2Qc 1)))
    (ma_const 3 5 5 (qvec 0 0 0))
    (ma_const 2 6 5 (qvec 0 0 0))
    (ma_const 2 5 6 (qvec 0 0 0))
    (mkArray 2 5 5 (fun i j k => if k <? 2 then Q2Qc 0 else Q2Qc 2))
    1.

Definition l2_zero : genArray Qc := genArray_const (Q2Qc 0).
Definition linf_zero : resid Qc := mkResid (Q2Qc 0) 0 0 0 0 0.
Definition no_du : multiArray3d (genArray Qc) := ma_const 1 1 1 l2_zero.

(** The values of a state as rationals in lowest terms. *)
Definition values (pv : list Qc) : list Q := this <$> pv.


(** The states of a slice of the partner, two layers deep: 50 states that
    differ from cell to cell. *)
Definition partner_states : Swap.stateSlice (list Qc) :=
  Swap.mkStateSlice
    (mkArray 2 5 5
       (fun i j k => Q2Qc <$> [inject_Z i; inject_Z j; inject_Z k; 0; 9; 0;
                               0]%Q))
    1.

(** An implicit scheme, and a correction of 1 in every equation. *)
Definition inp_implicit : input Qc := input_of "implicitEuler" 0 (1 # 2).
Definition unit_du : multiArray3d (genArray Qc) :=
  ma_const 1 1 1 (genArray_const (Q2Qc 1)).

(** A block without cells. *)
Definition empty_block : procBlock Qc (list Qc) :=
  cube_block 0 1 1 3 (1 # 6) [].

(** A block of the coordinator (rank 0) with the wave speed 5. *)
Definition local_block : procBlock Qc (list Qc) :=
  cube_block 1 1 1 5 (1 # 10) [].

(** One unit cube whose lower i-side is an inter-block surface. *)
Definition joined_cell : procBlock Qc (list Qc) :=
  cube_block 1 1 1 3 (1 # 6) [mkSurface "interblock" 1 1 1 1 2 1 2 0].

(** Two cells along i with a wall on the lower i-side; the volume of the
    cell (i, j, k), ghost cells included, is i + 1. *)
Definition graded_block : procBlock Qc (list Qc) :=
  set_vol_ (mkArray 6 5 5 (fun i _ _ => Q2Qc (inject_Z (i + 1))))
    (cube_block 2 1 1 3 (1 # 6) [wall_i_lower]).

(** A patch whose partner is a lower j-side, four cells along its first
    direction (k) and six along its second (i), in the orientation 7: the
    two directions are swapped and both are reversed. *)
Definition turned_patch : interblock :=
  mkInterblock (0, 0) (0, 1) (0, 1) (2, 3) (0, 0) (6, 4) (0, 0) (4, 6)
    (3, 0) 7 (replicate 4 false) (replicate 4 false).

End Examples.

(** ** Proofs *)

(** *** Loops that only append *)

Section AppendLoops.
Context {A : Type}.

(** A loop whose body appends [g x] to the accumulator builds the
    concatenation of the [g x]. *)
Lemma for_loop_append (n : Z) (body : Z -> list A -> list A)
      (g : Z -> list A) (acc : list A) :
  (forall x l, 0 <= x < n -> body x l = l ++ g x) ->
  for_loop n body acc = acc ++ (seqZ 0 n ≫= g).
Proof.
  unfold for_loop. intros Hbody.
  assert (Hin : forall x, x ∈ seqZ 0 n -> 0 <= x < n).
  { intros x Hx. apply elem_of_seqZ in Hx. lia. }
  revert acc. induction (seqZ 0 n) as [|x xs IH]; intros acc; simpl.
  - by rewrite app_nil_r.
  - rewrite Hbody by (apply Hin; left).
    rewrite IH by (intros y Hy; apply Hin; by right).
    by rewrite <- app_assoc.
Qed.
End AppendLoops.

(** *** Loops that write one entry per iteration *)

Section LoopLemmas.
Context {S : Type}.

Lemma for_loop_nonpos (n : Z) (body : Z -> S -> S) (s : S) :
  n <= 0 -> for_loop n body s = s.
Proof. intros Hn. unfold for_loop. by rewrite seqZ_nil. Qed.

Lemma for_loop_succ (n : Z) (body : Z -> S -> S) (s : S) :
  0 <= n -> for_loop (n + 1) body s = body n (for_loop n body s).
Proof.
  intros Hn. unfold for_loop.
  rewrite seqZ_app by lia. rewrite foldl_app.
  rewrite (seqZ_cons (0 + n) 1) by lia.
  rewrite (seqZ_nil _ (Z.pred 1)) by lia. simpl.
  by replace (0 + n) with n by lia.
Qed.

(** Induction over the iterations of a loop. *)
Lemma for_loop_ind (P : Z -> S -> Prop) (n : Z) (body : Z -> S -> S) (s : S) :
  0 <= n ->
  P 0 s ->
  (forall x s', 0 <= x < n -> P x s' -> P (x + 1) (body x s')) ->
  P n (for_loop n body s).
Proof.
  intros Hn H0 Hstep.
  assert (Hgen : forall m : nat, Z.of_nat m <= n ->
                   P (Z.of_nat m) (for_loop (Z.of_nat m) body s)).
  { induction m as [|m IH]; intros Hm.
    - by rewrite for_loop_nonpos.
    - replace (Z.of_nat (Datatypes.S m)) with (Z.of_nat m + 1) by lia.
      rewrite for_loop_succ by lia. apply Hstep; [lia|]. apply IH. lia. }
  specialize (Hgen (Z.to_nat n)). rewrite Z2Nat.id in Hgen by done.
  apply Hgen. lia.
Qed.

(** A property kept by every iteration is kept by the loop. *)
Lemma for_loop_preserve (P : S -> Prop) (n : Z) (body : Z -> S -> S) (s : S) :
  P s ->
  (forall x s', 0 <= x < n -> P s' -> P (body x s')) ->
  P (for_loop n body s).
Proof.
  intros H0 Hstep. destruct (decide (0 <= n)) as [Hn|Hn].
  - by apply (for_loop_ind (fun _ => P)).
  - by rewrite for_loop_nonpos by lia.
Qed.

(** The value of an observation [obs] after a loop in which only iteration
    [t] changes it, to a value computed from a part [frame] of the state
    that no iteration changes. *)
Lemma for_loop_obs {F X : Type} (frame : S -> F) (obs : S -> X)
      (g : F -> X -> X) (n t : Z) (body : Z -> S -> S) (s : S) :
  (forall x s', 0 <= x < n -> frame (body x s') = frame s') ->
  (forall x s', 0 <= x < n -> x <> t -> obs (body x s') = obs s') ->
  (forall s', 0 <= t < n -> obs (body t s') = g (frame s') (obs s')) ->
  frame (for_loop n body s) = frame s /\
  obs (for_loop n body s) =
    (if decide (0 <= t < n) then g (frame s) (obs s) else obs s).
Proof.
  intros Hframe Hother Htarget.
  destruct (decide (0 <= n)) as [Hn|Hn].
  2:{ rewrite for_loop_nonpos by lia. split; [done|].
      by rewrite decide_False by lia. }
  pose (P := fun (m : Z) (s' : S) =>
               frame s' = frame s /\
               obs s' = if decide (0 <= t < m) then g (frame s) (obs s)
                        else obs s).
  apply (for_loop_ind P); unfold P; [done| |].
  - split; [done|]. by rewrite decide_False by lia.
  - intros x s' Hx [Hf Ho]. split; [by rewrite Hframe|].
    destruct (decide (x = t)) as [->|Hne].
    + rewrite Htarget by done. rewrite Hf, Ho.
      rewrite decide_False by lia. by rewrite decide_True by lia.
    + rewrite Hother by done. rewrite Ho.
      destruct (decide (0 <= t < x)).
      * by rewrite decide_True by lia.
      * by rewrite decide_False by lia.
Qed.

(** The same for three nested loops, the form of the loops over the cells
    of a block. *)
Lemma for_loop3_obs {F X : Type} (frame : S -> F) (obs : S -> X)
      (g : F -> X -> X) (nk nj ni tk tj ti : Z)
      (body : Z -> Z -> Z -> S -> S) (s : S) :
  (forall k j i s', frame (body k j i s') = frame s') ->
  (forall k j i s', (k, j, i) <> (tk, tj, ti) ->
     obs (body k j i s') = obs s') ->
  (forall s', obs (body tk tj ti s') = g (frame s') (obs s')) ->
  let s' := for_loop nk (fun k => for_loop nj (fun j =>
              for_loop ni (fun i => body k j i))) s in
  frame s' = frame s /\
  obs s' =
    (if decide ((0 <= tk < nk) /\ (0 <= tj < nj) /\ (0 <= ti < ni))
     then g (frame s) (obs s) else obs s).
Proof.
  intros Hframe Hother Htarget.
  assert (Hinner : forall k j s0,
    frame (for_loop ni (fun i => body k j i) s0) = frame s0 /\
    obs (for_loop ni (fun i => body k j i) s0) =
      (if decide (k = tk /\ j = tj /\ 0 <= ti < ni)
       then g (frame s0) (obs s0) else obs s0)).
  { intros k j s0.
    destruct (decide (k = tk /\ j = tj)) as [[-> ->]|Hne].
    - destruct (for_loop_obs frame obs g ni ti (fun i => body tk tj i) s0)
        as [Hf Ho]; [by auto| |by auto|].
      { intros x s1 _ Hx. apply Hother. congruence. }
      split; [done|]. rewrite Ho.
      destruct (decide (0 <= ti < ni)).
      + by rewrite decide_True by done.
      + rewrite decide_False; [done|]. tauto.
    - split.
      + apply (for_loop_preserve (fun s1 => frame s1 = frame s0)); [done|].
        intros x s1 _ <-. apply Hframe.
      + rewrite decide_False by tauto.
        apply (for_loop_preserve (fun s1 => obs s1 = obs s0)); [done|].
        intros x s1 _ <-. apply Hother. intros Heq. apply Hne.
        by inversion Heq. }
  assert (Hmid : forall k s0,
    frame (for_loop nj (fun j => for_loop ni (fun i => body k j i)) s0) =
      frame s0 /\
    obs (for_loop nj (fun j => for_loop ni (fun i => body k j i)) s0) =
      (if decide (k = tk /\ (0 <= tj < nj) /\ 0 <= ti < ni)
       then g (frame s0) (obs s0) else obs s0)).
  { intros k s0.
    destruct (for_loop_obs frame obs
                (fun f o => if decide (k = tk /\ 0 <= ti < ni)
                            then g f o else o)
                nj tj (fun j => for_loop ni (fun i => body k j i)) s0)
      as [Hf Ho].
    - intros x s1 _. apply Hinner.
    - intros x s1 _ Hx. rewrite (proj2 (Hinner k x s1)).
      rewrite decide_False; [done|]. tauto.
    - intros s1 _. rewrite (proj2 (Hinner k tj s1)).
      destruct (decide (k = tk /\ 0 <= ti < ni)).
      + rewrite decide_True; [done|]. tauto.
      + rewrite decide_False; [done|]. tauto.
    - split; [done|]. rewrite Ho.
      destruct (decide (0 <= tj < nj)); destruct (decide (k = tk /\ 0 <= ti < ni)).
      + rewrite decide_True; [done|]. tauto.
      + rewrite decide_False; [done|]. tauto.
      + rewrite decide_False; [done|]. tauto.
      + rewrite decide_False; [done|]. tauto. }
  simpl.
  destruct (for_loop_obs frame obs
              (fun f o => if decide ((0 <= tj < nj) /\ 0 <= ti < ni)
                          then g f o else o)
              nk tk (fun k => for_loop nj (fun j =>
                       for_loop ni (fun i => body k j i))) s)
    as [Hf Ho].
  - intros x s1 _. apply Hmid.
  - intros x s1 _ Hx. rewrite (proj2 (Hmid x s1)).
    rewrite decide_False; [done|]. tauto.
  - intros s1 _. rewrite (proj2 (Hmid tk s1)).
    destruct (decide ((0 <= tj < nj) /\ 0 <= ti < ni)).
    + rewrite decide_True; [done|]. tauto.
    + rewrite decide_False; [done|]. tauto.
  - split; [done|]. rewrite Ho.
    destruct (decide (0 <= tk < nk));
      destruct (decide ((0 <= tj < nj) /\ 0 <= ti < ni)).
    + rewrite decide_True; [done|]. tauto.
    + rewrite decide_False; [done|]. tauto.
    + rewrite decide_False; [done|]. tauto.
    + rewrite decide_False; [done|]. tauto.
Qed.

End LoopLemmas.

Section ResLoopLemmas.
Context {S : Type}.

(** A loop whose body never terminates the job returns. *)
Lemma for_loop_res_ok (n : Z) (body : Z -> S -> res S) (f : Z -> S -> S)
      (s : S) :
  (forall x s', 0 <= x < n -> body x s' = Ok (f x s')) ->
  for_loop_res n body s = Ok (for_loop n f s).
Proof.
  intros Hbody. unfold for_loop_res.
  destruct (decide (0 <= n)) as [Hn|Hn].
  2:{ rewrite (for_loop_nonpos n) by lia.
      by rewrite (for_loop_nonpos n) by lia. }
  pose (P := fun (m : Z) (r : res S) => r = Ok (for_loop m f s)).
  apply (for_loop_ind P); unfold P; [done| |].
  - by rewrite for_loop_nonpos.
  - intros x r Hx ->. simpl. rewrite Hbody by done.
    by rewrite for_loop_succ by lia.
Qed.

(** A loop in which every iteration terminates the job, and which has at
    least one iteration, terminates the job. *)
Lemma for_loop_res_abort (n : Z) (body : Z -> S -> res S) (s : S) :
  0 < n ->
  (forall x s', 0 <= x < n -> body x s' = Abort) ->
  for_loop_res n body s = Abort.
Proof.
  intros Hn Hbody. unfold for_loop_res.
  replace n with ((n - 1) + 1) by lia.
  rewrite for_loop_succ by lia.
  destruct (for_loop (n - 1) _ (Ok s)) as [s'|]; simpl; [|done].
  apply Hbody. lia.
Qed.
End ResLoopLemmas.

Module HyperplaneProofs.
Import Hyperplane.

Lemma HyperplaneReorder_planes imax jmax kmax :
  HyperplaneReorder imax jmax kmax =
  seqZ 0 (imax + jmax + kmax - 2) ≫= plane_cells imax jmax kmax.
Proof.
  unfold HyperplaneReorder.
  rewrite (for_loop_append _ _ (plane_cells imax jmax kmax)); [done|].
  intros pp l _. unfold plane_cells.
  apply for_loop_append. intros kk l1 _.
  apply for_loop_append. intros jj l2 _.
  apply for_loop_append. intros ii l3 _.
  destruct (ii + jj + kk =? pp); [done | by rewrite app_nil_r].
Qed.

Lemma elem_of_plane_cells imax jmax kmax pp c :
  c ∈ plane_cells imax jmax kmax pp <->
  in_grid imax jmax kmax c /\ plane c = pp.
Proof.
  unfold plane_cells, in_grid, plane. split.
  - intros H.
    apply list_elem_of_bind in H as (kk & H & Hk).
    apply list_elem_of_bind in H as (jj & H & Hj).
    apply list_elem_of_bind in H as (ii & H & Hi).
    apply elem_of_seqZ in Hk, Hj, Hi.
    destruct (ii + jj + kk =? pp) eqn:E; [|by apply elem_of_nil in H].
    apply list_elem_of_singleton in H. subst c. simpl.
    apply Z.eqb_eq in E. lia.
  - intros [(Hi & Hj & Hk) Hp]. destruct c as [i j k]. simpl in *.
    apply list_elem_of_bind. exists k. split; [|apply elem_of_seqZ; lia].
    apply list_elem_of_bind. exists j. split; [|apply elem_of_seqZ; lia].
    apply list_elem_of_bind. exists i. split; [|apply elem_of_seqZ; lia].
    apply Z.eqb_eq in Hp. rewrite Hp. by apply list_elem_of_singleton.
Qed.

Lemma NoDup_plane_cells imax jmax kmax pp :
  NoDup (plane_cells imax jmax kmax pp).
Proof.
  unfold plane_cells.
  apply NoDup_bind; [| |apply NoDup_seqZ].
  - intros k1 k2 c _ _ H1 H2.
    apply list_elem_of_bind in H1 as (j1 & H1 & _).
    apply list_elem_of_bind in H1 as (i1 & H1 & _).
    apply list_elem_of_bind in H2 as (j2 & H2 & _).
    apply list_elem_of_bind in H2 as (i2 & H2 & _).
    destruct (i1 + j1 + k1 =? pp); [|by apply elem_of_nil in H1].
    destruct (i2 + j2 + k2 =? pp); [|by apply elem_of_nil in H2].
    apply list_elem_of_singleton in H1, H2. congruence.
  - intros kk _. apply NoDup_bind; [| |apply NoDup_seqZ].
    + intros j1 j2 c _ _ H1 H2.
      apply list_elem_of_bind in H1 as (i1 & H1 & _).
      apply list_elem_of_bind in H2 as (i2 & H2 & _).
      destruct (i1 + j1 + kk =? pp); [|by apply elem_of_nil in H1].
      destruct (i2 + j2 + kk =? pp); [|by apply elem_of_nil in H2].
      apply list_elem_of_singleton in H1, H2. congruence.
    + intros jj _. apply NoDup_bind; [| |apply NoDup_seqZ].
      * intros i1 i2 c _ _ H1 H2.
        destruct (i1 + jj + kk =? pp); [|by apply elem_of_nil in H1].
        destruct (i2 + jj + kk =? pp); [|by apply elem_of_nil in H2].
        apply list_elem_of_singleton in H1, H2. congruence.
      * intros ii _. destruct (ii + jj + kk =? pp);
          [apply NoDup_singleton | apply NoDup_nil_2].
Qed.

Lemma elem_of_HyperplaneReorder imax jmax kmax c :
  c ∈ HyperplaneReorder imax jmax kmax <-> in_grid imax jmax kmax c.
Proof.
  rewrite HyperplaneReorder_planes. split.
  - intros H. apply list_elem_of_bind in H as (pp & H & _).
    by apply elem_of_plane_cells in H as [H _].
  - intros H. apply list_elem_of_bind. exists (plane c). split.
    + by apply elem_of_plane_cells.
    + apply elem_of_seqZ. unfold in_grid, plane in *. lia.
Qed.

Lemma NoDup_HyperplaneReorder imax jmax kmax :
  NoDup (HyperplaneReorder imax jmax kmax).
Proof.
  rewrite HyperplaneReorder_planes.
  apply NoDup_bind; [| |apply NoDup_seqZ].
  - intros p1 p2 c _ _ H1 H2.
    apply elem_of_plane_cells in H1 as [_ H1].
    apply elem_of_plane_cells in H2 as [_ H2]. congruence.
  - intros pp _. apply NoDup_plane_cells.
Qed.

Lemma seqZ_split_at (m n p : Z) :
  0 <= p < n ->
  seqZ m n = seqZ m p ++ [m + p] ++ seqZ (m + p + 1) (n - p - 1).
Proof.
  intros Hp. replace n with (p + (n - p)) at 1 by lia.
  rewrite seqZ_app by lia. f_equal.
  rewrite seqZ_cons by lia. simpl.
  replace (Z.succ (m + p)) with (m + p + 1) by lia.
  by replace (Z.pred (n - p)) with (n - p - 1) by lia.
Qed.

(** In a concatenation of blocks indexed by an increasing range, an element
    of an earlier block sits at a smaller position than an element of a later
    block. *)
Lemma bind_seqZ_before (g : Z -> list (vector3d Z)) (n p q : Z) x y :
  0 <= p -> p < q -> q < n -> x ∈ g p -> y ∈ g q ->
  visited_before (seqZ 0 n ≫= g) x y.
Proof.
  intros Hp Hpq Hqn Hx Hy.
  assert (Hsplit : seqZ 0 n =
                   seqZ 0 p ++ [p] ++ seqZ (p + 1) (q - p - 1) ++ [q] ++
                   seqZ (q + 1) (n - q - 1)).
  { rewrite (seqZ_split_at 0 n p) by lia.
    rewrite (seqZ_split_at (0 + p + 1) (n - p - 1) (q - p - 1)) by lia.
    simpl.
    replace (0 + p) with p by lia.
    replace (p + 1 + (q - p - 1)) with q by lia.
    by replace (n - p - 1 - (q - p - 1) - 1) with (n - q - 1) by lia. }
  rewrite Hsplit. rewrite !bind_app. simpl. rewrite !app_nil_r.
  apply list_elem_of_lookup in Hx as [a Ha].
  apply list_elem_of_lookup in Hy as [b Hb].
  set (l0 := seqZ 0 p ≫= g).
  set (l1 := seqZ (p + 1) (q - p - 1) ≫= g).
  set (l2 := seqZ (q + 1) (n - q - 1) ≫= g).
  exists (length l0 + a)%nat, (length l0 + (length (g p) + (length l1 + b)))%nat.
  pose proof (lookup_lt_Some _ _ _ Ha) as Hlen.
  split; [lia|]. split.
  - rewrite lookup_app_r by lia.
    replace (length l0 + a - length l0)%nat with a by lia.
    by rewrite lookup_app_l.
  - rewrite lookup_app_r by lia.
    replace (length l0 + (length (g p) + (length l1 + b)) - length l0)%nat
      with (length (g p) + (length l1 + b))%nat by lia.
    rewrite lookup_app_r by lia.
    replace (length (g p) + (length l1 + b) - length (g p))%nat
      with (length l1 + b)%nat by lia.
    rewrite lookup_app_r by lia.
    replace (length l1 + b - length l1)%nat with b by lia.
    rewrite lookup_app_l; [done|]. by eapply lookup_lt_Some.
Qed.

Lemma lower_plane_before imax jmax kmax x y :
  in_grid imax jmax kmax x -> in_grid imax jmax kmax y ->
  plane x < plane y ->
  visited_before (HyperplaneReorder imax jmax kmax) x y.
Proof.
  intros Hx Hy Hlt. rewrite HyperplaneReorder_planes.
  apply (bind_seqZ_before _ _ (plane x) (plane y)).
  - unfold in_grid, plane in *. lia.
  - done.
  - unfold in_grid, plane in *. lia.
  - by apply elem_of_plane_cells.
  - by apply elem_of_plane_cells.
Qed.

(** The ordering of a 2 x 2 x 2 block, hyperplane after hyperplane. *)
Example HyperplaneReorder_2_2_2 :
  HyperplaneReorder 2 2 2 =
  [Vec3 0 0 0;
   Vec3 1 0 0; Vec3 0 1 0; Vec3 0 0 1;
   Vec3 1 1 0; Vec3 1 0 1; Vec3 0 1 1;
   Vec3 1 1 1].
Proof. reflexivity. Qed.

(** C5: the ordering returned by [HyperplaneReorder] for the dimensions
    (imax, jmax, kmax) -- in particular for all positive ones -- visits every
    cell of the grid exactly once (it has no duplicate, and a cell is listed
    if and only if it lies in the grid); and every lower neighbour (i-1,j,k),
    (i,j-1,k), (i,j,k-1) of a listed cell that is itself a physical cell lies
    on a strictly lower hyperplane i+j+k and is visited strictly earlier. *)
Theorem HyperplaneReorder_correct (imax jmax kmax : Z) :
  let order := HyperplaneReorder imax jmax kmax in
  NoDup order /\
  (forall c, c ∈ order <-> in_grid imax jmax kmax c) /\
  (forall c nb, c ∈ order -> nb ∈ lower_neighbors c ->
     in_grid imax jmax kmax nb ->
     plane nb < plane c /\ visited_before order nb c).
Proof.
  intros order. split; [apply NoDup_HyperplaneReorder|].
  split; [apply elem_of_HyperplaneReorder|].
  intros c nb Hc Hnb Hin.
  apply elem_of_HyperplaneReorder in Hc.
  assert (Hlt : plane nb < plane c).
  { unfold lower_neighbors in Hnb. unfold plane.
    repeat (apply elem_of_cons in Hnb as [->|Hnb]; [simpl; lia|]).
    by apply elem_of_nil in Hnb. }
  split; [done|]. by apply lower_plane_before.
Qed.

End HyperplaneProofs.

(** *** Reduction of the L-infinity residual *)

Module ResidProofs.
Import Resid.
Section Proofs.
Context {D : Type} `{DoubleOps D}.

Lemma maxLinf1_cases (a b : resid D) :
  maxLinf1 a b = a \/ maxLinf1 a b = b.
Proof. unfold maxLinf1. destruct (dgeb (linf a) (linf b)); auto. Qed.

Lemma MaxLinf_single (a b : resid D) :
  MaxLinf [a] [b] 1 = [maxLinf1 a b].
Proof. reflexivity. Qed.

Lemma reduction_elem_of ws r : reduction ws r -> r ∈ ws.
Proof.
  induction 1 as [w|ws1 ws2 a b _ IHa _ IHb].
  - by apply list_elem_of_singleton.
  - apply elem_of_app. destruct (maxLinf1_cases a b) as [->| ->]; auto.
Qed.

Context `{!DoubleOrder D}.

Lemma dgeb_refl (a : D) : dgeb a a = true.
Proof.
  pose proof (dgeb_total a a) as Ht.
  destruct (dgeb a a); [done | by apply Ht].
Qed.

Lemma maxLinf1_ge_l (a b : resid D) :
  dgeb (linf (maxLinf1 a b)) (linf a) = true.
Proof.
  unfold maxLinf1. destruct (dgeb (linf a) (linf b)) eqn:E.
  - apply dgeb_refl.
  - by apply dgeb_total.
Qed.

Lemma maxLinf1_ge_r (a b : resid D) :
  dgeb (linf (maxLinf1 a b)) (linf b) = true.
Proof.
  unfold maxLinf1. destruct (dgeb (linf a) (linf b)) eqn:E.
  - done.
  - apply dgeb_refl.
Qed.

Lemma reduction_ge ws r :
  reduction ws r -> forall w, w ∈ ws -> dgeb (linf r) (linf w) = true.
Proof.
  induction 1 as [w0|ws1 ws2 a b _ IHa _ IHb]; intros w Hw.
  - apply list_elem_of_singleton in Hw as ->. apply dgeb_refl.
  - apply elem_of_app in Hw as [Hw|Hw].
    + eapply dgeb_trans; [apply maxLinf1_ge_l | by apply IHa].
    + eapply dgeb_trans; [apply maxLinf1_ge_r | by apply IHb].
Qed.
End Proofs.

Lemma reduce_ranks_reduction {D} `{DoubleOps D} (w : resid D) ws :
  reduction (w :: ws) (reduce_ranks w ws).
Proof.
  revert w. induction ws as [|w' ws IH]; intros w; simpl.
  - constructor.
  - apply (reduction_node [w] (w' :: ws)); [constructor | apply IH].
Qed.

#[export] Instance Qc_order : DoubleOrder Qc.
Proof.
  split.
  - intros a b. unfold dgeb. simpl. intros Hab.
    apply Qle_bool_iff. destruct (Qlt_le_dec (this a) (this b)) as [Hlt|Hle].
    + by apply Qlt_le_weak.
    + apply Qle_bool_iff in Hle. congruence.
  - intros a b c. unfold dgeb. simpl. rewrite !Qle_bool_iff.
    intros Hba Hcb. by eapply Qle_trans.
Qed.

(** C6: for every pair of residual records, the operation [MaxLinf] leaves in
    [inout] a record that is one of the two inputs, unchanged in all six
    fields (so its locator is that input's locator), and whose L-infinity
    magnitude is greater than or equal to both inputs' magnitudes, that is,
    their maximum.  Hence the result of any reduction of the workers' records
    with this operation is one of the workers' records and its magnitude is
    greater than or equal to every worker's magnitude. *)
Theorem MaxLinf_max_preserves_locator {D} `{DoubleOps D} :
  DoubleOrder D ->
  (forall a b : resid D,
     exists r, MaxLinf [a] [b] 1 = [r] /\
       (r = a \/ r = b) /\
       dgeb (linf r) (linf a) = true /\ dgeb (linf r) (linf b) = true) /\
  (forall (ws : list (resid D)) (r : resid D),
     reduction ws r ->
     r ∈ ws /\ forall w, w ∈ ws -> dgeb (linf r) (linf w) = true).
Proof.
  intros Hord. split.
  - intros a b. exists (maxLinf1 a b). rewrite MaxLinf_single.
    split; [done|]. split; [apply maxLinf1_cases|].
    split; [apply maxLinf1_ge_l | apply maxLinf1_ge_r].
  - intros ws r Hr. split; [by apply reduction_elem_of|].
    by apply reduction_ge.
Qed.

(** Three workers; the second holds the largest residual, its locator is
    the one reported. *)
Lemma MaxLinf_max_preserves_locator_witness :
  let w0 := mkResid (Q2Qc (1 # 2)) 0 1 1 1 1 in
  let w1 := mkResid (Q2Qc (3 # 1)) 1 2 0 4 5 in
  let w2 := mkResid (Q2Qc (2 # 1)) 2 0 0 0 3 in
  MaxLinf [w0] [w1] 1 = [w1] /\
  reduce_ranks w0 [w1; w2] = w1 /\
  (reduce_ranks w0 [w1; w2] ∈ [w0; w1; w2] /\
   forall w, w ∈ [w0; w1; w2] ->
     dgeb (linf (reduce_ranks w0 [w1; w2])) (linf w) = true).
Proof.
  intros w0 w1 w2. split; [reflexivity|]. split; [reflexivity|].
  apply (proj2 (MaxLinf_max_preserves_locator Qc_order)).
  apply reduce_ranks_reduction.
Defined.

End ResidProofs.

(** *** Loops that update a vector entry by entry *)

Section AlterLoops.
Context {A : Type}.

(** A loop that applies [f ii] to entry [ii], for ii = 0 .. n-1. *)
Lemma for_loop_alter_lookup_nat (f : Z -> A -> A) (k : nat) (l : list A)
      (m : nat) :
  for_loop (Z.of_nat k) (fun ii g => alter (f ii) (Z.to_nat ii) g) l !! m =
  (if decide (m < k)%nat then f (Z.of_nat m) <$> l !! m else l !! m).
Proof.
  unfold for_loop. induction k as [|k IH].
  - by rewrite decide_False by lia.
  - rewrite seqZ_S, foldl_snoc. cbn beta.
    replace (0 + Z.of_nat k) with (Z.of_nat k) by lia.
    replace (Z.to_nat (Z.of_nat k)) with k by lia.
    destruct (decide (m = k)) as [->|Hne].
    + rewrite list_lookup_alter_eq, IH.
      rewrite decide_False by lia. by rewrite decide_True by lia.
    + rewrite list_lookup_alter_ne by done. rewrite IH.
      destruct (decide (m < k)%nat).
      * by rewrite decide_True by lia.
      * by rewrite decide_False by lia.
Qed.

Lemma for_loop_alter_lookup (f : Z -> A -> A) (n : Z) (l : list A) (m : nat) :
  for_loop n (fun ii g => alter (f ii) (Z.to_nat ii) g) l !! m =
  (if decide (Z.of_nat m < n) then f (Z.of_nat m) <$> l !! m else l !! m).
Proof.
  destruct (decide (n <= 0)) as [Hn|Hn].
  { unfold for_loop. rewrite seqZ_nil by lia.
    by rewrite decide_False by lia. }
  replace n with (Z.of_nat (Z.to_nat n)) by lia.
  rewrite for_loop_alter_lookup_nat.
  destruct (decide (m < Z.to_nat n)%nat).
  - by rewrite decide_True by lia.
  - by rewrite decide_False by lia.
Qed.

Lemma for_loop_alter_length (f : Z -> A -> A) (n : Z) (l : list A) :
  length (for_loop n (fun ii g => alter (f ii) (Z.to_nat ii) g) l) = length l.
Proof.
  unfold for_loop. revert l. induction (seqZ 0 n) as [|x xs IH]; intros l.
  - done.
  - simpl. rewrite IH. apply length_alter.
Qed.
End AlterLoops.

Lemma for_loop_fst {S1 S2 : Type} (n : Z) (F : Z -> S1 -> S1)
      (G : Z -> S1 -> S2 -> S2) (s1 : S1) (s2 : S2) :
  fst (for_loop n (fun ii '(a, b) => (F ii a, G ii a b)) (s1, s2)) =
  for_loop n F s1.
Proof.
  unfold for_loop. revert s1 s2.
  induction (seqZ 0 n) as [|x xs IH]; intros s1 s2; [done|].
  simpl. apply IH.
Qed.

(** *** Manual decomposition *)

Module DecompProofs.
Import Decomp.
Section Proofs.
Context {D PV : Type}.
Implicit Types (grid : list (procBlock D PV)) (blk : procBlock D PV).

Lemma assign_ranks_lookup numProc grid (m : nat) :
  assign_ranks numProc grid !! m =
  (if decide (Z.of_nat m < numProc)
   then SetRank (Z.of_nat m) <$> grid !! m else grid !! m).
Proof. apply for_loop_alter_lookup. Qed.

Lemma assign_globalPos_fst grid :
  fst (assign_globalPos grid) =
  for_loop (Z.of_nat (length grid))
    (fun ii g => alter (SetGlobalPos ii) (Z.to_nat ii) g) grid.
Proof.
  unfold assign_globalPos.
  apply (for_loop_fst _
           (fun ii g => alter (SetGlobalPos ii) (Z.to_nat ii) g)
           (fun ii g maxLoad =>
              match alter (SetGlobalPos ii) (Z.to_nat ii) g !! Z.to_nat ii with
              | Some blk => Z.max maxLoad (NumCells blk)
              | None => maxLoad
              end)).
Qed.

Lemma assign_globalPos_lookup grid (m : nat) :
  fst (assign_globalPos grid) !! m = SetGlobalPos (Z.of_nat m) <$> grid !! m.
Proof.
  rewrite assign_globalPos_fst, for_loop_alter_lookup.
  case_decide as Hm; [done|].
  rewrite (lookup_ge_None_2 grid m) by lia. done.
Qed.

Lemma adjust_connections_lookup grid (cs : list interblock) (m : nat) :
  adjust_connections grid cs !! m = adjust_connection grid <$> cs !! m.
Proof.
  unfold adjust_connections. rewrite for_loop_alter_lookup.
  case_decide as Hm; [done|].
  rewrite (lookup_ge_None_2 cs m) by lia. done.
Qed.

Lemma adjust_connection_ranks grid c :
  (forall blk, nthZ grid (BlockFirst c) = Some blk ->
     RankFirst (adjust_connection grid c) = Rank blk) /\
  (forall blk, nthZ grid (BlockSecond c) = Some blk ->
     RankSecond (adjust_connection grid c) = Rank blk).
Proof.
  unfold adjust_connection. split; intros blk Hblk.
  - rewrite Hblk.
    by destruct (nthZ grid (BlockSecond (SetRankFirst (Rank blk) c))).
  - destruct (nthZ grid (BlockFirst c)) as [b1|]; simpl.
    + change (BlockSecond (SetRankFirst (Rank b1) c)) with (BlockSecond c).
      by rewrite Hblk.
    + by rewrite Hblk.
Qed.
End Proofs.

(** C8: [ManualDecomposition] terminates the job if and only if the number of
    blocks of the grid differs from the number of processors.  Otherwise it
    returns a load-balance vector with numProc entries, all equal to 1; block
    ii of the grid gets rank ii and global position ii (its other members are
    unchanged); and in every connection the rank of each side becomes the rank
    assigned to the block that side names, which is that block's number. *)
Theorem ManualDecomposition_correct {D PV : Type}
        (grid : list (procBlock D PV)) (numProc : Z)
        (connections : list interblock) (totalCells : Z) :
  (ManualDecomposition grid numProc connections totalCells = Abort <->
   Z.of_nat (length grid) <> numProc) /\
  (Z.of_nat (length grid) = numProc ->
   exists grid' connections',
     ManualDecomposition grid numProc connections totalCells =
       Ok (replicate (Z.to_nat numProc) 1, grid', connections') /\
     length grid' = length grid /\
     (forall (ii : nat) blk, grid !! ii = Some blk ->
        grid' !! ii =
          Some (SetGlobalPos (Z.of_nat ii) (SetRank (Z.of_nat ii) blk))) /\
     length connections' = length connections /\
     (forall (n : nat) c, connections !! n = Some c ->
        exists c', connections' !! n = Some c' /\
          (forall blk, nthZ grid' (BlockFirst c) = Some blk ->
             RankFirst c' = Rank blk /\ Rank blk = BlockFirst c) /\
          (forall blk, nthZ grid' (BlockSecond c) = Some blk ->
             RankSecond c' = Rank blk /\ Rank blk = BlockSecond c))).
Proof.
  assert (Hgrid' : forall (ii : nat) blk, grid !! ii = Some blk ->
            Z.of_nat (length grid) = numProc ->
            fst (assign_globalPos (assign_ranks numProc grid)) !! ii =
            Some (SetGlobalPos (Z.of_nat ii) (SetRank (Z.of_nat ii) blk))).
  { intros ii blk Hblk Hlen.
    rewrite assign_globalPos_lookup, assign_ranks_lookup.
    pose proof (lookup_lt_Some _ _ _ Hblk).
    rewrite decide_True by lia. by rewrite Hblk. }
  assert (Hlen' : length (fst (assign_globalPos (assign_ranks numProc grid))) =
                  length grid).
  { rewrite assign_globalPos_fst. unfold assign_ranks.
    by rewrite !for_loop_alter_length. }
  unfold ManualDecomposition. split.
  - destruct (Z.of_nat (length grid) =? numProc) eqn:E; simpl.
    + apply Z.eqb_eq in E.
      destruct (assign_globalPos (assign_ranks numProc grid)). split; [done|lia].
    + apply Z.eqb_neq in E. done.
  - intros Hlen. rewrite (proj2 (Z.eqb_eq _ _) Hlen). simpl.
    destruct (assign_globalPos (assign_ranks numProc grid))
      as [grid2 maxLoad] eqn:E. simpl in *.
    exists grid2, (adjust_connections grid2 connections).
    split; [done|]. split; [done|]. split; [by eauto|].
    split; [apply for_loop_alter_length|].
    intros n c Hc. exists (adjust_connection grid2 c).
    rewrite adjust_connections_lookup, Hc. split; [done|].
    assert (Hrank : forall z blk, nthZ grid2 z = Some blk -> Rank blk = z).
    { intros z blk. unfold nthZ. destruct (z <? 0) eqn:Ez; [done|].
      apply Z.ltb_ge in Ez. intros Hz.
      pose proof (lookup_lt_Some _ _ _ Hz) as Hlt. rewrite Hlen' in Hlt.
      destruct (lookup_lt_is_Some_2 grid (Z.to_nat z) Hlt) as [b0 Hb0].
      rewrite (Hgrid' _ _ Hb0 Hlen) in Hz. injection Hz as <-. simpl. lia. }
    destruct (adjust_connection_ranks grid2 c) as [H1 H2].
    split; intros blk Hblk; split; eauto.
Qed.

Import Examples.

(** Two blocks on two processors and one connection between block 0 and
    block 1 whose ranks are still unset (7, 7); with three processors the job
    is terminated. *)
Lemma ManualDecomposition_correct_witness :
  let grid := [Examples.one_cell; Examples.one_cell] in
  let conn := mkInterblock (7, 7) (0, 1) (0, 0) (2, 1) (0, 0) (1, 1) (0, 0)
                (1, 1) (1, 0) 1 [false; false; false; false]
                [false; false; false; false] in
  ManualDecomposition grid 3 [conn] 2 = Abort /\
  exists grid' connections',
    ManualDecomposition grid 2 [conn] 2 = Ok ([1; 1], grid', connections') /\
    (Rank <$> grid') = [0; 1] /\ (GlobalPos <$> grid') = [0; 1] /\
    (ib_rank <$> connections') = [(0, 1)].
Proof.
  intros grid conn. split.
  - apply (proj1 (ManualDecomposition_correct grid 3 [conn] 2)).
    vm_compute. discriminate.
  - destruct (proj2 (ManualDecomposition_correct grid 2 [conn] 2) eq_refl)
      as (grid' & connections' & Hok & _).
    exists grid', connections'. split; [exact Hok|].
    vm_compute in Hok. injection Hok as <- <-. vm_compute. auto.
Defined.

End DecompProofs.

(** *** Arrays *)

Section ArrayLemmas.
Context {T : Type}.

Lemma ma_get_set_eq (a : multiArray3d T) i j k v :
  ma_get (ma_set a i j k v) i j k = v.
Proof. unfold ma_get, ma_set. simpl. by rewrite !Z.eqb_refl. Qed.

Lemma ma_get_set_ne (a : multiArray3d T) i j k i' j' k' v :
  (k', j', i') <> (k, j, i) ->
  ma_get (ma_set a i j k v) i' j' k' = ma_get a i' j' k'.
Proof.
  intros Hne. unfold ma_get, ma_set. simpl.
  destruct (i' =? i) eqn:Ei; [|done].
  destruct (j' =? j) eqn:Ej; [|done].
  destruct (k' =? k) eqn:Ek; [|done].
  apply Z.eqb_eq in Ei, Ej, Ek. congruence.
Qed.

Lemma in_range_true (lo hi x : Z) : lo <= x <= hi -> in_range lo hi x = true.
Proof.
  intros Hx. unfold in_range. apply andb_true_intro.
  split; apply Z.leb_le; lia.
Qed.

Lemma in_range_false (lo hi x : Z) :
  x < lo \/ hi < x -> in_range lo hi x = false.
Proof.
  intros Hx. unfold in_range. apply andb_false_iff.
  destruct Hx; [left | right]; apply Z.leb_gt; lia.
Qed.

(** [Insert] returns when the source has the extents of the range. *)
Lemma Insert_ok (a src : multiArray3d T) (is_ ie js je ks ke : Z) :
  maNumI src = ie - is_ + 1 -> maNumJ src = je - js + 1 ->
  maNumK src = ke - ks + 1 ->
  Insert a is_ ie js je ks ke src = Ok (overwrite a is_ ie js je ks ke src).
Proof.
  intros HI HJ HK. unfold Insert. by rewrite HI, HJ, HK, !Z.eqb_refl.
Qed.

Lemma ma_get_overwrite_in (a src : multiArray3d T) (is_ ie js je ks ke : Z)
      (i j k : Z) :
  is_ <= i <= ie -> js <= j <= je -> ks <= k <= ke ->
  ma_get (overwrite a is_ ie js je ks ke src) i j k =
  ma_get src (i - is_) (j - js) (k - ks).
Proof.
  intros Hi Hj Hk. unfold ma_get, overwrite. cbn [maData].
  by rewrite !in_range_true.
Qed.

Lemma ma_get_overwrite_out (a src : multiArray3d T) (is_ ie js je ks ke : Z)
      (i j k : Z) :
  ~ (is_ <= i <= ie /\ js <= j <= je /\ ks <= k <= ke) ->
  ma_get (overwrite a is_ ie js je ks ke src) i j k = ma_get a i j k.
Proof.
  intros Hout. unfold ma_get, overwrite. cbn [maData].
  destruct (in_range is_ ie i) eqn:Ei; [|done].
  destruct (in_range js je j) eqn:Ej; [|done].
  destruct (in_range ks ke k) eqn:Ek; [|done].
  exfalso. apply Hout. unfold in_range in *.
  apply andb_prop in Ei, Ej, Ek.
  destruct Ei as [Ei1 Ei2], Ej as [Ej1 Ej2], Ek as [Ek1 Ek2].
  apply Z.leb_le in Ei1, Ei2, Ej1, Ej2, Ek1, Ek2. lia.
Qed.


End ArrayLemmas.

(** *** The time step *)

Module TimeStepProofs.
Import Solver.
Section Proofs.
Context {D PV : Type} `{DoubleOps D} `{!Physics D PV}.
Implicit Types (b : procBlock D PV) (inputVars : input D).

Lemma set_dt_eta b : set_dt_ (dt_ b) b = b.
Proof. by destruct b. Qed.

Lemma dt_set_dt b v : dt_ (set_dt_ v b) = v.
Proof. done. Qed.

(** The loops of [CalcBlockTimeStep] when every cell gets the value
    [f b kk jj ii] computed from members that the loops do not write. *)
Lemma dt_loop_result (val : procBlock D PV -> Z -> Z -> Z -> D) b :
  (forall b' v, val (set_dt_ v b') = val b') ->
  let b' := for_loop (NumK b) (fun kk => for_loop (NumJ b) (fun jj =>
              for_loop (NumI b) (fun ii b0 =>
                set_dt_ (ma_set (dt_ b0) ii jj kk (val b0 kk jj ii)) b0))) b in
  b' = set_dt_ (dt_ b') b /\
  forall i j k,
    ma_get (dt_ b') i j k =
    (if decide (interior b i j k) then val b k j i else ma_get (dt_ b) i j k).
Proof.
  intros Hval b'.
  assert (Hframe : set_dt_ (dt_ b) b' = set_dt_ (dt_ b) b).
  { apply (for_loop3_obs (fun b0 => set_dt_ (dt_ b) b0) (fun _ => tt)
             (fun _ _ => tt) _ _ _ 0 0 0
             (fun kk jj ii b0 =>
                set_dt_ (ma_set (dt_ b0) ii jj kk (val b0 kk jj ii)) b0));
      done. }
  split.
  - rewrite set_dt_eta in Hframe. rewrite <- Hframe. by destruct b'.
  - intros i j k. unfold interior.
    destruct (for_loop3_obs (fun b0 => set_dt_ (dt_ b) b0)
                (fun b0 => ma_get (dt_ b0) i j k)
                (fun f _ => val f k j i) (NumK b) (NumJ b) (NumI b) k j i
                (fun kk jj ii b0 =>
                   set_dt_ (ma_set (dt_ b0) ii jj kk (val b0 kk jj ii)) b0) b)
      as [_ Ho].
    + done.
    + intros k0 j0 i0 b0 Hne. rewrite dt_set_dt. by apply ma_get_set_ne.
    + intros b0. rewrite dt_set_dt, ma_get_set_eq. by rewrite Hval.
    + fold b' in Ho. rewrite Ho. rewrite Hval. done.
Qed.

(** A fixed time step: every interior cell gets [Dt * aRef / LRef]. *)
Lemma CalcBlockTimeStep_fixed_dt inputVars (aRef : D) b :
  dgtb (inp_Dt inputVars) (dlit 0) = true ->
  exists b', CalcBlockTimeStep inputVars aRef b = Ok b' /\
    b' = set_dt_ (dt_ b') b /\
    forall i j k,
      ma_get (dt_ b') i j k =
      (if decide (interior b i j k)
       then (inp_Dt inputVars * aRef / inp_LRef inputVars)%dbl
       else ma_get (dt_ b) i j k).
Proof.
  intros HDt. eexists. split.
  - unfold CalcBlockTimeStep.
    apply for_loop_res_ok. intros kk b1 _.
    apply for_loop_res_ok. intros jj b2 _.
    apply for_loop_res_ok. intros ii b3 _.
    unfold CalcBlockTimeStep_cell. rewrite HDt. reflexivity.
  - apply (dt_loop_result
             (fun _ _ _ _ => (inp_Dt inputVars * aRef / inp_LRef inputVars)%dbl)).
    done.
Qed.

(** No fixed time step and a positive CFL number: every interior cell gets
    [cfl * (vol / avgWaveSpeed)]. *)
Lemma CalcBlockTimeStep_cfl inputVars (aRef : D) b :
  dgtb (inp_Dt inputVars) (dlit 0) = false ->
  dgtb (inp_CFL inputVars) (dlit 0) = true ->
  exists b', CalcBlockTimeStep inputVars aRef b = Ok b' /\
    b' = set_dt_ (dt_ b') b /\
    forall i j k,
      ma_get (dt_ b') i j k =
      (if decide (interior b i j k)
       then (inp_CFL inputVars *
             (ma_get (vol_ b) (i + numGhosts_ b) (j + numGhosts_ b)
                     (k + numGhosts_ b) /
              ma_get (avgWaveSpeed_ b) i j k))%dbl
       else ma_get (dt_ b) i j k).
Proof.
  intros HDt HCFL. eexists. split.
  - unfold CalcBlockTimeStep.
    apply for_loop_res_ok. intros kk b1 _.
    apply for_loop_res_ok. intros jj b2 _.
    apply for_loop_res_ok. intros ii b3 _.
    unfold CalcBlockTimeStep_cell. rewrite HDt, HCFL. reflexivity.
  - apply (dt_loop_result
             (fun b0 k j i =>
                (inp_CFL inputVars *
                 (ma_get (vol_ b0) (i + numGhosts_ b0) (j + numGhosts_ b0)
                         (k + numGhosts_ b0) /
                  ma_get (avgWaveSpeed_ b0) i j k))%dbl)).
    done.
Qed.

(** Neither a fixed time step nor a CFL number: the job is terminated at
    the first cell. *)
Lemma CalcBlockTimeStep_abort inputVars (aRef : D) b :
  dgtb (inp_Dt inputVars) (dlit 0) = false ->
  dgtb (inp_CFL inputVars) (dlit 0) = false ->
  0 < NumI b -> 0 < NumJ b -> 0 < NumK b ->
  CalcBlockTimeStep inputVars aRef b = Abort.
Proof.
  intros HDt HCFL HI HJ HK. unfold CalcBlockTimeStep.
  apply for_loop_res_abort; [done|]. intros kk b1 _.
  apply for_loop_res_abort; [done|]. intros jj b2 _.
  apply for_loop_res_abort; [done|]. intros ii b3 _.
  unfold CalcBlockTimeStep_cell. by rewrite HDt, HCFL.
Qed.
End Proofs.

(** C10: if the input gives neither a positive fixed time step nor a positive
    CFL number, [CalcBlockTimeStep] on a block with at least one cell
    terminates the job, and it does so in the first iteration of its loops,
    the one for cell (0,0,0), which runs on the block as it was passed in: no
    time step has been written.  If the fixed time step is positive it takes
    precedence, whatever the CFL number (in particular a positive one): the
    function returns, every interior cell holds [Dt * aRef / LRef], and
    nothing else in the block has changed. *)
Theorem CalcBlockTimeStep_dt_or_cfl {D PV : Type} `{DoubleOps D}
        `{!Physics D PV} (inputVars : input D) (aRef : D)
        (b : procBlock D PV) :
  (dgtb (inp_Dt inputVars) (dlit 0) = false ->
   dgtb (inp_CFL inputVars) (dlit 0) = false ->
   0 < NumI b -> 0 < NumJ b -> 0 < NumK b ->
   CalcBlockTimeStep_cell inputVars aRef 0 0 0 b = Abort /\
   CalcBlockTimeStep inputVars aRef b = Abort) /\
  (dgtb (inp_Dt inputVars) (dlit 0) = true ->
   exists b', CalcBlockTimeStep inputVars aRef b = Ok b' /\
     b' = set_dt_ (dt_ b') b /\
     forall i j k,
       ma_get (dt_ b') i j k =
       (if decide (interior b i j k)
        then (inp_Dt inputVars * aRef / inp_LRef inputVars)%dbl
        else ma_get (dt_ b) i j k)).
Proof.
  split.
  - intros HDt HCFL HI HJ HK. split.
    + unfold CalcBlockTimeStep_cell. by rewrite HDt, HCFL.
    + by apply CalcBlockTimeStep_abort.
  - apply CalcBlockTimeStep_fixed_dt.
Qed.

Import Examples.

(** One cell: with neither a time step nor a CFL number the job is terminated;
    with the fixed time step 1/4 (and CFL = 1/2 as well) the cell gets
    1/4 * 1 / 1. *)
Lemma CalcBlockTimeStep_dt_or_cfl_witness :
  (CalcBlockTimeStep_cell Examples.inp_none (Q2Qc 1) 0 0 0 Examples.one_cell =
     Abort /\
   CalcBlockTimeStep Examples.inp_none (Q2Qc 1) Examples.one_cell = Abort) /\
  exists b',
    CalcBlockTimeStep Examples.inp_fixed (Q2Qc 1) Examples.one_cell = Ok b' /\
    this (ma_get (dt_ b') 0 0 0) = (1 # 4)%Q.
Proof.
  split.
  - apply (proj1 (CalcBlockTimeStep_dt_or_cfl Examples.inp_none (Q2Qc 1)
                    Examples.one_cell)); reflexivity.
  - assert (HDt : dgtb (inp_Dt Examples.inp_fixed) (dlit 0) = true)
      by reflexivity.
    destruct (proj2 (CalcBlockTimeStep_dt_or_cfl Examples.inp_fixed (Q2Qc 1)
                       Examples.one_cell) HDt) as (b' & Hok & _ & Hdt).
    exists b'. split; [exact Hok|]. rewrite Hdt. reflexivity.
Defined.

End TimeStepProofs.

(** *** Flux assembly: the accumulated spectral radii *)

Module FluxProofs.
Import Solver.
Section Proofs.
Context {D PV : Type} `{DoubleOps D} `{!Physics D PV}.
Implicit Types (b : procBlock D PV) (inp : input D).

Lemma residual_add_residual_only ii jj kk n (v : D) :
  residual_only (residual_add (PV:=PV) ii jj kk n v).
Proof. intros b0. eexists. split; reflexivity. Qed.

Lemma residual_only_compose (R1 R2 : procBlock D PV -> procBlock D PV) :
  residual_only R1 -> residual_only R2 -> residual_only (fun b0 => R2 (R1 b0)).
Proof.
  intros H1 H2 b0. destruct (H1 b0) as (r1 & E1 & Hd1).
  destruct (H2 (R1 b0)) as (r2 & E2 & Hd2).
  exists r2. split.
  - rewrite E2, E1. reflexivity.
  - rewrite Hd2, E1. exact Hd1.
Qed.

Lemma AddToResidual_inv_residual_only (flux : inviscidFlux) ii jj kk :
  residual_only (AddToResidual_inv (PV:=PV) flux ii jj kk).
Proof.
  intros b0. unfold AddToResidual_inv. cbv zeta.
  eexists. split; reflexivity.
Qed.

Lemma AddToResidual_visc_residual_only (flux : viscousFlux) ii jj kk :
  residual_only (AddToResidual_visc (PV:=PV) flux ii jj kk).
Proof.
  intros b0. unfold AddToResidual_visc. cbv zeta.
  eexists. split; reflexivity.
Qed.

(** One face of a flux loop: the frame, the extents of the residual and the
    wave speed of every cell. *)
Lemma face_shape_facts (R1 R2 : procBlock D PV -> procBlock D PV)
      (c1 c2 : bool) ip jp kp (lam : D) b b0 :
  residual_only R1 -> residual_only R2 ->
  let b1 := face_shape R1 R2 c1 c2 ip jp kp lam b0 in
  flux_frame b b1 = flux_frame b b0 /\
  res_dims b1 = res_dims b0 /\
  forall i j k,
    ma_get (avgWaveSpeed_ b1) i j k =
    (if decide ((k, j, i) = (kp, jp, ip))
     then if c2 then (ma_get (avgWaveSpeed_ b0) i j k + lam)%dbl
          else ma_get (avgWaveSpeed_ b0) i j k
     else ma_get (avgWaveSpeed_ b0) i j k).
Proof.
  intros H1 H2 b1. unfold b1, face_shape.
  destruct (H1 b0) as (r1 & E1 & Hd1).
  destruct (H2 b0) as (r2 & E2 & Hd2).
  destruct (H2 (R1 b0)) as (r3 & E3 & Hd3). rewrite E1 in E3, Hd3.
  unfold res_dims, NumI, NumJ, NumK.
  destruct c1, c2; cbv zeta; rewrite ?E1, ?E3, ?E2.
  all: split; [reflexivity|].
  all: split; [cbn [residual_ set_residual_ set_avgWaveSpeed_];
               inversion Hd1; inversion Hd2; inversion Hd3; congruence|].
  all: intros i j k; cbn [avgWaveSpeed_ set_residual_ set_avgWaveSpeed_].
  all: destruct (decide ((k, j, i) = (kp, jp, ip))) as [Heq|Hne];
    [inversion Heq; subst; by rewrite ?ma_get_set_eq
    |by rewrite ?ma_get_set_ne by done].
Qed.

(** The three nested loops over the faces. *)
Lemma flux_loop_avgWaveSpeed
      (face : Z -> Z -> Z -> procBlock D PV -> procBlock D PV)
      (c2 : procBlock D PV -> Z -> Z -> Z -> bool)
      (lam : procBlock D PV -> Z -> Z -> Z -> D) (nk nj ni : Z) b :
  (forall kp jp ip b0, exists R1 R2 c1,
      residual_only R1 /\ residual_only R2 /\
      face kp jp ip b0 =
      face_shape R1 R2 c1 (c2 b0 ip jp kp) ip jp kp (lam b0 ip jp kp) b0) ->
  (forall b0 ip jp kp, c2 (flux_frame b b0) ip jp kp = c2 b0 ip jp kp) ->
  (forall b0 ip jp kp, lam (flux_frame b b0) ip jp kp = lam b0 ip jp kp) ->
  let b' := for_loop nk (fun kp => for_loop nj (fun jp =>
              for_loop ni (fun ip => face kp jp ip))) b in
  same_frame b b' /\
  res_dims b' = res_dims b /\
  forall i j k,
    ma_get (avgWaveSpeed_ b') i j k =
    (if decide ((0 <= k < nk) /\ (0 <= j < nj) /\ (0 <= i < ni))
     then if c2 b i j k
          then (ma_get (avgWaveSpeed_ b) i j k + lam b i j k)%dbl
          else ma_get (avgWaveSpeed_ b) i j k
     else ma_get (avgWaveSpeed_ b) i j k).
Proof.
  intros Hshape Hc2 Hlam b'.
  assert (Hfacts : forall kp jp ip b0,
    flux_frame b (face kp jp ip b0) = flux_frame b b0 /\
    res_dims (face kp jp ip b0) = res_dims b0 /\
    forall i j k,
      ma_get (avgWaveSpeed_ (face kp jp ip b0)) i j k =
      (if decide ((k, j, i) = (kp, jp, ip))
       then if c2 b0 ip jp kp
            then (ma_get (avgWaveSpeed_ b0) i j k + lam b0 ip jp kp)%dbl
            else ma_get (avgWaveSpeed_ b0) i j k
       else ma_get (avgWaveSpeed_ b0) i j k)).
  { intros kp jp ip b0.
    destruct (Hshape kp jp ip b0) as (R1 & R2 & c1 & H1 & H2 & ->).
    by apply face_shape_facts. }
  split; [|split].
  - apply (for_loop3_obs (flux_frame b) (fun _ => tt) (fun _ _ => tt)
             _ _ _ 0 0 0 face); try done.
    intros k j i b0. apply Hfacts.
  - apply (for_loop3_obs res_dims (fun _ => tt) (fun _ _ => tt)
             _ _ _ 0 0 0 face); try done.
    intros k j i b0. apply Hfacts.
  - intros i j k.
    destruct (for_loop3_obs (flux_frame b)
                (fun b0 : procBlock D PV => ma_get (avgWaveSpeed_ b0) i j k)
                (fun f o => if c2 f i j k then (o + lam f i j k)%dbl else o)
                nk nj ni k j i face b) as [_ Ho].
    + intros k0 j0 i0 b0. apply Hfacts.
    + intros k0 j0 i0 b0 Hne.
      rewrite (proj2 (proj2 (Hfacts k0 j0 i0 b0))).
      rewrite decide_False; [done|]. congruence.
    + intros b0. rewrite (proj2 (proj2 (Hfacts k j i b0))).
      rewrite decide_True by done. by rewrite Hc2, Hlam.
    + fold b' in Ho. rewrite Ho. by rewrite Hc2, Hlam.
Qed.

Lemma CalcInvFluxI_face_shape (eqnState : idealGas) inp kp jp ip b0 :
  exists R1 R2 : procBlock D PV -> procBlock D PV,
    residual_only R1 /\ residual_only R2 /\
    CalcInvFluxI_face eqnState inp kp jp ip b0 =
    face_shape R1 R2 (numGhosts_ b0 <? ip + numGhosts_ b0)
      (ip + numGhosts_ b0 <? maNumI (fAreaI_ b0) - numGhosts_ b0 - 1)
      ip jp kp (lambda_cI eqnState b0 ip jp kp) b0.
Proof.
  unfold CalcInvFluxI_face. destruct (String.eqb (inp_OrderOfAccuracy inp) "first").
  all: eexists (AddToResidual_inv _ _ _ _), (AddToResidual_inv _ _ _ _).
  all: split; [apply AddToResidual_inv_residual_only|].
  all: split; [apply AddToResidual_inv_residual_only|].
  all: unfold face_shape; cbv zeta.
  all: destruct (numGhosts_ b0 <? ip + numGhosts_ b0); reflexivity.
Qed.

Lemma CalcInvFluxI_avgWaveSpeed (eqnState : idealGas) inp b :
  let G := numGhosts_ b in
  let b' := CalcInvFluxI eqnState inp b in
  same_frame b b' /\
  res_dims b' = res_dims b /\
  forall i j k,
    ma_get (avgWaveSpeed_ b') i j k =
    (if decide ((0 <= k < maNumK (fAreaI_ b) - G - G) /\
                (0 <= j < maNumJ (fAreaI_ b) - G - G) /\
                (0 <= i < maNumI (fAreaI_ b) - G - G))
     then if i + G <? maNumI (fAreaI_ b) - G - 1
          then (ma_get (avgWaveSpeed_ b) i j k +
                lambda_cI eqnState b i j k)%dbl
          else ma_get (avgWaveSpeed_ b) i j k
     else ma_get (avgWaveSpeed_ b) i j k).
Proof.
  intros G b'. unfold b', CalcInvFluxI. fold G.
  refine (flux_loop_avgWaveSpeed
           (fun kp jp ip => CalcInvFluxI_face eqnState inp kp jp ip)
           (fun b0 ip jp kp => ip + numGhosts_ b0 <? maNumI (fAreaI_ b0) - numGhosts_ b0 - 1)
           (fun b0 ip jp kp => lambda_cI eqnState b0 ip jp kp)
           (maNumK (fAreaI_ b) - G - G) (maNumJ (fAreaI_ b) - G - G)
           (maNumI (fAreaI_ b) - G - G) b _ _ _).
  - intros kp jp ip b0.
    destruct (CalcInvFluxI_face_shape eqnState inp kp jp ip b0) as (R1 & R2 & H1 & H2 & Heq).
    eauto 6.
  - done.
  - done.
Qed.

Lemma CalcInvFluxJ_face_shape (eqnState : idealGas) inp kp jp ip b0 :
  exists R1 R2 : procBlock D PV -> procBlock D PV,
    residual_only R1 /\ residual_only R2 /\
    CalcInvFluxJ_face eqnState inp kp jp ip b0 =
    face_shape R1 R2 (numGhosts_ b0 <? jp + numGhosts_ b0)
      (jp + numGhosts_ b0 <? maNumJ (fAreaJ_ b0) - numGhosts_ b0 - 1)
      ip jp kp (lambda_cJ eqnState b0 ip jp kp) b0.
Proof.
  unfold CalcInvFluxJ_face. destruct (String.eqb (inp_OrderOfAccuracy inp) "first").
  all: eexists (AddToResidual_inv _ _ _ _), (AddToResidual_inv _ _ _ _).
  all: split; [apply AddToResidual_inv_residual_only|].
  all: split; [apply AddToResidual_inv_residual_only|].
  all: unfold face_shape; cbv zeta.
  all: destruct (numGhosts_ b0 <? jp + numGhosts_ b0); reflexivity.
Qed.

Lemma CalcInvFluxJ_avgWaveSpeed (eqnState : idealGas) inp b :
  let G := numGhosts_ b in
  let b' := CalcInvFluxJ eqnState inp b in
  same_frame b b' /\
  res_dims b' = res_dims b /\
  forall i j k,
    ma_get (avgWaveSpeed_ b') i j k =
    (if decide ((0 <= k < maNumK (fAreaJ_ b) - G - G) /\
                (0 <= j < maNumJ (fAreaJ_ b) - G - G) /\
                (0 <= i < maNumI (fAreaJ_ b) - G - G))
     then if j + G <? maNumJ (fAreaJ_ b) - G - 1
          then (ma_get (avgWaveSpeed_ b) i j k +
                lambda_cJ eqnState b i j k)%dbl
          else ma_get (avgWaveSpeed_ b) i j k
     else ma_get (avgWaveSpeed_ b) i j k).
Proof.
  intros G b'. unfold b', CalcInvFluxJ. fold G.
  refine (flux_loop_avgWaveSpeed
           (fun kp jp ip => CalcInvFluxJ_face eqnState inp kp jp ip)
           (fun b0 ip jp kp => jp + numGhosts_ b0 <? maNumJ (fAreaJ_ b0) - numGhosts_ b0 - 1)
           (fun b0 ip jp kp => lambda_cJ eqnState b0 ip jp kp)
           (maNumK (fAreaJ_ b) - G - G) (maNumJ (fAreaJ_ b) - G - G)
           (maNumI (fAreaJ_ b) - G - G) b _ _ _).
  - intros kp jp ip b0.
    destruct (CalcInvFluxJ_face_shape eqnState inp kp jp ip b0) as (R1 & R2 & H1 & H2 & Heq).
    eauto 6.
  - done.
  - done.
Qed.

Lemma CalcInvFluxK_face_shape (eqnState : idealGas) inp kp jp ip b0 :
  exists R1 R2 : procBlock D PV -> procBlock D PV,
    residual_only R1 /\ residual_only R2 /\
    CalcInvFluxK_face eqnState inp kp jp ip b0 =
    face_shape R1 R2 (numGhosts_ b0 <? kp + numGhosts_ b0)
      (kp + numGhosts_ b0 <? maNumK (fAreaK_ b0) - numGhosts_ b0 - 1)
      ip jp kp (lambda_cK eqnState b0 ip jp kp) b0.
Proof.
  unfold CalcInvFluxK_face. destruct (String.eqb (inp_OrderOfAccuracy inp) "first").
  all: eexists (AddToResidual_inv _ _ _ _), (AddToResidual_inv _ _ _ _).
  all: split; [apply AddToResidual_inv_residual_only|].
  all: split; [apply AddToResidual_inv_residual_only|].
  all: unfold face_shape; cbv zeta.
  all: destruct (numGhosts_ b0 <? kp + numGhosts_ b0); reflexivity.
Qed.

Lemma CalcInvFluxK_avgWaveSpeed (eqnState : idealGas) inp b :
  let G := numGhosts_ b in
  let b' := CalcInvFluxK eqnState inp b in
  same_frame b b' /\
  res_dims b' = res_dims b /\
  forall i j k,
    ma_get (avgWaveSpeed_ b') i j k =
    (if decide ((0 <= k < maNumK (fAreaK_ b) - G - G) /\
                (0 <= j < maNumJ (fAreaK_ b) - G - G) /\
                (0 <= i < maNumI (fAreaK_ b) - G - G))
     then if k + G <? maNumK (fAreaK_ b) - G - 1
          then (ma_get (avgWaveSpeed_ b) i j k +
                lambda_cK eqnState b i j k)%dbl
          else ma_get (avgWaveSpeed_ b) i j k
     else ma_get (avgWaveSpeed_ b) i j k).
Proof.
  intros G b'. unfold b', CalcInvFluxK. fold G.
  refine (flux_loop_avgWaveSpeed
           (fun kp jp ip => CalcInvFluxK_face eqnState inp kp jp ip)
           (fun b0 ip jp kp => kp + numGhosts_ b0 <? maNumK (fAreaK_ b0) - numGhosts_ b0 - 1)
           (fun b0 ip jp kp => lambda_cK eqnState b0 ip jp kp)
           (maNumK (fAreaK_ b) - G - G) (maNumJ (fAreaK_ b) - G - G)
           (maNumI (fAreaK_ b) - G - G) b _ _ _).
  - intros kp jp ip b0.
    destruct (CalcInvFluxK_face_shape eqnState inp kp jp ip b0) as (R1 & R2 & H1 & H2 & Heq).
    eauto 6.
  - done.
  - done.
Qed.

Lemma CalcViscFluxI_face_shape (suth : sutherland) (eqnState : idealGas) inp (grads : gradients) (turb : turbModel) kp jp ip b0 :
  exists R1 R2 : procBlock D PV -> procBlock D PV,
    residual_only R1 /\ residual_only R2 /\
    CalcViscFluxI_face suth eqnState inp grads turb kp jp ip b0 =
    face_shape R1 R2 (numGhosts_ b0 <? ip + numGhosts_ b0)
      (ip + numGhosts_ b0 <? maNumI (fAreaI_ b0) - numGhosts_ b0 - 1)
      ip jp kp ((dlit 1 * lambda_vI suth eqnState grads turb b0 ip jp kp)%dbl) b0.
Proof.
  unfold CalcViscFluxI_face. destruct (inp_IsTurbulent inp).
  all: eexists (AddToResidual_visc _ _ _ _), (AddToResidual_visc _ _ _ _).
  all: split; [apply AddToResidual_visc_residual_only|].
  all: split; [apply AddToResidual_visc_residual_only|].
  all: unfold face_shape; cbv zeta.
  all: destruct (numGhosts_ b0 <? ip + numGhosts_ b0); reflexivity.
Qed.

Lemma CalcViscFluxI_avgWaveSpeed (suth : sutherland) (eqnState : idealGas) inp (grads : gradients) (turb : turbModel) b :
  let G := numGhosts_ b in
  let b' := CalcViscFluxI suth eqnState inp grads turb b in
  same_frame b b' /\
  res_dims b' = res_dims b /\
  forall i j k,
    ma_get (avgWaveSpeed_ b') i j k =
    (if decide ((0 <= k < maNumK (fAreaI_ b) - G - G) /\
                (0 <= j < maNumJ (fAreaI_ b) - G - G) /\
                (0 <= i < maNumI (fAreaI_ b) - G - G))
     then if i + G <? maNumI (fAreaI_ b) - G - 1
          then (ma_get (avgWaveSpeed_ b) i j k +
                (dlit 1 * lambda_vI suth eqnState grads turb b i j k)%dbl)%dbl
          else ma_get (avgWaveSpeed_ b) i j k
     else ma_get (avgWaveSpeed_ b) i j k).
Proof.
  intros G b'. unfold b', CalcViscFluxI. fold G.
  refine (flux_loop_avgWaveSpeed
           (fun kp jp ip => CalcViscFluxI_face suth eqnState inp grads turb kp jp ip)
           (fun b0 ip jp kp => ip + numGhosts_ b0 <? maNumI (fAreaI_ b0) - numGhosts_ b0 - 1)
           (fun b0 ip jp kp => (dlit 1 * lambda_vI suth eqnState grads turb b0 ip jp kp)%dbl)
           (maNumK (fAreaI_ b) - G - G) (maNumJ (fAreaI_ b) - G - G)
           (maNumI (fAreaI_ b) - G - G) b _ _ _).
  - intros kp jp ip b0.
    destruct (CalcViscFluxI_face_shape suth eqnState inp grads turb kp jp ip b0) as (R1 & R2 & H1 & H2 & Heq).
    eauto 6.
  - done.
  - done.
Qed.

Lemma CalcViscFluxJ_face_shape (suth : sutherland) (eqnState : idealGas) inp (grads : gradients) (turb : turbModel) kp jp ip b0 :
  exists R1 R2 : procBlock D PV -> procBlock D PV,
    residual_only R1 /\ residual_only R2 /\
    CalcViscFluxJ_face suth eqnState inp grads turb kp jp ip b0 =
    face_shape R1 R2 (numGhosts_ b0 <? jp + numGhosts_ b0)
      (jp + numGhosts_ b0 <? maNumJ (fAreaJ_ b0) - numGhosts_ b0 - 1)
      ip jp kp ((dlit 1 * lambda_vJ suth eqnState grads turb b0 ip jp kp)%dbl) b0.
Proof.
  unfold CalcViscFluxJ_face. destruct (inp_IsTurbulent inp).
  all: eexists (AddToResidual_visc _ _ _ _), (AddToResidual_visc _ _ _ _).
  all: split; [apply AddToResidual_visc_residual_only|].
  all: split; [apply AddToResidual_visc_residual_only|].
  all: unfold face_shape; cbv zeta.
  all: destruct (numGhosts_ b0 <? jp + numGhosts_ b0); reflexivity.
Qed.

Lemma CalcViscFluxJ_avgWaveSpeed (suth : sutherland) (eqnState : idealGas) inp (grads : gradients) (turb : turbModel) b :
  let G := numGhosts_ b in
  let b' := CalcViscFluxJ suth eqnState inp grads turb b in
  same_frame b b' /\
  res_dims b' = res_dims b /\
  forall i j k,
    ma_get (avgWaveSpeed_ b') i j k =
    (if decide ((0 <= k < maNumK (fAreaJ_ b) - G - G) /\
                (0 <= j < maNumJ (fAreaJ_ b) - G - G) /\
                (0 <= i < maNumI (fAreaJ_ b) - G - G))
     then if j + G <? maNumJ (fAreaJ_ b) - G - 1
          then (ma_get (avgWaveSpeed_ b) i j k +
                (dlit 1 * lambda_vJ suth eqnState grads turb b i j k)%dbl)%dbl
          else ma_get (avgWaveSpeed_ b) i j k
     else ma_get (avgWaveSpeed_ b) i j k).
Proof.
  intros G b'. unfold b', CalcViscFluxJ. fold G.
  refine (flux_loop_avgWaveSpeed
           (fun kp jp ip => CalcViscFluxJ_face suth eqnState inp grads turb kp jp ip)
           (fun b0 ip jp kp => jp + numGhosts_ b0 <? maNumJ (fAreaJ_ b0) - numGhosts_ b0 - 1)
           (fun b0 ip jp kp => (dlit 1 * lambda_vJ suth eqnState grads turb b0 ip jp kp)%dbl)
           (maNumK (fAreaJ_ b) - G - G) (maNumJ (fAreaJ_ b) - G - G)
           (maNumI (fAreaJ_ b) - G - G) b _ _ _).
  - intros kp jp ip b0.
    destruct (CalcViscFluxJ_face_shape suth eqnState inp grads turb kp jp ip b0) as (R1 & R2 & H1 & H2 & Heq).
    eauto 6.
  - done.
  - done.
Qed.

Lemma CalcViscFluxK_face_shape (suth : sutherland) (eqnState : idealGas) inp (grads : gradients) (turb : turbModel) kp jp ip b0 :
  exists R1 R2 : procBlock D PV -> procBlock D PV,
    residual_only R1 /\ residual_only R2 /\
    CalcViscFluxK_face suth eqnState inp grads turb kp jp ip b0 =
    face_shape R1 R2 (numGhosts_ b0 <? kp + numGhosts_ b0)
      (kp + numGhosts_ b0 <? maNumK (fAreaK_ b0) - numGhosts_ b0 - 1)
      ip jp kp ((dlit 1 * lambda_vK suth eqnState grads turb b0 ip jp kp)%dbl) b0.
Proof.
  unfold CalcViscFluxK_face. destruct (inp_IsTurbulent inp).
  all: eexists (AddToResidual_visc _ _ _ _), (AddToResidual_visc _ _ _ _).
  all: split; [apply AddToResidual_visc_residual_only|].
  all: split; [apply AddToResidual_visc_residual_only|].
  all: unfold face_shape; cbv zeta.
  all: destruct (numGhosts_ b0 <? kp + numGhosts_ b0); reflexivity.
Qed.

Lemma CalcViscFluxK_avgWaveSpeed (suth : sutherland) (eqnState : idealGas) inp (grads : gradients) (turb : turbModel) b :
  let G := numGhosts_ b in
  let b' := CalcViscFluxK suth eqnState inp grads turb b in
  same_frame b b' /\
  res_dims b' = res_dims b /\
  forall i j k,
    ma_get (avgWaveSpeed_ b') i j k =
    (if decide ((0 <= k < maNumK (fAreaK_ b) - G - G) /\
                (0 <= j < maNumJ (fAreaK_ b) - G - G) /\
                (0 <= i < maNumI (fAreaK_ b) - G - G))
     then if k + G <? maNumK (fAreaK_ b) - G - 1
          then (ma_get (avgWaveSpeed_ b) i j k +
                (dlit 1 * lambda_vK suth eqnState grads turb b i j k)%dbl)%dbl
          else ma_get (avgWaveSpeed_ b) i j k
     else ma_get (avgWaveSpeed_ b) i j k).
Proof.
  intros G b'. unfold b', CalcViscFluxK. fold G.
  refine (flux_loop_avgWaveSpeed
           (fun kp jp ip => CalcViscFluxK_face suth eqnState inp grads turb kp jp ip)
           (fun b0 ip jp kp => kp + numGhosts_ b0 <? maNumK (fAreaK_ b0) - numGhosts_ b0 - 1)
           (fun b0 ip jp kp => (dlit 1 * lambda_vK suth eqnState grads turb b0 ip jp kp)%dbl)
           (maNumK (fAreaK_ b) - G - G) (maNumJ (fAreaK_ b) - G - G)
           (maNumI (fAreaK_ b) - G - G) b _ _ _).
  - intros kp jp ip b0.
    destruct (CalcViscFluxK_face_shape suth eqnState inp grads turb kp jp ip b0) as (R1 & R2 & H1 & H2 & Heq).
    eauto 6.
  - done.
  - done.
Qed.

Lemma same_frame_fields b b' :
  same_frame b b' ->
  state_ b' = state_ b /\ fAreaI_ b' = fAreaI_ b /\
  fAreaJ_ b' = fAreaJ_ b /\ fAreaK_ b' = fAreaK_ b /\
  vol_ b' = vol_ b /\ numGhosts_ b' = numGhosts_ b /\ dt_ b' = dt_ b.
Proof.
  unfold same_frame, flux_frame. destruct b, b'. cbn.
  intros Heq. by inversion Heq.
Qed.

Lemma same_frame_refl b : same_frame b b.
Proof. done. Qed.

Lemma same_frame_trans b b1 b2 :
  same_frame b b1 -> same_frame b1 b2 -> same_frame b b2.
Proof.
  unfold same_frame, flux_frame. destruct b, b1, b2. cbn.
  intros H1 H2. inversion H1. inversion H2. by subst.
Qed.

Lemma ResetResidWS_avgWaveSpeed b :
  let b' := ResetResidWS b in
  same_frame b b' /\ res_dims b' = res_dims b /\
  forall i j k,
    ma_get (avgWaveSpeed_ b') i j k =
    (if decide (interior b i j k) then dlit 0
     else ma_get (avgWaveSpeed_ b) i j k).
Proof.
  intros b'.
  pose (body := fun (kk jj ii : Z) (b0 : procBlock D PV) =>
          let b1 := set_residual_
                      (ma_set (residual_ b0) ii jj kk
                              (genArray_const (dlit 0))) b0 in
          set_avgWaveSpeed_ (ma_set (avgWaveSpeed_ b1) ii jj kk (dlit 0)) b1).
  split; [|split].
  - apply (for_loop3_obs (flux_frame b) (fun _ => tt) (fun _ _ => tt)
             _ _ _ 0 0 0 body); done.
  - apply (for_loop3_obs res_dims (fun _ => tt) (fun _ _ => tt)
             _ _ _ 0 0 0 body); try done.
  - intros i j k.
    destruct (for_loop3_obs (fun _ : procBlock D PV => tt)
                (fun b0 : procBlock D PV => ma_get (avgWaveSpeed_ b0) i j k)
                (fun _ _ => dlit 0)
                (NumK b) (NumJ b) (NumI b) k j i body b) as [_ Ho].
    + done.
    + intros kk jj ii b0 Hne. unfold body.
      cbn [avgWaveSpeed_ set_avgWaveSpeed_ set_residual_].
      by apply ma_get_set_ne.
    + intros b0. unfold body.
      cbn [avgWaveSpeed_ set_avgWaveSpeed_ set_residual_].
      by rewrite ma_get_set_eq.
    + exact Ho.
Qed.

Lemma CalcInvFluxI_step (eos : idealGas) inp b b1 :
  dims_ok b -> same_frame b b1 -> res_dims b1 = res_dims b ->
  let b2 := CalcInvFluxI eos inp b1 in
  same_frame b b2 /\ res_dims b2 = res_dims b /\
  forall i j k, interior b i j k ->
    ma_get (avgWaveSpeed_ b2) i j k =
    (ma_get (avgWaveSpeed_ b1) i j k + lambda_cI eos b i j k)%dbl.
Proof.
  intros Hdims Hsame Hres b2.
  destruct (CalcInvFluxI_avgWaveSpeed eos inp b1) as (Hf & Hd & Haws).
  fold b2 in Hf, Hd, Haws.
  split; [by eapply same_frame_trans|]. split; [congruence|].
  intros i j k Hint. rewrite Haws.
  destruct (same_frame_fields _ _ Hsame)
    as (Hst & HfI & HfJ & HfK & Hvol & HG & _).
  unfold lambda_cI, lambda_cJ, lambda_cK, lambda_vI, lambda_vJ, lambda_vK.
  cbv zeta. rewrite ?HG, ?Hst, ?HfI, ?HfJ, ?HfK, ?Hvol.
  unfold interior in Hint. unfold dims_ok in Hdims.
  destruct Hdims as (? & ? & ? & ? & ? & ? & ? & ? & ?).
  rewrite decide_True by lia.
  rewrite (proj2 (Z.ltb_lt _ _)) by lia.
  reflexivity.
Qed.

Lemma CalcInvFluxJ_step (eos : idealGas) inp b b1 :
  dims_ok b -> same_frame b b1 -> res_dims b1 = res_dims b ->
  let b2 := CalcInvFluxJ eos inp b1 in
  same_frame b b2 /\ res_dims b2 = res_dims b /\
  forall i j k, interior b i j k ->
    ma_get (avgWaveSpeed_ b2) i j k =
    (ma_get (avgWaveSpeed_ b1) i j k + lambda_cJ eos b i j k)%dbl.
Proof.
  intros Hdims Hsame Hres b2.
  destruct (CalcInvFluxJ_avgWaveSpeed eos inp b1) as (Hf & Hd & Haws).
  fold b2 in Hf, Hd, Haws.
  split; [by eapply same_frame_trans|]. split; [congruence|].
  intros i j k Hint. rewrite Haws.
  destruct (same_frame_fields _ _ Hsame)
    as (Hst & HfI & HfJ & HfK & Hvol & HG & _).
  unfold lambda_cI, lambda_cJ, lambda_cK, lambda_vI, lambda_vJ, lambda_vK.
  cbv zeta. rewrite ?HG, ?Hst, ?HfI, ?HfJ, ?HfK, ?Hvol.
  unfold interior in Hint. unfold dims_ok in Hdims.
  destruct Hdims as (? & ? & ? & ? & ? & ? & ? & ? & ?).
  rewrite decide_True by lia.
  rewrite (proj2 (Z.ltb_lt _ _)) by lia.
  reflexivity.
Qed.

Lemma CalcInvFluxK_step (eos : idealGas) inp b b1 :
  dims_ok b -> same_frame b b1 -> res_dims b1 = res_dims b ->
  let b2 := CalcInvFluxK eos inp b1 in
  same_frame b b2 /\ res_dims b2 = res_dims b /\
  forall i j k, interior b i j k ->
    ma_get (avgWaveSpeed_ b2) i j k =
    (ma_get (avgWaveSpeed_ b1) i j k + lambda_cK eos b i j k)%dbl.
Proof.
  intros Hdims Hsame Hres b2.
  destruct (CalcInvFluxK_avgWaveSpeed eos inp b1) as (Hf & Hd & Haws).
  fold b2 in Hf, Hd, Haws.
  split; [by eapply same_frame_trans|]. split; [congruence|].
  intros i j k Hint. rewrite Haws.
  destruct (same_frame_fields _ _ Hsame)
    as (Hst & HfI & HfJ & HfK & Hvol & HG & _).
  unfold lambda_cI, lambda_cJ, lambda_cK, lambda_vI, lambda_vJ, lambda_vK.
  cbv zeta. rewrite ?HG, ?Hst, ?HfI, ?HfJ, ?HfK, ?Hvol.
  unfold interior in Hint. unfold dims_ok in Hdims.
  destruct Hdims as (? & ? & ? & ? & ? & ? & ? & ? & ?).
  rewrite decide_True by lia.
  rewrite (proj2 (Z.ltb_lt _ _)) by lia.
  reflexivity.
Qed.

Lemma CalcViscFluxI_step (suth : sutherland) (eos : idealGas) inp (grads : gradients) (turb : turbModel) b b1 :
  dims_ok b -> same_frame b b1 -> res_dims b1 = res_dims b ->
  let b2 := CalcViscFluxI suth eos inp grads turb b1 in
  same_frame b b2 /\ res_dims b2 = res_dims b /\
  forall i j k, interior b i j k ->
    ma_get (avgWaveSpeed_ b2) i j k =
    (ma_get (avgWaveSpeed_ b1) i j k + (dlit 1 * lambda_vI suth eos grads turb b i j k))%dbl.
Proof.
  intros Hdims Hsame Hres b2.
  destruct (CalcViscFluxI_avgWaveSpeed suth eos inp grads turb b1) as (Hf & Hd & Haws).
  fold b2 in Hf, Hd, Haws.
  split; [by eapply same_frame_trans|]. split; [congruence|].
  intros i j k Hint. rewrite Haws.
  destruct (same_frame_fields _ _ Hsame)
    as (Hst & HfI & HfJ & HfK & Hvol & HG & _).
  unfold lambda_cI, lambda_cJ, lambda_cK, lambda_vI, lambda_vJ, lambda_vK.
  cbv zeta. rewrite ?HG, ?Hst, ?HfI, ?HfJ, ?HfK, ?Hvol.
  unfold interior in Hint. unfold dims_ok in Hdims.
  destruct Hdims as (? & ? & ? & ? & ? & ? & ? & ? & ?).
  rewrite decide_True by lia.
  rewrite (proj2 (Z.ltb_lt _ _)) by lia.
  reflexivity.
Qed.

Lemma CalcViscFluxJ_step (suth : sutherland) (eos : idealGas) inp (grads : gradients) (turb : turbModel) b b1 :
  dims_ok b -> same_frame b b1 -> res_dims b1 = res_dims b ->
  let b2 := CalcViscFluxJ suth eos inp grads turb b1 in
  same_frame b b2 /\ res_dims b2 = res_dims b /\
  forall i j k, interior b i j k ->
    ma_get (avgWaveSpeed_ b2) i j k =
    (ma_get (avgWaveSpeed_ b1) i j k + (dlit 1 * lambda_vJ suth eos grads turb b i j k))%dbl.
Proof.
  intros Hdims Hsame Hres b2.
  destruct (CalcViscFluxJ_avgWaveSpeed suth eos inp grads turb b1) as (Hf & Hd & Haws).
  fold b2 in Hf, Hd, Haws.
  split; [by eapply same_frame_trans|]. split; [congruence|].
  intros i j k Hint. rewrite Haws.
  destruct (same_frame_fields _ _ Hsame)
    as (Hst & HfI & HfJ & HfK & Hvol & HG & _).
  unfold lambda_cI, lambda_cJ, lambda_cK, lambda_vI, lambda_vJ, lambda_vK.
  cbv zeta. rewrite ?HG, ?Hst, ?HfI, ?HfJ, ?HfK, ?Hvol.
  unfold interior in Hint. unfold dims_ok in Hdims.
  destruct Hdims as (? & ? & ? & ? & ? & ? & ? & ? & ?).
  rewrite decide_True by lia.
  rewrite (proj2 (Z.ltb_lt _ _)) by lia.
  reflexivity.
Qed.

Lemma CalcViscFluxK_step (suth : sutherland) (eos : idealGas) inp (grads : gradients) (turb : turbModel) b b1 :
  dims_ok b -> same_frame b b1 -> res_dims b1 = res_dims b ->
  let b2 := CalcViscFluxK suth eos inp grads turb b1 in
  same_frame b b2 /\ res_dims b2 = res_dims b /\
  forall i j k, interior b i j k ->
    ma_get (avgWaveSpeed_ b2) i j k =
    (ma_get (avgWaveSpeed_ b1) i j k + (dlit 1 * lambda_vK suth eos grads turb b i j k))%dbl.
Proof.
  intros Hdims Hsame Hres b2.
  destruct (CalcViscFluxK_avgWaveSpeed suth eos inp grads turb b1) as (Hf & Hd & Haws).
  fold b2 in Hf, Hd, Haws.
  split; [by eapply same_frame_trans|]. split; [congruence|].
  intros i j k Hint. rewrite Haws.
  destruct (same_frame_fields _ _ Hsame)
    as (Hst & HfI & HfJ & HfK & Hvol & HG & _).
  unfold lambda_cI, lambda_cJ, lambda_cK, lambda_vI, lambda_vJ, lambda_vK.
  cbv zeta. rewrite ?HG, ?Hst, ?HfI, ?HfJ, ?HfK, ?Hvol.
  unfold interior in Hint. unfold dims_ok in Hdims.
  destruct Hdims as (? & ? & ? & ? & ? & ? & ? & ? & ?).
  rewrite decide_True by lia.
  rewrite (proj2 (Z.ltb_lt _ _)) by lia.
  reflexivity.
Qed.

(** The accumulated wave speed after one assembly. *)
Lemma assemble_inviscid_avgWaveSpeed (eos : idealGas) inp b :
  dims_ok b ->
  let b' := assemble_inviscid eos inp b in
  same_frame b b' /\ res_dims b' = res_dims b /\
  forall i j k, interior b i j k ->
    ma_get (avgWaveSpeed_ b') i j k =
    (dlit 0 + lambda_cI eos b i j k + lambda_cJ eos b i j k +
     lambda_cK eos b i j k)%dbl.
Proof.
  intros Hdims b'. unfold b', assemble_inviscid.
  destruct (ResetResidWS_avgWaveSpeed b) as (Hs0 & Hd0 & Ha0).
  destruct (CalcInvFluxI_step eos inp b _ Hdims Hs0 Hd0) as (Hs1 & Hd1 & Ha1).
  destruct (CalcInvFluxJ_step eos inp b _ Hdims Hs1 Hd1) as (Hs2 & Hd2 & Ha2).
  destruct (CalcInvFluxK_step eos inp b _ Hdims Hs2 Hd2) as (Hs3 & Hd3 & Ha3).
  split; [done|]. split; [done|].
  intros i j k Hint.
  rewrite Ha3, Ha2, Ha1, Ha0 by done. by rewrite decide_True by done.
Qed.

Lemma assemble_viscous_avgWaveSpeed (suth : sutherland) (eos : idealGas) inp
      (grads : gradients) (turb : turbModel) b :
  dims_ok b ->
  let b' := assemble_viscous suth eos inp grads turb b in
  same_frame b b' /\ res_dims b' = res_dims b /\
  forall i j k, interior b i j k ->
    ma_get (avgWaveSpeed_ b') i j k =
    (dlit 0 + lambda_cI eos b i j k + lambda_cJ eos b i j k +
     lambda_cK eos b i j k +
     dlit 1 * lambda_vI suth eos grads turb b i j k +
     dlit 1 * lambda_vJ suth eos grads turb b i j k +
     dlit 1 * lambda_vK suth eos grads turb b i j k)%dbl.
Proof.
  intros Hdims b'. unfold b', assemble_viscous.
  destruct (assemble_inviscid_avgWaveSpeed eos inp b Hdims)
    as (Hs0 & Hd0 & Ha0).
  destruct (CalcViscFluxI_step suth eos inp grads turb b _ Hdims Hs0 Hd0)
    as (Hs1 & Hd1 & Ha1).
  destruct (CalcViscFluxJ_step suth eos inp grads turb b _ Hdims Hs1 Hd1)
    as (Hs2 & Hd2 & Ha2).
  destruct (CalcViscFluxK_step suth eos inp grads turb b _ Hdims Hs2 Hd2)
    as (Hs3 & Hd3 & Ha3).
  split; [done|]. split; [done|].
  intros i j k Hint.
  by rewrite Ha3, Ha2, Ha1, Ha0 by done.
Qed.

End Proofs.
End FluxProofs.

(** *** The time step of the specification *)

Module TimeStepFormula.
Import Solver TimeStepProofs FluxProofs.

#[export] Instance Qc_arith : RealArith Qc.
Proof.
  split; intros; simpl; unfold Qcdiv; ring.
Qed.

Section Proofs.
Context {D PV : Type} `{DoubleOps D} `{!Physics D PV} `{!RealArith D}.
Implicit Types (b : procBlock D PV) (inp : input D).

Lemma dt_code_inviscid (cfl vol lcI lcJ lcK : D) :
  (cfl * (vol / (dlit 0 + lcI + lcJ + lcK)))%dbl =
  dt_spec_inviscid cfl vol lcI lcJ lcK.
Proof.
  unfold dt_spec_inviscid. by rewrite dadd_0_l, dmul_div_assoc.
Qed.

Lemma dt_code_viscous (cfl vol lcI lcJ lcK C lvI lvJ lvK : D) :
  (cfl * (vol / (dlit 0 + lcI + lcJ + lcK + C * lvI + C * lvJ + C * lvK)))%dbl =
  dt_spec_viscous cfl vol lcI lcJ lcK C lvI lvJ lvK.
Proof.
  unfold dt_spec_viscous.
  rewrite dadd_0_l, dmul_div_assoc, !dmul_add_distr_l.
  by rewrite !dadd_assoc.
Qed.

Lemma interior_res_dims b b' i j k :
  res_dims b' = res_dims b -> interior b' i j k <-> interior b i j k.
Proof.
  unfold res_dims, interior. intros Heq. inversion Heq as [[HI HJ HK]].
  by rewrite HI, HJ, HK.
Qed.
End Proofs.

(** C4: in exact arithmetic (the laws [RealArith]), for a block whose face
    arrays have the extents the constructor gives them.  When the user has
    not fixed the time step and CFL > 0, [CalcBlockTimeStep] run after the
    flux assembly writes to every interior cell
    dt = CFL * V / (lcI + lcJ + lcK + C * (lvI + lvJ + lvK)), where V is the
    volume of the cell, lcI, lcJ, lcK are the inviscid spectral radii that
    [CalcInvFluxI/J/K] accumulated for the cell, lvI, lvJ, lvK the viscous
    spectral radii that [CalcViscFluxI/J/K] accumulated, and C is the
    coefficient [vCoeff] = 1.0 of the viscous loops; for an inviscid run
    (no viscous assembly) the viscous sum is absent.  When the user fixed the
    time step, every interior cell of any block gets Dt * aRef / LRef. *)
Theorem CalcBlockTimeStep_formula {D PV : Type} `{DoubleOps D}
        `{!Physics D PV} :
  RealArith D ->
  forall (suth : sutherland) (eos : idealGas) (inp : input D)
         (grads : gradients) (turb : turbModel) (aRef : D)
         (b : procBlock D PV),
  dims_ok b ->
  (dgtb (inp_Dt inp) (dlit 0) = false ->
   dgtb (inp_CFL inp) (dlit 0) = true ->
   (exists b',
      CalcBlockTimeStep inp aRef (assemble_inviscid eos inp b) = Ok b' /\
      forall i j k, interior b i j k ->
        ma_get (dt_ b') i j k =
        dt_spec_inviscid (inp_CFL inp)
          (ma_get (vol_ b) (i + numGhosts_ b) (j + numGhosts_ b)
                  (k + numGhosts_ b))
          (lambda_cI eos b i j k) (lambda_cJ eos b i j k)
          (lambda_cK eos b i j k)) /\
   (exists b',
      CalcBlockTimeStep inp aRef
        (assemble_viscous suth eos inp grads turb b) = Ok b' /\
      forall i j k, interior b i j k ->
        ma_get (dt_ b') i j k =
        dt_spec_viscous (inp_CFL inp)
          (ma_get (vol_ b) (i + numGhosts_ b) (j + numGhosts_ b)
                  (k + numGhosts_ b))
          (lambda_cI eos b i j k) (lambda_cJ eos b i j k)
          (lambda_cK eos b i j k) (dlit 1)
          (lambda_vI suth eos grads turb b i j k)
          (lambda_vJ suth eos grads turb b i j k)
          (lambda_vK suth eos grads turb b i j k))) /\
  (dgtb (inp_Dt inp) (dlit 0) = true ->
   forall b0 : procBlock D PV,
   exists b', CalcBlockTimeStep inp aRef b0 = Ok b' /\
     forall i j k, interior b0 i j k ->
       ma_get (dt_ b') i j k = (inp_Dt inp * aRef / inp_LRef inp)%dbl).
Proof.
  intros Hreal suth eos inp grads turb aRef b Hdims. split.
  - intros HDt HCFL. split.
    + destruct (assemble_inviscid_avgWaveSpeed eos inp b Hdims)
        as (Hsame & Hres & Haws).
      destruct (CalcBlockTimeStep_cfl inp aRef (assemble_inviscid eos inp b)
                  HDt HCFL) as (b' & Hok & _ & Hdt).
      exists b'. split; [done|]. intros i j k Hint.
      rewrite Hdt. rewrite decide_True by (by apply (interior_res_dims b)).
      destruct (same_frame_fields _ _ Hsame) as (_ & _ & _ & _ & Hvol & HG & _).
      rewrite HG, Hvol, Haws by done. apply dt_code_inviscid.
    + destruct (assemble_viscous_avgWaveSpeed suth eos inp grads turb b Hdims)
        as (Hsame & Hres & Haws).
      destruct (CalcBlockTimeStep_cfl inp aRef
                  (assemble_viscous suth eos inp grads turb b) HDt HCFL)
        as (b' & Hok & _ & Hdt).
      exists b'. split; [done|]. intros i j k Hint.
      rewrite Hdt. rewrite decide_True by (by apply (interior_res_dims b)).
      destruct (same_frame_fields _ _ Hsame) as (_ & _ & _ & _ & Hvol & HG & _).
      rewrite HG, Hvol, Haws by done. apply dt_code_viscous.
  - intros HDt b0.
    destruct (CalcBlockTimeStep_fixed_dt inp aRef b0 HDt)
      as (b' & Hok & _ & Hdt).
    exists b'. split; [done|]. intros i j k Hint.
    rewrite Hdt. by rewrite decide_True.
Qed.

Import Examples.

(** One unit cell at rest with unit sound speed and CFL = 1/2: the three
    inviscid radii are 1, the three viscous radii 35/18; the time step is
    (1/2) / 3 for the inviscid run and (1/2) / (3 + 35/6) for the viscous
    one. *)
Lemma CalcBlockTimeStep_formula_witness :
  dims_ok Examples.one_cell /\
  (exists b',
     CalcBlockTimeStep Examples.inp_euler (Q2Qc 1)
       (assemble_inviscid Examples.toy_eos Examples.inp_euler
          Examples.one_cell) = Ok b' /\
     this (ma_get (dt_ b') 0 0 0) = (1 # 6)%Q) /\
  (exists b',
     CalcBlockTimeStep Examples.inp_euler (Q2Qc 1)
       (assemble_viscous Examples.toy_suth Examples.toy_eos Examples.inp_euler
          Examples.toy_grads Examples.toy_turb Examples.one_cell) = Ok b' /\
     this (ma_get (dt_ b') 0 0 0) = (3 # 53)%Q).
Proof.
  assert (Hdims : dims_ok Examples.one_cell) by (vm_compute; tauto).
  assert (Hint : interior Examples.one_cell 0 0 0).
  { unfold interior. vm_compute. intuition discriminate. }
  split; [exact Hdims|].
  assert (HDt : dgtb (inp_Dt Examples.inp_euler) (dlit 0) = false)
    by reflexivity.
  assert (HCFL : dgtb (inp_CFL Examples.inp_euler) (dlit 0) = true)
    by reflexivity.
  destruct (proj1 (CalcBlockTimeStep_formula Qc_arith Examples.toy_suth
                     Examples.toy_eos Examples.inp_euler Examples.toy_grads
                     Examples.toy_turb (Q2Qc 1) Examples.one_cell Hdims)
              HDt HCFL)
    as [(b1 & Hok1 & Hdt1) (b2 & Hok2 & Hdt2)].
  split.
  - exists b1. split; [exact Hok1|]. rewrite (Hdt1 0 0 0 Hint). reflexivity.
  - exists b2. split; [exact Hok2|]. rewrite (Hdt2 0 0 0 Hint). reflexivity.
Defined.

End TimeStepFormula.

(** *** The explicit update *)

Module UpdateProofs.
Import Solver Resid.
Section Proofs.
Context {D PV : Type} `{DoubleOps D} `{!Physics D PV}.
Implicit Types (b : procBlock D PV) (inputVars : input D).

Lemma set_state_eta b : set_state_ (state_ b) b = b.
Proof. by destruct b. Qed.

Lemma state_set_state b v : state_ (set_state_ v b) = v.
Proof. done. Qed.

Lemma ExplicitEulerTimeAdvance_cell (eos : idealGas) b ip jp kp :
  let G := numGhosts_ b in
  ExplicitEulerTimeAdvance eos (ip + G) (jp + G) (kp + G) ip jp kp b =
  set_state_
    (ma_set (state_ b) (ip + G) (jp + G) (kp + G)
       (primVars_of_cons (euler_cons eos b ip jp kp) false eos)) b.
Proof. reflexivity. Qed.

Lemma UpdateBlock_explicitEuler_loop inputVars (impFlag : bool)
      (eos : idealGas) (aRef : D) (du : multiArray3d (genArray D))
      b (l2 : genArray D) (lf : resid D) :
  inp_TimeIntegration inputVars = "explicitEuler"%string ->
  exists b' l2' lf',
    UpdateBlock inputVars impFlag eos aRef du (b, l2, lf) =
      Ok (b', l2', lf') /\
    b' = set_state_ (state_ b') b /\
    forall x y z,
      ma_get (state_ b') x y z =
      (if decide (interior b (x - numGhosts_ b) (y - numGhosts_ b)
                           (z - numGhosts_ b))
       then primVars_of_cons
              (euler_cons eos b (x - numGhosts_ b) (y - numGhosts_ b)
                          (z - numGhosts_ b)) false eos
       else ma_get (state_ b) x y z).
Proof.
  intros Hti. unfold UpdateBlock. rewrite Hti.
  replace ("explicitEuler" =? "rk4")%string with false by reflexivity.
  replace ("explicitEuler" =? "explicitEuler")%string with true
    by reflexivity.
  cbn [negb]. cbv iota.
  set (G := numGhosts_ b).
  set (body := fun (kp jp ip : Z) (s : procBlock D PV * genArray D * resid D) =>
         let '(b0, l2_0, lf_0) := s in
         let b1 := ExplicitEulerTimeAdvance eos (ip + G) (jp + G) (kp + G)
                                            ip jp kp b0 in
         let '(l2_1, lf_1) := accumulate_norms ip jp kp b1 l2_0 lf_0 in
         (b1, l2_1, lf_1)).
  set (final := for_loop (NumK b) (fun kp => for_loop (NumJ b) (fun jp =>
                  for_loop (NumI b) (fun ip => body kp jp ip))) (b, l2, lf)).
  pose (frame := fun s : procBlock D PV * genArray D * resid D => set_state_ (state_ b) (fst (fst s))).
  assert (Hbody_frame : forall k j i s, frame (body k j i s) = frame s).
  { intros k j i [[b0 l2_0] lf_0]. unfold frame, body. cbv zeta.
    destruct (accumulate_norms _ _ _ _ _ _). simpl. by destruct b0. }
  assert (HG : forall s, numGhosts_ (fst (fst s)) = numGhosts_ (frame s)).
  { by intros [[[] ?] ?]. }
  destruct final as [[b' l2'] lf'] eqn:Hfinal.
  exists b', l2', lf'. split; [by rewrite <- Hfinal|].
  assert (Hfr : frame final = frame (b, l2, lf)).
  { apply (for_loop3_obs frame (fun _ => tt) (fun _ _ => tt)
             _ _ _ 0 0 0 body); done. }
  rewrite Hfinal in Hfr. unfold frame in Hfr. simpl in Hfr.
  rewrite set_state_eta in Hfr.
  split; [rewrite <- Hfr; by destruct b'|].
  intros x y z.
  pose (vol_dt_res := fun b0 : procBlock D PV =>
                        (numGhosts_ b0, dt_ b0, vol_ b0, residual_ b0)).
  destruct (for_loop3_obs
              (fun s : procBlock D PV * genArray D * resid D => vol_dt_res (fst (fst s)))
              (fun s : procBlock D PV * genArray D * resid D => ma_get (state_ (fst (fst s))) x y z)
              (fun '(G0, dt0, vol0, res0) (pv : PV) =>
                 primVars_of_cons
                   (ga_sub (ConsVars pv eos)
                      (ga_scale (ma_get dt0 (x - G) (y - G) (z - G) /
                                 ma_get vol0 x y z)%dbl
                                (ma_get res0 (x - G) (y - G) (z - G))))
                   false eos)
              (NumK b) (NumJ b) (NumI b) (z - G) (y - G) (x - G)
              body (b, l2, lf)) as [_ Ho].
  - intros k j i [[b0 l2_0] lf_0]. unfold body. cbv zeta.
    destruct (accumulate_norms _ _ _ _ _ _). done.
  - intros k j i [[b0 l2_0] lf_0] Hne. unfold body. cbv zeta.
    destruct (accumulate_norms _ _ _ _ _ _). cbn [fst].
    unfold ExplicitEulerTimeAdvance. rewrite state_set_state.
    apply ma_get_set_ne. intros Heq. apply Hne.
    inversion Heq. f_equal; [f_equal|]; lia.
  - intros [[b0 l2_0] lf_0]. unfold body. cbv zeta.
    destruct (accumulate_norms _ _ _ _ _ _). cbn [fst].
    unfold ExplicitEulerTimeAdvance. rewrite state_set_state.
    replace (x - G + G) with x by lia.
    replace (y - G + G) with y by lia.
    replace (z - G + G) with z by lia.
    rewrite ma_get_set_eq. done.
  - fold final in Ho. rewrite Hfinal in Ho. cbn [fst] in Ho.
    rewrite Ho. unfold interior, euler_cons. fold G. cbn [vol_dt_res].
    replace (x - G + G) with x by lia.
    replace (y - G + G) with y by lia.
    replace (z - G + G) with z by lia.
    done.
Qed.
End Proofs.

(** C3: with the explicit Euler scheme, [UpdateBlock] returns, it changes
    nothing in the block but [state_], and it replaces the state of every
    interior cell by the primitive form of ConsVars(U^n) - (dt / V) * R,
    where U^n is the state of the cell on entry, dt its time step, V its
    volume and R its residual. *)
Theorem ExplicitEuler_update {D PV : Type} `{DoubleOps D} `{!Physics D PV}
        (inputVars : input D) (impFlag : bool) (eos : idealGas) (aRef : D)
        (du : multiArray3d (genArray D)) (b : procBlock D PV)
        (l2 : genArray D) (lf : resid D) :
  inp_TimeIntegration inputVars = "explicitEuler"%string ->
  exists b' l2' lf',
    UpdateBlock inputVars impFlag eos aRef du (b, l2, lf) = Ok (b', l2', lf') /\
    b' = set_state_ (state_ b') b /\
    forall i j k, interior b i j k ->
      let G := numGhosts_ b in
      ma_get (state_ b') (i + G) (j + G) (k + G) =
      primVars_of_cons
        (ga_sub (ConsVars (ma_get (state_ b) (i + G) (j + G) (k + G)) eos)
           (ga_scale (ma_get (dt_ b) i j k /
                      ma_get (vol_ b) (i + G) (j + G) (k + G))%dbl
                     (ma_get (residual_ b) i j k)))
        false eos.
Proof.
  intros Hti.
  destruct (UpdateBlock_explicitEuler_loop inputVars impFlag eos aRef du
              b l2 lf Hti) as (b' & l2' & lf' & Hok & Hframe & Hstate).
  exists b', l2', lf'. split; [done|]. split; [done|].
  intros i j k Hint G. rewrite Hstate. fold G.
  replace (i + G - G) with i by lia.
  replace (j + G - G) with j by lia.
  replace (k + G - G) with k by lia.
  by rewrite decide_True.
Qed.

Import Examples.

(** One cell with state (1,0,0,0,1,0,0), residual (1,0,0,0,0,0,0), time step
    1/6 and volume 1: the density becomes 1 - 1/6. *)
Lemma ExplicitEuler_update_witness :
  exists b' l2' lf',
    UpdateBlock Examples.inp_euler false Examples.toy_eos (Q2Qc 1)
      Examples.no_du
      (Examples.one_cell, Examples.l2_zero, Examples.linf_zero) =
      Ok (b', l2', lf') /\
    Examples.values (ma_get (state_ b') 2 2 2) =
      [5 # 6; 0; 0; 0; 1; 0; 0]%Q.
Proof.
  destruct (ExplicitEuler_update Examples.inp_euler false Examples.toy_eos
              (Q2Qc 1) Examples.no_du Examples.one_cell Examples.l2_zero
              Examples.linf_zero eq_refl)
    as (b' & l2' & lf' & Hok & _ & Hstate).
  exists b', l2', lf'. split; [exact Hok|].
  assert (Hint : interior Examples.one_cell 0 0 0).
  { unfold interior. vm_compute. intuition discriminate. }
  specialize (Hstate 0 0 0 Hint). cbv zeta in Hstate.
  change (0 + numGhosts_ Examples.one_cell) with 2 in Hstate.
  rewrite Hstate. reflexivity.
Defined.

(** C1 (the code at a failing input): RK4 with CFL = 1/2 and no fixed time
    step on one unit cell, state (1,0,0,0,1,0,0), residual (1,0,0,0,0,0,0),
    wave speed 3 and time step dt^n = 1/6 on entry.  The claim gives the last
    stage the density 1 - (1 * dt^n / V) * R = 5/6, with the saved time step.
    [UpdateBlock] returns the density 23/24 = 1 - (1/24) * 1: the last stage
    reads [dt_], which [CalcBlockTimeStep] has overwritten after each of the
    stages 0 to 2 (the wave speed has grown from 3 to 12, the time step has
    shrunk from 1/6 to 1/24); the saved copy [dtN] is never read. *)
Lemma UpdateBlock_rk4_one_cell :
  exists b' l2' lf',
    UpdateBlock Examples.inp_rk4 false Examples.toy_eos (Q2Qc 1)
      Examples.no_du
      (Examples.one_cell, Examples.l2_zero, Examples.linf_zero) =
      Ok (b', l2', lf') /\
    Examples.values (ma_get (state_ b') 2 2 2) =
      [23 # 24; 0; 0; 0; 1; 0; 0]%Q /\
    this (ma_get (dt_ b') 0 0 0) = (1 # 24)%Q /\
    this (ma_get (dt_ Examples.one_cell) 0 0 0) = (1 # 6)%Q /\
    Examples.values
      (primVars_of_cons
         (ga_sub (ConsVars (ma_get (state_ Examples.one_cell) 2 2 2)
                           Examples.toy_eos)
            (ga_scale (dlit 1 * ma_get (dt_ Examples.one_cell) 0 0 0 /
                       ma_get (vol_ Examples.one_cell) 2 2 2)%dbl
                      (ma_get (residual_ b') 0 0 0)))
         false Examples.toy_eos) =
      [5 # 6; 0; 0; 0; 1; 0; 0]%Q.
Proof.
  destruct (UpdateBlock Examples.inp_rk4 false Examples.toy_eos (Q2Qc 1)
              Examples.no_du
              (Examples.one_cell, Examples.l2_zero, Examples.linf_zero))
    as [[[b' l2'] lf']|] eqn:E.
  - exists b', l2', lf'. split; [reflexivity|].
    vm_compute in E. injection E as <- <- <-.
    repeat split; vm_compute; reflexivity.
  - vm_compute in E. discriminate.
Qed.

End UpdateProofs.

(** *** The solution gather *)

Module GatherProofs.
Import Gather.

Section Proofs.
Context {D PV : Type} (ROOT : Z).

Lemma MPI_Recv_last (source tag : Z) (net : network D PV)
      (buffer : list (packed D PV)) :
  no_message ROOT source tag net ->
  MPI_Recv source tag ROOT (MPI_Send source ROOT tag buffer net) =
    Some (mkMessage source ROOT tag buffer, net).
Proof.
  unfold no_message, MPI_Send. induction net as [|m net IH]; simpl.
  - intros _. by rewrite !Z.eqb_refl.
  - destruct ((msg_source m =? source) && (msg_tag m =? tag) &&
              (msg_dest m =? ROOT)); [done|].
    destruct (MPI_Recv source tag ROOT net) as [[m' rest]|]; [done|].
    intros _. by rewrite IH.
Qed.

(** The messages of a loop that sends one message per entry of a list. *)
Lemma seqZ_bind_nthZ {A B : Type} (f : A -> B) (l : list A) :
  (seqZ 0 (Z.of_nat (length l)) ≫=
     fun x => match nthZ l x with Some a => [f a] | None => [] end) =
  f <$> l.
Proof.
  induction l as [|a l IH] using rev_ind; [done|].
  rewrite length_app, Nat2Z.inj_add. simpl length.
  rewrite seqZ_app by lia. rewrite bind_app, fmap_app.
  f_equal.
  - rewrite <- IH. apply Forall_bind_ext, Forall_forall.
    intros x Hx. apply list_elem_of_In, elem_of_seqZ in Hx. unfold nthZ.
    destruct (x <? 0) eqn:Ex; [done|].
    rewrite lookup_app_l by lia. done.
  - change (Z.of_nat 1) with 1. rewrite seqZ_cons by lia.
    rewrite (seqZ_nil _ (Z.pred 1)) by lia. simpl.
    unfold nthZ. destruct (0 + Z.of_nat (length l) <? 0) eqn:Ex;
      [apply Z.ltb_lt in Ex; lia|].
    replace (Z.to_nat (0 + Z.of_nat (length l))) with (length l) by lia.
    rewrite lookup_app_r by lia. rewrite Nat.sub_diag. done.
Qed.

Lemma GetProcBlocks_send_messages (localBlocks : list (procBlock D PV))
      (rank : Z) (net : network D PV) :
  GetProcBlocks_send ROOT localBlocks rank net =
  net ++ ((fun w => mkMessage rank ROOT (GlobalPos w) (buffer_of_claim w))
            <$> localBlocks).
Proof.
  unfold GetProcBlocks_send.
  rewrite (for_loop_append _ _
             (fun x => match nthZ localBlocks x with
                       | Some w => [mkMessage rank ROOT (GlobalPos w)
                                      (buffer_of_claim w)]
                       | None => []
                       end)).
  - by rewrite seqZ_bind_nthZ.
  - intros x l _. destruct (nthZ localBlocks x); [done|].
    by rewrite app_nil_r.
Qed.

Lemma same_extents_refl {A : Type} (a : multiArray3d A) :
  same_extents a a = true.
Proof. unfold same_extents. by rewrite !Z.eqb_refl. Qed.

Lemma GetProcBlocks_recv_block_sent (w r : procBlock D PV)
      (net : network D PV) :
  copy_of r w ->
  no_message ROOT (rank_ w) (globalPos_ w) net ->
  GetProcBlocks_recv_block ROOT r
    (MPI_Send (rank_ w) ROOT (GlobalPos w) (buffer_of_claim w) net) =
  Done (set_avgWaveSpeed_ (avgWaveSpeed_ w) (set_dt_ (dt_ w)
          (set_residual_ (residual_ w) (set_state_ (state_ w) r))), net).
Proof.
  intros (Hr & Hg & Hs & Hres & Hdt & Hwd & Hws) Hno.
  unfold GetProcBlocks_recv_block, Rank, GlobalPos. rewrite Hr, Hg.
  rewrite MPI_Recv_last by done.
  cbn [msg_buffer buffer_of_claim unpack_states]. rewrite Hs.
  cbn [unpack_residuals]. rewrite Hres.
  cbn [unpack_doubles]. rewrite Hdt.
  cbn [unpack_doubles]. by rewrite Hws.
Qed.
End Proofs.

Import Examples.

(** C9 as stated fails for [PackSendSolMPI]: the buffer it sends has five
    arrays, not the four of the claim; the fourth is the wall distance. *)
Lemma PackSendSolMPI_packs_wallDist :
  (msg_buffer <$> PackSendSolMPI 0 worker_block [] <>
   [buffer_of_claim worker_block]) /\
  (msg_buffer <$> PackSendSolMPI 0 worker_block []) ≫= drop 3 =
  [PackedDoubles (wallDist_ worker_block);
   PackedDoubles (avgWaveSpeed_ worker_block)].
Proof.
  split; [|reflexivity].
  intros Heq. apply (f_equal (fmap length)) in Heq. vm_compute in Heq.
  discriminate.
Qed.

End GatherProofs.

(** *** Geometry of the ghost cells *)

Module GhostProofs.
Import Ghost.

Section Proofs.
Context {D PV : Type} `{DoubleOps D}.

Ltac insert_steps :=
  repeat (rewrite Insert_ok by (simpl; lia); cbn [res_bind]).

Ltac same_side Hs :=
  match goal with
  | Hin : _ -> forall Y Z : Z, ?lo1 <= Y <= ?hi1 -> ?lo2 <= Z <= ?hi2 -> _,
    Hout : forall X Y Z : Z, _ \/ _ -> _ |- ma_get _ ?x ?y ?z = _ =>
      first
        [ destruct (decide (lo1 <= y <= hi1 /\ lo2 <= z <= hi2))
            as [[? ?]|Hnr];
          [rewrite Hin by (done || lia); reflexivity
          |rewrite Hout by (right; exact Hnr); exact Hs]
        | destruct (decide (lo1 <= x <= hi1 /\ lo2 <= z <= hi2))
            as [[? ?]|Hnr];
          [rewrite Hin by (done || lia); reflexivity
          |rewrite Hout by (right; exact Hnr); exact Hs]
        | destruct (decide (lo1 <= x <= hi1 /\ lo2 <= y <= hi2))
            as [[? ?]|Hnr];
          [rewrite Hin by (done || lia); reflexivity
          |rewrite Hout by (right; exact Hnr); exact Hs] ]
  end.

Ltac effect_proof :=
  insert_steps;
  (eexists; split; [reflexivity|]);
  (split; [done|]);
  cbn [center_ fCenterI_ fCenterJ_ fCenterK_];
  (split; [intros X Y Z HX; by rewrite !ma_get_overwrite_out by lia|]);
  (split; [|by repeat split; intros X Y Z HX1 HX2;
             rewrite !ma_get_overwrite_out by lia]);
  intros Hg Y Z HY HZ;
  rewrite ma_get_overwrite_out by lia;
  rewrite ma_get_overwrite_in by lia;
  unfold moved_center, ma_add, ma_sub, ma_zip, Slice, ma_get;
  cbn [maData];
  repeat f_equal; lia.

Lemma AssignGhostCellsGeom_I_effect (x : ghostIndices)
      (jmin jmax kmin kmax jmaxF kmaxF : Z) (b : procBlock D PV) :
  exists b2,
    AssignGhostCellsGeom_I x jmin jmax kmin kmax jmaxF kmaxF b = Ok b2 /\
    effect_I x jmin jmax kmin kmax b b2.
Proof.
  unfold AssignGhostCellsGeom_I, effect_I, ghost_frame. cbv zeta.
  destruct (NumI b <? 2); effect_proof.
Qed.

Lemma AssignGhostCellsGeom_J_effect (x : ghostIndices)
      (imin imax kmin kmax imaxF kmaxF : Z) (b : procBlock D PV) :
  exists b2,
    AssignGhostCellsGeom_J x imin imax kmin kmax imaxF kmaxF b = Ok b2 /\
    effect_J x imin imax kmin kmax b b2.
Proof.
  unfold AssignGhostCellsGeom_J, effect_J, ghost_frame. cbv zeta.
  destruct (NumJ b <? 2); effect_proof.
Qed.

Lemma AssignGhostCellsGeom_K_effect (x : ghostIndices)
      (imin imax jmin jmax imaxF jmaxF : Z) (b : procBlock D PV) :
  exists b2,
    AssignGhostCellsGeom_K x imin imax jmin jmax imaxF jmaxF b = Ok b2 /\
    effect_K x imin imax jmin jmax b b2.
Proof.
  unfold AssignGhostCellsGeom_K, effect_K, ghost_frame. cbv zeta.
  destruct (NumK b <? 2); effect_proof.
Qed.

(** The indices of a surface that lies on the side its type names. *)
Lemma surface_indices_lower (t imax jmax kmax : Z) :
  t <> 2 -> t <> 4 -> t <> 6 ->
  surface_indices t imax jmax kmax = mkGhostIndices 1 0 2 3 1 0 2 3 4.
Proof.
  intros H2 H4 H6. unfold surface_indices.
  destruct (t =? 2) eqn:E2; [apply Z.eqb_eq in E2; lia|].
  destruct (t =? 4) eqn:E4; [apply Z.eqb_eq in E4; lia|].
  destruct (t =? 6) eqn:E6; [apply Z.eqb_eq in E6; lia|].
  done.
Qed.

Lemma normal_indices_upper (N m : Z) :
  m = N + 1 ->
  normal_indices N
    (mkGhostIndices (m + 1) (m + 2) m (m - 1) (m + 2) (m + 3) (m + 1) m
                    (m - 1)).
Proof. intros ->. right. f_equal; lia. Qed.

Lemma surface_indices_I (b : procBlock D PV) (s : boundarySurface) :
  surface_ok b s -> surfaceType s = 1 \/ surfaceType s = 2 ->
  normal_indices (NumI b)
    (surface_indices (surfaceType s) (iMax s - 2 + 2) (jMax s - 2 + 2)
                     (kMax s - 2 + 2)).
Proof.
  intros [Hside _] [Ht|Ht]; rewrite Ht.
  - left. by apply surface_indices_lower.
  - cbn [surface_indices Z.eqb Pos.eqb]. apply normal_indices_upper. lia.
Qed.

Lemma surface_indices_J (b : procBlock D PV) (s : boundarySurface) :
  surface_ok b s -> surfaceType s = 3 \/ surfaceType s = 4 ->
  normal_indices (NumJ b)
    (surface_indices (surfaceType s) (iMax s - 2 + 2) (jMax s - 2 + 2)
                     (kMax s - 2 + 2)).
Proof.
  intros [Hside _] [Ht|Ht]; rewrite Ht.
  - left. by apply surface_indices_lower.
  - cbn [surface_indices Z.eqb Pos.eqb]. apply normal_indices_upper. lia.
Qed.

Lemma surface_indices_K (b : procBlock D PV) (s : boundarySurface) :
  surface_ok b s -> surfaceType s = 5 \/ surfaceType s = 6 ->
  normal_indices (NumK b)
    (surface_indices (surfaceType s) (iMax s - 2 + 2) (jMax s - 2 + 2)
                     (kMax s - 2 + 2)).
Proof.
  intros [Hside _] [Ht|Ht]; rewrite Ht.
  - left. by apply surface_indices_lower.
  - cbn [surface_indices Z.eqb Pos.eqb]. apply normal_indices_upper. lia.
Qed.

(** The cells of a patch are interior cells along the two directions of the
    surface. *)
Lemma on_patch_within (lo hi n x : Z) :
  patch_within lo hi n -> on_patch lo hi 2 x -> 2 <= x < n + 2.
Proof. unfold patch_within, on_patch. lia. Qed.

(** A surface of the other two kinds is not touched by a branch: its ghost
    cells have an interior index along the normal of the branch. *)
Lemma effect_I_preserves (xu : ghostIndices) (jmin jmax kmin kmax : Z)
      (b1 b2 : procBlock D PV) (s : boundarySurface) :
  numGhosts_ b1 = 2 -> 0 < NumI b1 ->
  normal_indices (NumI b1) xu ->
  effect_I xu jmin jmax kmin kmax b1 b2 ->
  surface_ok b1 s ->
  ghost_centers b1 s -> ghost_centers b2 s.
Proof.
  intros HG HNI Hxu ((Hbc & HG2 & Hres) & Hout & Hin & HfI & HfJ & HfK) Hok
         (HsI & HsJ & HsK).
  pose proof Hok as (_ & HpI & HpJ & HpK).
  rewrite HG in HG2.
  split; [|split]; intros Ht.
  - specialize (HsI Ht). unfold layer_I, is_moved in *.
    rewrite HG2. rewrite HG in HsI. cbv zeta in *.
    pose proof (surface_indices_I b1 s Hok Ht) as Hxs.
    intros j k Hj Hk. specialize (HsI j k Hj Hk).
    destruct Hxs as [Exs|Exs], Hxu as [Exu|Exu]; rewrite Exs in *;
      subst xu; cbn [g1 g2 i1 i2 fg1 fg2 bnd fi1 fi2] in *;
      rewrite !HfI by lia.
    + rewrite (Hout 2) by lia. same_side HsI.
    + rewrite (Hout 2), (Hout 1) by lia. exact HsI.
    + rewrite (Hout (NumI b1 + 1)), (Hout (NumI b1 + 2)) by lia. exact HsI.
    + rewrite (Hout (NumI b1 + 1)) by lia. same_side HsI.
  - specialize (HsJ Ht). unfold layer_J, is_moved in *.
    rewrite HG2. rewrite HG in HsJ. cbv zeta in *.
    intros i k Hi Hk. specialize (HsJ i k Hi Hk).
    assert (2 <= i < NumI b1 + 2)
      by (eapply on_patch_within; [apply HpI; lia|done]).
    destruct Hxu; subst xu; cbn [g1 g2 i1 i2 fg1 fg2 bnd fi1 fi2] in *;
      rewrite !Hout by lia; rewrite !HfJ by lia; exact HsJ.
  - specialize (HsK Ht). unfold layer_K, is_moved in *.
    rewrite HG2. rewrite HG in HsK. cbv zeta in *.
    intros i j Hi Hj. specialize (HsK i j Hi Hj).
    assert (2 <= i < NumI b1 + 2)
      by (eapply on_patch_within; [apply HpI; lia|done]).
    destruct Hxu; subst xu; cbn [g1 g2 i1 i2 fg1 fg2 bnd fi1 fi2] in *;
      rewrite !Hout by lia; rewrite !HfK by lia; exact HsK.
Qed.

Lemma effect_J_preserves (xu : ghostIndices) (imin imax kmin kmax : Z)
      (b1 b2 : procBlock D PV) (s : boundarySurface) :
  numGhosts_ b1 = 2 -> 0 < NumJ b1 ->
  normal_indices (NumJ b1) xu ->
  effect_J xu imin imax kmin kmax b1 b2 ->
  surface_ok b1 s ->
  ghost_centers b1 s -> ghost_centers b2 s.
Proof.
  intros HG HNJ Hxu ((Hbc & HG2 & Hres) & Hout & Hin & HfI & HfJ & HfK) Hok
         (HsI & HsJ & HsK).
  pose proof Hok as (_ & HpI & HpJ & HpK).
  rewrite HG in HG2.
  split; [|split]; intros Ht.
  - specialize (HsI Ht). unfold layer_I, is_moved in *.
    rewrite HG2. rewrite HG in HsI. cbv zeta in *.
    intros j k Hj Hk. specialize (HsI j k Hj Hk).
    assert (2 <= j < NumJ b1 + 2)
      by (eapply on_patch_within; [apply HpJ; lia|done]).
    destruct Hxu; subst xu; cbn [g1 g2 i1 i2 fg1 fg2 bnd fi1 fi2] in *;
      rewrite !Hout by lia; rewrite !HfI by lia; exact HsI.
  - specialize (HsJ Ht). unfold layer_J, is_moved in *.
    rewrite HG2. rewrite HG in HsJ. cbv zeta in *.
    pose proof (surface_indices_J b1 s Hok Ht) as Hxs.
    intros i k Hi Hk. specialize (HsJ i k Hi Hk).
    destruct Hxs as [Exs|Exs], Hxu as [Exu|Exu]; rewrite Exs in *;
      subst xu; cbn [g1 g2 i1 i2 fg1 fg2 bnd fi1 fi2] in *;
      rewrite !HfJ by lia.
    + rewrite (Hout i 2) by lia. same_side HsJ.
    + rewrite (Hout i 2), (Hout i 1) by lia. exact HsJ.
    + rewrite (Hout i (NumJ b1 + 1)), (Hout i (NumJ b1 + 2)) by lia.
      exact HsJ.
    + rewrite (Hout i (NumJ b1 + 1)) by lia. same_side HsJ.
  - specialize (HsK Ht). unfold layer_K, is_moved in *.
    rewrite HG2. rewrite HG in HsK. cbv zeta in *.
    intros i j Hi Hj. specialize (HsK i j Hi Hj).
    assert (2 <= j < NumJ b1 + 2)
      by (eapply on_patch_within; [apply HpJ; lia|done]).
    destruct Hxu; subst xu; cbn [g1 g2 i1 i2 fg1 fg2 bnd fi1 fi2] in *;
      rewrite !Hout by lia; rewrite !HfK by lia; exact HsK.
Qed.

Lemma effect_K_preserves (xu : ghostIndices) (imin imax jmin jmax : Z)
      (b1 b2 : procBlock D PV) (s : boundarySurface) :
  numGhosts_ b1 = 2 -> 0 < NumK b1 ->
  normal_indices (NumK b1) xu ->
  effect_K xu imin imax jmin jmax b1 b2 ->
  surface_ok b1 s ->
  ghost_centers b1 s -> ghost_centers b2 s.
Proof.
  intros HG HNK Hxu ((Hbc & HG2 & Hres) & Hout & Hin & HfI & HfJ & HfK) Hok
         (HsI & HsJ & HsK).
  pose proof Hok as (_ & HpI & HpJ & HpK).
  rewrite HG in HG2.
  split; [|split]; intros Ht.
  - specialize (HsI Ht). unfold layer_I, is_moved in *.
    rewrite HG2. rewrite HG in HsI. cbv zeta in *.
    intros j k Hj Hk. specialize (HsI j k Hj Hk).
    assert (2 <= k < NumK b1 + 2)
      by (eapply on_patch_within; [apply HpK; lia|done]).
    destruct Hxu; subst xu; cbn [g1 g2 i1 i2 fg1 fg2 bnd fi1 fi2] in *;
      rewrite !Hout by lia; rewrite !HfI by lia; exact HsI.
  - specialize (HsJ Ht). unfold layer_J, is_moved in *.
    rewrite HG2. rewrite HG in HsJ. cbv zeta in *.
    intros i k Hi Hk. specialize (HsJ i k Hi Hk).
    assert (2 <= k < NumK b1 + 2)
      by (eapply on_patch_within; [apply HpK; lia|done]).
    destruct Hxu; subst xu; cbn [g1 g2 i1 i2 fg1 fg2 bnd fi1 fi2] in *;
      rewrite !Hout by lia; rewrite !HfJ by lia; exact HsJ.
  - specialize (HsK Ht). unfold layer_K, is_moved in *.
    rewrite HG2. rewrite HG in HsK. cbv zeta in *.
    pose proof (surface_indices_K b1 s Hok Ht) as Hxs.
    intros i j Hi Hj. specialize (HsK i j Hi Hj).
    destruct Hxs as [Exs|Exs], Hxu as [Exu|Exu]; rewrite Exs in *;
      subst xu; cbn [g1 g2 i1 i2 fg1 fg2 bnd fi1 fi2] in *;
      rewrite !HfK by lia.
    + rewrite (Hout i j 2) by lia. same_side HsK.
    + rewrite (Hout i j 2), (Hout i j 1) by lia. exact HsK.
    + rewrite (Hout i j (NumK b1 + 1)), (Hout i j (NumK b1 + 2)) by lia.
      exact HsK.
    + rewrite (Hout i j (NumK b1 + 1)) by lia. same_side HsK.
Qed.

(** A branch gives the first ghost layer of its own surface the moved
    centres. *)
Lemma effect_I_first_layer (b1 b2 : procBlock D PV) (u : boundarySurface) :
  numGhosts_ b1 = 2 -> 0 < NumI b1 -> surface_ok b1 u ->
  surfaceType u = 1 \/ surfaceType u = 2 ->
  effect_I (surface_indices (surfaceType u) (iMax u - 2 + 2)
              (jMax u - 2 + 2) (kMax u - 2 + 2))
           (jMin u - 1 + 2) (jMax u - 2 + 2) (kMin u - 1 + 2)
           (kMax u - 2 + 2) b1 b2 ->
  layer_I is_moved b2 u.
Proof.
  intros HG HN Hok Ht ((Hbc & HG2 & Hres) & Hout & Hin & HfI & HfJ & HfK).
  rewrite HG in HG2. unfold layer_I, is_moved. rewrite HG2. cbv zeta.
  intros j k Hj Hk. unfold on_patch in Hj, Hk.
  destruct (surface_indices_I b1 u Hok Ht) as [Ex|Ex]; rewrite Ex in *;
    cbn [g1 g2 i1 i2 fg1 fg2 bnd fi1 fi2] in *;
    rewrite !HfI by lia.
  - rewrite (Hout 2) by lia. apply Hin; lia.
  - rewrite (Hout (NumI b1 + 1)) by lia. apply Hin; lia.
Qed.

Lemma effect_J_first_layer (b1 b2 : procBlock D PV) (u : boundarySurface) :
  numGhosts_ b1 = 2 -> 0 < NumJ b1 -> surface_ok b1 u ->
  surfaceType u = 3 \/ surfaceType u = 4 ->
  effect_J (surface_indices (surfaceType u) (iMax u - 2 + 2)
              (jMax u - 2 + 2) (kMax u - 2 + 2))
           (iMin u - 1 + 2) (iMax u - 2 + 2) (kMin u - 1 + 2)
           (kMax u - 2 + 2) b1 b2 ->
  layer_J is_moved b2 u.
Proof.
  intros HG HN Hok Ht ((Hbc & HG2 & Hres) & Hout & Hin & HfI & HfJ & HfK).
  rewrite HG in HG2. unfold layer_J, is_moved. rewrite HG2. cbv zeta.
  intros i k Hi Hk. unfold on_patch in Hi, Hk.
  destruct (surface_indices_J b1 u Hok Ht) as [Ex|Ex]; rewrite Ex in *;
    cbn [g1 g2 i1 i2 fg1 fg2 bnd fi1 fi2] in *;
    rewrite !HfJ by lia.
  - rewrite (Hout i 2) by lia. apply Hin; lia.
  - rewrite (Hout i (NumJ b1 + 1)) by lia. apply Hin; lia.
Qed.

Lemma effect_K_first_layer (b1 b2 : procBlock D PV) (u : boundarySurface) :
  numGhosts_ b1 = 2 -> 0 < NumK b1 -> surface_ok b1 u ->
  surfaceType u = 5 \/ surfaceType u = 6 ->
  effect_K (surface_indices (surfaceType u) (iMax u - 2 + 2)
              (jMax u - 2 + 2) (kMax u - 2 + 2))
           (iMin u - 1 + 2) (iMax u - 2 + 2) (jMin u - 1 + 2)
           (jMax u - 2 + 2) b1 b2 ->
  layer_K is_moved b2 u.
Proof.
  intros HG HN Hok Ht ((Hbc & HG2 & Hres) & Hout & Hin & HfI & HfJ & HfK).
  rewrite HG in HG2. unfold layer_K, is_moved. rewrite HG2. cbv zeta.
  intros i j Hi Hj. unfold on_patch in Hi, Hj.
  destruct (surface_indices_K b1 u Hok Ht) as [Ex|Ex]; rewrite Ex in *;
    cbn [g1 g2 i1 i2 fg1 fg2 bnd fi1 fi2] in *;
    rewrite !HfK by lia.
  - rewrite (Hout i j 2) by lia. apply Hin; lia.
  - rewrite (Hout i j (NumK b1 + 1)) by lia. apply Hin; lia.
Qed.

Lemma surface_ok_frame (b b1 : procBlock D PV) (s : boundarySurface) :
  ghost_frame b b1 -> surface_ok b s -> surface_ok b1 s.
Proof.
  intros (_ & _ & Hres). unfold surface_ok, NumI, NumJ, NumK.
  by rewrite Hres.
Qed.

Lemma ghost_frame_trans (b b1 b2 : procBlock D PV) :
  ghost_frame b b1 -> ghost_frame b1 b2 -> ghost_frame b b2.
Proof.
  intros (Hbc & HG & Hres) (Hbc' & HG' & Hres'). unfold ghost_frame.
  by rewrite Hbc', HG', Hres'.
Qed.

(** One iteration of the loop. *)
Lemma AssignGhostCellsGeom_surface_step (b1 : procBlock D PV)
      (u : boundarySurface) :
  numGhosts_ b1 = 2 -> 0 < NumI b1 -> 0 < NumJ b1 -> 0 < NumK b1 ->
  surface_ok b1 u ->
  exists b2,
    AssignGhostCellsGeom_surface u b1 = Ok b2 /\
    ghost_frame b1 b2 /\
    (forall s, surface_ok b1 s -> ghost_centers b1 s -> ghost_centers b2 s) /\
    (bcType u <> "interblock"%string -> ghost_centers b2 u).
Proof.
  intros HG HNI HNJ HNK Hok. unfold AssignGhostCellsGeom_surface.
  rewrite HG. cbv zeta.
  destruct (bcType u =? "interblock")%string eqn:Ebc.
  { apply String.eqb_eq in Ebc. rewrite !andb_false_r.
    exists b1. split; [done|]. split; [done|]. split; [done|]. done. }
  rewrite !andb_true_r.
  pose proof Hok as (Hside & _).
  destruct ((surfaceType u =? 1) || (surfaceType u =? 2)) eqn:EI.
  { assert (Ht : surfaceType u = 1 \/ surfaceType u = 2).
    { apply orb_prop in EI. destruct EI as [E|E]; apply Z.eqb_eq in E; auto. }
    destruct (AssignGhostCellsGeom_I_effect
                (surface_indices (surfaceType u) (iMax u - 2 + 2)
                   (jMax u - 2 + 2) (kMax u - 2 + 2))
                (jMin u - 1 + 2) (jMax u - 2 + 2) (kMin u - 1 + 2)
                (kMax u - 2 + 2) (jMax u - 2 + 2 + 1) (kMax u - 2 + 2 + 1) b1)
      as (b2 & Hb2 & Heff).
    exists b2. split; [exact Hb2|]. split; [apply Heff|]. split.
    - intros s Hs. eapply effect_I_preserves; eauto.
      by apply surface_indices_I.
    - intros _. split; [|split]; intros Ht'; [|lia|lia].
      by apply (effect_I_first_layer b1). }
  destruct ((surfaceType u =? 3) || (surfaceType u =? 4)) eqn:EJ.
  { assert (Ht : surfaceType u = 3 \/ surfaceType u = 4).
    { apply orb_prop in EJ. destruct EJ as [E|E]; apply Z.eqb_eq in E; auto. }
    destruct (AssignGhostCellsGeom_J_effect
                (surface_indices (surfaceType u) (iMax u - 2 + 2)
                   (jMax u - 2 + 2) (kMax u - 2 + 2))
                (iMin u - 1 + 2) (iMax u - 2 + 2) (kMin u - 1 + 2)
                (kMax u - 2 + 2) (iMax u - 2 + 2 + 1) (kMax u - 2 + 2 + 1) b1)
      as (b2 & Hb2 & Heff).
    exists b2. split; [exact Hb2|]. split; [apply Heff|]. split.
    - intros s Hs. eapply effect_J_preserves; eauto.
      by apply surface_indices_J.
    - intros _. split; [|split]; intros Ht'; [lia| |lia].
      by apply (effect_J_first_layer b1). }
  destruct ((surfaceType u =? 5) || (surfaceType u =? 6)) eqn:EK.
  { assert (Ht : surfaceType u = 5 \/ surfaceType u = 6).
    { apply orb_prop in EK. destruct EK as [E|E]; apply Z.eqb_eq in E; auto. }
    destruct (AssignGhostCellsGeom_K_effect
                (surface_indices (surfaceType u) (iMax u - 2 + 2)
                   (jMax u - 2 + 2) (kMax u - 2 + 2))
                (iMin u - 1 + 2) (iMax u - 2 + 2) (jMin u - 1 + 2)
                (jMax u - 2 + 2) (iMax u - 2 + 2 + 1) (jMax u - 2 + 2 + 1) b1)
      as (b2 & Hb2 & Heff).
    exists b2. split; [exact Hb2|]. split; [apply Heff|]. split.
    - intros s Hs. eapply effect_K_preserves; eauto.
      by apply surface_indices_K.
    - intros _. split; [|split]; intros Ht'; [lia|lia|].
      by apply (effect_K_first_layer b1). }
  exfalso.
  apply orb_false_elim in EI, EJ, EK.
  destruct EI as [E1 E2], EJ as [E3 E4], EK as [E5 E6].
  apply Z.eqb_neq in E1, E2, E3, E4, E5, E6. lia.
Qed.

(** The whole loop. *)
Lemma AssignGhostCellsGeom_loop (b : procBlock D PV) :
  block_ok b ->
  exists b',
    AssignGhostCellsGeom b = Ok b' /\ ghost_frame b b' /\
    forall s, s ∈ bc_ b -> bcType s <> "interblock"%string ->
      ghost_centers b' s.
Proof.
  intros (HG & HNI & HNJ & HNK & Hsurf).
  unfold AssignGhostCellsGeom, for_loop_res.
  pose (P := fun (m : Z) (r : res (procBlock D PV)) =>
    exists b', r = Ok b' /\ ghost_frame b b' /\
      forall (n : nat) s, Z.of_nat n < m -> bc_ b !! n = Some s ->
        bcType s <> "interblock"%string -> ghost_centers b' s).
  match goal with
  | |- exists b', for_loop ?n ?f ?r = _ /\ _ =>
      assert (HP : P n (for_loop n f r))
  end.
  { apply (for_loop_ind P); unfold P.
    - unfold NumSurfaces. lia.
    - exists b. split; [done|]. split; [done|]. intros n s Hn. lia.
    - intros m r Hm (b1 & -> & Hfr & Hdone). cbn [res_bind].
      pose proof Hfr as (Hbc & HG1 & Hres).
      unfold NumSurfaces in Hm.
      destruct (lookup_lt_is_Some_2 (bc_ b) (Z.to_nat m)) as [u Hu]; [lia|].
      rewrite Hbc. unfold nthZ.
      destruct (m <? 0) eqn:Em; [apply Z.ltb_lt in Em; lia|].
      rewrite Hu.
      assert (Hu_in : u ∈ bc_ b) by (eapply list_elem_of_lookup_2; eauto).
      destruct (AssignGhostCellsGeom_surface_step b1 u)
        as (b2 & Hb2 & Hfr2 & Hpres & Hself).
      { by rewrite HG1. }
      { unfold NumI. by rewrite Hres. }
      { unfold NumJ. by rewrite Hres. }
      { unfold NumK. by rewrite Hres. }
      { apply (surface_ok_frame b); auto. }
      exists b2. split; [exact Hb2|].
      split; [by apply (ghost_frame_trans b b1)|].
      intros n s Hn Hs Hnib.
      destruct (decide (Z.of_nat n = m)) as [Heq|Hne].
      + assert (s = u) as ->.
        { rewrite <- Heq, Nat2Z.id in Hu.
          pose proof (eq_trans (eq_sym Hs) Hu) as Hsu. by injection Hsu. }
        by apply Hself.
      + apply Hpres.
        * apply (surface_ok_frame b); [done|]. apply Hsurf.
          eapply list_elem_of_lookup_2; eauto.
        * apply (Hdone n); [lia|done|done]. }
  destruct HP as (b' & Hb' & Hfr & Hdone).
  exists b'. split; [exact Hb'|]. split; [exact Hfr|].
  intros s Hs Hnib. apply list_elem_of_lookup_1 in Hs as [n Hn].
  apply (Hdone n); [|done|done].
  apply lookup_lt_Some in Hn. unfold NumSurfaces. lia.
Qed.

(** Where the interior centre is half-way between the two face centres, the
    moved centre is the reflection. *)
Lemma moved_center_reflected `{!RealGroup D} (g c fb fi : vector3d D) :
  is_moved g c fb fi -> is_reflected_if_midway g c fb fi.
Proof.
  unfold is_moved, is_reflected_if_midway, midway, reflected, moved_center.
  intros -> Hmid.
  assert (Hlaw : forall x y z : D,
            (x + x)%dbl = (y + z)%dbl ->
            (x + (y - z) - y)%dbl = (y - x)%dbl).
  { intros x y z Hxx.
    assert (Hy : y = (x + x - z)%dbl) by (by rewrite Hxx, dadd_sub).
    assert (H1 : (x + (y - z) - y)%dbl = (x - z)%dbl).
    { rewrite <- (dsub_add y z) at 2.
      by rewrite dsub_add_distr, dadd_sub. }
    rewrite H1. rewrite Hy at 1.
    rewrite <- (dadd_sub (x + x - z)%dbl z) at 1.
    rewrite dsub_add. rewrite <- dsub_add_distr.
    rewrite (dadd_comm z x). rewrite dsub_add_distr. by rewrite dadd_sub. }
  destruct c as [c0 c1 c2], fb as [b0 b1 b2], fi as [f0 f1 f2].
  unfold vec_add, vec_sub in *. cbn [v0 v1 v2] in *.
  injection Hmid as H0 H1 H2. by rewrite !Hlaw.
Qed.

Lemma ghost_layer_impl (R R' : vector3d D -> vector3d D -> vector3d D ->
                                vector3d D -> Prop)
      (b' : procBlock D PV) (s : boundarySurface) :
  (forall g c fb fi, R g c fb fi -> R' g c fb fi) ->
  ghost_layer R b' s -> ghost_layer R' b' s.
Proof.
  intros HR (HI & HJ & HK).
  split; [|split]; intros Ht; [specialize (HI Ht)|specialize (HJ Ht)
                              |specialize (HK Ht)];
    unfold layer_I, layer_J, layer_K in *; cbv zeta in *; auto.
Qed.
End Proofs.

#[export] Instance Qc_group : RealGroup Qc.
Proof.
  split; intros; unfold dadd, dsub, Qc_ops; ring.
Qed.

(** C2 (amended): on a block with two ghost layers whose surfaces lie on
    the sides their types name, [AssignGhostCellsGeom] returns, and for every
    surface patch that is not an inter-block patch and every cell of the
    patch the centre of the first ghost cell is the centre of the interior
    cell moved by the width of that cell, center[ghost] = center[interior] +
    (faceCenter[boundary] - faceCenter[opposite face of the interior cell]).
    In exact arithmetic this is the reflection through the boundary face,
    center[ghost] - faceCenter[boundary] = faceCenter[boundary] -
    center[interior], wherever the interior centre is half-way between the
    centres of its two faces. *)
Theorem AssignGhostCellsGeom_moves_centers {D PV : Type} `{DoubleOps D}
        (b : procBlock D PV) :
  block_ok b ->
  exists b',
    AssignGhostCellsGeom b = Ok b' /\ ghost_frame b b' /\
    forall s, s ∈ bc_ b -> bcType s <> "interblock"%string ->
      ghost_centers b' s /\
      (RealGroup D -> ghost_layer is_reflected_if_midway b' s).
Proof.
  intros Hb.
  destruct (AssignGhostCellsGeom_loop b Hb) as (b' & Hok & Hfr & Hcent).
  exists b'. split; [exact Hok|]. split; [exact Hfr|].
  intros s Hs Hnib. specialize (Hcent s Hs Hnib). split; [exact Hcent|].
  intros Hlaws. apply (ghost_layer_impl is_moved); [|exact Hcent].
  intros g c fb fi. apply moved_center_reflected.
Qed.

Import Examples.

(** The unit cube with a wall on its lower i-side and one on its upper
    j-side is a block as the theorem wants it. *)
Lemma block_ok_walled_cell : block_ok walled_cell.
Proof.
  split; [reflexivity|]. do 3 (split; [reflexivity|]).
  intros s Hs. unfold walled_cell, cube_block in Hs. cbn [bc_] in Hs.
  apply elem_of_cons in Hs as [->|Hs];
    [|apply elem_of_cons in Hs as [->|Hs]; [|by apply elem_of_nil in Hs]].
  - unfold surface_ok, patch_within. cbn. lia.
  - unfold surface_ok, patch_within. cbn. lia.
Qed.

(** The theorem on that cube. *)
Lemma AssignGhostCellsGeom_moves_centers_witness :
  block_ok walled_cell /\
  exists b',
    AssignGhostCellsGeom walled_cell = Ok b' /\ ghost_frame walled_cell b' /\
    forall s, s ∈ bc_ walled_cell -> bcType s <> "interblock"%string ->
      ghost_centers b' s /\
      (RealGroup Qc -> ghost_layer is_reflected_if_midway b' s).
Proof.
  split; [exact block_ok_walled_cell|].
  exact (AssignGhostCellsGeom_moves_centers walled_cell block_ok_walled_cell).
Defined.

(** C2 as stated fails on a cell whose centroid is not half-way between
    its i-faces: the faces are at x = 2 (the boundary) and x = 3, the
    centroid at x = 7/3.  The ghost centre is put at 7/3 + (2 - 3) = 4/3, so
    center[ghost] - faceCenter[boundary] = -2/3, whereas
    faceCenter[boundary] - center[interior] = -1/3. *)
Lemma AssignGhostCellsGeom_taper_not_reflected :
  exists b',
    AssignGhostCellsGeom taper_cell = Ok b' /\
    wall_i_lower ∈ bc_ taper_cell /\
    bcType wall_i_lower <> "interblock"%string /\
    this (v0 (ma_get (center_ b') 1 2 2)) = (4 # 3)%Q /\
    this (v0 (ma_get (center_ b') 2 2 2)) = (7 # 3)%Q /\
    this (v0 (ma_get (fCenterI_ b') 2 2 2)) = 2%Q /\
    this (v0 (ma_get (fCenterI_ b') 3 2 2)) = 3%Q /\
    ~ ghost_reflected b' wall_i_lower.
Proof.
  eexists. split; [reflexivity|].
  split; [constructor|]. split; [discriminate|].
  do 4 (split; [reflexivity|]).
  intros (HI & _).
  specialize (HI (or_introl eq_refl) 2 2).
  unfold is_reflected, reflected, on_patch in HI.
  assert (Hp : 1 - 1 + 2 <= 2 <= 2 - 2 + 2) by lia.
  specialize (HI Hp Hp).
  apply (f_equal (fun v => this (v0 v))) in HI. vm_compute in HI.
  discriminate.
Qed.

End GhostProofs.

(** *** Loops over a range with a body that may terminate the job *)

Section RangeLoops.
Context {S : Type}.
Context (R : S -> S -> Prop).
Context (R_refl : forall s, R s s).
Context (R_trans : forall s1 s2 s3, R s1 s2 -> R s2 s3 -> R s1 s3).

Lemma foldl_res_Abort (body : Z -> S -> res S) (l : list Z) :
  foldl (fun r x => res_bind r (body x)) Abort l = Abort.
Proof. by induction l. Qed.

(** A relation that every iteration establishes between the state before
    and after it holds between the states before and after the loop. *)
Lemma for_range_res_rel (lo hi : Z) (body : Z -> S -> res S) (s s' : S) :
  (forall x s1 s2, lo <= x < hi -> body x s1 = Ok s2 -> R s1 s2) ->
  Swap.for_range_res lo hi body s = Ok s' -> R s s'.
Proof.
  unfold Swap.for_range_res. intros Hstep.
  assert (Hin : forall x, x ∈ seqZ lo (hi - lo) -> lo <= x < hi).
  { intros x Hx. apply elem_of_seqZ in Hx. lia. }
  revert s. induction (seqZ lo (hi - lo)) as [|x l IH]; intros s; simpl.
  - by intros [= <-].
  - destruct (body x s) as [s1|] eqn:Ex; [|by rewrite foldl_res_Abort].
    intros Hl. apply (R_trans s s1).
    + apply (Hstep x); [apply Hin; left|done].
    + apply IH; [|done]. intros y Hy. apply Hin. by right.
Qed.

(** A property that one iteration establishes and that the relation keeps
    holds after the loop. *)
Lemma for_range_res_hit (T : S -> Prop) (lo hi t : Z)
      (body : Z -> S -> res S) (s s' : S) :
  lo <= t < hi ->
  (forall x s1 s2, lo <= x < hi -> body x s1 = Ok s2 -> R s1 s2) ->
  (forall s1 s2, R s s1 -> body t s1 = Ok s2 -> T s2) ->
  (forall s1 s2, R s1 s2 -> T s1 -> T s2) ->
  Swap.for_range_res lo hi body s = Ok s' -> T s'.
Proof.
  intros Ht Hstep Hhit Hkeep Hloop.
  assert (Hsplit : seqZ lo (hi - lo) =
                   seqZ lo (t - lo) ++ t :: seqZ (t + 1) (hi - (t + 1))).
  { replace (hi - lo) with ((t - lo) + (hi - t)) by lia.
    rewrite seqZ_app by lia. f_equal.
    replace (lo + (t - lo)) with t by lia.
    rewrite seqZ_cons by lia. f_equal. f_equal. lia. }
  unfold Swap.for_range_res in Hloop. rewrite Hsplit, foldl_app in Hloop.
  simpl in Hloop.
  destruct (foldl (fun r x => res_bind r (body x)) (Ok s)
              (seqZ lo (t - lo))) as [s1|] eqn:E1;
    [|by rewrite foldl_res_Abort in Hloop].
  simpl in Hloop.
  destruct (body t s1) as [s2|] eqn:E2;
    [|by rewrite foldl_res_Abort in Hloop].
  assert (HR1 : R s s1).
  { apply (for_range_res_rel lo t body); [|exact E1].
    intros x sa sb Hx. apply Hstep. lia. }
  assert (HT2 : T s2) by (by apply (Hhit s1)).
  apply (Hkeep s2); [|done].
  apply (for_range_res_rel (t + 1) hi body); [|exact Hloop].
  intros x sa sb Hx. apply Hstep. lia.
Qed.

(** The same for three nested loops. *)
Lemma for_range3_res_rel (lo3 hi3 lo2 hi2 lo1 hi1 : Z)
      (body : Z -> Z -> Z -> S -> res S) (s s' : S) :
  (forall x3 x2 x1 s1 s2, body x3 x2 x1 s1 = Ok s2 -> R s1 s2) ->
  Swap.for_range_res lo3 hi3 (fun x3 =>
    Swap.for_range_res lo2 hi2 (fun x2 =>
      Swap.for_range_res lo1 hi1 (fun x1 => body x3 x2 x1))) s = Ok s' ->
  R s s'.
Proof.
  intros Hstep. apply for_range_res_rel. intros x3 s1 s2 _.
  apply for_range_res_rel. intros x2 s3 s4 _.
  apply for_range_res_rel. intros x1 s5 s6 _. apply Hstep.
Qed.

Lemma for_range3_res_hit (T : S -> Prop)
      (lo3 hi3 lo2 hi2 lo1 hi1 t3 t2 t1 : Z)
      (body : Z -> Z -> Z -> S -> res S) (s s' : S) :
  lo3 <= t3 < hi3 -> lo2 <= t2 < hi2 -> lo1 <= t1 < hi1 ->
  (forall x3 x2 x1 s1 s2, body x3 x2 x1 s1 = Ok s2 -> R s1 s2) ->
  (forall s1 s2, R s s1 -> body t3 t2 t1 s1 = Ok s2 -> T s2) ->
  (forall s1 s2, R s1 s2 -> T s1 -> T s2) ->
  Swap.for_range_res lo3 hi3 (fun x3 =>
    Swap.for_range_res lo2 hi2 (fun x2 =>
      Swap.for_range_res lo1 hi1 (fun x1 => body x3 x2 x1))) s = Ok s' ->
  T s'.
Proof.
  intros H3 H2 H1 Hstep Hhit Hkeep.
  apply (for_range_res_hit T lo3 hi3 t3); [done| | |done].
  { intros x3 s1 s2 _. apply for_range_res_rel.
    intros x2 s3 s4 _. apply for_range_res_rel.
    intros x1 s5 s6 _. apply Hstep. }
  intros s1 s2 HR1.
  apply (for_range_res_hit T lo2 hi2 t2); [done| | |done].
  { intros x2 s3 s4 _. apply for_range_res_rel.
    intros x1 s5 s6 _. apply Hstep. }
  intros s3 s4 HR3.
  apply (for_range_res_hit T lo1 hi1 t1); [done| | |done].
  { intros x1 s5 s6 _. apply Hstep. }
  intros s5 s6 HR5. apply Hhit.
  apply (R_trans s s1); [done|]. by apply (R_trans s1 s3).
Qed.
End RangeLoops.

(** *** Loops that terminate the job *)

Section AbortLoops.
Context {S : Type}.
Context (R : S -> S -> Prop).
Context (R_refl : forall s, R s s).
Context (R_trans : forall s1 s2 s3, R s1 s2 -> R s2 s3 -> R s1 s3).

(** A loop that terminates the job does so in one of its iterations. *)
Lemma for_range_res_abort (lo hi : Z) (body : Z -> S -> res S) (s : S) :
  (forall x s1 s2, lo <= x < hi -> body x s1 = Ok s2 -> R s1 s2) ->
  Swap.for_range_res lo hi body s = Abort ->
  exists x s1, lo <= x < hi /\ R s s1 /\ body x s1 = Abort.
Proof.
  unfold Swap.for_range_res. intros Hstep.
  assert (Hin : forall x, x ∈ seqZ lo (hi - lo) -> lo <= x < hi).
  { intros x Hx. apply elem_of_seqZ in Hx. lia. }
  revert s. induction (seqZ lo (hi - lo)) as [|x l IH]; intros s; simpl;
    [done|].
  destruct (body x s) as [s1|] eqn:Ex.
  - intros Hl. destruct IH with (s := s1) as (y & s2 & Hy & HR & Hb);
      [intros z Hz; apply Hin; by right|done|].
    exists y, s2. split; [done|]. split; [|done].
    apply (R_trans s s1); [|done]. apply (Hstep x); [apply Hin; left|done].
  - intros _. exists x, s. split; [apply Hin; left|]. by split.
Qed.

Lemma for_range3_res_abort (lo3 hi3 lo2 hi2 lo1 hi1 : Z)
      (body : Z -> Z -> Z -> S -> res S) (s : S) :
  (forall x3 x2 x1 s1 s2, body x3 x2 x1 s1 = Ok s2 -> R s1 s2) ->
  Swap.for_range_res lo3 hi3 (fun x3 =>
    Swap.for_range_res lo2 hi2 (fun x2 =>
      Swap.for_range_res lo1 hi1 (fun x1 => body x3 x2 x1))) s = Abort ->
  exists x3 x2 x1 s1,
    lo3 <= x3 < hi3 /\ lo2 <= x2 < hi2 /\ lo1 <= x1 < hi1 /\ R s s1 /\
    body x3 x2 x1 s1 = Abort.
Proof.
  intros Hstep Hloop.
  apply for_range_res_abort in Hloop as (x3 & s1 & H3 & HR1 & Hloop).
  2:{ intros x s1 s2 _. apply (for_range_res_rel R R_refl R_trans).
      intros x2 s3 s4 _. apply (for_range_res_rel R R_refl R_trans).
      intros x1 s5 s6 _. apply Hstep. }
  apply for_range_res_abort in Hloop as (x2 & s2 & H2 & HR2 & Hloop).
  2:{ intros x s3 s4 _. apply (for_range_res_rel R R_refl R_trans).
      intros x1 s5 s6 _. apply Hstep. }
  apply for_range_res_abort in Hloop as (x1 & s3 & H1 & HR3 & Hloop).
  2:{ intros x s5 s6 _. apply Hstep. }
  exists x3, x2, x1, s3. do 3 (split; [done|]). split; [|done].
  apply (R_trans s s1); [done|]. by apply (R_trans s1 s2).
Qed.
End AbortLoops.

(** *** Swap of ghost geometry *)

Module SwapProofs.
Import Swap.

Section Proofs.
Context {D PV : Type} `{DoubleOps D}.

Lemma phys_range_true (lo x n : Z) :
  (lo <=? x) && (x <? n) = true -> lo <= x < n.
Proof.
  intros E. apply andb_prop in E as [E1 E2].
  apply Z.leb_le in E1. apply Z.ltb_lt in E2. lia.
Qed.

(** An edge runs in one of the three directions, and the index along it is
    the index of a physical cell. *)
Lemma AtEdge_dir (b : procBlock D PV) (ii jj kk : Z) (g : bool) (e : string) :
  AtEdge b ii jj kk g = Some e ->
  (e = "i" /\ (if g then numGhosts_ b else 0) <= ii
               < NumI b + (if g then numGhosts_ b else 0))%string \/
  (e = "j" /\ (if g then numGhosts_ b else 0) <= jj
               < NumJ b + (if g then numGhosts_ b else 0))%string \/
  (e = "k" /\ (if g then numGhosts_ b else 0) <= kk
               < NumK b + (if g then numGhosts_ b else 0))%string.
Proof.
  unfold AtEdge. cbv zeta.
  set (offset := if g then numGhosts_ b else 0).
  destruct ((offset <=? ii) && (ii <? NumI b + offset)) eqn:Ei;
    destruct ((offset <=? jj) && (jj <? NumJ b + offset)) eqn:Ej;
    destruct ((offset <=? kk) && (kk <? NumK b + offset)) eqn:Ek;
    try apply phys_range_true in Ei; try apply phys_range_true in Ej;
    try apply phys_range_true in Ek;
    destruct ((ii =? offset - 1) || (ii =? NumI b + offset));
    destruct ((jj =? offset - 1) || (jj =? NumJ b + offset));
    destruct ((kk =? offset - 1) || (kk =? NumK b + offset));
    cbn [andb];
    (intros [= <-] || discriminate);
    first [ left; split; [reflexivity|assumption]
          | right; left; split; [reflexivity|assumption]
          | right; right; split; [reflexivity|assumption] ].
Qed.

(** The directions of the first patch. *)
Lemma directions_first (inter : interblock) :
  (Direction3First inter = "i" /\ Direction1First inter = "j" /\
   Direction2First inter = "k")%string \/
  (Direction3First inter = "j" /\ Direction1First inter = "k" /\
   Direction2First inter = "i")%string \/
  (Direction3First inter = "k" /\ Direction1First inter = "i" /\
   Direction2First inter = "j")%string \/
  (Direction3First inter = "undefined" /\
   Direction1First inter = "undefined" /\
   Direction2First inter = "undefined")%string.
Proof.
  unfold Direction3First, Direction1First, Direction2First, direction3,
    direction1, direction2.
  destruct ((BoundaryFirst inter =? 1) || (BoundaryFirst inter =? 2));
    [by left|].
  destruct ((BoundaryFirst inter =? 3) || (BoundaryFirst inter =? 4));
    [by right; left|].
  destruct ((BoundaryFirst inter =? 5) || (BoundaryFirst inter =? 6));
    [by do 2 right; left|by do 3 right].
Qed.

(** A skipped element leaves the block as it is and sets at most the flag of
    its edge. *)
Lemma PutGeomSlice_skip_spec (inter : interblock) (indB : vector3d Z)
      (b : procBlock D PV) (adjEdge : list bool)
      (s' : procBlock D PV * list bool) :
  PutGeomSlice_skip inter indB b adjEdge = Ok s' ->
  s' = (b, flags_after_skip inter b indB adjEdge).
Proof.
  unfold PutGeomSlice_skip, flags_after_skip, edge_flag.
  destruct (AtEdge b (v0 indB) (v1 indB) (v2 indB) true) as [e|] eqn:Ee;
    [|by intros [= <-]].
  apply AtEdge_dir in Ee.
  destruct (directions_first inter) as [(E3 & E1 & E2)|[(E3 & E1 & E2)|
    [(E3 & E1 & E2)|(E3 & E1 & E2)]]]; rewrite E1, E2;
    destruct Ee as [[-> _]|[[-> _]|[-> _]]]; cbn;
    repeat match goal with
    | |- context [if ?c then _ else _] => destruct c
    end;
    intros [= <-] || discriminate; reflexivity.
Qed.

(** A skipped element whose target lies in the ghost layers along the
    normal of the patch does not terminate the job. *)
Lemma PutGeomSlice_skip_returns (inter : interblock) (indB : vector3d Z)
      (b : procBlock D PV) (adjEdge : list bool) (l1 l2 l3 : Z) :
  GetSwapLoc l1 l2 l3 inter true = Ok indB ->
  in_ghost_layers inter b indB ->
  exists adjEdge', PutGeomSlice_skip inter indB b adjEdge = Ok (b, adjEdge').
Proof.
  intros Hloc (Hi & Hj & Hk).
  unfold PutGeomSlice_skip.
  destruct (AtEdge b (v0 indB) (v1 indB) (v2 indB) true) as [e|] eqn:Ee;
    [|by eexists].
  apply AtEdge_dir in Ee.
  destruct (directions_first inter) as [(E3 & E1 & E2)|[(E3 & E1 & E2)|
    [(E3 & E1 & E2)|(E3 & E1 & E2)]]]; rewrite E1, E2; rewrite E3 in *.
  4:{ unfold GetSwapLoc in Hloc. rewrite E3 in Hloc. discriminate. }
  all: destruct Ee as [[-> He]|[[-> He]|[-> He]]]; cbn;
    try (exfalso; first [by apply Hi|by apply Hj|by apply Hk]);
    repeat match goal with
    | |- context [if ?c then _ else _] => destruct c
    end; by eexists.
Qed.

(** Writing an element changes neither the extents of the block nor its
    number of ghost layers. *)
Ltac faces_extent :=
  intros; cbv zeta;
  repeat match goal with
  | |- context [if ?c then _ else _] => destruct c
  end;
  split; reflexivity.

Lemma PutGeomSlice_faces_ii_extent (inter : interblock)
      (slice : geomSlice D) (d3 l1 l2 l3 : Z) (aFac1 aFac2 aFac3 : D)
      (indB indS : vector3d Z) (b : procBlock D PV) :
  same_extent b (PutGeomSlice_faces_ii inter slice d3 l1 l2 l3 aFac1 aFac2
                   aFac3 indB indS b).
Proof. unfold PutGeomSlice_faces_ii. faces_extent. Qed.

Lemma PutGeomSlice_faces_jj_extent (inter : interblock)
      (slice : geomSlice D) (d3 l1 l2 l3 : Z) (aFac1 aFac2 aFac3 : D)
      (indB indS : vector3d Z) (b : procBlock D PV) :
  same_extent b (PutGeomSlice_faces_jj inter slice d3 l1 l2 l3 aFac1 aFac2
                   aFac3 indB indS b).
Proof. unfold PutGeomSlice_faces_jj. faces_extent. Qed.

Lemma PutGeomSlice_faces_kk_extent (inter : interblock)
      (slice : geomSlice D) (d3 l1 l2 l3 : Z) (aFac1 aFac2 aFac3 : D)
      (indB indS : vector3d Z) (b : procBlock D PV) :
  same_extent b (PutGeomSlice_faces_kk inter slice d3 l1 l2 l3 aFac1 aFac2
                   aFac3 indB indS b).
Proof. unfold PutGeomSlice_faces_kk. faces_extent. Qed.

Lemma PutGeomSlice_faces_ij_extent (inter : interblock)
      (slice : geomSlice D) (d3 l1 l2 l3 : Z) (aFac1 aFac2 aFac3 : D)
      (indB indS : vector3d Z) (b : procBlock D PV) :
  same_extent b (PutGeomSlice_faces_ij inter slice d3 l1 l2 l3 aFac1 aFac2
                   aFac3 indB indS b).
Proof. unfold PutGeomSlice_faces_ij. faces_extent. Qed.

Lemma PutGeomSlice_faces_ik_extent (inter : interblock)
      (slice : geomSlice D) (d3 l1 l2 l3 : Z) (aFac1 aFac2 aFac3 : D)
      (indB indS : vector3d Z) (b : procBlock D PV) :
  same_extent b (PutGeomSlice_faces_ik inter slice d3 l1 l2 l3 aFac1 aFac2
                   aFac3 indB indS b).
Proof. unfold PutGeomSlice_faces_ik. faces_extent. Qed.

Lemma PutGeomSlice_faces_ji_extent (inter : interblock)
      (slice : geomSlice D) (d3 l1 l2 l3 : Z) (aFac1 aFac2 aFac3 : D)
      (indB indS : vector3d Z) (b : procBlock D PV) :
  same_extent b (PutGeomSlice_faces_ji inter slice d3 l1 l2 l3 aFac1 aFac2
                   aFac3 indB indS b).
Proof. unfold PutGeomSlice_faces_ji. faces_extent. Qed.

Lemma PutGeomSlice_faces_jk_extent (inter : interblock)
      (slice : geomSlice D) (d3 l1 l2 l3 : Z) (aFac1 aFac2 aFac3 : D)
      (indB indS : vector3d Z) (b : procBlock D PV) :
  same_extent b (PutGeomSlice_faces_jk inter slice d3 l1 l2 l3 aFac1 aFac2
                   aFac3 indB indS b).
Proof. unfold PutGeomSlice_faces_jk. faces_extent. Qed.

Lemma PutGeomSlice_faces_ki_extent (inter : interblock)
      (slice : geomSlice D) (d3 l1 l2 l3 : Z) (aFac1 aFac2 aFac3 : D)
      (indB indS : vector3d Z) (b : procBlock D PV) :
  same_extent b (PutGeomSlice_faces_ki inter slice d3 l1 l2 l3 aFac1 aFac2
                   aFac3 indB indS b).
Proof. unfold PutGeomSlice_faces_ki. faces_extent. Qed.

Lemma PutGeomSlice_faces_kj_extent (inter : interblock)
      (slice : geomSlice D) (d3 l1 l2 l3 : Z) (aFac1 aFac2 aFac3 : D)
      (indB indS : vector3d Z) (b : procBlock D PV) :
  same_extent b (PutGeomSlice_faces_kj inter slice d3 l1 l2 l3 aFac1 aFac2
                   aFac3 indB indS b).
Proof. unfold PutGeomSlice_faces_kj. faces_extent. Qed.

Lemma same_extent_trans (b b1 b2 : procBlock D PV) :
  same_extent b b1 -> same_extent b1 b2 -> same_extent b b2.
Proof.
  intros [Hr HG] [Hr' HG']. split; [by rewrite Hr'|by rewrite HG'].
Qed.

Lemma PutGeomSlice_cell_extent (inter : interblock) (slice : geomSlice D)
      (d3 l1 l2 l3 : Z) (aFac1 aFac2 aFac3 : D) (indB indS : vector3d Z)
      (b b' : procBlock D PV) :
  PutGeomSlice_cell inter slice d3 l1 l2 l3 aFac1 aFac2 aFac3 indB indS b =
    Ok b' ->
  same_extent b b'.
Proof.
  unfold PutGeomSlice_cell. cbv zeta.
  set (b0 := put_center _ _ _ _ _).
  assert (Hb0 : same_extent b b0) by (split; reflexivity).
  clearbody b0.
  match goal with
  | |- context [if ?c then Ok (PutGeomSlice_faces_ii _ _ _ _ _ _ _ _ _ _ _ _)
                else _] => destruct c
  end;
    [intros [= <-]; eapply same_extent_trans;
       [exact Hb0|apply PutGeomSlice_faces_ii_extent]|].
  match goal with
  | |- context [if ?c then Ok (PutGeomSlice_faces_jj _ _ _ _ _ _ _ _ _ _ _ _)
                else _] => destruct c
  end;
    [intros [= <-]; eapply same_extent_trans;
       [exact Hb0|apply PutGeomSlice_faces_jj_extent]|].
  match goal with
  | |- context [if ?c then Ok (PutGeomSlice_faces_kk _ _ _ _ _ _ _ _ _ _ _ _)
                else _] => destruct c
  end;
    [intros [= <-]; eapply same_extent_trans;
       [exact Hb0|apply PutGeomSlice_faces_kk_extent]|].
  match goal with
  | |- context [if ?c then Ok (PutGeomSlice_faces_ij _ _ _ _ _ _ _ _ _ _ _ _)
                else _] => destruct c
  end;
    [intros [= <-]; eapply same_extent_trans;
       [exact Hb0|apply PutGeomSlice_faces_ij_extent]|].
  match goal with
  | |- context [if ?c then Ok (PutGeomSlice_faces_ik _ _ _ _ _ _ _ _ _ _ _ _)
                else _] => destruct c
  end;
    [intros [= <-]; eapply same_extent_trans;
       [exact Hb0|apply PutGeomSlice_faces_ik_extent]|].
  match goal with
  | |- context [if ?c then Ok (PutGeomSlice_faces_ji _ _ _ _ _ _ _ _ _ _ _ _)
                else _] => destruct c
  end;
    [intros [= <-]; eapply same_extent_trans;
       [exact Hb0|apply PutGeomSlice_faces_ji_extent]|].
  match goal with
  | |- context [if ?c then Ok (PutGeomSlice_faces_jk _ _ _ _ _ _ _ _ _ _ _ _)
                else _] => destruct c
  end;
    [intros [= <-]; eapply same_extent_trans;
       [exact Hb0|apply PutGeomSlice_faces_jk_extent]|].
  match goal with
  | |- context [if ?c then Ok (PutGeomSlice_faces_ki _ _ _ _ _ _ _ _ _ _ _ _)
                else _] => destruct c
  end;
    [intros [= <-]; eapply same_extent_trans;
       [exact Hb0|apply PutGeomSlice_faces_ki_extent]|].
  match goal with
  | |- context [if ?c then Ok (PutGeomSlice_faces_kj _ _ _ _ _ _ _ _ _ _ _ _)
                else _] => destruct c
  end;
    [intros [= <-]; eapply same_extent_trans;
       [exact Hb0|apply PutGeomSlice_faces_kj_extent]|].
  discriminate.
Qed.

(** The edge test looks at the extents and the number of ghost layers
    only. *)
Lemma AtEdge_same_extent (b b' : procBlock D PV) (ii jj kk : Z) (g : bool) :
  same_extent b b' -> AtEdge b' ii jj kk g = AtEdge b ii jj kk g.
Proof.
  intros [Hr HG]. unfold AtEdge, NumI, NumJ, NumK. by rewrite Hr, HG.
Qed.

Lemma flags_after_skip_same_extent (inter : interblock)
      (b b' : procBlock D PV) (indB : vector3d Z) (adjEdge : list bool) :
  same_extent b b' ->
  flags_after_skip inter b' indB adjEdge =
  flags_after_skip inter b indB adjEdge.
Proof.
  intros Hs. unfold flags_after_skip, edge_flag.
  rewrite (AtEdge_same_extent b b') by done. destruct Hs as [_ HG].
  by rewrite HG.
Qed.

Lemma flags_grow_refl (s : procBlock D PV * list bool) : flags_grow s s.
Proof. split; [by split|]. by split. Qed.

Lemma flags_grow_trans (s1 s2 s3 : procBlock D PV * list bool) :
  flags_grow s1 s2 -> flags_grow s2 s3 -> flags_grow s1 s3.
Proof.
  intros (He & Hl & Hf) (He' & Hl' & Hf'). split; [|split].
  - by apply (same_extent_trans _ (fst s2)).
  - by rewrite Hl'.
  - intros n Hn. by apply Hf', Hf.
Qed.

Lemma flags_after_skip_grow (inter : interblock) (b : procBlock D PV)
      (indB : vector3d Z) (adjEdge : list bool) :
  length (flags_after_skip inter b indB adjEdge) = length adjEdge /\
  forall n : nat, adjEdge !! n = Some true ->
    flags_after_skip inter b indB adjEdge !! n = Some true.
Proof.
  unfold flags_after_skip.
  destruct (AtEdge b (v0 indB) (v1 indB) (v2 indB) true) as [e|]; [|done].
  destruct (edge_flag inter b indB e) as [m|]; [|done].
  split; [by rewrite length_insert|]. intros n Hn.
  destruct (decide (n = m)) as [->|Hne].
  - rewrite list_lookup_insert_eq; [done|]. by eapply lookup_lt_Some.
  - by rewrite list_lookup_insert_ne.
Qed.

(** One iteration. *)
Lemma PutGeomSlice_body_grow (slice : geomSlice D) (inter : interblock)
      (d3 l3 l2 l1 : Z) (s1 s2 : procBlock D PV * list bool) :
  PutGeomSlice_body slice inter d3 l3 l2 l1 s1 = Ok s2 -> flags_grow s1 s2.
Proof.
  destruct s1 as [b adjEdge]. unfold PutGeomSlice_body.
  destruct (GetSwapLoc l1 l2 l3 inter true) as [indB|]; [|done].
  destruct (GetSwapLoc l1 l2 l3 inter false) as [indS|]; [|done].
  cbn [res_bind].
  destruct (deqb (Vol slice (v0 indS) (v1 indS) (v2 indS)) (dlit 0)).
  - intros Hskip. apply PutGeomSlice_skip_spec in Hskip as ->.
    split; [by split|]. apply flags_after_skip_grow.
  - destruct (PutGeomSlice_cell _ _ _ _ _ _ _ _ _ _ _ _) as [b'|] eqn:Ecell;
      [|done].
    cbn [res_bind]. intros [= <-].
    split; [by eapply PutGeomSlice_cell_extent|]. by split.
Qed.

(** An iteration for an element of volume 0. *)
Lemma PutGeomSlice_body_zero (slice : geomSlice D) (inter : interblock)
      (d3 l3 l2 l1 : Z) (b : procBlock D PV) (adjEdge : list bool)
      (indB indS : vector3d Z) :
  GetSwapLoc l1 l2 l3 inter true = Ok indB ->
  GetSwapLoc l1 l2 l3 inter false = Ok indS ->
  deqb (Vol slice (v0 indS) (v1 indS) (v2 indS)) (dlit 0) = true ->
  PutGeomSlice_body slice inter d3 l3 l2 l1 (b, adjEdge) =
  PutGeomSlice_skip inter indB b adjEdge.
Proof.
  intros HB HS Hvol. unfold PutGeomSlice_body. rewrite HB, HS.
  cbn [res_bind]. by rewrite Hvol.
Qed.

Lemma edge_flag_lt (inter : interblock) (b : procBlock D PV)
      (indB : vector3d Z) (e : string) (n : nat) :
  edge_flag inter b indB e = Some n -> (n < 4)%nat.
Proof.
  unfold edge_flag. cbv zeta.
  repeat match goal with
  | |- context [if ?c then _ else _] => destruct c
  end; (intros [= <-] || discriminate); lia.
Qed.

(** The whole call: the extents stay, four flags are returned, and the flag
    of every skipped element on an edge is set. *)
Lemma PutGeomSlice_flags (slice : geomSlice D) (inter : interblock)
      (d3 numG : Z) (b b' : procBlock D PV) (adjEdge' : list bool) :
  PutGeomSlice slice inter d3 numG b = Ok (b', adjEdge') ->
  same_extent b b' /\ length adjEdge' = 4%nat /\
  forall l1 l2 l3 indB indS e n,
    visited inter d3 numG l1 l2 l3 ->
    GetSwapLoc l1 l2 l3 inter true = Ok indB ->
    GetSwapLoc l1 l2 l3 inter false = Ok indS ->
    deqb (Vol slice (v0 indS) (v1 indS) (v2 indS)) (dlit 0) = true ->
    AtEdge b (v0 indB) (v1 indB) (v2 indB) true = Some e ->
    edge_flag inter b indB e = Some n ->
    adjEdge' !! n = Some true.
Proof.
  unfold PutGeomSlice. cbv zeta.
  destruct (negb _); [done|]. intros Hloop.
  pose proof (for_range3_res_rel flags_grow flags_grow_refl flags_grow_trans
                _ _ _ _ _ _ _ _ _
                (fun x3 x2 x1 s1 s2 =>
                   PutGeomSlice_body_grow slice inter d3 x3 x2 x1 s1 s2)
                Hloop) as (Hext & Hlen & _).
  split; [exact Hext|]. split; [exact Hlen|].
  intros l1 l2 l3 indB indS e n (H3 & H2 & H1) HB HS Hvol He Hn.
  apply (for_range3_res_hit flags_grow flags_grow_refl flags_grow_trans
           (fun s => snd s !! n = Some true)
           _ _ _ _ _ _ l3 l2 l1 _ _ _ H3 H2 H1
           (fun x3 x2 x1 s1 s2 =>
              PutGeomSlice_body_grow slice inter d3 x3 x2 x1 s1 s2))
    in Hloop; [exact Hloop| |].
  - intros [b1 adj1] s2 (Hext1 & Hlen1 & _). cbn [fst snd] in *.
    rewrite (PutGeomSlice_body_zero slice inter d3 l3 l2 l1 b1 adj1
               indB indS HB HS Hvol).
    intros Hskip. apply PutGeomSlice_skip_spec in Hskip as ->. cbn [snd].
    rewrite (flags_after_skip_same_extent inter b b1) by done.
    unfold flags_after_skip. rewrite He, Hn.
    apply list_lookup_insert_eq. rewrite Hlen1.
    apply edge_flag_lt in Hn. simpl. lia.
  - intros s1 s2 (_ & _ & Hf). apply Hf.
Qed.

(** The loop of [SwapSlice] ORs the returned flags into the border flags of
    the two sides and changes nothing else in the record. *)
Lemma update_borders_or (adjEdge1 adjEdge2 : list bool) (inter : interblock) :
  length adjEdge1 = 4%nat -> length adjEdge2 = 4%nat ->
  length (ib_borderFirst inter) = 4%nat ->
  length (ib_borderSecond inter) = 4%nat ->
  update_borders adjEdge1 adjEdge2 inter =
  mkInterblock (ib_rank inter) (ib_block inter) (ib_localBlock inter)
    (ib_boundary inter) (ib_d1Start inter) (ib_d1End inter)
    (ib_d2Start inter) (ib_d2End inter) (ib_constSurf inter)
    (ib_orientation inter)
    (zip_with orb adjEdge1 (ib_borderFirst inter))
    (zip_with orb adjEdge2 (ib_borderSecond inter)).
Proof.
  destruct inter as [rk bl lb bd s1 e1 s2 e2 cs o bf bs]. cbn [ib_rank
    ib_block ib_localBlock ib_boundary ib_d1Start ib_d1End ib_d2Start
    ib_d2End ib_constSurf ib_orientation ib_borderFirst ib_borderSecond].
  intros H1 H2 H3 H4.
  destruct adjEdge1 as [|a0 [|a1 [|a2 [|a3 [|]]]]]; try discriminate.
  destruct adjEdge2 as [|c0 [|c1 [|c2 [|c3 [|]]]]]; try discriminate.
  destruct bf as [|f0 [|f1 [|f2 [|f3 [|]]]]]; try discriminate.
  destruct bs as [|g0 [|g1 [|g2 [|g3 [|]]]]]; try discriminate.
  destruct a0, a1, a2, a3, c0, c1, c2, c3; reflexivity.
Qed.

(** *** What the iterations of [PutGeomSlice] leave as it is *)

Lemma tuple_ne_swap (X Y Z i j k : Z) :
  (X, Y, Z) <> (i, j, k) -> (Z, Y, X) <> (k, j, i).
Proof. intros Hne [= -> -> ->]. by apply Hne. Qed.

Ltac put_geometry :=
  intros Hne; apply tuple_ne_swap in Hne; unfold geometry_at;
  cbn [vol_ center_ fAreaI_ fAreaJ_ fAreaK_ fCenterI_ fCenterJ_ fCenterK_];
  by rewrite ma_get_set_ne.

Lemma geometry_at_put_vol (b : procBlock D PV) (i j k X Y Z : Z) v :
  (X, Y, Z) <> (i, j, k) ->
  geometry_at (put_vol i j k v b) X Y Z = geometry_at b X Y Z.
Proof. unfold put_vol, set_vol_. put_geometry. Qed.

Lemma geometry_at_put_center (b : procBlock D PV) (i j k X Y Z : Z) v :
  (X, Y, Z) <> (i, j, k) ->
  geometry_at (put_center i j k v b) X Y Z = geometry_at b X Y Z.
Proof. unfold put_center, set_center_. put_geometry. Qed.

Lemma geometry_at_put_fAreaI (b : procBlock D PV) (i j k X Y Z : Z) v :
  (X, Y, Z) <> (i, j, k) ->
  geometry_at (put_fAreaI i j k v b) X Y Z = geometry_at b X Y Z.
Proof. unfold put_fAreaI, set_fAreaI_. put_geometry. Qed.

Lemma geometry_at_put_fAreaJ (b : procBlock D PV) (i j k X Y Z : Z) v :
  (X, Y, Z) <> (i, j, k) ->
  geometry_at (put_fAreaJ i j k v b) X Y Z = geometry_at b X Y Z.
Proof. unfold put_fAreaJ, set_fAreaJ_. put_geometry. Qed.

Lemma geometry_at_put_fAreaK (b : procBlock D PV) (i j k X Y Z : Z) v :
  (X, Y, Z) <> (i, j, k) ->
  geometry_at (put_fAreaK i j k v b) X Y Z = geometry_at b X Y Z.
Proof. unfold put_fAreaK, set_fAreaK_. put_geometry. Qed.

Lemma geometry_at_put_fCenterI (b : procBlock D PV) (i j k X Y Z : Z) v :
  (X, Y, Z) <> (i, j, k) ->
  geometry_at (put_fCenterI i j k v b) X Y Z = geometry_at b X Y Z.
Proof. unfold put_fCenterI, set_fCenterI_. put_geometry. Qed.

Lemma geometry_at_put_fCenterJ (b : procBlock D PV) (i j k X Y Z : Z) v :
  (X, Y, Z) <> (i, j, k) ->
  geometry_at (put_fCenterJ i j k v b) X Y Z = geometry_at b X Y Z.
Proof. unfold put_fCenterJ, set_fCenterJ_. put_geometry. Qed.

Lemma geometry_at_put_fCenterK (b : procBlock D PV) (i j k X Y Z : Z) v :
  (X, Y, Z) <> (i, j, k) ->
  geometry_at (put_fCenterK i j k v b) X Y Z = geometry_at b X Y Z.
Proof. unfold put_fCenterK, set_fCenterK_. put_geometry. Qed.

(** The face functions write at the target cell and, for the last cell
    along a direction, at its neighbour in that direction. *)
Ltac faces_geometry :=
  intros H0 H3 H1 H2; cbv zeta;
  repeat match goal with
  | |- context [if ?a =? ?c then _ else _] => destruct (Z.eqb_spec a c)
  | |- context [if deqb ?a ?c then _ else _] => destruct (deqb a c)
  end;
  repeat first
    [ rewrite geometry_at_put_fAreaI by auto
    | rewrite geometry_at_put_fAreaJ by auto
    | rewrite geometry_at_put_fAreaK by auto
    | rewrite geometry_at_put_fCenterI by auto
    | rewrite geometry_at_put_fCenterJ by auto
    | rewrite geometry_at_put_fCenterK by auto ];
  reflexivity.

Lemma PutGeomSlice_faces_ii_geometry (inter : interblock)
      (slice : geomSlice D) (d3 l1 l2 l3 : Z) (aFac1 aFac2 aFac3 : D)
      (indB indS : vector3d Z) (b : procBlock D PV) (X Y Z : Z) :
  (X, Y, Z) <> (v0 indB, v1 indB, v2 indB) ->
  (l3 = d3 - 1 -> (X, Y, Z) <> (v0 indB + 1, v1 indB, v2 indB)) ->
  (l1 = Dir1EndFirst inter - Dir1StartFirst inter - 1 ->
   (X, Y, Z) <> (v0 indB, v1 indB + 1, v2 indB)) ->
  (l2 = Dir2EndFirst inter - Dir2StartFirst inter - 1 ->
   (X, Y, Z) <> (v0 indB, v1 indB, v2 indB + 1)) ->
  geometry_at (PutGeomSlice_faces_ii inter slice d3 l1 l2 l3 aFac1 aFac2
                 aFac3 indB indS b) X Y Z =
  geometry_at b X Y Z.
Proof. unfold PutGeomSlice_faces_ii. faces_geometry. Qed.

Lemma PutGeomSlice_faces_ij_geometry (inter : interblock)
      (slice : geomSlice D) (d3 l1 l2 l3 : Z) (aFac1 aFac2 aFac3 : D)
      (indB indS : vector3d Z) (b : procBlock D PV) (X Y Z : Z) :
  (X, Y, Z) <> (v0 indB, v1 indB, v2 indB) ->
  (l3 = d3 - 1 -> (X, Y, Z) <> (v0 indB + 1, v1 indB, v2 indB)) ->
  (l1 = Dir1EndFirst inter - Dir1StartFirst inter - 1 ->
   (X, Y, Z) <> (v0 indB, v1 indB + 1, v2 indB)) ->
  (l2 = Dir2EndFirst inter - Dir2StartFirst inter - 1 ->
   (X, Y, Z) <> (v0 indB, v1 indB, v2 indB + 1)) ->
  geometry_at (PutGeomSlice_faces_ij inter slice d3 l1 l2 l3 aFac1 aFac2
                 aFac3 indB indS b) X Y Z =
  geometry_at b X Y Z.
Proof. unfold PutGeomSlice_faces_ij. faces_geometry. Qed.

Lemma PutGeomSlice_faces_ik_geometry (inter : interblock)
      (slice : geomSlice D) (d3 l1 l2 l3 : Z) (aFac1 aFac2 aFac3 : D)
      (indB indS : vector3d Z) (b : procBlock D PV) (X Y Z : Z) :
  (X, Y, Z) <> (v0 indB, v1 indB, v2 indB) ->
  (l3 = d3 - 1 -> (X, Y, Z) <> (v0 indB + 1, v1 indB, v2 indB)) ->
  (l1 = Dir1EndFirst inter - Dir1StartFirst inter - 1 ->
   (X, Y, Z) <> (v0 indB, v1 indB + 1, v2 indB)) ->
  (l2 = Dir2EndFirst inter - Dir2StartFirst inter - 1 ->
   (X, Y, Z) <> (v0 indB, v1 indB, v2 indB + 1)) ->
  geometry_at (PutGeomSlice_faces_ik inter slice d3 l1 l2 l3 aFac1 aFac2
                 aFac3 indB indS b) X Y Z =
  geometry_at b X Y Z.
Proof. unfold PutGeomSlice_faces_ik. faces_geometry. Qed.

Lemma PutGeomSlice_faces_jj_geometry (inter : interblock)
      (slice : geomSlice D) (d3 l1 l2 l3 : Z) (aFac1 aFac2 aFac3 : D)
      (indB indS : vector3d Z) (b : procBlock D PV) (X Y Z : Z) :
  (X, Y, Z) <> (v0 indB, v1 indB, v2 indB) ->
  (l3 = d3 - 1 -> (X, Y, Z) <> (v0 indB, v1 indB + 1, v2 indB)) ->
  (l1 = Dir1EndFirst inter - Dir1StartFirst inter - 1 ->
   (X, Y, Z) <> (v0 indB, v1 indB, v2 indB + 1)) ->
  (l2 = Dir2EndFirst inter - Dir2StartFirst inter - 1 ->
   (X, Y, Z) <> (v0 indB + 1, v1 indB, v2 indB)) ->
  geometry_at (PutGeomSlice_faces_jj inter slice d3 l1 l2 l3 aFac1 aFac2
                 aFac3 indB indS b) X Y Z =
  geometry_at b X Y Z.
Proof. unfold PutGeomSlice_faces_jj. faces_geometry. Qed.

Lemma PutGeomSlice_faces_ji_geometry (inter : interblock)
      (slice : geomSlice D) (d3 l1 l2 l3 : Z) (aFac1 aFac2 aFac3 : D)
      (indB indS : vector3d Z) (b : procBlock D PV) (X Y Z : Z) :
  (X, Y, Z) <> (v0 indB, v1 indB, v2 indB) ->
  (l3 = d3 - 1 -> (X, Y, Z) <> (v0 indB, v1 indB + 1, v2 indB)) ->
  (l1 = Dir1EndFirst inter - Dir1StartFirst inter - 1 ->
   (X, Y, Z) <> (v0 indB, v1 indB, v2 indB + 1)) ->
  (l2 = Dir2EndFirst inter - Dir2StartFirst inter - 1 ->
   (X, Y, Z) <> (v0 indB + 1, v1 indB, v2 indB)) ->
  geometry_at (PutGeomSlice_faces_ji inter slice d3 l1 l2 l3 aFac1 aFac2
                 aFac3 indB indS b) X Y Z =
  geometry_at b X Y Z.
Proof. unfold PutGeomSlice_faces_ji. faces_geometry. Qed.

Lemma PutGeomSlice_faces_kk_geometry (inter : interblock)
      (slice : geomSlice D) (d3 l1 l2 l3 : Z) (aFac1 aFac2 aFac3 : D)
      (indB indS : vector3d Z) (b : procBlock D PV) (X Y Z : Z) :
  (X, Y, Z) <> (v0 indB, v1 indB, v2 indB) ->
  (l3 = d3 - 1 -> (X, Y, Z) <> (v0 indB, v1 indB, v2 indB + 1)) ->
  (l1 = Dir1EndFirst inter - Dir1StartFirst inter - 1 ->
   (X, Y, Z) <> (v0 indB + 1, v1 indB, v2 indB)) ->
  (l2 = Dir2EndFirst inter - Dir2StartFirst inter - 1 ->
   (X, Y, Z) <> (v0 indB, v1 indB + 1, v2 indB)) ->
  geometry_at (PutGeomSlice_faces_kk inter slice d3 l1 l2 l3 aFac1 aFac2
                 aFac3 indB indS b) X Y Z =
  geometry_at b X Y Z.
Proof. unfold PutGeomSlice_faces_kk. faces_geometry. Qed.

Lemma PutGeomSlice_faces_ki_geometry (inter : interblock)
      (slice : geomSlice D) (d3 l1 l2 l3 : Z) (aFac1 aFac2 aFac3 : D)
      (indB indS : vector3d Z) (b : procBlock D PV) (X Y Z : Z) :
  (X, Y, Z) <> (v0 indB, v1 indB, v2 indB) ->
  (l3 = d3 - 1 -> (X, Y, Z) <> (v0 indB, v1 indB, v2 indB + 1)) ->
  (l1 = Dir1EndFirst inter - Dir1StartFirst inter - 1 ->
   (X, Y, Z) <> (v0 indB + 1, v1 indB, v2 indB)) ->
  (l2 = Dir2EndFirst inter - Dir2StartFirst inter - 1 ->
   (X, Y, Z) <> (v0 indB, v1 indB + 1, v2 indB)) ->
  geometry_at (PutGeomSlice_faces_ki inter slice d3 l1 l2 l3 aFac1 aFac2
                 aFac3 indB indS b) X Y Z =
  geometry_at b X Y Z.
Proof. unfold PutGeomSlice_faces_ki. faces_geometry. Qed.

Lemma PutGeomSlice_faces_kj_geometry (inter : interblock)
      (slice : geomSlice D) (d3 l1 l2 l3 : Z) (aFac1 aFac2 aFac3 : D)
      (indB indS : vector3d Z) (b : procBlock D PV) (X Y Z : Z) :
  (X, Y, Z) <> (v0 indB, v1 indB, v2 indB) ->
  (l3 = d3 - 1 -> (X, Y, Z) <> (v0 indB, v1 indB, v2 indB + 1)) ->
  (l1 = Dir1EndFirst inter - Dir1StartFirst inter - 1 ->
   (X, Y, Z) <> (v0 indB + 1, v1 indB, v2 indB)) ->
  (l2 = Dir2EndFirst inter - Dir2StartFirst inter - 1 ->
   (X, Y, Z) <> (v0 indB, v1 indB + 1, v2 indB)) ->
  geometry_at (PutGeomSlice_faces_kj inter slice d3 l1 l2 l3 aFac1 aFac2
                 aFac3 indB indS b) X Y Z =
  geometry_at b X Y Z.
Proof. unfold PutGeomSlice_faces_kj. faces_geometry. Qed.

(** The target cell of a position of the slice in the first patch. *)
Lemma GetSwapLoc_first (l1 l2 l3 : Z) (inter : interblock)
      (indB : vector3d Z) :
  GetSwapLoc l1 l2 l3 inter true = Ok indB ->
  (Direction3First inter = "i"%string /\
   indB = Vec3 (ConstSurfaceFirst inter + l3) (Dir1StartFirst inter + l1)
               (Dir2StartFirst inter + l2)) \/
  (Direction3First inter = "j"%string /\
   indB = Vec3 (Dir2StartFirst inter + l2) (ConstSurfaceFirst inter + l3)
               (Dir1StartFirst inter + l1)) \/
  (Direction3First inter = "k"%string /\
   indB = Vec3 (Dir1StartFirst inter + l1) (Dir2StartFirst inter + l2)
               (ConstSurfaceFirst inter + l3)).
Proof.
  unfold GetSwapLoc.
  destruct (String.eqb_spec (Direction3First inter) "i") as [Ei|_];
    [intros [= <-]; by left|].
  destruct (String.eqb_spec (Direction3First inter) "j") as [Ej|_];
    [intros [= <-]; right; by left|].
  destruct (String.eqb_spec (Direction3First inter) "k") as [Ek|_];
    [intros [= <-]; right; by right|done].
Qed.

Ltac other_target :=
  try match goal with |- @eq Z _ _ -> _ => intros ? end;
  cbn [v0 v1 v2]; intros [= ? ? ?];
  first [ lia
        | match goal with
          | Hne : (_, _, _) <> (_, _, _) |- _ => apply Hne; repeat f_equal; lia
          end ].

Ltac cell_case f E :=
  match goal with
  | |- context [if ?c then Ok (f _ _ _ _ _ _ _ _ _ _ _ _) else _] =>
      destruct c eqn:E
  end.

Ltac cell_family E HB HT :=
  intros [= <-]; apply andb_prop in E as [E _]; apply String.eqb_eq in E;
  destruct HB as [[HD ->]|[[HD ->]|[HD ->]]]; try congruence;
  destruct HT as [[HD' ->]|[[HD' ->]|[HD' ->]]]; try congruence.

(** Writing the geometry of one element leaves the geometry at the target
    of every other position of the slice as it is. *)
Lemma PutGeomSlice_cell_geometry (inter : interblock) (slice : geomSlice D)
      (d3 l1 l2 l3 : Z) (aFac1 aFac2 aFac3 : D) (indB indS : vector3d Z)
      (b b' : procBlock D PV) (t1 t2 t3 : Z) (tB : vector3d Z) :
  GetSwapLoc l1 l2 l3 inter true = Ok indB ->
  GetSwapLoc t1 t2 t3 inter true = Ok tB ->
  (t1, t2, t3) <> (l1, l2, l3) ->
  t3 < d3 ->
  t1 < Dir1EndFirst inter - Dir1StartFirst inter ->
  t2 < Dir2EndFirst inter - Dir2StartFirst inter ->
  PutGeomSlice_cell inter slice d3 l1 l2 l3 aFac1 aFac2 aFac3 indB indS b =
    Ok b' ->
  geometry_at b' (v0 tB) (v1 tB) (v2 tB) =
  geometry_at b (v0 tB) (v1 tB) (v2 tB).
Proof.
  intros HB HT Hne H3 H1 H2. unfold PutGeomSlice_cell. cbv zeta.
  apply GetSwapLoc_first in HB, HT.
  assert (Hb0 : forall v c,
            geometry_at (put_center (v0 indB) (v1 indB) (v2 indB) c
                           (put_vol (v0 indB) (v1 indB) (v2 indB) v b))
                        (v0 tB) (v1 tB) (v2 tB) =
            geometry_at b (v0 tB) (v1 tB) (v2 tB)).
  { intros v c.
    destruct HB as [[HD ->]|[[HD ->]|[HD ->]]];
      destruct HT as [[HD' ->]|[[HD' ->]|[HD' ->]]]; try congruence;
      rewrite geometry_at_put_center, geometry_at_put_vol
        by other_target; reflexivity. }
  set (b0 := put_center _ _ _ _ _). specialize (Hb0 _ _ : _ b0 _ _ _ = _).
  clearbody b0. rewrite <- Hb0. clear Hb0.
  cell_case (@PutGeomSlice_faces_ii D PV _) Eii;
    [cell_family Eii HB HT; apply PutGeomSlice_faces_ii_geometry;
     other_target|].
  cell_case (@PutGeomSlice_faces_jj D PV _) Ejj;
    [cell_family Ejj HB HT; apply PutGeomSlice_faces_jj_geometry;
     other_target|].
  cell_case (@PutGeomSlice_faces_kk D PV _) Ekk;
    [cell_family Ekk HB HT; apply PutGeomSlice_faces_kk_geometry;
     other_target|].
  cell_case (@PutGeomSlice_faces_ij D PV _) Eij;
    [cell_family Eij HB HT; apply PutGeomSlice_faces_ij_geometry;
     other_target|].
  cell_case (@PutGeomSlice_faces_ik D PV _) Eik;
    [cell_family Eik HB HT; apply PutGeomSlice_faces_ik_geometry;
     other_target|].
  cell_case (@PutGeomSlice_faces_ji D PV _) Eji;
    [cell_family Eji HB HT; apply PutGeomSlice_faces_ji_geometry;
     other_target|].
  cell_case (@PutGeomSlice_faces_jk D PV _) Ejk.
  { exfalso. apply andb_prop in Ejk as [Egt Ek].
    destruct HB as [[HD _]|[[HD _]|[HD _]]]; rewrite HD in Egt, Ekk;
      [discriminate Egt|discriminate Egt|].
    rewrite Ek in Ekk. discriminate Ekk. }
  cell_case (@PutGeomSlice_faces_ki D PV _) Eki;
    [cell_family Eki HB HT; apply PutGeomSlice_faces_ki_geometry;
     other_target|].
  cell_case (@PutGeomSlice_faces_kj D PV _) Ekj;
    [cell_family Ekj HB HT; apply PutGeomSlice_faces_kj_geometry;
     other_target|].
  discriminate.
Qed.

(** An iteration leaves the geometry at the target of an element of volume
    0 as it is: the iteration of the element itself skips it, and the others
    write elsewhere. *)
Lemma PutGeomSlice_body_geometry (slice : geomSlice D) (inter : interblock)
      (d3 l3 l2 l1 : Z) (s1 s2 : procBlock D PV * list bool)
      (t1 t2 t3 : Z) (tB tS : vector3d Z) :
  GetSwapLoc t1 t2 t3 inter true = Ok tB ->
  GetSwapLoc t1 t2 t3 inter false = Ok tS ->
  deqb (Vol slice (v0 tS) (v1 tS) (v2 tS)) (dlit 0) = true ->
  t3 < d3 ->
  t1 < Dir1EndFirst inter - Dir1StartFirst inter ->
  t2 < Dir2EndFirst inter - Dir2StartFirst inter ->
  PutGeomSlice_body slice inter d3 l3 l2 l1 s1 = Ok s2 ->
  geometry_at (fst s2) (v0 tB) (v1 tB) (v2 tB) =
  geometry_at (fst s1) (v0 tB) (v1 tB) (v2 tB).
Proof.
  intros HB HS Hvol H3 H1 H2. destruct s1 as [b adjEdge].
  unfold PutGeomSlice_body.
  destruct (GetSwapLoc l1 l2 l3 inter true) as [indB|] eqn:EB; [|done].
  destruct (GetSwapLoc l1 l2 l3 inter false) as [indS|] eqn:ES; [|done].
  cbn [res_bind].
  destruct (deqb (Vol slice (v0 indS) (v1 indS) (v2 indS)) (dlit 0))
    eqn:Ezero.
  - intros Hskip. by apply PutGeomSlice_skip_spec in Hskip as ->.
  - destruct (PutGeomSlice_cell _ _ _ _ _ _ _ _ _ _ _ _) as [b'|] eqn:Ecell;
      [|done].
    cbn [res_bind]. intros [= <-]. cbn [fst].
    apply (PutGeomSlice_cell_geometry _ _ _ _ _ _ _ _ _ _ _ _ _ t1 t2 t3 tB
             EB HB) in Ecell; [done| |done|done|done].
    intros [= -> -> ->]. congruence.
Qed.

Lemma in_ghost_layers_same_extent (inter : interblock)
      (b b' : procBlock D PV) (indB : vector3d Z) :
  same_extent b b' -> in_ghost_layers inter b indB ->
  in_ghost_layers inter b' indB.
Proof.
  intros [Hr HG]. unfold in_ghost_layers, NumI, NumJ, NumK.
  by rewrite Hr, HG.
Qed.

(** The edge of a target in the ghost layers along the normal of the patch
    runs along direction 1 or 2 of the patch, and has a flag. *)
Lemma edge_flag_ghost (inter : interblock) (b : procBlock D PV)
      (l1 l2 l3 : Z) (indB : vector3d Z) (e : string) :
  GetSwapLoc l1 l2 l3 inter true = Ok indB ->
  in_ghost_layers inter b indB ->
  AtEdge b (v0 indB) (v1 indB) (v2 indB) true = Some e ->
  exists n, edge_flag inter b indB e = Some n.
Proof.
  intros Hloc (Hi & Hj & Hk) Ee. apply AtEdge_dir in Ee.
  unfold edge_flag.
  destruct (directions_first inter) as [(E3 & E1 & E2)|[(E3 & E1 & E2)|
    [(E3 & E1 & E2)|(E3 & E1 & E2)]]]; rewrite E1, E2; rewrite E3 in *.
  4:{ unfold GetSwapLoc in Hloc. rewrite E3 in Hloc. discriminate. }
  all: destruct Ee as [[-> He]|[[-> He]|[-> He]]]; cbn;
    try (exfalso; first [by apply Hi|by apply Hj|by apply Hk]);
    repeat match goal with
    | |- context [if ?c then _ else _] => destruct c
    end; by eexists.
Qed.

(** The whole call leaves the geometry at the target of every element of
    volume 0 as it is. *)
Lemma PutGeomSlice_skips (slice : geomSlice D) (inter : interblock)
      (d3 numG : Z) (b b' : procBlock D PV) (adjEdge' : list bool)
      (l1 l2 l3 : Z) (indB indS : vector3d Z) :
  0 <= numG ->
  PutGeomSlice slice inter d3 numG b = Ok (b', adjEdge') ->
  visited inter d3 numG l1 l2 l3 ->
  GetSwapLoc l1 l2 l3 inter true = Ok indB ->
  GetSwapLoc l1 l2 l3 inter false = Ok indS ->
  deqb (Vol slice (v0 indS) (v1 indS) (v2 indS)) (dlit 0) = true ->
  geometry_at b' (v0 indB) (v1 indB) (v2 indB) =
  geometry_at b (v0 indB) (v1 indB) (v2 indB).
Proof.
  intros HG. unfold PutGeomSlice, visited. cbv zeta.
  destruct (negb _); [done|]. intros Hloop (H3 & H2 & H1) HB HS Hvol.
  assert (H1' : l1 < Dir1EndFirst inter - Dir1StartFirst inter)
    by (destruct (Dir1EndInterBorderFirst inter); lia).
  assert (H2' : l2 < Dir2EndFirst inter - Dir2StartFirst inter)
    by (destruct (Dir2EndInterBorderFirst inter); lia).
  apply (for_range3_res_rel
           (fun s1 s2 : procBlock D PV * list bool =>
              geometry_at (fst s2) (v0 indB) (v1 indB) (v2 indB) =
              geometry_at (fst s1) (v0 indB) (v1 indB) (v2 indB)))
    in Hloop; [exact Hloop|done|by intros s1 s2 s3 -> ->|].
  intros x3 x2 x1 s1 s2.
  apply (PutGeomSlice_body_geometry slice inter d3 x3 x2 x1 s1 s2 l1 l2 l3
           indB indS); (done || lia).
Qed.

(** A call that terminates the job does so for a position whose element is
    none of volume 0, when the targets lie in the ghost layers along the
    normal of the patch. *)
Lemma PutGeomSlice_abort_cause (slice : geomSlice D) (inter : interblock)
      (d3 numG : Z) (b : procBlock D PV) :
  (forall l1 l2 l3 indB, visited inter d3 numG l1 l2 l3 ->
     GetSwapLoc l1 l2 l3 inter true = Ok indB ->
     in_ghost_layers inter b indB) ->
  PutGeomSlice slice inter d3 numG b = Abort ->
  (Dir1EndFirst inter - Dir1StartFirst inter) *
    (Dir2EndFirst inter - Dir2StartFirst inter) * d3 <>
    geom_NumCells slice \/
  exists l1 l2 l3 (s1 : procBlock D PV * list bool),
    visited inter d3 numG l1 l2 l3 /\
    PutGeomSlice_body slice inter d3 l3 l2 l1 s1 = Abort /\
    (GetSwapLoc l1 l2 l3 inter true = Abort \/
     GetSwapLoc l1 l2 l3 inter false = Abort \/
     exists indS, GetSwapLoc l1 l2 l3 inter false = Ok indS /\
       deqb (Vol slice (v0 indS) (v1 indS) (v2 indS)) (dlit 0) = false).
Proof.
  intros Hghost. unfold PutGeomSlice. cbv zeta.
  destruct (Z.eqb_spec
              ((Dir1EndFirst inter - Dir1StartFirst inter) *
               (Dir2EndFirst inter - Dir2StartFirst inter) * d3)
              (geom_NumCells slice)) as [_|Hne]; [|by left].
  cbn [negb]. intros Hloop. right.
  apply (for_range3_res_abort flags_grow flags_grow_refl flags_grow_trans)
    in Hloop as (l3 & l2 & l1 & [b1 adj1] & H3 & H2 & H1 & Hgrow & Hbody);
    [|apply PutGeomSlice_body_grow].
  exists l1, l2, l3, (b1, adj1). split; [done|]. split; [exact Hbody|].
  unfold PutGeomSlice_body in Hbody.
  destruct (GetSwapLoc l1 l2 l3 inter true) as [indB|] eqn:EB; [|by left].
  destruct (GetSwapLoc l1 l2 l3 inter false) as [indS|] eqn:ES;
    [|right; by left].
  cbn [res_bind] in Hbody. right; right. exists indS. split; [done|].
  destruct (deqb (Vol slice (v0 indS) (v1 indS) (v2 indS)) (dlit 0));
    [|done].
  destruct (PutGeomSlice_skip_returns inter indB b1 adj1 l1 l2 l3 EB)
    as [adj2 Hret]; [|congruence].
  apply (in_ghost_layers_same_extent inter b); [apply Hgrow|].
  by apply (Hghost l1 l2 l3).
Qed.
End Proofs.

(** C7: [PutGeomSlice] is called with a patch whose targets lie in the ghost
    layers along the normal of the patch, as the targets of a swap do, and
    with a number of ghost layers that is not negative.  Then every element
    of the slice whose volume is 0 is skipped.  Its iteration returns the
    block as it is and sets at most the flag of the edge of its target.  The
    call does not terminate the job for it: if the call terminates the job,
    the number of cells does not fit or the iteration that terminates it
    belongs to a position without a target or a source cell or to an element
    whose volume is not 0.  When the call returns, it returns four flags;
    the volume, the cell centre, the three face areas and the three face
    centres of the block at the target of every element of volume 0 are
    those from before the call, whatever the other iterations have written;
    and if that target lies on an edge of the block, the edge has one of the
    four flags and this flag is set in the flags returned.  [SwapSlice] for
    the geometry then puts the OR of the returned flags and the border flags
    of each side back into the inter-block record. *)
Theorem PutGeomSlice_zero_volume_skipped {D PV : Type} `{DoubleOps D}
        (slice : geomSlice D) (inter : interblock) (d3 numG : Z)
        (b : procBlock D PV) :
  0 <= numG ->
  (forall l1 l2 l3 indB,
     visited inter d3 numG l1 l2 l3 ->
     GetSwapLoc l1 l2 l3 inter true = Ok indB ->
     in_ghost_layers inter b indB) ->
  (forall l1 l2 l3 indB indS b1 adjEdge,
     visited inter d3 numG l1 l2 l3 ->
     GetSwapLoc l1 l2 l3 inter true = Ok indB ->
     GetSwapLoc l1 l2 l3 inter false = Ok indS ->
     deqb (Vol slice (v0 indS) (v1 indS) (v2 indS)) (dlit 0) = true ->
     same_extent b b1 ->
     PutGeomSlice_body slice inter d3 l3 l2 l1 (b1, adjEdge) =
       Ok (b1, flags_after_skip inter b indB adjEdge)) /\
  (PutGeomSlice slice inter d3 numG b = Abort ->
   (Dir1EndFirst inter - Dir1StartFirst inter) *
     (Dir2EndFirst inter - Dir2StartFirst inter) * d3 <>
     geom_NumCells slice \/
   exists l1 l2 l3 (s1 : procBlock D PV * list bool),
     visited inter d3 numG l1 l2 l3 /\
     PutGeomSlice_body slice inter d3 l3 l2 l1 s1 = Abort /\
     (GetSwapLoc l1 l2 l3 inter true = Abort \/
      GetSwapLoc l1 l2 l3 inter false = Abort \/
      exists indS, GetSwapLoc l1 l2 l3 inter false = Ok indS /\
        deqb (Vol slice (v0 indS) (v1 indS) (v2 indS)) (dlit 0) = false)) /\
  (forall b' adjEdge',
     PutGeomSlice slice inter d3 numG b = Ok (b', adjEdge') ->
     length adjEdge' = 4%nat /\
     forall l1 l2 l3 indB indS,
       visited inter d3 numG l1 l2 l3 ->
       GetSwapLoc l1 l2 l3 inter true = Ok indB ->
       GetSwapLoc l1 l2 l3 inter false = Ok indS ->
       deqb (Vol slice (v0 indS) (v1 indS) (v2 indS)) (dlit 0) = true ->
       geometry_at b' (v0 indB) (v1 indB) (v2 indB) =
         geometry_at b (v0 indB) (v1 indB) (v2 indB) /\
       forall e,
         AtEdge b (v0 indB) (v1 indB) (v2 indB) true = Some e ->
         exists n, edge_flag inter b indB e = Some n /\
                   adjEdge' !! n = Some true) /\
  (forall geomSlice_of stateSlice_of AdjustForSlice
          (inter0 : interblock) (blk1 blk2 : procBlock D PV)
          inter' blk1' blk2',
     length (ib_borderFirst inter0) = 4%nat ->
     length (ib_borderSecond inter0) = 4%nat ->
     SwapSlice geomSlice_of stateSlice_of AdjustForSlice inter0 blk1 blk2
               true = Ok (inter', blk1', blk2') ->
     exists r1 r2 adjEdge1 adjEdge2,
       PutGeomSlice (geomSlice_of blk2 r2)
         (AdjustForSlice true (NumGhosts blk2) inter0)
         (NumGhosts blk2) (NumGhosts blk2) blk1 = Ok (blk1', adjEdge1) /\
       PutGeomSlice (geomSlice_of blk1 r1)
         (AdjustForSlice false (NumGhosts blk1) inter0)
         (NumGhosts blk1) (NumGhosts blk1) blk2 = Ok (blk2', adjEdge2) /\
       ib_borderFirst inter' = zip_with orb adjEdge1 (ib_borderFirst inter0) /\
       ib_borderSecond inter' =
         zip_with orb adjEdge2 (ib_borderSecond inter0)).
Proof.
  intros HG Hghost. split; [|split; [|split]].
  - intros l1 l2 l3 indB indS b1 adjEdge Hv HB HS Hvol Hext.
    rewrite (PutGeomSlice_body_zero slice inter d3 l3 l2 l1 b1 adjEdge
               indB indS HB HS Hvol).
    destruct (PutGeomSlice_skip_returns inter indB b1 adjEdge l1 l2 l3 HB)
      as [adjEdge' Hret].
    { apply (in_ghost_layers_same_extent inter b); [done|].
      by apply (Hghost l1 l2 l3). }
    rewrite Hret. apply PutGeomSlice_skip_spec in Hret as [= ->].
    by rewrite (flags_after_skip_same_extent inter b b1).
  - apply PutGeomSlice_abort_cause. exact Hghost.
  - intros b' adjEdge' Hput.
    destruct (PutGeomSlice_flags slice inter d3 numG b b' adjEdge' Hput)
      as (_ & Hlen & Hflags).
    split; [exact Hlen|].
    intros l1 l2 l3 indB indS Hv HB HS Hvol. split.
    + by apply (PutGeomSlice_skips slice inter d3 numG b b' adjEdge'
                  l1 l2 l3 indB indS).
    + intros e He.
      destruct (edge_flag_ghost inter b l1 l2 l3 indB e HB
                  (Hghost l1 l2 l3 indB Hv HB) He) as [n Hn].
      exists n. split; [exact Hn|].
      by apply (Hflags l1 l2 l3 indB indS e n).
  - intros geomSlice_of stateSlice_of AdjustForSlice inter0 blk1 blk2
           inter' blk1' blk2' Hf Hs. unfold SwapSlice.
    destruct (slice_range (BoundaryFirst inter0) _ _ _ _ _ _) as [r1|];
      [|done].
    destruct (slice_range (BoundarySecond inter0) _ _ _ _ _ _) as [r2|];
      [|done].
    cbn [res_bind]. cbv zeta.
    destruct (PutGeomSlice (geomSlice_of blk2 r2) _ _ _ blk1)
      as [[b1 adj1]|] eqn:E1; [|done].
    cbn [res_bind].
    destruct (PutGeomSlice (geomSlice_of blk1 r1) _ _ _ blk2)
      as [[b2 adj2]|] eqn:E2; [|done].
    cbn [res_bind fst snd]. intros [= <- <- <-].
    exists r1, r2, adj1, adj2. split; [done|]. split; [done|].
    apply PutGeomSlice_flags in E1 as (_ & Hl1 & _).
    apply PutGeomSlice_flags in E2 as (_ & Hl2 & _).
    by rewrite update_borders_or.
Qed.

Import Examples.

(** The unit cube receives a slice whose cells with k < 2 have the volume 0,
    over the patch on its upper i-side, whose targets are the ghost cells
    with i = 3 and i = 4.  The element (l1, l2, l3) = (2, 1, 0) has the
    volume 0 and the target cell (3, 2, 1), on the edge of the block that
    runs along j (direction 1 of the patch) at the start of k (direction 2):
    its iteration returns the block as it is and sets flag 2.  The call
    returns; flag 2 is set in the flags it returns, the geometry of the cell
    (3, 2, 1) is that from before the call, whereas its neighbour (3, 2, 2)
    has received the volume 2.  [SwapSlice] between two such cubes sets flag
    2 on both sides of the record. *)
Lemma PutGeomSlice_zero_volume_skipped_witness :
  PutGeomSlice_body half_filled_slice upper_i_patch 2 0 1 2
    (one_cell, replicate 4 false) =
    Ok (one_cell, [false; false; true; false]) /\
  (exists b' adjEdge',
     PutGeomSlice half_filled_slice upper_i_patch 2 2 one_cell =
       Ok (b', adjEdge') /\
     length adjEdge' = 4%nat /\ adjEdge' !! 2%nat = Some true /\
     geometry_at b' 3 2 1 = geometry_at one_cell 3 2 1 /\
     this (ma_get (vol_ one_cell) 3 2 2) = 1%Q /\
     this (ma_get (vol_ b') 3 2 2) = 2%Q) /\
  (exists inter' blk1' blk2',
     SwapSlice (fun _ _ => half_filled_slice)
       (fun b _ => mkStateSlice (state_ b) 0) (fun _ _ _ => upper_i_patch)
       upper_i_patch one_cell one_cell true = Ok (inter', blk1', blk2') /\
     ib_borderFirst inter' = [false; false; true; false] /\
     ib_borderSecond inter' = [false; false; true; false]).
Proof.
  assert (Hghost : forall l1 l2 l3 indB,
            visited upper_i_patch 2 2 l1 l2 l3 ->
            GetSwapLoc l1 l2 l3 upper_i_patch true = Ok indB ->
            in_ghost_layers upper_i_patch one_cell indB).
  { intros l1 l2 l3 indB (H3 & _) HB.
    apply GetSwapLoc_first in HB as [[_ ->]|[[HD _]|[HD _]]];
      [|discriminate HD|discriminate HD].
    unfold in_ghost_layers. cbn [v0 v1 v2].
    change (ConstSurfaceFirst upper_i_patch) with 3.
    change (numGhosts_ one_cell) with 2.
    change (NumI one_cell) with 1.
    repeat split; intros; (lia || discriminate). }
  assert (Hv : visited upper_i_patch 2 2 2 1 0).
  { unfold visited. cbn. lia. }
  pose proof (PutGeomSlice_zero_volume_skipped half_filled_slice
                upper_i_patch 2 2 one_cell ltac:(lia) Hghost)
    as (Hone & Hret & Hall & Hswap).
  split; [|split].
  - rewrite (Hone 2 1 0 (Vec3 3 2 1) (Vec3 0 2 1) one_cell
               (replicate 4 false) Hv eq_refl eq_refl eq_refl);
      [reflexivity|by split].
  - destruct (PutGeomSlice half_filled_slice upper_i_patch 2 2 one_cell)
      as [[b' adjEdge']|] eqn:E.
    + exists b', adjEdge'. split; [reflexivity|].
      destruct (Hall b' adjEdge' eq_refl) as [Hlen Hskip].
      split; [exact Hlen|].
      destruct (Hskip 2 1 0 (Vec3 3 2 1) (Vec3 0 2 1) Hv eq_refl eq_refl
                  eq_refl) as [Hgeo Hflag].
      destruct (Hflag "j"%string eq_refl) as (n & Hn & Hset).
      injection Hn as <-.
      split; [exact Hset|]. split; [exact Hgeo|]. split; [reflexivity|].
      vm_compute in E. injection E as <- <-. reflexivity.
    + vm_compute in E. discriminate.
  - destruct (SwapSlice (fun _ _ => half_filled_slice)
                (fun b _ => mkStateSlice (state_ b) 0)
                (fun _ _ _ => upper_i_patch)
                upper_i_patch one_cell one_cell true)
      as [[[inter' blk1'] blk2']|] eqn:E.
    + exists inter', blk1', blk2'. split; [reflexivity|].
      destruct (Hswap _ _ _ upper_i_patch _ _ _ _ _ eq_refl eq_refl E)
        as (r1 & r2 & adj1 & adj2 & E1 & E2 & HF & HS).
      rewrite HF, HS.
      vm_compute in E1. vm_compute in E2.
      injection E1 as _ <-. injection E2 as _ <-. split; reflexivity.
    + vm_compute in E. discriminate.
Defined.

End SwapProofs.

(** *** More on loops with a body that may terminate the job *)

Section MoreRangeLoops.
Context {S : Type}.
Context (R : S -> S -> Prop).
Context (R_refl : forall s, R s s).
Context (R_trans : forall s1 s2 s3, R s1 s2 -> R s2 s3 -> R s1 s3).

(** Three nested loops: a relation that every iteration of the innermost
    body establishes, for the positions the loops visit. *)
Lemma for_range3_res_rel_in (lo3 hi3 lo2 hi2 lo1 hi1 : Z)
      (body : Z -> Z -> Z -> S -> res S) (s s' : S) :
  (forall x3 x2 x1 s1 s2,
     lo3 <= x3 < hi3 -> lo2 <= x2 < hi2 -> lo1 <= x1 < hi1 ->
     body x3 x2 x1 s1 = Ok s2 -> R s1 s2) ->
  Swap.for_range_res lo3 hi3 (fun x3 =>
    Swap.for_range_res lo2 hi2 (fun x2 =>
      Swap.for_range_res lo1 hi1 (fun x1 => body x3 x2 x1))) s = Ok s' ->
  R s s'.
Proof.
  intros Hstep. apply (for_range_res_rel R R_refl R_trans).
  intros x3 s1 s2 H3.
  apply (for_range_res_rel R R_refl R_trans). intros x2 s3 s4 H2.
  apply (for_range_res_rel R R_refl R_trans). intros x1 s5 s6 H1.
  by apply Hstep.
Qed.

(** The same for a loop that starts at 0. *)
Lemma for_loop_res_rel (n : Z) (body : Z -> S -> res S) (s s' : S) :
  (forall x s1 s2, 0 <= x < n -> body x s1 = Ok s2 -> R s1 s2) ->
  for_loop_res n body s = Ok s' -> R s s'.
Proof.
  intros Hstep Hloop.
  apply (for_range_res_rel R R_refl R_trans 0 n body); [done|].
  unfold Swap.for_range_res. by rewrite Z.sub_0_r.
Qed.
End MoreRangeLoops.

Section EmptyLoops.
Context {S : Type}.

Lemma for_loop_res_nonpos (n : Z) (body : Z -> S -> res S) (s : S) :
  n <= 0 -> for_loop_res n body s = Ok s.
Proof. intros Hn. unfold for_loop_res. by rewrite for_loop_nonpos. Qed.

(** A loop whose iterations all return the state as it is. *)
Lemma for_loop_res_skip (n : Z) (body : Z -> S -> res S) (s : S) :
  (forall x s', 0 <= x < n -> body x s' = Ok s') ->
  for_loop_res n body s = Ok s.
Proof.
  intros Hbody. rewrite (for_loop_res_ok n body (fun _ s' => s')) by done.
  f_equal. by apply (for_loop_preserve (fun s' => s' = s)).
Qed.

(** A property kept by the body of three nested loops, for the positions
    the loops visit. *)
Lemma for_loop3_preserve (P : S -> Prop) (nk nj ni : Z)
      (body : Z -> Z -> Z -> S -> S) (s : S) :
  P s ->
  (forall kp jp ip s1, 0 <= kp < nk -> 0 <= jp < nj -> 0 <= ip < ni ->
     P s1 -> P (body kp jp ip s1)) ->
  P (for_loop nk (fun kp => for_loop nj (fun jp =>
       for_loop ni (fun ip => body kp jp ip))) s).
Proof.
  intros H0 Hstep.
  apply for_loop_preserve; [done|]. intros kp s1 Hk H1.
  apply for_loop_preserve; [done|]. intros jp s2 Hj H2.
  apply for_loop_preserve; [done|]. intros ip s3 Hi H3.
  by apply Hstep.
Qed.
End EmptyLoops.

(** *** Classes of cells and padding *)

Module CellsProofs.
Import Cells Swap.

(** X1: a cell index belongs to at most one of the three classes of
    [IsPhysical], [AtCorner] and [AtEdge]: for a physical cell [AtCorner] is
    false and [AtEdge] finds no edge, and for a corner cell [AtEdge] finds no
    edge, whatever the block and with or without the ghost offset. *)
Theorem cell_classes_exclusive {D PV : Type} (b : procBlock D PV)
        (ii jj kk : Z) (includeGhost : bool) :
  (IsPhysical b ii jj kk includeGhost = true ->
   AtCorner b ii jj kk includeGhost = false /\
   AtEdge b ii jj kk includeGhost = None) /\
  (AtCorner b ii jj kk includeGhost = true ->
   AtEdge b ii jj kk includeGhost = None).
Proof.
  unfold IsPhysical, AtCorner, AtEdge. cbv zeta.
  set (offset := if includeGhost then numGhosts_ b else 0).
  destruct (Z.ltb_spec ii offset), (Z.gtb_spec ii (NumI b - 1 + offset)),
    (Z.ltb_spec jj offset), (Z.gtb_spec jj (NumJ b - 1 + offset)),
    (Z.ltb_spec kk offset), (Z.gtb_spec kk (NumK b - 1 + offset));
    cbn [orb andb];
    (split; [intros ?; try discriminate|intros ?; try discriminate]).
  all: repeat match goal with
       | |- context [?a <=? ?b] => destruct (Z.leb_spec a b); try lia
       | |- context [?a <? ?b] => destruct (Z.ltb_spec a b); try lia
       | |- context [?a =? ?b] => destruct (Z.eqb_spec a b); try lia
       end; cbn [orb andb]; try done.
Qed.

Import Examples.

(** In the unit cube with two ghost layers the cell (2, 2, 2) is physical
    and (1, 1, 1) is a corner; neither lies on an edge. *)
Lemma cell_classes_exclusive_witness :
  (AtCorner one_cell 2 2 2 true = false /\
   AtEdge one_cell 2 2 2 true = None) /\
  AtEdge one_cell 1 1 1 true = None.
Proof.
  split.
  - apply (proj1 (cell_classes_exclusive one_cell 2 2 2 true)). reflexivity.
  - apply (proj2 (cell_classes_exclusive one_cell 1 1 1 true)). reflexivity.
Defined.

(** X2: for a number of ghost layers that is not negative, [PadWithGhosts]
    never fails on a shape mismatch; the padded array has [2 * numGhosts]
    more elements in each direction, and reading it at an index shifted by
    [numGhosts] gives back the element of the original array inside its
    extents and the default element in the padding around it. *)
Theorem PadWithGhosts_round_trip {T : Type} (dflt : T)
        (var : multiArray3d T) (numGhosts : Z) :
  0 <= numGhosts ->
  exists padBlk,
    PadWithGhosts dflt var numGhosts = Ok padBlk /\
    maNumI padBlk = maNumI var + 2 * numGhosts /\
    maNumJ padBlk = maNumJ var + 2 * numGhosts /\
    maNumK padBlk = maNumK var + 2 * numGhosts /\
    forall i j k,
      - numGhosts <= i < maNumI var + numGhosts ->
      - numGhosts <= j < maNumJ var + numGhosts ->
      - numGhosts <= k < maNumK var + numGhosts ->
      ma_get padBlk (i + numGhosts) (j + numGhosts) (k + numGhosts) =
      if decide ((0 <= i < maNumI var) /\ (0 <= j < maNumJ var) /\
                 (0 <= k < maNumK var))
      then ma_get var i j k else dflt.
Proof.
  intros HG. unfold PadWithGhosts. cbv zeta. eexists. split.
  - apply Insert_ok; simpl; lia.
  - simpl. do 3 (split; [done|]). intros i j k _ _ _. unfold in_range.
    destruct (decide _) as [Hin|Hout].
    + replace (_ && _ && _) with true.
      * f_equal; lia.
      * symmetry. rewrite !andb_true_iff, !Z.leb_le. lia.
    + replace (_ && _ && _) with false; [done|].
      symmetry. apply not_true_is_false. rewrite !andb_true_iff, !Z.leb_le.
      lia.
Qed.

(** One element 7 padded with two layers of 0: the array has five elements
    in each direction, the 7 in its middle and a 0 beside it. *)
Lemma PadWithGhosts_round_trip_witness :
  exists padBlk,
    PadWithGhosts 0 (ma_const 1 1 1 7) 2 = Ok padBlk /\
    maNumI padBlk = 5 /\
    ma_get padBlk 2 2 2 = 7 /\ ma_get padBlk 1 2 2 = 0.
Proof.
  destruct (PadWithGhosts_round_trip 0 (ma_const 1 1 1 7) 2 ltac:(lia))
    as (padBlk & Hpad & Hi & _ & _ & Hget).
  exists padBlk. split; [exact Hpad|]. split; [exact Hi|]. split.
  - exact (Hget 0 0 0 ltac:(simpl; lia) ltac:(simpl; lia) ltac:(simpl; lia)).
  - exact (Hget (-1) 0 0 ltac:(simpl; lia) ltac:(simpl; lia)
             ltac:(simpl; lia)).
Defined.
End CellsProofs.

(** *** Stencil widths *)

Module StencilProofs.
Import Stencil.
Section Proofs.
Context {D : Type} `{DoubleOps D} `{!RealArith D} `{!RealGroup D}.

Lemma dadd_0_r (x : D) : (x + dlit 0)%dbl = x.
Proof. by rewrite dadd_comm, dadd_0_l. Qed.

Lemma foldl_dadd_init (l : list D) (x : D) :
  foldl dadd x l = (x + foldl dadd (dlit 0) l)%dbl.
Proof.
  revert x. induction l as [|y l IH]; intros x; simpl.
  - by rewrite dadd_0_r.
  - rewrite IH. rewrite (IH (dlit 0 + y)%dbl). rewrite dadd_0_l.
    by rewrite dadd_assoc.
Qed.

Lemma accumulate_split (v : list D) (a b c : Z) :
  0 <= a -> a <= b -> b <= c ->
  accumulate v a c (dlit 0) =
  (accumulate v a b (dlit 0) + accumulate v b c (dlit 0))%dbl.
Proof.
  intros Ha Hab Hbc. unfold accumulate.
  replace (Z.to_nat (c - a)) with (Z.to_nat (b - a) + Z.to_nat (c - b))%nat
    by lia.
  rewrite <- take_take_drop, foldl_app, drop_drop.
  replace (Z.to_nat a + Z.to_nat (b - a))%nat with (Z.to_nat b) by lia.
  apply foldl_dadd_init.
Qed.
End Proofs.

(** X3: in exact arithmetic (the laws [RealArith] and [RealGroup]) the
    width of a stencil is additive: for 0 <= a <= b <= c the width from a to
    c is the width from a to b plus the width from b to c.  The width from
    c back to a < c is -1.0 times the width from a to c, and the width of an
    empty stencil is 0. *)
Theorem StencilWidth_additive {D : Type} `{DoubleOps D} `{!RealArith D}
        `{!RealGroup D} (cellWidth : list D) (a b c : Z) :
  0 <= a -> a <= b -> b <= c ->
  StencilWidth cellWidth a c =
    (StencilWidth cellWidth a b + StencilWidth cellWidth b c)%dbl /\
  (a < c ->
   StencilWidth cellWidth c a =
     (dlit (-1) * StencilWidth cellWidth a c)%dbl) /\
  StencilWidth cellWidth a a = dlit 0.
Proof.
  intros Ha Hab Hbc. split; [|split].
  - unfold StencilWidth. cbv zeta.
    destruct (Z.gtb_spec c a), (Z.gtb_spec b a), (Z.gtb_spec c b),
      (Z.gtb_spec a c), (Z.gtb_spec a b), (Z.gtb_spec b c); try lia.
    + by apply accumulate_split.
    + assert (b = c) as -> by lia. by rewrite dadd_0_r.
    + assert (a = b) as -> by lia. by rewrite dadd_0_l.
    + by rewrite dadd_0_l.
  - intros Hac. unfold StencilWidth. cbv zeta.
    destruct (Z.gtb_spec a c), (Z.gtb_spec c a); try lia. done.
  - unfold StencilWidth. cbv zeta. by rewrite Z.gtb_ltb, Z.ltb_irrefl.
Qed.

Import TimeStepFormula GhostProofs.

(** Four cells of the widths 1, 2, 4 and 8: the first three are 7 wide,
    1 + 6, and -7 when taken backwards. *)
Lemma StencilWidth_additive_witness :
  let w := [Q2Qc 1; Q2Qc 2; Q2Qc 4; Q2Qc 8] in
  StencilWidth w 0 3 = (StencilWidth w 0 1 + StencilWidth w 1 3)%dbl /\
  this (StencilWidth w 0 3) = 7%Q /\
  this (StencilWidth w 3 0) = (-7)%Q.
Proof.
  intros w. split; [|split; reflexivity].
  apply (StencilWidth_additive w 0 1 3); lia.
Defined.
End StencilProofs.

(** *** The reduction of the residuals, entry by entry *)

Module MaxLinfProofs.
Import Resid.

(** X4: [MaxLinf] keeps the length of [inout]; where both arrays have an
    entry, the entry of [inout] becomes the combination of the two for an
    index below [len] and stays as it is from [len] on.  On a tie of the two
    magnitudes the combination is the incoming record [in], so that its
    locator is the one kept (for doubles that are not NaN). *)
Theorem MaxLinf_entries {D : Type} `{DoubleOps D} `{!DoubleOrder D}
        (in_ inout : list (resid D)) (len : Z) :
  length (MaxLinf in_ inout len) = length inout /\
  (forall (i : nat) (a b : resid D),
     in_ !! i = Some a -> inout !! i = Some b ->
     MaxLinf in_ inout len !! i =
       Some (if decide (Z.of_nat i < len) then maxLinf1 a b else b)) /\
  (forall a b : resid D, linf a = linf b -> maxLinf1 a b = a).
Proof.
  split; [|split].
  - unfold MaxLinf.
    apply (for_loop_preserve (fun l => length l = length inout)); [done|].
    intros x l _ Hl. destruct (in_ !! Z.to_nat x), (l !! Z.to_nat x); try done.
    by rewrite length_insert.
  - intros i a b Ha Hb. unfold MaxLinf.
    destruct (decide (0 <= len)) as [Hlen|Hlen].
    2:{ rewrite for_loop_nonpos by lia. by rewrite decide_False by lia. }
    pose (P := fun (m : Z) (l : list (resid D)) =>
                 l !! i = Some (if decide (Z.of_nat i < m)
                                then maxLinf1 a b else b)).
    apply (for_loop_ind P); unfold P; [done| |].
    + by rewrite decide_False by lia.
    + intros x l Hx Hl.
      destruct (decide (Z.to_nat x = i)) as [<-|Hne].
      * rewrite Ha, Hl. rewrite decide_False by lia.
        rewrite decide_True by lia.
        rewrite list_lookup_insert_eq; [done|]. by eapply lookup_lt_Some.
      * assert (Hsame : (if decide (Z.of_nat i < x + 1) then maxLinf1 a b
                         else b) =
                        (if decide (Z.of_nat i < x) then maxLinf1 a b else b)).
        { destruct (decide (Z.of_nat i < x)).
          - by rewrite decide_True by lia.
          - by rewrite decide_False by lia. }
        rewrite Hsame.
        destruct (in_ !! Z.to_nat x), (l !! Z.to_nat x); try done.
        by rewrite list_lookup_insert_ne.
  - intros a b Heq. unfold maxLinf1. rewrite Heq.
    destruct (dgeb (linf b) (linf b)) eqn:E; [done|].
    by rewrite (dgeb_total _ _ E) in E.
Qed.

Import ResidProofs.

(** Three entries, two of them reduced: the first is a tie at 3 and takes
    the incoming record, the second keeps the larger magnitude 3 over 2, the
    third is not touched. *)
Lemma MaxLinf_entries_witness :
  let w0 := mkResid (Q2Qc 3) 0 1 1 1 1 in
  let w1 := mkResid (Q2Qc 3) 1 2 0 4 5 in
  let w2 := mkResid (Q2Qc 2) 2 0 0 0 3 in
  MaxLinf [w0; w2; w2] [w1; w1; w1] 2 = [w0; w1; w1].
Proof.
  intros w0 w1 w2.
  destruct (MaxLinf_entries (D:=Qc) [w0; w2; w2] [w1; w1; w1] 2)
    as (Hlen & Hent & Htie).
  apply list_eq. intros [|[|[|i]]].
  - rewrite (Hent 0%nat w0 w1) by done. reflexivity.
  - rewrite (Hent 1%nat w2 w1) by done. reflexivity.
  - rewrite (Hent 2%nat w2 w1) by done. reflexivity.
  - apply lookup_ge_None_2. rewrite Hlen. simpl. lia.
Defined.
End MaxLinfProofs.

(** *** The order of the hyperplane sweep *)

Module SweepProofs.
Import Hyperplane Notions HyperplaneProofs.

(** An order inside one block of a concatenation is an order in the
    concatenation. *)
Lemma bind_seqZ_within (g : Z -> list (vector3d Z)) (n p : Z) x y :
  0 <= p < n -> visited_before (g p) x y ->
  visited_before (seqZ 0 n ≫= g) x y.
Proof.
  intros Hp (a & c & Hac & Ha & Hc).
  rewrite (seqZ_split_at 0 n p) by lia. rewrite !bind_app. simpl.
  rewrite app_nil_r. replace (0 + p) with p by lia.
  set (l0 := seqZ 0 p ≫= g).
  exists (length l0 + a)%nat, (length l0 + c)%nat.
  split; [lia|]. split.
  - rewrite lookup_app_r by lia.
    replace (length l0 + a - length l0)%nat with a by lia.
    rewrite lookup_app_l; [done|]. by eapply lookup_lt_Some.
  - rewrite lookup_app_r by lia.
    replace (length l0 + c - length l0)%nat with c by lia.
    rewrite lookup_app_l; [done|]. by eapply lookup_lt_Some.
Qed.

Lemma sweep_lt_before imax jmax kmax x y :
  in_grid imax jmax kmax x -> in_grid imax jmax kmax y ->
  sweep_lt x y -> visited_before (HyperplaneReorder imax jmax kmax) x y.
Proof.
  intros Hx Hy [Hlt|[Hp Hrest]]; [by apply lower_plane_before|].
  rewrite HyperplaneReorder_planes.
  destruct x as [xi xj xk], y as [yi yj yk].
  unfold in_grid, plane in *. simpl in *.
  apply (bind_seqZ_within _ _ (xi + xj + xk)); [lia|].
  unfold plane_cells.
  assert (Hcell : forall i j k, i + j + k = xi + xj + xk ->
            Vec3 i j k ∈ (if i + j + k =? xi + xj + xk
                          then [Vec3 i j k] else [])).
  { intros i j k E. apply Z.eqb_eq in E. rewrite E.
    by apply list_elem_of_singleton. }
  destruct Hrest as [Hk|[-> [Hj|[-> Hi]]]].
  - apply (bind_seqZ_before _ _ xk yk); try lia.
    + apply list_elem_of_bind. exists xj. split; [|apply elem_of_seqZ; lia].
      apply list_elem_of_bind. exists xi. split; [|apply elem_of_seqZ; lia].
      by apply Hcell.
    + apply list_elem_of_bind. exists yj. split; [|apply elem_of_seqZ; lia].
      apply list_elem_of_bind. exists yi. split; [|apply elem_of_seqZ; lia].
      apply Hcell. lia.
  - apply (bind_seqZ_within _ _ yk); [lia|].
    apply (bind_seqZ_before _ _ xj yj); try lia.
    + apply list_elem_of_bind. exists xi. split; [|apply elem_of_seqZ; lia].
      by apply Hcell.
    + apply list_elem_of_bind. exists yi. split; [|apply elem_of_seqZ; lia].
      apply Hcell. lia.
  - apply (bind_seqZ_within _ _ yk); [lia|].
    apply (bind_seqZ_within _ _ yj); [lia|].
    apply (bind_seqZ_before _ _ xi yi); [lia|lia|lia| |].
    + apply Hcell. lia.
    + apply Hcell. lia.
Qed.

Lemma sweep_lt_total (x y : vector3d Z) :
  sweep_lt x y \/ x = y \/ sweep_lt y x.
Proof.
  destruct x as [xi xj xk], y as [yi yj yk]. unfold sweep_lt, plane. simpl.
  destruct (decide (xi = yi)) as [->|]; destruct (decide (xj = yj)) as [->|];
    destruct (decide (xk = yk)) as [->|]; try (right; left; reflexivity);
    lia.
Qed.

(** X5: [HyperplaneReorder] lists the cells of the grid in the order of
    the sweep: a cell is visited before another one if and only if it lies on
    a lower hyperplane i+j+k, or on the same hyperplane with a lower k, or
    the same k and a lower j, or the same k and j and a lower i. *)
Theorem HyperplaneReorder_sweep_order (imax jmax kmax : Z)
        (x y : vector3d Z) :
  in_grid imax jmax kmax x -> in_grid imax jmax kmax y ->
  (visited_before (HyperplaneReorder imax jmax kmax) x y <-> sweep_lt x y).
Proof.
  intros Hx Hy. split; [|by apply sweep_lt_before].
  intros (m & n & Hmn & Hm & Hn).
  pose proof (NoDup_HyperplaneReorder imax jmax kmax) as Hnd.
  destruct (sweep_lt_total x y) as [Hlt|[->|Hgt]]; [done| |].
  - pose proof (NoDup_lookup _ _ _ _ Hnd Hm Hn). lia.
  - destruct (sweep_lt_before imax jmax kmax y x Hy Hx Hgt)
      as (m' & n' & Hmn' & Hm' & Hn').
    pose proof (NoDup_lookup _ _ _ _ Hnd Hm Hn').
    pose proof (NoDup_lookup _ _ _ _ Hnd Hn Hm'). lia.
Qed.

(** In the 2 x 2 x 2 grid the cells (1, 0, 0) and (0, 1, 0) lie on the same
    hyperplane and in the same k-plane; the one with the lower j comes
    first. *)
Lemma HyperplaneReorder_sweep_order_witness :
  visited_before (HyperplaneReorder 2 2 2) (Vec3 1 0 0) (Vec3 0 1 0) /\
  ~ visited_before (HyperplaneReorder 2 2 2) (Vec3 0 1 0) (Vec3 1 0 0).
Proof.
  assert (Hx : in_grid 2 2 2 (Vec3 1 0 0)) by (unfold in_grid; simpl; lia).
  assert (Hy : in_grid 2 2 2 (Vec3 0 1 0)) by (unfold in_grid; simpl; lia).
  split.
  - apply (HyperplaneReorder_sweep_order 2 2 2 _ _ Hx Hy).
    unfold sweep_lt, plane. simpl. lia.
  - intros Hb. apply (HyperplaneReorder_sweep_order 2 2 2 _ _ Hy Hx) in Hb.
    unfold sweep_lt, plane in Hb. simpl in Hb. lia.
Defined.
End SweepProofs.

(** *** Swap of ghost cells: what is copied and what is kept *)

Module SwapCells.
Import Swap Notions.

(** Two positions of a slice that [GetSwapLoc] sends to the same cell of a
    patch are the same position. *)
Lemma GetSwapLoc_inj (inter : interblock) (pairID : bool)
      (l1 l2 l3 l1' l2' l3' : Z) (v : vector3d Z) :
  GetSwapLoc l1 l2 l3 inter pairID = Ok v ->
  GetSwapLoc l1' l2' l3' inter pairID = Ok v ->
  l1 = l1' /\ l2 = l2' /\ l3 = l3'.
Proof.
  unfold GetSwapLoc. cbv zeta.
  destruct pairID;
    repeat match goal with
    | |- context [if ?c then _ else _] => destruct c
    end;
    intros E1 E2; try discriminate;
    rewrite <- E2 in E1; injection E1; lia.
Qed.

Section Proofs.
Context {D PV : Type} `{DoubleOps D}.

Lemma set_state_same (b : procBlock D PV) : b = set_state_ (state_ b) b.
Proof. by destruct b. Qed.

(** One iteration of the loops of [PutStateSlice]. *)
Lemma PutStateSlice_iteration (slice : stateSlice PV) (inter : interblock)
      (l3 l2 l1 : Z) (b b2 : procBlock D PV) :
  (indB <-- GetSwapLoc l1 l2 l3 inter true ;;
   indS <-- GetSwapLoc l1 l2 l3 inter false ;;
   Ok (set_state_
         (ma_set (state_ b) (v0 indB) (v1 indB) (v2 indB)
                 (State slice (v0 indS) (v1 indS) (v2 indS))) b)) = Ok b2 ->
  exists indB indS,
    GetSwapLoc l1 l2 l3 inter true = Ok indB /\
    GetSwapLoc l1 l2 l3 inter false = Ok indS /\
    b2 = set_state_
           (ma_set (state_ b) (v0 indB) (v1 indB) (v2 indB)
                   (State slice (v0 indS) (v1 indS) (v2 indS))) b.
Proof.
  destruct (GetSwapLoc l1 l2 l3 inter true) as [indB|]; [|done].
  destruct (GetSwapLoc l1 l2 l3 inter false) as [indS|]; [|done].
  cbn [res_bind]. intros [= <-]. by exists indB, indS.
Qed.

(** [PutStateSlice] changes [state_] only, and not its extents. *)
Lemma PutStateSlice_frame (slice : stateSlice PV) (inter : interblock)
      (d3 numG : Z) (b b' : procBlock D PV) :
  PutStateSlice slice inter d3 numG b = Ok b' ->
  b' = set_state_ (state_ b') b /\
  (maNumI (state_ b'), maNumJ (state_ b'), maNumK (state_ b')) =
    (maNumI (state_ b), maNumJ (state_ b), maNumK (state_ b)).
Proof.
  unfold PutStateSlice. cbv zeta.
  destruct (negb _); [done|]. intros Hloop.
  apply (for_range3_res_rel
           (fun b1 b2 : procBlock D PV =>
              b2 = set_state_ (state_ b2) b1 /\
              (maNumI (state_ b2), maNumJ (state_ b2), maNumK (state_ b2)) =
              (maNumI (state_ b1), maNumJ (state_ b1), maNumK (state_ b1))))
    in Hloop; [done| | |].
  - intros b1. split; [apply set_state_same|done].
  - intros b1 b2 b3 [E1 D1] [E2 D2]. split; [|by rewrite D2].
    rewrite E1 in E2. etrans; [exact E2|]. by destruct b1.
  - intros x3 x2 x1 s1 s2 Hs.
    apply PutStateSlice_iteration in Hs as (indB & indS & _ & _ & ->).
    split; [by destruct s1|done].
Qed.
End Proofs.

(** X6: [GetSwapLoc] pairs the positions of a slice with the cells of a
    patch one to one: on either side and for every orientation, two
    different positions (l1, l2, l3) for which it returns are given two
    different cells. *)
Theorem GetSwapLoc_one_to_one (inter : interblock) (pairID : bool)
        (l1 l2 l3 l1' l2' l3' : Z) (v v' : vector3d Z) :
  (l1, l2, l3) <> (l1', l2', l3') ->
  GetSwapLoc l1 l2 l3 inter pairID = Ok v ->
  GetSwapLoc l1' l2' l3' inter pairID = Ok v' ->
  v <> v'.
Proof.
  intros Hne Hv Hv' Heq. subst v'. apply Hne.
  destruct (GetSwapLoc_inj inter pairID _ _ _ _ _ _ _ Hv Hv')
    as (-> & -> & ->).
  done.
Qed.

Import Examples.

(** The positions (0, 0, 0) and (1, 0, 0) of the patch on the upper i-side
    belong to the cells (3, 0, 0) and (3, 1, 0). *)
Lemma GetSwapLoc_one_to_one_witness :
  GetSwapLoc 0 0 0 upper_i_patch true = Ok (Vec3 3 0 0) /\
  GetSwapLoc 1 0 0 upper_i_patch true = Ok (Vec3 3 1 0) /\
  Vec3 3 0 0 <> Vec3 3 1 0.
Proof.
  split; [reflexivity|]. split; [reflexivity|].
  apply (GetSwapLoc_one_to_one upper_i_patch true 0 0 0 1 0 0);
    [discriminate|reflexivity|reflexivity].
Defined.

(** X7: when [PutStateSlice] returns it has changed nothing in the block
    but [state_], whose extents it keeps; the target cell of every position
    that the loops visit holds the state of the slice at the partner's cell
    of that position, and a cell that is the target of no visited position
    keeps its state. *)
Theorem PutStateSlice_copies_states {D PV : Type} `{DoubleOps D}
        (slice : stateSlice PV) (inter : interblock) (d3 numG : Z)
        (b b' : procBlock D PV) :
  PutStateSlice slice inter d3 numG b = Ok b' ->
  b' = set_state_ (state_ b') b /\
  (maNumI (state_ b'), maNumJ (state_ b'), maNumK (state_ b')) =
    (maNumI (state_ b), maNumJ (state_ b), maNumK (state_ b)) /\
  (forall l1 l2 l3 indB indS,
     visited inter d3 numG l1 l2 l3 ->
     GetSwapLoc l1 l2 l3 inter true = Ok indB ->
     GetSwapLoc l1 l2 l3 inter false = Ok indS ->
     ma_get (state_ b') (v0 indB) (v1 indB) (v2 indB) =
     State slice (v0 indS) (v1 indS) (v2 indS)) /\
  (forall X Y Z,
     (forall l1 l2 l3, visited inter d3 numG l1 l2 l3 ->
        GetSwapLoc l1 l2 l3 inter true <> Ok (Vec3 X Y Z)) ->
     ma_get (state_ b') X Y Z = ma_get (state_ b) X Y Z).
Proof.
  intros Hput.
  destruct (PutStateSlice_frame slice inter d3 numG b b' Hput) as [Hf Hd].
  split; [exact Hf|]. split; [exact Hd|].
  revert Hput. unfold PutStateSlice. cbv zeta.
  destruct (negb _); [done|]. intros Hloop.
  split.
  - intros l1 l2 l3 indB indS (H3 & H2 & H1) HB HS.
    pose (T := fun b1 : procBlock D PV =>
                 ma_get (state_ b1) (v0 indB) (v1 indB) (v2 indB) =
                 State slice (v0 indS) (v1 indS) (v2 indS)).
    apply (for_range3_res_hit (fun b1 b2 => T b1 -> T b2)
             (fun _ HT => HT) (fun _ _ _ H12 H23 HT => H23 (H12 HT)) T
             _ _ _ _ _ _ l3 l2 l1 _ _ _ H3 H2 H1) in Hloop;
      [exact Hloop| | |].
    + intros x3 x2 x1 s1 s2 Hs HT.
      apply PutStateSlice_iteration in Hs
        as (indB' & indS' & HB' & HS' & ->).
      unfold T. cbn [state_ set_state_].
      destruct (decide (indB' = indB)) as [->|Hne].
      * destruct (GetSwapLoc_inj inter true _ _ _ _ _ _ _ HB HB')
          as (-> & -> & ->).
        assert (indS' = indS) as -> by congruence.
        apply ma_get_set_eq.
      * rewrite ma_get_set_ne; [exact HT|].
        intros Heq. apply Hne. destruct indB, indB'. simpl in Heq.
        congruence.
    + intros s1 s2 _ Hs.
      apply PutStateSlice_iteration in Hs
        as (indB' & indS' & HB' & HS' & ->).
      assert (indB' = indB) as -> by congruence.
      assert (indS' = indS) as -> by congruence.
      unfold T. cbn [state_ set_state_]. apply ma_get_set_eq.
    + intros s1 s2 H12. exact H12.
  - intros X Y Z Hno.
    apply (for_range3_res_rel_in
             (fun b1 b2 : procBlock D PV =>
                ma_get (state_ b2) X Y Z = ma_get (state_ b1) X Y Z))
      in Hloop; [done|done| |].
    + intros b1 b2 b3 H1 H2. by rewrite H2.
    + intros x3 x2 x1 s1 s2 H3 H2 H1 Hs.
      apply PutStateSlice_iteration in Hs as (indB & indS & HB & HS & ->).
      cbn [state_ set_state_]. apply ma_get_set_ne.
      intros Heq. apply (Hno x1 x2 x3); [exact (conj H3 (conj H2 H1))|].
      rewrite HB. f_equal. destruct indB. simpl in Heq. congruence.
Qed.

(** The unit cube receives the states of the partner: the ghost cell
    (3, 2, 1) gets the state of the partner's cell (0, 2, 1), and the
    physical cell (2, 2, 2) keeps its own. *)
Lemma PutStateSlice_copies_states_witness :
  exists b',
    PutStateSlice partner_states upper_i_patch 2 2 one_cell = Ok b' /\
    values (ma_get (state_ b') 3 2 1) = [0; 2; 1; 0; 9; 0; 0]%Q /\
    values (ma_get (state_ b') 2 2 2) = [1; 0; 0; 0; 1; 0; 0]%Q.
Proof.
  destruct (PutStateSlice partner_states upper_i_patch 2 2 one_cell)
    as [b'|] eqn:E; [|vm_compute in E; discriminate].
  exists b'. split; [reflexivity|].
  destruct (PutStateSlice_copies_states partner_states upper_i_patch 2 2
              one_cell b' E) as (_ & _ & Hin & Hout).
  split.
  - assert (Hvis : visited upper_i_patch 2 2 2 1 0).
    { unfold visited. cbn. lia. }
    pose proof (Hin 2 1 0 (Vec3 3 2 1) (Vec3 0 2 1) Hvis eq_refl eq_refl)
      as H1.
    cbn [v0 v1 v2] in H1. rewrite H1. reflexivity.
  - rewrite (Hout 2 2 2); [reflexivity|].
    intros l1 l2 l3 (H3 & _) Heq.
    change (GetSwapLoc l1 l2 l3 upper_i_patch true)
      with (Ok (Vec3 (3 + l3) (0 + l1) (0 + l2))) in Heq.
    injection Heq. lia.
Defined.
End SwapCells.

Module SwapGeom.
Import Swap Notions SwapCells.
Section Proofs.
Context {D PV : Type} `{DoubleOps D}.

Ltac faces_kept :=
  intros; cbv zeta;
  repeat match goal with
  | |- context [if ?c then _ else _] => destruct c
  end;
  reflexivity.

Lemma PutGeomSlice_faces_ii_frame (inter : interblock)
      (slice : geomSlice D) (d3 l1 l2 l3 : Z) (aFac1 aFac2 aFac3 : D)
      (indB indS : vector3d Z) (b : procBlock D PV) :
  cell_members (PutGeomSlice_faces_ii inter slice d3 l1 l2 l3 aFac1 aFac2
                  aFac3 indB indS b) = cell_members b.
Proof. unfold PutGeomSlice_faces_ii. faces_kept. Qed.

Lemma PutGeomSlice_faces_jj_frame (inter : interblock)
      (slice : geomSlice D) (d3 l1 l2 l3 : Z) (aFac1 aFac2 aFac3 : D)
      (indB indS : vector3d Z) (b : procBlock D PV) :
  cell_members (PutGeomSlice_faces_jj inter slice d3 l1 l2 l3 aFac1 aFac2
                  aFac3 indB indS b) = cell_members b.
Proof. unfold PutGeomSlice_faces_jj. faces_kept. Qed.

Lemma PutGeomSlice_faces_kk_frame (inter : interblock)
      (slice : geomSlice D) (d3 l1 l2 l3 : Z) (aFac1 aFac2 aFac3 : D)
      (indB indS : vector3d Z) (b : procBlock D PV) :
  cell_members (PutGeomSlice_faces_kk inter slice d3 l1 l2 l3 aFac1 aFac2
                  aFac3 indB indS b) = cell_members b.
Proof. unfold PutGeomSlice_faces_kk. faces_kept. Qed.

Lemma PutGeomSlice_faces_ij_frame (inter : interblock)
      (slice : geomSlice D) (d3 l1 l2 l3 : Z) (aFac1 aFac2 aFac3 : D)
      (indB indS : vector3d Z) (b : procBlock D PV) :
  cell_members (PutGeomSlice_faces_ij inter slice d3 l1 l2 l3 aFac1 aFac2
                  aFac3 indB indS b) = cell_members b.
Proof. unfold PutGeomSlice_faces_ij. faces_kept. Qed.

Lemma PutGeomSlice_faces_ik_frame (inter : interblock)
      (slice : geomSlice D) (d3 l1 l2 l3 : Z) (aFac1 aFac2 aFac3 : D)
      (indB indS : vector3d Z) (b : procBlock D PV) :
  cell_members (PutGeomSlice_faces_ik inter slice d3 l1 l2 l3 aFac1 aFac2
                  aFac3 indB indS b) = cell_members b.
Proof. unfold PutGeomSlice_faces_ik. faces_kept. Qed.

Lemma PutGeomSlice_faces_ji_frame (inter : interblock)
      (slice : geomSlice D) (d3 l1 l2 l3 : Z) (aFac1 aFac2 aFac3 : D)
      (indB indS : vector3d Z) (b : procBlock D PV) :
  cell_members (PutGeomSlice_faces_ji inter slice d3 l1 l2 l3 aFac1 aFac2
                  aFac3 indB indS b) = cell_members b.
Proof. unfold PutGeomSlice_faces_ji. faces_kept. Qed.

Lemma PutGeomSlice_faces_jk_frame (inter : interblock)
      (slice : geomSlice D) (d3 l1 l2 l3 : Z) (aFac1 aFac2 aFac3 : D)
      (indB indS : vector3d Z) (b : procBlock D PV) :
  cell_members (PutGeomSlice_faces_jk inter slice d3 l1 l2 l3 aFac1 aFac2
                  aFac3 indB indS b) = cell_members b.
Proof. unfold PutGeomSlice_faces_jk. faces_kept. Qed.

Lemma PutGeomSlice_faces_ki_frame (inter : interblock)
      (slice : geomSlice D) (d3 l1 l2 l3 : Z) (aFac1 aFac2 aFac3 : D)
      (indB indS : vector3d Z) (b : procBlock D PV) :
  cell_members (PutGeomSlice_faces_ki inter slice d3 l1 l2 l3 aFac1 aFac2
                  aFac3 indB indS b) = cell_members b.
Proof. unfold PutGeomSlice_faces_ki. faces_kept. Qed.

Lemma PutGeomSlice_faces_kj_frame (inter : interblock)
      (slice : geomSlice D) (d3 l1 l2 l3 : Z) (aFac1 aFac2 aFac3 : D)
      (indB indS : vector3d Z) (b : procBlock D PV) :
  cell_members (PutGeomSlice_faces_kj inter slice d3 l1 l2 l3 aFac1 aFac2
                  aFac3 indB indS b) = cell_members b.
Proof. unfold PutGeomSlice_faces_kj. faces_kept. Qed.

(** An element that is not skipped: the volume and the centre of the target
    cell are written, then face arrays only. *)
Lemma PutGeomSlice_cell_frame (inter : interblock) (slice : geomSlice D)
      (d3 l1 l2 l3 : Z) (aFac1 aFac2 aFac3 : D) (indB indS : vector3d Z)
      (b b' : procBlock D PV) :
  PutGeomSlice_cell inter slice d3 l1 l2 l3 aFac1 aFac2 aFac3 indB indS b =
    Ok b' ->
  cell_members b' =
  cell_members
    (put_center (v0 indB) (v1 indB) (v2 indB)
       (Center slice (v0 indS) (v1 indS) (v2 indS))
       (put_vol (v0 indB) (v1 indB) (v2 indB)
          (Vol slice (v0 indS) (v1 indS) (v2 indS)) b)).
Proof.
  unfold PutGeomSlice_cell. cbv zeta.
  set (b0 := put_center _ _ _ _ _). clearbody b0.
  match goal with
  | |- context [if ?c then Ok (PutGeomSlice_faces_ii _ _ _ _ _ _ _ _ _ _ _ _)
                else _] => destruct c
  end; [intros [= <-]; apply PutGeomSlice_faces_ii_frame|].
  match goal with
  | |- context [if ?c then Ok (PutGeomSlice_faces_jj _ _ _ _ _ _ _ _ _ _ _ _)
                else _] => destruct c
  end; [intros [= <-]; apply PutGeomSlice_faces_jj_frame|].
  match goal with
  | |- context [if ?c then Ok (PutGeomSlice_faces_kk _ _ _ _ _ _ _ _ _ _ _ _)
                else _] => destruct c
  end; [intros [= <-]; apply PutGeomSlice_faces_kk_frame|].
  match goal with
  | |- context [if ?c then Ok (PutGeomSlice_faces_ij _ _ _ _ _ _ _ _ _ _ _ _)
                else _] => destruct c
  end; [intros [= <-]; apply PutGeomSlice_faces_ij_frame|].
  match goal with
  | |- context [if ?c then Ok (PutGeomSlice_faces_ik _ _ _ _ _ _ _ _ _ _ _ _)
                else _] => destruct c
  end; [intros [= <-]; apply PutGeomSlice_faces_ik_frame|].
  match goal with
  | |- context [if ?c then Ok (PutGeomSlice_faces_ji _ _ _ _ _ _ _ _ _ _ _ _)
                else _] => destruct c
  end; [intros [= <-]; apply PutGeomSlice_faces_ji_frame|].
  match goal with
  | |- context [if ?c then Ok (PutGeomSlice_faces_jk _ _ _ _ _ _ _ _ _ _ _ _)
                else _] => destruct c
  end; [intros [= <-]; apply PutGeomSlice_faces_jk_frame|].
  match goal with
  | |- context [if ?c then Ok (PutGeomSlice_faces_ki _ _ _ _ _ _ _ _ _ _ _ _)
                else _] => destruct c
  end; [intros [= <-]; apply PutGeomSlice_faces_ki_frame|].
  match goal with
  | |- context [if ?c then Ok (PutGeomSlice_faces_kj _ _ _ _ _ _ _ _ _ _ _ _)
                else _] => destruct c
  end; [intros [= <-]; apply PutGeomSlice_faces_kj_frame|].
  discriminate.
Qed.

(** One iteration of the loops of [PutGeomSlice]: the element is skipped
    and the block stays, or the volume and the centre of its target are
    written and face arrays after them. *)
Lemma PutGeomSlice_body_cells (slice : geomSlice D) (inter : interblock)
      (d3 l3 l2 l1 : Z) (s1 s2 : procBlock D PV * list bool) :
  PutGeomSlice_body slice inter d3 l3 l2 l1 s1 = Ok s2 ->
  exists indB indS,
    GetSwapLoc l1 l2 l3 inter true = Ok indB /\
    GetSwapLoc l1 l2 l3 inter false = Ok indS /\
    (deqb (Vol slice (v0 indS) (v1 indS) (v2 indS)) (dlit 0) = true /\
     fst s2 = fst s1 \/
     deqb (Vol slice (v0 indS) (v1 indS) (v2 indS)) (dlit 0) = false /\
     cell_members (fst s2) =
     cell_members
       (put_center (v0 indB) (v1 indB) (v2 indB)
          (Center slice (v0 indS) (v1 indS) (v2 indS))
          (put_vol (v0 indB) (v1 indB) (v2 indB)
             (Vol slice (v0 indS) (v1 indS) (v2 indS)) (fst s1)))).
Proof.
  destruct s1 as [b adjEdge]. unfold PutGeomSlice_body.
  destruct (GetSwapLoc l1 l2 l3 inter true) as [indB|]; [|done].
  destruct (GetSwapLoc l1 l2 l3 inter false) as [indS|]; [|done].
  cbn [res_bind]. intros Hs. exists indB, indS. do 2 (split; [done|]).
  destruct (deqb (Vol slice (v0 indS) (v1 indS) (v2 indS)) (dlit 0)).
  - left. split; [done|].
    by apply SwapProofs.PutGeomSlice_skip_spec in Hs as ->.
  - right. split; [done|].
    destruct (PutGeomSlice_cell _ _ _ _ _ _ _ _ _ _ _ _) as [b'|] eqn:Ecell;
      [|done].
    cbn [res_bind] in Hs. injection Hs as <-. cbn [fst].
    by apply PutGeomSlice_cell_frame in Ecell.
Qed.

Lemma cell_members_fields (b b' : procBlock D PV) :
  cell_members b' = cell_members b ->
  vol_ b' = vol_ b /\ center_ b' = center_ b /\
  solution_members b' = solution_members b.
Proof.
  unfold cell_members, solution_members. intros [=].
  split; [done|]. split; [done|]. congruence.
Qed.

(** [PutGeomSlice] changes geometry only. *)
Lemma PutGeomSlice_solution (slice : geomSlice D) (inter : interblock)
      (d3 numG : Z) (b b' : procBlock D PV) (adjEdge' : list bool) :
  PutGeomSlice slice inter d3 numG b = Ok (b', adjEdge') ->
  solution_members b' = solution_members b.
Proof.
  unfold PutGeomSlice. cbv zeta.
  destruct (negb _); [done|]. intros Hloop.
  apply (for_range3_res_rel
           (fun s1 s2 : procBlock D PV * list bool =>
              solution_members (fst s2) = solution_members (fst s1)))
    in Hloop; [done|done| |].
  - intros s1 s2 s3 H1 H2. by rewrite H2.
  - intros x3 x2 x1 s1 s2 Hs.
    apply PutGeomSlice_body_cells in Hs
      as (indB & indS & _ & _ & [[_ ->]|[_ Hc]]); [done|].
    by apply cell_members_fields in Hc as (_ & _ & ->).
Qed.
End Proofs.

(** X8: when [PutGeomSlice] returns it has changed geometry only (the
    state, the residual, the time step, the wall distance, the wave speed,
    the surfaces and the numbers of the block are as before).  The target
    cell of every visited position whose element of the slice has a volume
    other than 0 holds the volume and the centre of that element; a cell
    keeps its volume and its centre unless it is the target of such a
    position. *)
Theorem PutGeomSlice_copies_cells {D PV : Type} `{DoubleOps D}
        (slice : geomSlice D) (inter : interblock) (d3 numG : Z)
        (b b' : procBlock D PV) (adjEdge' : list bool) :
  PutGeomSlice slice inter d3 numG b = Ok (b', adjEdge') ->
  solution_members b' = solution_members b /\
  (forall l1 l2 l3 indB indS,
     visited inter d3 numG l1 l2 l3 ->
     GetSwapLoc l1 l2 l3 inter true = Ok indB ->
     GetSwapLoc l1 l2 l3 inter false = Ok indS ->
     deqb (Vol slice (v0 indS) (v1 indS) (v2 indS)) (dlit 0) = false ->
     ma_get (vol_ b') (v0 indB) (v1 indB) (v2 indB) =
       Vol slice (v0 indS) (v1 indS) (v2 indS) /\
     ma_get (center_ b') (v0 indB) (v1 indB) (v2 indB) =
       Center slice (v0 indS) (v1 indS) (v2 indS)) /\
  (forall X Y Z,
     (forall l1 l2 l3 indS,
        visited inter d3 numG l1 l2 l3 ->
        GetSwapLoc l1 l2 l3 inter true = Ok (Vec3 X Y Z) ->
        GetSwapLoc l1 l2 l3 inter false = Ok indS ->
        deqb (Vol slice (v0 indS) (v1 indS) (v2 indS)) (dlit 0) = true) ->
     ma_get (vol_ b') X Y Z = ma_get (vol_ b) X Y Z /\
     ma_get (center_ b') X Y Z = ma_get (center_ b) X Y Z).
Proof.
  intros Hput.
  split; [by eapply SwapGeom.PutGeomSlice_solution|].
  revert Hput. unfold PutGeomSlice. cbv zeta.
  destruct (negb _); [done|]. intros Hloop.
  split.
  - intros l1 l2 l3 indB indS (H3 & H2 & H1) HB HS Hvol.
    pose (T := fun s : procBlock D PV * list bool =>
                 ma_get (vol_ (fst s)) (v0 indB) (v1 indB) (v2 indB) =
                   Vol slice (v0 indS) (v1 indS) (v2 indS) /\
                 ma_get (center_ (fst s)) (v0 indB) (v1 indB) (v2 indB) =
                   Center slice (v0 indS) (v1 indS) (v2 indS)).
    apply (for_range3_res_hit (fun s1 s2 => T s1 -> T s2)
             (fun _ HT => HT) (fun _ _ _ H12 H23 HT => H23 (H12 HT)) T
             _ _ _ _ _ _ l3 l2 l1 _ _ _ H3 H2 H1) in Hloop;
      [exact Hloop| | |].
    + intros x3 x2 x1 s1 s2 Hs HT.
      apply SwapGeom.PutGeomSlice_body_cells in Hs
        as (indB' & indS' & HB' & HS' & [[_ Hsame]|[_ Hc]]).
      { unfold T. by rewrite Hsame. }
      apply SwapGeom.cell_members_fields in Hc as (Hv & Hcen & _).
      unfold T. rewrite Hv, Hcen. cbn [vol_ center_ put_center put_vol
        set_center_ set_vol_].
      destruct (decide (indB' = indB)) as [->|Hne].
      * destruct (GetSwapLoc_inj inter true _ _ _ _ _ _ _ HB HB')
          as (-> & -> & ->).
        assert (indS' = indS) as -> by congruence.
        by rewrite !ma_get_set_eq.
      * destruct HT as [HT1 HT2].
        rewrite !ma_get_set_ne; [done| |];
          intros Heq; apply Hne; destruct indB, indB'; simpl in Heq;
          congruence.
    + intros s1 s2 _ Hs.
      apply SwapGeom.PutGeomSlice_body_cells in Hs
        as (indB' & indS' & HB' & HS' & [[Hz _]|[_ Hc]]).
      { assert (indS' = indS) as -> by congruence. congruence. }
      assert (indB' = indB) as -> by congruence.
      assert (indS' = indS) as -> by congruence.
      apply SwapGeom.cell_members_fields in Hc as (Hv & Hcen & _).
      unfold T. rewrite Hv, Hcen. cbn [vol_ center_ put_center put_vol
        set_center_ set_vol_].
      by rewrite !ma_get_set_eq.
    + intros s1 s2 H12. exact H12.
  - intros X Y Z Hno.
    apply (for_range3_res_rel_in
             (fun s1 s2 : procBlock D PV * list bool =>
                ma_get (vol_ (fst s2)) X Y Z = ma_get (vol_ (fst s1)) X Y Z /\
                ma_get (center_ (fst s2)) X Y Z =
                  ma_get (center_ (fst s1)) X Y Z))
      in Hloop; [done|done| |].
    + intros s1 s2 s3 [H1 H1'] [H2 H2']. by rewrite H2, H2'.
    + intros x3 x2 x1 s1 s2 H3 H2 H1 Hs.
      apply SwapGeom.PutGeomSlice_body_cells in Hs
        as (indB & indS & HB & HS & [[_ ->]|[Hnz Hc]]); [done|].
      apply SwapGeom.cell_members_fields in Hc as (Hv & Hcen & _).
      rewrite Hv, Hcen. cbn [vol_ center_ put_center put_vol
        set_center_ set_vol_].
      assert (Hne : (Z, Y, X) <> (v2 indB, v1 indB, v0 indB)).
      { intros Heq.
        assert (HBxyz : GetSwapLoc x1 x2 x3 inter true = Ok (Vec3 X Y Z)).
        { rewrite HB. f_equal. destruct indB. simpl in Heq. congruence. }
        pose proof (Hno x1 x2 x3 indS (conj H3 (conj H2 H1)) HBxyz HS).
        congruence. }
      by rewrite !ma_get_set_ne.
Qed.

Import Examples.

(** The unit cube receives the half-filled slice: the ghost cell (3, 2, 2)
    gets the volume 2 and the centre (0, 0, 0) of the partner's cell
    (0, 2, 2), the physical cell (2, 2, 2) keeps its volume 1, and the state
    of the block is as before. *)
Lemma PutGeomSlice_copies_cells_witness :
  exists b' adjEdge',
    PutGeomSlice half_filled_slice upper_i_patch 2 2 one_cell =
      Ok (b', adjEdge') /\
    state_ b' = state_ one_cell /\
    this (ma_get (vol_ b') 3 2 2) = 2%Q /\
    ma_get (center_ b') 3 2 2 = qvec 0 0 0 /\
    this (ma_get (vol_ b') 2 2 2) = 1%Q.
Proof.
  destruct (PutGeomSlice half_filled_slice upper_i_patch 2 2 one_cell)
    as [[b' adjEdge']|] eqn:E; [|vm_compute in E; discriminate].
  exists b', adjEdge'. split; [reflexivity|].
  destruct (PutGeomSlice_copies_cells half_filled_slice upper_i_patch 2 2
              one_cell b' adjEdge' E) as (Hsol & Hin & Hout).
  split; [unfold solution_members in Hsol; by injection Hsol|].
  assert (Hvis : visited upper_i_patch 2 2 2 2 0).
  { unfold visited. cbn. lia. }
  destruct (Hin 2 2 0 (Vec3 3 2 2) (Vec3 0 2 2) Hvis eq_refl eq_refl
              eq_refl) as [Hv Hc].
  cbn [v0 v1 v2] in Hv, Hc. rewrite Hv, Hc.
  split; [reflexivity|]. split; [reflexivity|].
  destruct (Hout 2 2 2) as [Hv2 _]; [|rewrite Hv2; reflexivity].
  intros l1 l2 l3 indS (H3 & _) Heq.
  change (GetSwapLoc l1 l2 l3 upper_i_patch true)
    with (Ok (Vec3 (3 + l3) (0 + l1) (0 + l2))) in Heq.
  injection Heq. lia.
Defined.

(** X9: [SwapSlice] returns only for two boundaries in 1..6.  A swap of
    the geometry changes no member of the two blocks that is not geometry; a
    swap of the states returns the inter-block record as it was and changes
    nothing in the two blocks but [state_]. *)
Theorem SwapSlice_frames {D PV : Type} `{DoubleOps D}
        (geomSlice_of : procBlock D PV -> sliceRange -> geomSlice D)
        (stateSlice_of : procBlock D PV -> sliceRange -> stateSlice PV)
        (AdjustForSlice : bool -> Z -> interblock -> interblock)
        (inter inter' : interblock) (blk1 blk2 blk1' blk2' : procBlock D PV)
        (geom : bool) :
  SwapSlice geomSlice_of stateSlice_of AdjustForSlice inter blk1 blk2 geom =
    Ok (inter', blk1', blk2') ->
  (1 <= BoundaryFirst inter <= 6 /\ 1 <= BoundarySecond inter <= 6) /\
  (geom = true ->
   solution_members blk1' = solution_members blk1 /\
   solution_members blk2' = solution_members blk2) /\
  (geom = false ->
   inter' = inter /\
   blk1' = set_state_ (state_ blk1') blk1 /\
   blk2' = set_state_ (state_ blk2') blk2).
Proof.
  assert (Hrange : forall bnd cs s1 e1 s2 e2 G r,
            slice_range bnd cs s1 e1 s2 e2 G = Ok r -> 1 <= bnd <= 6).
  { intros bnd cs s1 e1 s2 e2 G r. unfold slice_range. cbv zeta.
    destruct (Z.eqb_spec bnd 1), (Z.eqb_spec bnd 2), (Z.eqb_spec bnd 3),
      (Z.eqb_spec bnd 4), (Z.eqb_spec bnd 5), (Z.eqb_spec bnd 6);
      cbn [orb]; intros; (lia || discriminate). }
  unfold SwapSlice.
  destruct (slice_range (BoundaryFirst inter) _ _ _ _ _ _) as [r1|] eqn:E1;
    [|done].
  destruct (slice_range (BoundarySecond inter) _ _ _ _ _ _) as [r2|] eqn:E2;
    [|done].
  apply Hrange in E1, E2. cbn [res_bind]. cbv zeta.
  destruct geom.
  - destruct (PutGeomSlice (geomSlice_of blk2 r2) _ _ _ blk1)
      as [[b1 adj1]|] eqn:P1; [|done].
    cbn [res_bind].
    destruct (PutGeomSlice (geomSlice_of blk1 r1) _ _ _ blk2)
      as [[b2 adj2]|] eqn:P2; [|done].
    cbn [res_bind fst snd]. intros [= <- <- <-].
    split; [done|]. split; [|done]. intros _.
    apply SwapGeom.PutGeomSlice_solution in P1, P2. done.
  - destruct (PutStateSlice (stateSlice_of blk2 r2) _ _ _ blk1)
      as [b1|] eqn:P1; [|done].
    cbn [res_bind].
    destruct (PutStateSlice (stateSlice_of blk1 r1) _ _ _ blk2)
      as [b2|] eqn:P2; [|done].
    cbn [res_bind]. intros [= <- <- <-].
    split; [done|]. split; [done|]. intros _.
    apply PutStateSlice_frame in P1 as [P1 _].
    apply PutStateSlice_frame in P2 as [P2 _]. done.
Qed.

(** A swap of the states between two unit cubes: the record comes back as
    it was, and the volume of the ghost cell (3, 2, 2) of the first block is
    still 1. *)
Lemma SwapSlice_frames_witness :
  exists inter' blk1' blk2',
    SwapSlice (fun _ _ => half_filled_slice) (fun _ _ => partner_states)
      (fun _ _ _ => upper_i_patch) upper_i_patch one_cell one_cell false =
      Ok (inter', blk1', blk2') /\
    inter' = upper_i_patch /\
    this (ma_get (vol_ blk1') 3 2 2) = 1%Q.
Proof.
  destruct (SwapSlice (fun _ _ => half_filled_slice)
              (fun _ _ => partner_states) (fun _ _ _ => upper_i_patch)
              upper_i_patch one_cell one_cell false)
    as [[[inter' blk1'] blk2']|] eqn:E; [|vm_compute in E; discriminate].
  exists inter', blk1', blk2'. split; [reflexivity|].
  destruct (SwapSlice_frames _ _ _ _ _ _ _ _ _ _ E) as (_ & _ & Hst).
  destruct (Hst eq_refl) as (Hi & H1 & _).
  split; [exact Hi|]. rewrite H1. reflexivity.
Defined.
End SwapGeom.

(** *** Residual assembly: what is reset and what is kept *)

Module AssemblyProofs.
Import Solver Resid Notions.
Section Proofs.
Context {D PV : Type} `{DoubleOps D} `{!Physics D PV}.
Implicit Types (b : procBlock D PV).

Lemma ResetResidWS_residual b (i j k : Z) :
  ma_get (residual_ (ResetResidWS b)) i j k =
  (if decide (interior b i j k) then genArray_const (dlit 0)
   else ma_get (residual_ b) i j k).
Proof.
  pose (body := fun (kk jj ii : Z) (b0 : procBlock D PV) =>
          let b1 := set_residual_
                      (ma_set (residual_ b0) ii jj kk
                              (genArray_const (dlit 0))) b0 in
          set_avgWaveSpeed_ (ma_set (avgWaveSpeed_ b1) ii jj kk (dlit 0)) b1).
  destruct (for_loop3_obs (fun _ : procBlock D PV => tt)
              (fun b0 : procBlock D PV => ma_get (residual_ b0) i j k)
              (fun _ _ => genArray_const (dlit 0))
              (NumK b) (NumJ b) (NumI b) k j i body b) as [_ Ho].
  - done.
  - intros kk jj ii b0 Hne. unfold body.
    cbn [residual_ set_avgWaveSpeed_ set_residual_].
    by apply ma_get_set_ne.
  - intros b0. unfold body.
    cbn [residual_ set_avgWaveSpeed_ set_residual_].
    by rewrite ma_get_set_eq.
  - exact Ho.
Qed.

(** The mass component of a residual, [residual_(i, j, k)[0]]. *)
Lemma residual_add_mass (ii jj kk : Z) (n : nat) (v : D) b (i j k : Z) :
  (0 < n)%nat ->
  ma_get (residual_ (residual_add ii jj kk n v b)) i j k !! 0%nat =
  ma_get (residual_ b) i j k !! 0%nat.
Proof.
  intros Hn. unfold residual_add. cbn [residual_ set_residual_].
  destruct (decide ((k, j, i) = (kk, jj, ii))) as [Heq|Hne].
  - inversion Heq; subst. rewrite ma_get_set_eq.
    apply list_lookup_alter_ne. lia.
  - by rewrite ma_get_set_ne.
Qed.

Lemma AddToResidual_visc_mass (flux : viscousFlux) (ii jj kk : Z) :
  keeps_mass (AddToResidual_visc (PV:=PV) flux ii jj kk).
Proof.
  intros b i j k. unfold AddToResidual_visc. cbv zeta.
  by rewrite !residual_add_mass by lia.
Qed.

Lemma face_shape_mass (R1 R2 : procBlock D PV -> procBlock D PV)
      (c1 c2 : bool) (ip jp kp : Z) (lam : D) b (i j k : Z) :
  keeps_mass R1 -> keeps_mass R2 ->
  ma_get (residual_ (face_shape R1 R2 c1 c2 ip jp kp lam b)) i j k !! 0%nat =
  ma_get (residual_ b) i j k !! 0%nat.
Proof.
  intros H1 H2. unfold face_shape. destruct c1, c2; cbv zeta;
    cbn [residual_ set_avgWaveSpeed_]; by rewrite ?H2, ?H1.
Qed.

Lemma CalcViscFluxI_face_mass (suth : sutherland) (eos : idealGas)
      (inp : input D) (grads : gradients) (turb : turbModel) (kp jp ip : Z) :
  keeps_mass (CalcViscFluxI_face suth eos inp grads turb kp jp ip).
Proof.
  intros b i j k.
  assert (Hshape : exists R1 R2 : procBlock D PV -> procBlock D PV,
    keeps_mass R1 /\ keeps_mass R2 /\
    CalcViscFluxI_face suth eos inp grads turb kp jp ip b =
    face_shape R1 R2 (numGhosts_ b <? ip + numGhosts_ b)
      (ip + numGhosts_ b <? maNumI (fAreaI_ b) - numGhosts_ b - 1)
      ip jp kp
      ((dlit 1 * lambda_vI suth eos grads turb b ip jp kp)%dbl) b).
  { unfold CalcViscFluxI_face. destruct (inp_IsTurbulent inp).
    all: eexists (AddToResidual_visc _ _ _ _), (AddToResidual_visc _ _ _ _).
    all: split; [apply AddToResidual_visc_mass|].
    all: split; [apply AddToResidual_visc_mass|].
    all: unfold face_shape; cbv zeta.
    all: destruct (numGhosts_ b <? ip + numGhosts_ b); reflexivity. }
  destruct Hshape as (R1 & R2 & H1 & H2 & ->). by apply face_shape_mass.
Qed.

Lemma CalcViscFluxJ_face_mass (suth : sutherland) (eos : idealGas)
      (inp : input D) (grads : gradients) (turb : turbModel) (kp jp ip : Z) :
  keeps_mass (CalcViscFluxJ_face suth eos inp grads turb kp jp ip).
Proof.
  intros b i j k.
  assert (Hshape : exists R1 R2 : procBlock D PV -> procBlock D PV,
    keeps_mass R1 /\ keeps_mass R2 /\
    CalcViscFluxJ_face suth eos inp grads turb kp jp ip b =
    face_shape R1 R2 (numGhosts_ b <? jp + numGhosts_ b)
      (jp + numGhosts_ b <? maNumJ (fAreaJ_ b) - numGhosts_ b - 1)
      ip jp kp
      ((dlit 1 * lambda_vJ suth eos grads turb b ip jp kp)%dbl) b).
  { unfold CalcViscFluxJ_face. destruct (inp_IsTurbulent inp).
    all: eexists (AddToResidual_visc _ _ _ _), (AddToResidual_visc _ _ _ _).
    all: split; [apply AddToResidual_visc_mass|].
    all: split; [apply AddToResidual_visc_mass|].
    all: unfold face_shape; cbv zeta.
    all: destruct (numGhosts_ b <? jp + numGhosts_ b); reflexivity. }
  destruct Hshape as (R1 & R2 & H1 & H2 & ->). by apply face_shape_mass.
Qed.

Lemma CalcViscFluxK_face_mass (suth : sutherland) (eos : idealGas)
      (inp : input D) (grads : gradients) (turb : turbModel) (kp jp ip : Z) :
  keeps_mass (CalcViscFluxK_face suth eos inp grads turb kp jp ip).
Proof.
  intros b i j k.
  assert (Hshape : exists R1 R2 : procBlock D PV -> procBlock D PV,
    keeps_mass R1 /\ keeps_mass R2 /\
    CalcViscFluxK_face suth eos inp grads turb kp jp ip b =
    face_shape R1 R2 (numGhosts_ b <? kp + numGhosts_ b)
      (kp + numGhosts_ b <? maNumK (fAreaK_ b) - numGhosts_ b - 1)
      ip jp kp
      ((dlit 1 * lambda_vK suth eos grads turb b ip jp kp)%dbl) b).
  { unfold CalcViscFluxK_face. destruct (inp_IsTurbulent inp).
    all: eexists (AddToResidual_visc _ _ _ _), (AddToResidual_visc _ _ _ _).
    all: split; [apply AddToResidual_visc_mass|].
    all: split; [apply AddToResidual_visc_mass|].
    all: unfold face_shape; cbv zeta.
    all: destruct (numGhosts_ b <? kp + numGhosts_ b); reflexivity. }
  destruct Hshape as (R1 & R2 & H1 & H2 & ->). by apply face_shape_mass.
Qed.

(** A loop over the faces whose body keeps the mass component keeps it. *)
Lemma flux_loop_mass (face : Z -> Z -> Z -> procBlock D PV -> procBlock D PV)
      (nk nj ni : Z) :
  (forall kp jp ip, keeps_mass (face kp jp ip)) ->
  keeps_mass (for_loop nk (fun kp => for_loop nj (fun jp =>
                for_loop ni (fun ip => face kp jp ip)))).
Proof.
  intros Hface b i j k.
  apply (for_loop3_preserve
           (fun b0 => ma_get (residual_ b0) i j k !! 0%nat =
                      ma_get (residual_ b) i j k !! 0%nat)); [done|].
  intros kp jp ip b1 _ _ _ H1. by rewrite Hface.
Qed.
End Proofs.

(** X10: [ResetResidWS] sets the residual of every interior cell to the
    array of zeros and its wave speed to 0, leaves the entries of the two
    arrays outside the interior and their extents as they are, and changes
    no other member of the block. *)
Theorem ResetResidWS_zeroes {D PV : Type} `{DoubleOps D} `{!Physics D PV}
        (b : procBlock D PV) :
  let b' := ResetResidWS b in
  same_frame b b' /\ res_dims b' = res_dims b /\
  forall i j k,
    ma_get (residual_ b') i j k =
      (if decide (interior b i j k) then genArray_const (dlit 0)
       else ma_get (residual_ b) i j k) /\
    ma_get (avgWaveSpeed_ b') i j k =
      (if decide (interior b i j k) then dlit 0
       else ma_get (avgWaveSpeed_ b) i j k).
Proof.
  intros b'.
  destruct (FluxProofs.ResetResidWS_avgWaveSpeed b) as (Hf & Hd & Hws).
  split; [exact Hf|]. split; [exact Hd|]. intros i j k. split.
  - apply ResetResidWS_residual.
  - apply Hws.
Qed.

(** X11: each of the six flux loops [CalcInvFluxI/J/K] and
    [CalcViscFluxI/J/K] changes no member of the block but [residual_] and
    [avgWaveSpeed_], and keeps the extents of the residual; the three
    viscous loops moreover leave the mass component [residual_(i, j, k)[0]]
    of every cell as it is. *)
Theorem flux_loops_frame {D PV : Type} `{DoubleOps D} `{!Physics D PV}
        (suth : sutherland) (eos : idealGas) (inp : input D)
        (grads : gradients) (turb : turbModel) (b : procBlock D PV) :
  let unchanged (b' : procBlock D PV) :=
    same_frame b b' /\ res_dims b' = res_dims b in
  let mass_kept (b' : procBlock D PV) :=
    forall i j k, ma_get (residual_ b') i j k !! 0%nat =
                  ma_get (residual_ b) i j k !! 0%nat in
  unchanged (CalcInvFluxI eos inp b) /\
  unchanged (CalcInvFluxJ eos inp b) /\
  unchanged (CalcInvFluxK eos inp b) /\
  unchanged (CalcViscFluxI suth eos inp grads turb b) /\
  unchanged (CalcViscFluxJ suth eos inp grads turb b) /\
  unchanged (CalcViscFluxK suth eos inp grads turb b) /\
  mass_kept (CalcViscFluxI suth eos inp grads turb b) /\
  mass_kept (CalcViscFluxJ suth eos inp grads turb b) /\
  mass_kept (CalcViscFluxK suth eos inp grads turb b).
Proof.
  intros unchanged mass_kept. unfold unchanged, mass_kept.
  split; [destruct (FluxProofs.CalcInvFluxI_avgWaveSpeed eos inp b)
            as (? & ? & _); by split|].
  split; [destruct (FluxProofs.CalcInvFluxJ_avgWaveSpeed eos inp b)
            as (? & ? & _); by split|].
  split; [destruct (FluxProofs.CalcInvFluxK_avgWaveSpeed eos inp b)
            as (? & ? & _); by split|].
  split; [destruct (FluxProofs.CalcViscFluxI_avgWaveSpeed suth eos inp grads
                      turb b) as (? & ? & _); by split|].
  split; [destruct (FluxProofs.CalcViscFluxJ_avgWaveSpeed suth eos inp grads
                      turb b) as (? & ? & _); by split|].
  split; [destruct (FluxProofs.CalcViscFluxK_avgWaveSpeed suth eos inp grads
                      turb b) as (? & ? & _); by split|].
  split; [|split]; intros i j k.
  - apply (flux_loop_mass (CalcViscFluxI_face suth eos inp grads turb)).
    apply CalcViscFluxI_face_mass.
  - apply (flux_loop_mass (CalcViscFluxJ_face suth eos inp grads turb)).
    apply CalcViscFluxJ_face_mass.
  - apply (flux_loop_mass (CalcViscFluxK_face suth eos inp grads turb)).
    apply CalcViscFluxK_face_mass.
Qed.
End AssemblyProofs.

(** *** The update: the norms and the schemes other than explicit Euler and
        RK4; the time step of a block without cells *)

Module UpdateMoreProofs.
Import Solver Resid Notions.
Section Proofs.
Context {D PV : Type} `{DoubleOps D} `{!Physics D PV}.
Implicit Types (b : procBlock D PV) (inputVars : input D).

Lemma located_ext b b2 (lf : resid D) :
  residual_ b2 = residual_ b -> parBlock_ b2 = parBlock_ b ->
  located b lf -> located b2 lf.
Proof.
  intros Hr Hp. unfold located, interior, NumI, NumJ, NumK.
  by rewrite Hr, Hp.
Qed.

(** The norms of one cell: the record is kept, or it points at the cell. *)
Lemma accumulate_norms_located b (ip jp kp : Z) (l2 : genArray D)
      (lf lf0 : resid D) :
  interior b ip jp kp ->
  lf0 = lf \/ located b lf0 ->
  snd (accumulate_norms ip jp kp b l2 lf0) = lf \/
  located b (snd (accumulate_norms ip jp kp b l2 lf0)).
Proof.
  intros Hint H0. unfold accumulate_norms. cbv zeta. cbn [snd].
  apply (for_loop_preserve (fun lf1 => lf1 = lf \/ located b lf1)); [done|].
  intros ll lf1 Hll H1.
  destruct (ma_get (residual_ b) ip jp kp !! Z.to_nat ll) as [r_ll|] eqn:Er;
    [|done].
  destruct (dgtb r_ll (linf lf1)); [|done].
  right. unfold located, UpdateMax. cbn [i_ j_ k_ eqn blk linf].
  split; [done|]. unfold NUMVARS in *. split; [lia|]. split; [done|].
  by replace (ll + 1 - 1) with ll by lia.
Qed.

(** One cell of the loops of [UpdateBlock]: the state of the cell is
    advanced, which changes neither the residual nor the block number, and
    the norms are accumulated. *)
Lemma norms_step b (lf : resid D) (kp jp ip : Z)
      (b1 b2 : procBlock D PV) (l2 : genArray D) (lf1 : resid D) :
  0 <= kp < NumK b -> 0 <= jp < NumJ b -> 0 <= ip < NumI b ->
  norms_inv b lf (b1, l2, lf1) ->
  residual_ b2 = residual_ b1 -> parBlock_ b2 = parBlock_ b1 ->
  norms_inv b lf
    (let '(l2', lf') := accumulate_norms ip jp kp b2 l2 lf1 in (b2, l2', lf')).
Proof.
  intros Hk Hj Hi (Hr & Hp & Hl) Hr2 Hp2. cbn [fst snd] in *.
  destruct (accumulate_norms ip jp kp b2 l2 lf1) as [l2' lf'] eqn:Ea.
  unfold norms_inv. cbn [fst snd].
  split; [congruence|]. split; [congruence|].
  assert (Hint : interior b2 ip jp kp).
  { unfold interior, NumI, NumJ, NumK in *. rewrite Hr2, Hr. done. }
  assert (H0 : lf1 = lf \/ located b2 lf1).
  { destruct Hl as [->|Hl]; [by left|right].
    apply (located_ext b); congruence. }
  pose proof (accumulate_norms_located b2 ip jp kp l2 lf lf1 Hint H0) as Hacc.
  rewrite Ea in Hacc. cbn [snd] in Hacc.
  destruct Hacc as [->|Hacc]; [by left|right].
  apply (located_ext b2); congruence.
Qed.

(** What one cell of [CalcBlockTimeStep] does when it returns. *)
Lemma CalcBlockTimeStep_cell_dt inputVars (aRef : D)
      (kk jj ii : Z) (b1 b2 : procBlock D PV) :
  CalcBlockTimeStep_cell inputVars aRef kk jj ii b1 = Ok b2 ->
  exists v, b2 = set_dt_ (ma_set (dt_ b1) ii jj kk v) b1.
Proof.
  unfold CalcBlockTimeStep_cell, CalcCellDt.
  destruct (dgtb (inp_Dt inputVars) (dlit 0)); [intros [= <-]; by eexists|].
  destruct (dgtb (inp_CFL inputVars) (dlit 0)); [intros [= <-]; by eexists|].
  done.
Qed.
End Proofs.

(** X12: whenever [UpdateBlock] returns, with any scheme, the L-infinity
    record it gives back is the record it was given, or it points at an
    interior cell of the block and at an equation 1..7, carries the number of
    the block, and its magnitude is that component of the residual of that
    cell in the block as returned. *)
Theorem UpdateBlock_linf_located {D PV : Type} `{DoubleOps D}
        `{!Physics D PV} (inputVars : input D) (impFlag : bool)
        (eos : idealGas) (aRef : D) (du : multiArray3d (genArray D))
        (b b' : procBlock D PV) (l2 l2' : genArray D) (lf lf' : resid D) :
  UpdateBlock inputVars impFlag eos aRef du (b, l2, lf) = Ok (b', l2', lf') ->
  lf' = lf \/ located b' lf'.
Proof.
  unfold UpdateBlock.
  destruct (negb (inp_TimeIntegration inputVars =? "rk4")%string) eqn:Erk.
  - intros [= Hfinal].
    match type of Hfinal with
    | for_loop _ (fun kp => for_loop _ (fun jp =>
        for_loop _ (fun ip => @?body kp jp ip))) _ = _ =>
        pose proof (for_loop3_preserve (norms_inv b lf)
                      (NumK b) (NumJ b) (NumI b) body (b, l2, lf)) as Hinv
    end.
    cbv beta in Hinv. rewrite Hfinal in Hinv.
    destruct Hinv as (Hr & Hp & Hl).
    + by repeat split; try left.
    + intros kp jp ip [[b1 l2_1] lf1] Hk Hj Hi Hs1.
      apply (norms_step b lf kp jp ip b1); try done.
      * destruct (_ =? "explicitEuler")%string; [done|]. by destruct impFlag.
      * destruct (_ =? "explicitEuler")%string; [done|]. by destruct impFlag.
    + cbn [fst snd] in *. destruct Hl as [->|Hl]; [by left|right].
      by apply (located_ext b).
  - destruct (inp_TimeIntegration inputVars =? "rk4")%string eqn:Erk4;
      [|intros [= <- <- <-]; by left].
    unfold for_loop_res.
    match goal with
    | |- for_loop 4 ?step _ = _ -> _ =>
        pose proof (for_loop_ind
          (fun (m : Z) (r : res (procBlock D PV * genArray D * resid D)) =>
             match r with
             | Ok s => (m < 4 -> snd s = lf) /\
                       (m = 4 -> snd s = lf \/ located (fst (fst s)) (snd s))
             | Abort => True
             end) 4 step (Ok (b, l2, lf))) as Hind
    end.
    intros Hfinal. rewrite Hfinal in Hind. cbn [fst snd] in Hind.
    apply Hind; [lia|by split| |done].
    clear Hind Hfinal. intros rr r Hrr Hr.
    destruct r as [[[b1 l2_1] lf1]|]; [|done]. cbn [res_bind].
    destruct Hr as [Hlt _]. cbn [snd] in Hlt. specialize (Hlt ltac:(lia)).
    subst lf1.
    destruct (decide (rr = 3)) as [->|Hne].
    + match goal with
      | |- context [for_loop _ (fun kp => for_loop _ (fun jp =>
                      for_loop _ (fun ip => @?body kp jp ip))) _] =>
          pose proof (for_loop3_preserve (norms_inv b1 lf)
                        (NumK b1) (NumJ b1) (NumI b1) body (b1, l2_1, lf))
            as Hinv
      end.
      destruct (for_loop (NumK b1) _ _) as [[b2 l2_2] lf2].
      destruct Hinv as (Hr & Hp & Hl).
      * by repeat split; try left.
      * intros kp jp ip [[b3 l2_3] lf3] Hk Hj Hi Hs1.
        change (3 =? 3) with true. cbv iota.
        apply (norms_step b1 lf kp jp ip b3); done.
      * cbn [fst snd] in *. change (3 <? 3) with false. cbv iota.
        split; [lia|]. intros _. cbn [fst snd].
        destruct Hl as [->|Hl]; [by left|right]. by apply (located_ext b1).
    + match goal with
      | |- context [for_loop _ (fun kp => for_loop _ (fun jp =>
                      for_loop _ (fun ip => @?body kp jp ip))) _] =>
          pose proof (for_loop3_preserve
                        (fun s : procBlock D PV * genArray D * resid D =>
                           snd s = lf)
                        (NumK b1) (NumJ b1) (NumI b1) body (b1, l2_1, lf))
            as Hinv
      end.
      destruct (for_loop (NumK b1) _ _) as [[b2 l2_2] lf2].
      cbn [snd] in Hinv.
      assert (lf2 = lf) as ->.
      { apply Hinv; [done|].
        intros kp jp ip [[b3 l2_3] lf3] Hk Hj Hi Hs1.
        destruct (rr =? 3) eqn:E3; [apply Z.eqb_eq in E3; lia|]. done. }
      destruct (rr <? 3) eqn:Elt; [|apply Z.ltb_ge in Elt; lia].
      destruct (CalcBlockTimeStep _ _ _) as [b3|]; [|done].
      cbn [res_bind snd]. split; [done|]. intros ?. lia.
Qed.

Import Examples.

(** One cell with the residual (1, 0, 0, 0, 0, 0, 0), from the record of
    magnitude 0: the record that comes back has the magnitude 1 and points at
    the cell (0, 0, 0) and the equation 1. *)
Lemma UpdateBlock_linf_located_witness :
  exists b' l2' lf',
    UpdateBlock inp_euler false toy_eos (Q2Qc 1) no_du
      (one_cell, l2_zero, linf_zero) = Ok (b', l2', lf') /\
    located b' lf' /\
    this (linf lf') = 1%Q /\ (i_ lf', j_ lf', k_ lf', eqn lf') = (0, 0, 0, 1).
Proof.
  destruct (UpdateBlock inp_euler false toy_eos (Q2Qc 1) no_du
              (one_cell, l2_zero, linf_zero)) as [[[b' l2'] lf']|] eqn:E;
    [|vm_compute in E; discriminate].
  exists b', l2', lf'. split; [reflexivity|].
  pose proof (UpdateBlock_linf_located _ _ _ _ _ _ _ _ _ _ _ E) as Hloc.
  assert (Hlf : this (linf lf') = 1%Q /\
                (i_ lf', j_ lf', k_ lf', eqn lf') = (0, 0, 0, 1)).
  { vm_compute in E. injection E as _ _ <-. split; reflexivity. }
  split; [|exact Hlf].
  destruct Hloc as [->|Hloc]; [|exact Hloc].
  destruct Hlf as [Hlf _]. vm_compute in Hlf. discriminate.
Defined.

(** X13: with a scheme that is neither RK4 nor explicit Euler,
    [UpdateBlock] returns; without the implicit flag it returns the block as
    it was, and with it nothing changes but [state_], in which the state of
    every interior cell is replaced by [UpdateWithConsVars] of that state and
    the correction [du] of the cell, the ghost cells keeping theirs. *)
Theorem UpdateBlock_other_schemes {D PV : Type} `{DoubleOps D}
        `{!Physics D PV} (inputVars : input D) (impFlag : bool)
        (eos : idealGas) (aRef : D) (du : multiArray3d (genArray D))
        (b : procBlock D PV) (l2 : genArray D) (lf : resid D) :
  inp_TimeIntegration inputVars <> "rk4"%string ->
  inp_TimeIntegration inputVars <> "explicitEuler"%string ->
  exists b' l2' lf',
    UpdateBlock inputVars impFlag eos aRef du (b, l2, lf) =
      Ok (b', l2', lf') /\
    (impFlag = false -> b' = b) /\
    (impFlag = true ->
     b' = set_state_ (state_ b') b /\
     forall x y z,
       let G := numGhosts_ b in
       ma_get (state_ b') x y z =
       (if decide (interior b (x - G) (y - G) (z - G))
        then UpdateWithConsVars (ma_get (state_ b) x y z) eos
               (ma_get du (x - G) (y - G) (z - G))
        else ma_get (state_ b) x y z)).
Proof.
  intros Hrk He. unfold UpdateBlock.
  apply String.eqb_neq in Hrk, He. rewrite Hrk, He. cbn [negb]. cbv iota.
  set (G := numGhosts_ b).
  set (body := fun (kp jp ip : Z)
                   (s : procBlock D PV * genArray D * resid D) =>
         let '(b0, l2_0, lf_0) := s in
         let b1 := if impFlag
                   then ImplicitTimeAdvance (ma_get du ip jp kp) eos
                          (ip + G) (jp + G) (kp + G) b0
                   else b0 in
         let '(l2_1, lf_1) := accumulate_norms ip jp kp b1 l2_0 lf_0 in
         (b1, l2_1, lf_1)).
  set (final := for_loop (NumK b) (fun kp => for_loop (NumJ b) (fun jp =>
                  for_loop (NumI b) (fun ip => body kp jp ip))) (b, l2, lf)).
  destruct final as [[b' l2'] lf'] eqn:Hfinal.
  exists b', l2', lf'. split; [by rewrite <- Hfinal|]. split.
  - intros ->.
    destruct (for_loop3_obs
                (fun s : procBlock D PV * genArray D * resid D => fst (fst s))
                (fun _ => tt) (fun _ _ => tt)
                (NumK b) (NumJ b) (NumI b) 0 0 0 body (b, l2, lf)) as [Hf _].
    + intros k j i [[b0 l2_0] lf_0]. unfold body. cbv zeta.
      by destruct (accumulate_norms _ _ _ _ _ _).
    + done.
    + done.
    + fold final in Hf. by rewrite Hfinal in Hf.
  - intros ->.
    pose (frame := fun s : procBlock D PV * genArray D * resid D =>
                     set_state_ (state_ b) (fst (fst s))).
    split.
    + destruct (for_loop3_obs frame (fun _ => tt) (fun _ _ => tt)
                  (NumK b) (NumJ b) (NumI b) 0 0 0 body (b, l2, lf))
        as [Hf _].
      * intros k j i [[b0 l2_0] lf_0]. unfold frame, body. cbv zeta.
        destruct (accumulate_norms _ _ _ _ _ _). simpl. by destruct b0.
      * done.
      * done.
      * fold final in Hf. rewrite Hfinal in Hf. unfold frame in Hf.
        cbn [fst] in Hf. rewrite UpdateProofs.set_state_eta in Hf.
        rewrite <- Hf. by destruct b'.
    + intros x y z. cbv zeta.
      destruct (for_loop3_obs
                  (fun _ : procBlock D PV * genArray D * resid D => tt)
                  (fun s : procBlock D PV * genArray D * resid D =>
                     ma_get (state_ (fst (fst s))) x y z)
                  (fun _ (pv : PV) =>
                     UpdateWithConsVars pv eos
                       (ma_get du (x - G) (y - G) (z - G)))
                  (NumK b) (NumJ b) (NumI b) (z - G) (y - G) (x - G)
                  body (b, l2, lf)) as [_ Ho].
      * done.
      * intros k j i [[b0 l2_0] lf_0] Hne. unfold body. cbv zeta.
        destruct (accumulate_norms _ _ _ _ _ _). cbn [fst].
        unfold ImplicitTimeAdvance. cbn [state_ set_state_].
        apply ma_get_set_ne. intros Heq. apply Hne.
        inversion Heq. f_equal; [f_equal|]; lia.
      * intros [[b0 l2_0] lf_0]. unfold body. cbv zeta.
        destruct (accumulate_norms _ _ _ _ _ _). cbn [fst].
        unfold ImplicitTimeAdvance. cbn [state_ set_state_].
        replace (x - G + G) with x by lia.
        replace (y - G + G) with y by lia.
        replace (z - G + G) with z by lia.
        by rewrite ma_get_set_eq.
      * fold final in Ho. rewrite Hfinal in Ho. cbn [fst] in Ho.
        rewrite Ho. unfold interior. done.
Qed.

(** One cell with the state (1, 0, 0, 0, 1, 0, 0) and the correction 1 in
    every equation: with the implicit flag the state becomes
    (2, 1, 1, 1, 2, 1, 1), without it the block comes back as it was. *)
Lemma UpdateBlock_other_schemes_witness :
  (exists b' l2' lf',
     UpdateBlock inp_implicit true toy_eos (Q2Qc 1) unit_du
       (one_cell, l2_zero, linf_zero) = Ok (b', l2', lf') /\
     values (ma_get (state_ b') 2 2 2) = [2; 1; 1; 1; 2; 1; 1]%Q) /\
  (exists l2' lf',
     UpdateBlock inp_implicit false toy_eos (Q2Qc 1) unit_du
       (one_cell, l2_zero, linf_zero) = Ok (one_cell, l2', lf')).
Proof.
  assert (H1 : inp_TimeIntegration inp_implicit <> "rk4"%string)
    by discriminate.
  assert (H2 : inp_TimeIntegration inp_implicit <> "explicitEuler"%string)
    by discriminate.
  split.
  - destruct (UpdateBlock_other_schemes inp_implicit true toy_eos (Q2Qc 1)
                unit_du one_cell l2_zero linf_zero H1 H2)
      as (b' & l2' & lf' & Hok & _ & Himp).
    exists b', l2', lf'. split; [exact Hok|].
    destruct (Himp eq_refl) as [_ Hst]. rewrite Hst. reflexivity.
  - destruct (UpdateBlock_other_schemes inp_implicit false toy_eos (Q2Qc 1)
                unit_du one_cell l2_zero linf_zero H1 H2)
      as (b' & l2' & lf' & Hok & Hexp & _).
    exists l2', lf'. rewrite (Hexp eq_refl) in Hok. exact Hok.
Defined.

(** X14: whenever [CalcBlockTimeStep] returns it has changed nothing in
    the block but [dt_], whose extents and whose entries outside the interior
    it keeps; and on a block without cells it returns the block as it was,
    also when the input gives neither a time step nor a CFL number. *)
Theorem CalcBlockTimeStep_only_dt {D PV : Type} `{DoubleOps D}
        `{!Physics D PV} (inputVars : input D) (aRef : D)
        (b : procBlock D PV) :
  (forall b', CalcBlockTimeStep inputVars aRef b = Ok b' ->
     b' = set_dt_ (dt_ b') b /\
     (maNumI (dt_ b'), maNumJ (dt_ b'), maNumK (dt_ b')) =
       (maNumI (dt_ b), maNumJ (dt_ b), maNumK (dt_ b)) /\
     forall i j k, ~ interior b i j k ->
       ma_get (dt_ b') i j k = ma_get (dt_ b) i j k) /\
  (NumI b <= 0 \/ NumJ b <= 0 \/ NumK b <= 0 ->
   CalcBlockTimeStep inputVars aRef b = Ok b).
Proof.
  split.
  - intros b' Hloop. unfold CalcBlockTimeStep in Hloop.
    pose (R := fun b1 b2 : procBlock D PV =>
                 b2 = set_dt_ (dt_ b2) b1 /\
                 (maNumI (dt_ b2), maNumJ (dt_ b2), maNumK (dt_ b2)) =
                   (maNumI (dt_ b1), maNumJ (dt_ b1), maNumK (dt_ b1)) /\
                 forall i j k, ~ interior b i j k ->
                   ma_get (dt_ b2) i j k = ma_get (dt_ b1) i j k).
    assert (Hrefl : forall b1, R b1 b1).
    { intros b1. split; [by rewrite TimeStepProofs.set_dt_eta|]. by split. }
    assert (Htrans : forall b1 b2 b3, R b1 b2 -> R b2 b3 -> R b1 b3).
    { intros b1 b2 b3 (E1 & D1 & G1) (E2 & D2 & G2). split; [|split].
      - rewrite E1 in E2. etrans; [exact E2|]. by destruct b1.
      - by rewrite D2.
      - intros i j k Hout. by rewrite G2, G1. }
    apply (for_loop_res_rel R Hrefl Htrans) in Hloop; [exact Hloop|].
    intros kk s1 s2 Hk. apply (for_loop_res_rel R Hrefl Htrans).
    intros jj s3 s4 Hj. apply (for_loop_res_rel R Hrefl Htrans).
    intros ii s5 s6 Hi Hcell.
    apply CalcBlockTimeStep_cell_dt in Hcell as [v ->].
    split; [by destruct s5|]. split; [done|].
    intros i j k Hout. cbn [dt_ set_dt_]. apply ma_get_set_ne.
    intros Heq. apply Hout. inversion Heq; subst. done.
  - intros Hempty. unfold CalcBlockTimeStep.
    destruct (decide (NumK b <= 0)); [by apply for_loop_res_nonpos|].
    apply for_loop_res_skip. intros kk s1 _.
    destruct (decide (NumJ b <= 0)); [by apply for_loop_res_nonpos|].
    apply for_loop_res_skip. intros jj s2 _.
    apply for_loop_res_nonpos. lia.
Qed.

(** With CFL = 1/2 the unit cube gets a time step and nothing else changes;
    a block without cells comes back as it was although the input gives
    neither a time step nor a CFL number. *)
Lemma CalcBlockTimeStep_only_dt_witness :
  (exists b', CalcBlockTimeStep inp_euler (Q2Qc 1) one_cell = Ok b' /\
     b' = set_dt_ (dt_ b') one_cell) /\
  CalcBlockTimeStep inp_none (Q2Qc 1) empty_block = Ok empty_block.
Proof.
  split.
  - destruct (CalcBlockTimeStep inp_euler (Q2Qc 1) one_cell) as [b'|] eqn:E;
      [|vm_compute in E; discriminate].
    exists b'. split; [reflexivity|].
    by destruct (proj1 (CalcBlockTimeStep_only_dt inp_euler (Q2Qc 1)
                          one_cell) b' E) as [Hf _].
  - apply (proj2 (CalcBlockTimeStep_only_dt inp_none (Q2Qc 1) empty_block)).
    left. vm_compute. discriminate.
Defined.
End UpdateMoreProofs.

(** *** The gather on the coordinator *)

Module GatherMoreProofs.
Import Gather Notions.
Section Proofs.
Context {D PV : Type} (ROOT : Z).

Lemma GetProcBlocks_recv_block_gathered (blk blk' : procBlock D PV)
      (net net' : network D PV) :
  GetProcBlocks_recv_block ROOT blk net = Done (blk', net') ->
  gathered blk blk'.
Proof.
  unfold GetProcBlocks_recv_block.
  destruct (MPI_Recv _ _ _ _) as [[m nt]|]; [|done].
  destruct (msg_buffer m) as [|[a| |] buf]; try done. cbn [unpack_states].
  destruct (same_extents a (state_ blk)) eqn:Es; [|done].
  destruct buf as [|[|a2|] buf]; try done. cbn [unpack_residuals].
  destruct (same_extents a2 (residual_ blk)) eqn:Er; [|done].
  destruct buf as [|[| |a3] buf]; try done. cbn [unpack_doubles].
  destruct (same_extents a3 (dt_ blk)) eqn:Ed; [|done].
  destruct buf as [|[| |a4] buf]; try done. cbn [unpack_doubles].
  destruct (same_extents a4 (avgWaveSpeed_ blk)) eqn:Ew; [|done].
  intros [= <- <-]. by repeat split.
Qed.

Lemma locNum_at_S_local (blocks : list (procBlock D PV)) (n : nat)
      (blk : procBlock D PV) :
  blocks !! n = Some blk -> Rank blk = ROOT ->
  locNum_at ROOT blocks (S n) = S (locNum_at ROOT blocks n).
Proof.
  intros Hn Hr. unfold locNum_at. rewrite (take_S_r _ _ _ Hn).
  rewrite list.filter_app, length_app. rewrite filter_cons_True by done.
  simpl. lia.
Qed.

Lemma locNum_at_S_remote (blocks : list (procBlock D PV)) (n : nat)
      (blk : procBlock D PV) :
  blocks !! n = Some blk -> Rank blk <> ROOT ->
  locNum_at ROOT blocks (S n) = locNum_at ROOT blocks n.
Proof.
  intros Hn Hr. unfold locNum_at. rewrite (take_S_r _ _ _ Hn).
  rewrite list.filter_app, length_app. rewrite filter_cons_False by done.
  simpl. lia.
Qed.
End Proofs.

(** X15: when [GetProcBlocks] returns on the coordinator it gives back as
    many blocks as it was given.  A block of the coordinator's own rank is
    replaced by the next local block, in order: the n-th such block by the
    n-th local block.  A block of another rank keeps every member but the
    arrays state, residual, dt and avgWaveSpeed, whose extents stay.  If all
    blocks are the coordinator's, no message is taken from the network. *)
Theorem GetProcBlocks_coordinator {D PV : Type} (ROOT : Z)
        (blocks localBlocks blocks' : list (procBlock D PV))
        (net net' : network D PV) :
  GetProcBlocks ROOT blocks localBlocks ROOT net = Done (blocks', net') ->
  length blocks' = length blocks /\
  (forall (i : nat) blk, blocks !! i = Some blk ->
     (Rank blk = ROOT ->
      blocks' !! i = localBlocks !! locNum_at ROOT blocks i) /\
     (Rank blk <> ROOT ->
      exists blk', blocks' !! i = Some blk' /\ gathered blk blk')) /\
  (Forall (fun blk => Rank blk = ROOT) blocks -> net' = net).
Proof.
  unfold GetProcBlocks. rewrite Z.eqb_refl. unfold GetProcBlocks_root.
  match goal with
  | |- context [for_loop ?n ?step ?init] =>
      pose proof (for_loop_ind (root_inv ROOT blocks localBlocks net)
                    n step init) as Hind
  end.
  destruct (for_loop _ _ _) as [[[bl locNum] nt]| |]; [|done|done].
  intros [= <- <-].
  destruct Hind as (Hlen & _ & _ & Hin & Hnet).
  - lia.
  - unfold root_inv. split; [done|]. split; [done|]. split; [done|].
    split; [intros i blk Hi; simpl in Hi; lia|done].
  - intros x acc Hx Hacc.
    destruct acc as [[[bl0 locNum0] nt0]| |]; [|done|done].
    destruct Hacc as (Hlen0 & Hloc0 & Hge0 & Hlt0 & Hnet0).
    assert (Hx' : (Z.to_nat x < length blocks)%nat) by lia.
    destruct (lookup_lt_is_Some_2 blocks _ Hx') as [blk Hblk].
    unfold nthZ at 1. destruct (x <? 0) eqn:Ex; [apply Z.ltb_lt in Ex; lia|].
    rewrite Hge0 by lia. rewrite Hblk.
    assert (HS : Z.to_nat (x + 1) = S (Z.to_nat x)) by lia.
    destruct (Rank blk =? ROOT) eqn:Er.
    + apply Z.eqb_eq in Er.
      destruct (nthZ localBlocks locNum0) as [lb|] eqn:Elb; [|done].
      unfold root_inv. rewrite HS.
      split; [by rewrite length_insert|].
      split; [rewrite (locNum_at_S_local ROOT blocks _ blk) by done; lia|].
      split; [intros i Hi; rewrite list_lookup_insert_ne by lia;
              apply Hge0; lia|].
      split.
      * intros i blki Hi Hbi.
        destruct (decide (i = Z.to_nat x)) as [->|Hne].
        -- assert (blki = blk) as -> by congruence.
           split; [|done]. intros _.
           rewrite list_lookup_insert_eq by lia.
           unfold nthZ in Elb.
           destruct (locNum0 <? 0); [done|]. rewrite <- Elb. f_equal. lia.
        -- rewrite list_lookup_insert_ne by lia. apply Hlt0; [lia|done].
      * intros Hall. apply Hnet0.
        rewrite (take_S_r _ _ _ Hblk) in Hall.
        by apply Forall_app in Hall as [Hall _].
    + apply Z.eqb_neq in Er.
      destruct (GetProcBlocks_recv_block ROOT blk nt0)
        as [[blk' nt1]| |] eqn:Erecv; [|done|done].
      apply GetProcBlocks_recv_block_gathered in Erecv.
      unfold root_inv. rewrite HS.
      split; [by rewrite length_insert|].
      split; [by rewrite (locNum_at_S_remote ROOT blocks _ blk)|].
      split; [intros i Hi; rewrite list_lookup_insert_ne by lia;
              apply Hge0; lia|].
      split.
      * intros i blki Hi Hbi.
        destruct (decide (i = Z.to_nat x)) as [->|Hne].
        -- assert (blki = blk) as -> by congruence.
           split; [done|]. intros _. exists blk'.
           by rewrite list_lookup_insert_eq by lia.
        -- rewrite list_lookup_insert_ne by lia. apply Hlt0; [lia|done].
      * intros Hall. rewrite (take_S_r _ _ _ Hblk) in Hall.
        apply Forall_app in Hall as [_ Hall].
        apply (proj1 (Forall_singleton _ _)) in Hall. contradiction.
  - rewrite Nat2Z.id in Hin, Hnet.
    split; [done|]. split.
    + intros i blk Hi. apply Hin; [|done]. by eapply lookup_lt_Some.
    + intros Hall. apply Hnet. by rewrite take_ge by lia.
Qed.

Import Examples.

(** The coordinator (rank 0) holds copies of one block of its own and of the
    block of the worker of rank 1, whose message is in flight: its own block
    is replaced by its local block, with the wave speed 5, and the copy of
    the worker's block keeps its wall distance. *)
Lemma GetProcBlocks_coordinator_witness :
  exists blocks' net',
    GetProcBlocks 0 [one_cell; root_copy] [local_block] 0
      (GetProcBlocks_send 0 [worker_block] 1 []) = Done (blocks', net') /\
    length blocks' = 2%nat /\
    blocks' !! 0%nat = Some local_block /\
    exists blk', blocks' !! 1%nat = Some blk' /\
      wallDist_ blk' = wallDist_ root_copy.
Proof.
  destruct (GetProcBlocks 0 [one_cell; root_copy] [local_block] 0
              (GetProcBlocks_send 0 [worker_block] 1 []))
    as [[blocks' net']| |] eqn:E;
    [|vm_compute in E; discriminate|vm_compute in E; discriminate].
  exists blocks', net'. split; [reflexivity|].
  destruct (GetProcBlocks_coordinator 0 _ _ _ _ _ E) as (Hlen & Hblk & _).
  split; [exact Hlen|]. split.
  - destruct (Hblk 0%nat one_cell eq_refl) as [Hloc _].
    rewrite (Hloc eq_refl). reflexivity.
  - destruct (Hblk 1%nat root_copy eq_refl) as [_ Hrem].
    destruct Hrem as (blk' & Hb & Hg & _); [vm_compute; discriminate|].
    exists blk'. split; [exact Hb|]. rewrite Hg. reflexivity.
Defined.
End GatherMoreProofs.

(** *** The solution gather: the loop of the coordinator over all blocks *)

Module GatherLoopProofs.
Import Gather Notions.

Section Proofs.
Context {D PV : Type} (ROOT : Z).

(** Receiving a message leaves the oldest message of every other source or
    tag in place. *)
Lemma MPI_Recv_other (source tag source' tag' me : Z)
      (net rest : network D PV) (m : message D PV) :
  MPI_Recv source tag me net = Some (m, rest) ->
  (source', tag') <> (source, tag) ->
  fst <$> MPI_Recv source' tag' me rest =
  fst <$> MPI_Recv source' tag' me net.
Proof.
  intros Hrecv Hne. revert rest Hrecv.
  induction net as [|m0 net IH]; intros rest; simpl; [done|].
  destruct ((msg_source m0 =? source) && (msg_tag m0 =? tag) &&
            (msg_dest m0 =? me)) eqn:E.
  - intros [= <- <-].
    destruct ((msg_source m0 =? source') && (msg_tag m0 =? tag') &&
              (msg_dest m0 =? me)) eqn:E'.
    + exfalso. apply Hne.
      apply andb_prop in E as [E _]. apply andb_prop in E as [E1 E2].
      apply andb_prop in E' as [E' _]. apply andb_prop in E' as [E1' E2'].
      apply Z.eqb_eq in E1, E2, E1', E2'. congruence.
    + by destruct (MPI_Recv source' tag' me net) as [[m' r]|].
  - destruct (MPI_Recv source tag me net) as [[m1 r1]|] eqn:E1; [|done].
    intros [= <- <-]. simpl.
    destruct ((msg_source m0 =? source') && (msg_tag m0 =? tag') &&
              (msg_dest m0 =? me)) eqn:E'; [done|].
    specialize (IH r1 eq_refl).
    destruct (MPI_Recv source' tag' me r1) as [[m' r]|],
             (MPI_Recv source' tag' me net) as [[m'' r']|]; simpl in *;
      congruence.
Qed.

(** In a network without two messages of the same source and tag, a message
    is the one that is received for its source and tag. *)
Lemma MPI_Recv_NoDup (me : Z) (net : network D PV) (m : message D PV) :
  NoDup ((fun m => (msg_source m, msg_tag m)) <$> net) ->
  m ∈ net -> msg_dest m = me ->
  fst <$> MPI_Recv (msg_source m) (msg_tag m) me net = Some m.
Proof.
  intros Hnd Hin Hdest. induction net as [|m0 net IH]; simpl.
  - by apply elem_of_nil in Hin.
  - rewrite fmap_cons in Hnd.
    pose proof (NoDup_cons_1_1 _ _ Hnd) as Hnot.
    apply NoDup_cons_1_2 in Hnd.
    apply elem_of_cons in Hin as [->|Hin].
    + by rewrite !Z.eqb_refl, Hdest, Z.eqb_refl.
    + destruct ((msg_source m0 =? msg_source m) &&
                (msg_tag m0 =? msg_tag m) && (msg_dest m0 =? me)) eqn:E.
      * exfalso. apply Hnot.
        apply andb_prop in E as [E _]. apply andb_prop in E as [E1 E2].
        apply Z.eqb_eq in E1, E2. rewrite E1, E2.
        by apply (list_elem_of_fmap_2 (fun m => (msg_source m, msg_tag m))).
      * specialize (IH Hnd Hin).
        by destruct (MPI_Recv (msg_source m) (msg_tag m) me net)
          as [[m' r]|].
Qed.

Lemma workers_gather_messages (workers : list (Z * list (procBlock D PV)))
      (net : network D PV) :
  Forall (fun p => fst p <> ROOT) workers ->
  workers_gather ROOT workers net =
  Done (net ++ (message_of ROOT <$> sent_blocks workers)).
Proof.
  intros Hw. revert net. induction Hw as [|[rank lbs] workers Hr _ IH];
    intros net; simpl.
  - by rewrite app_nil_r.
  - unfold GetProcBlocks. simpl in Hr.
    destruct (rank =? ROOT) eqn:E; [apply Z.eqb_eq in E; done|].
    rewrite IH, GatherProofs.GetProcBlocks_send_messages.
    unfold sent_blocks. rewrite fmap_app, app_assoc.
    do 2 f_equal. by rewrite <- list_fmap_compose.
Qed.

Lemma locNum_at_le (blocks : list (procBlock D PV)) (n : nat) :
  (locNum_at ROOT blocks n <= locNum_at ROOT blocks (length blocks))%nat.
Proof.
  unfold locNum_at. rewrite firstn_all.
  rewrite <- (take_drop n blocks) at 2.
  rewrite list.filter_app, length_app. lia.
Qed.

(** The coordinator's loop, from a network that holds a fitting message for
    every block of another rank. *)
Lemma GetProcBlocks_root_matches (blocks localBlocks : list (procBlock D PV))
      (net : network D PV) :
  (locNum_at ROOT blocks (length blocks) <= length localBlocks)%nat ->
  (forall (i : nat) blk, blocks !! i = Some blk -> Rank blk <> ROOT ->
     exists w, first_message ROOT (Rank blk) (GlobalPos blk) net =
                 Some (message_of ROOT (Rank blk, w)) /\ fits w blk) ->
  (forall (i j : nat) bi bj, blocks !! i = Some bi -> blocks !! j = Some bj ->
     Rank bi <> ROOT -> Rank bj = Rank bi -> GlobalPos bj = GlobalPos bi ->
     i = j) ->
  exists blocks' net',
    GetProcBlocks_root ROOT blocks localBlocks net = Done (blocks', net') /\
    length blocks' = length blocks /\
    forall (i : nat) blk, blocks !! i = Some blk ->
      (Rank blk = ROOT ->
       blocks' !! i = localBlocks !! locNum_at ROOT blocks i) /\
      (Rank blk <> ROOT ->
       forall w,
         first_message ROOT (Rank blk) (GlobalPos blk) net =
           Some (message_of ROOT (Rank blk, w)) ->
         blocks' !! i =
           Some (set_avgWaveSpeed_ (avgWaveSpeed_ w) (set_dt_ (dt_ w)
                   (set_residual_ (residual_ w)
                      (set_state_ (state_ w) blk))))).
Proof.
  intros Hloc Hmsg Hdist. unfold GetProcBlocks_root.
  match goal with
  | |- context [for_loop ?n ?step ?init] =>
      assert (Hfin : gather_inv ROOT blocks localBlocks net n
                       (for_loop n step init))
  end.
  { apply for_loop_ind.
    - lia.
    - unfold gather_inv. split; [done|]. split; [done|]. split; [done|].
      split; [intros i blk Hi; simpl in Hi; lia|done].
    - intros x acc Hx Hacc.
      destruct acc as [[[bl0 locNum0] nt0]| |]; [|done|done].
      destruct Hacc as (Hlen0 & Hloc0 & Hge0 & Hlt0 & Hnet0).
      assert (Hx' : (Z.to_nat x < length blocks)%nat) by lia.
      destruct (lookup_lt_is_Some_2 blocks _ Hx') as [blk Hblk].
      unfold nthZ at 1.
      destruct (x <? 0) eqn:Ex; [apply Z.ltb_lt in Ex; lia|].
      rewrite Hge0 by lia. rewrite Hblk.
      assert (HS : Z.to_nat (x + 1) = S (Z.to_nat x)) by lia.
      destruct (Rank blk =? ROOT) eqn:Er.
      + apply Z.eqb_eq in Er.
        pose proof (GatherMoreProofs.locNum_at_S_local ROOT blocks _ blk
                      Hblk Er) as HSloc.
        pose proof (locNum_at_le blocks (S (Z.to_nat x))) as Hle.
        assert (Hown : (locNum_at ROOT blocks (Z.to_nat x) <
                        length localBlocks)%nat) by lia.
        destruct (lookup_lt_is_Some_2 localBlocks _ Hown) as [lb Hlb].
        unfold nthZ. destruct (locNum0 <? 0) eqn:El;
          [apply Z.ltb_lt in El; lia|].
        rewrite Hloc0, Nat2Z.id, Hlb.
        unfold gather_inv. rewrite HS.
        split; [by rewrite length_insert|].
        split; [lia|].
        split; [intros i Hi; rewrite list_lookup_insert_ne by lia;
                apply Hge0; lia|].
        split.
        * intros i blki Hi Hbi.
          destruct (decide (i = Z.to_nat x)) as [->|Hne'].
          -- assert (blki = blk) as -> by congruence.
             split; [|done]. intros _.
             by rewrite list_lookup_insert_eq by lia.
          -- rewrite list_lookup_insert_ne by lia. apply Hlt0; [lia|done].
        * intros i blki Hi Hbi Hri. apply (Hnet0 i); [lia|done|done].
      + apply Z.eqb_neq in Er.
        destruct (Hmsg _ _ Hblk Er) as (w & Hfirst & Hs & Hres & Hdt & Hws).
        pose proof (Hnet0 _ _ (Nat.le_refl _) Hblk Er) as Hnt.
        rewrite Hfirst in Hnt. unfold first_message in Hnt.
        unfold GetProcBlocks_recv_block.
        destruct (MPI_Recv (Rank blk) (GlobalPos blk) ROOT nt0)
          as [[m rest]|] eqn:Erecv; [|done].
        injection Hnt as ->.
        cbn [message_of msg_buffer snd buffer_of_claim unpack_states].
        rewrite Hs. cbn [unpack_residuals]. rewrite Hres.
        cbn [unpack_doubles]. rewrite Hdt. cbn [unpack_doubles].
        rewrite Hws.
        unfold gather_inv. rewrite HS.
        split; [by rewrite length_insert|].
        split; [by rewrite (GatherMoreProofs.locNum_at_S_remote ROOT blocks
                              _ blk)|].
        split; [intros i Hi; rewrite list_lookup_insert_ne by lia;
                apply Hge0; lia|].
        split.
        * intros i blki Hi Hbi.
          destruct (decide (i = Z.to_nat x)) as [->|Hne'].
          -- assert (blki = blk) as -> by congruence.
             split; [done|]. intros _ w' Hw'.
             rewrite list_lookup_insert_eq by lia.
             rewrite Hfirst in Hw'. injection Hw' as _ -> -> -> ->.
             reflexivity.
          -- rewrite list_lookup_insert_ne by lia. apply Hlt0; [lia|done].
        * intros i blki Hi Hbi Hri.
          rewrite <- (Hnet0 i blki) by (lia || done).
          apply (MPI_Recv_other _ _ _ _ _ _ _ _ Erecv).
          intros [= Hrk Hgp].
          assert (Z.to_nat x = i) by
            (apply (Hdist _ _ blk blki); done). lia. }
  destruct (for_loop _ _ _) as [[[bl locNum] nt]| |]; [|done|done].
  destruct Hfin as (Hlen & _ & _ & Hin & _). rewrite Nat2Z.id in Hin.
  exists bl, nt. split; [done|]. split; [done|].
  intros i blk Hi. apply Hin; [|done]. by eapply lookup_lt_Some.
Qed.

(** The messages that arrive at the coordinator when the workers have
    sent: the oldest message from a rank with the global position of one of
    its blocks as the tag is the message of that block. *)
Lemma arrived_first (workers : list (Z * list (procBlock D PV)))
      (arrived : network D PV) (rank : Z) (w : procBlock D PV) :
  NoDup ((fun q => (fst q, GlobalPos (snd q))) <$> sent_blocks workers) ->
  arrived ≡ₚ message_of ROOT <$> sent_blocks workers ->
  (rank, w) ∈ sent_blocks workers ->
  first_message ROOT rank (GlobalPos w) arrived =
    Some (message_of ROOT (rank, w)).
Proof.
  intros Hnd Harr Hin. unfold first_message.
  apply (MPI_Recv_NoDup ROOT arrived (message_of ROOT (rank, w)));
    [| |done].
  - rewrite Harr, <- list_fmap_compose. exact Hnd.
  - rewrite Harr. by apply (list_elem_of_fmap_2 (message_of ROOT)).
Qed.
End Proofs.

(** C9 (amended): for the solution gather, a worker packs for each of its
    blocks the arrays state, residual, dt and avgWaveSpeed, in that order
    ([GetProcBlocks] of [parallel.cpp]), and in [procBlock::PackSendSolMPI]
    the array wallDist as well, between dt and avgWaveSpeed, into one buffer
    and sends it to the coordinator with the block's global position as the
    message tag; the coordinator receives by the block's rank and that tag
    and unpacks the same arrays in the same order into its copy of the block,
    whose other members it leaves as they are.  For the whole gather: when
    the workers, no two of whose blocks have the same rank and global
    position, have called [GetProcBlocks], and the coordinator holds copies
    with distinct ranks and global positions of blocks that were sent, and
    enough local blocks, its call returns, in whatever order the messages
    have arrived; every block of another rank then holds the four arrays of
    the worker's block of its rank and global position and is otherwise as
    it was, and the blocks of the coordinator's rank are its local blocks,
    in their order. *)
Theorem solution_gather_arrays {D PV : Type} (ROOT : Z)
        (w r : procBlock D PV) (blocks localBlocks : list (procBlock D PV))
        (rank : Z) (net : network D PV) :
  copy_of r w ->
  no_message ROOT (rank_ w) (globalPos_ w) net ->
  PackSendSolMPI ROOT w net =
    net ++ [mkMessage (rank_ w) ROOT (globalPos_ w)
              [PackedStates (state_ w); PackedResiduals (residual_ w);
               PackedDoubles (dt_ w); PackedDoubles (wallDist_ w);
               PackedDoubles (avgWaveSpeed_ w)]] /\
  RecvUnpackSolMPI ROOT r (PackSendSolMPI ROOT w net) =
    Done (set_avgWaveSpeed_ (avgWaveSpeed_ w)
            (set_wallDist_ (wallDist_ w) (set_dt_ (dt_ w)
               (set_residual_ (residual_ w) (set_state_ (state_ w) r)))),
          net) /\
  (rank <> ROOT ->
   GetProcBlocks ROOT blocks localBlocks rank net =
     Done (blocks,
           net ++ ((fun blk => mkMessage rank ROOT (GlobalPos blk)
                      [PackedStates (state_ blk);
                       PackedResiduals (residual_ blk);
                       PackedDoubles (dt_ blk);
                       PackedDoubles (avgWaveSpeed_ blk)])
                   <$> localBlocks))) /\
  (rank_ w <> ROOT ->
   exists net1,
     GetProcBlocks ROOT [r] [w] (rank_ w) net = Done ([r], net1) /\
     GetProcBlocks ROOT [r] [] ROOT net1 =
       Done ([set_avgWaveSpeed_ (avgWaveSpeed_ w) (set_dt_ (dt_ w)
                (set_residual_ (residual_ w) (set_state_ (state_ w) r)))],
             net)) /\
  (forall (workers : list (Z * list (procBlock D PV)))
          (allBlocks ownBlocks : list (procBlock D PV)),
     Forall (fun p => fst p <> ROOT) workers ->
     NoDup ((fun q => (fst q, GlobalPos (snd q))) <$> sent_blocks workers) ->
     (forall (i : nat) blk, allBlocks !! i = Some blk -> Rank blk <> ROOT ->
        exists wb, (Rank blk, wb) ∈ sent_blocks workers /\
                   GlobalPos wb = GlobalPos blk /\ fits wb blk) ->
     (forall (i j : nat) bi bj,
        allBlocks !! i = Some bi -> allBlocks !! j = Some bj ->
        Rank bi <> ROOT -> Rank bj = Rank bi ->
        GlobalPos bj = GlobalPos bi -> i = j) ->
     (locNum_at ROOT allBlocks (length allBlocks) <= length ownBlocks)%nat ->
     exists sent,
       workers_gather ROOT workers [] = Done sent /\
       forall arrived, arrived ≡ₚ sent ->
         exists blocks' rest,
           GetProcBlocks ROOT allBlocks ownBlocks ROOT arrived =
             Done (blocks', rest) /\
           length blocks' = length allBlocks /\
           forall (i : nat) blk, allBlocks !! i = Some blk ->
             (Rank blk = ROOT ->
              blocks' !! i = ownBlocks !! locNum_at ROOT allBlocks i) /\
             (Rank blk <> ROOT ->
              forall wb, (Rank blk, wb) ∈ sent_blocks workers ->
                GlobalPos wb = GlobalPos blk ->
                blocks' !! i =
                  Some (set_avgWaveSpeed_ (avgWaveSpeed_ wb)
                          (set_dt_ (dt_ wb)
                             (set_residual_ (residual_ wb)
                                (set_state_ (state_ wb) blk)))))).
Proof.
  intros Hcopy Hno. split; [done|]. split; [|split; [|split]].
  - destruct Hcopy as (Hr & Hg & Hs & Hres & Hdt & Hwd & Hws).
    unfold RecvUnpackSolMPI, PackSendSolMPI. rewrite Hr, Hg.
    rewrite GatherProofs.MPI_Recv_last by done.
    cbn [msg_buffer app unpack_states]. rewrite Hs.
    cbn [unpack_residuals]. rewrite Hres.
    cbn [unpack_doubles]. rewrite Hdt.
    cbn [unpack_doubles]. rewrite Hwd.
    cbn [unpack_doubles]. by rewrite Hws.
  - intros Hrank. unfold GetProcBlocks.
    destruct (rank =? ROOT) eqn:E; [apply Z.eqb_eq in E; done|].
    by rewrite GatherProofs.GetProcBlocks_send_messages.
  - intros Hrank. eexists. split.
    + unfold GetProcBlocks.
      destruct (rank_ w =? ROOT) eqn:E; [apply Z.eqb_eq in E; done|].
      rewrite GatherProofs.GetProcBlocks_send_messages. reflexivity.
    + unfold GetProcBlocks. rewrite Z.eqb_refl. unfold GetProcBlocks_root.
      change (Z.of_nat (length [r])) with (0 + 1).
      rewrite for_loop_succ by lia. rewrite for_loop_nonpos by lia.
      cbv beta zeta iota. change (nthZ [r] 0) with (Some r).
      cbv beta iota.
      destruct (Rank r =? ROOT) eqn:E.
      { apply Z.eqb_eq in E. destruct Hcopy as (Hr & _). unfold Rank in E.
        congruence. }
      change (net ++ _) with
        (MPI_Send (rank_ w) ROOT (GlobalPos w) (buffer_of_claim w) net).
      by rewrite GatherProofs.GetProcBlocks_recv_block_sent.
  - intros workers allBlocks ownBlocks Hw Hnd Hsent Hdist Hown.
    exists (message_of ROOT <$> sent_blocks workers).
    split; [by rewrite workers_gather_messages|].
    intros arrived Harr.
    destruct (GetProcBlocks_root_matches ROOT allBlocks ownBlocks arrived
                Hown) as (blocks' & rest & Hret & Hlen & Hall).
    + intros i blk Hi Hr. destruct (Hsent i blk Hi Hr) as (wb & Hin & Hg & Hf).
      exists wb. split; [|done]. rewrite <- Hg.
      by apply (arrived_first ROOT workers).
    + exact Hdist.
    + exists blocks', rest. unfold GetProcBlocks. rewrite Z.eqb_refl.
      split; [done|]. split; [done|].
      intros i blk Hi. destruct (Hall i blk Hi) as [Hloc Hrem].
      split; [done|]. intros Hr wb Hin Hg. apply Hrem; [done|].
      rewrite <- Hg. by apply (arrived_first ROOT workers).
Qed.

Import Examples.

(** A worker of rank 1 sends its block and the coordinator's copy, whose
    time step was 0, holds the worker's time step 1/6 and wave speed 3 after
    the gather.  And a whole gather: the worker of rank 1 sends its blocks
    at the global positions 1 and 2, in this order; the coordinator, of rank
    0, holds the copy of the second, a block of its own and the copy of the
    first, in this order.  Its call returns and empties the network; the
    copy at position 2 holds the wave speed 7 and the time step 1/14 of the
    second block, the copy at position 1 the wave speed 3 and the time step
    1/6 of the first, both with the wall distance they had, and the block
    of its own is replaced by its local block. *)
Lemma solution_gather_arrays_witness :
  this (ma_get (dt_ root_copy) 0 0 0) = 0%Q /\
  (exists net1,
    GetProcBlocks 0 [root_copy] [worker_block] 1 [] =
      Done ([root_copy], net1) /\
    exists r', GetProcBlocks 0 [root_copy] [] 0 net1 = Done ([r'], []) /\
      this (ma_get (dt_ r') 0 0 0) = (1 # 6)%Q /\
      this (ma_get (avgWaveSpeed_ r') 0 0 0) = 3%Q) /\
  (exists sent,
    workers_gather 0 [(1, [worker_block; next_block])] [] = Done sent /\
    (GlobalPos <$> [next_copy; one_cell; root_copy]) = [2; 0; 1] /\
    (msg_tag <$> sent) = [1; 2] /\
    exists b2 b1,
      GetProcBlocks 0 [next_copy; one_cell; root_copy] [local_block] 0
        sent = Done ([b2; local_block; b1], []) /\
      this (ma_get (avgWaveSpeed_ b2) 0 0 0) = 7%Q /\
      this (ma_get (dt_ b2) 0 0 0) = (1 # 14)%Q /\
      this (ma_get (avgWaveSpeed_ b1) 0 0 0) = 3%Q /\
      this (ma_get (dt_ b1) 0 0 0) = (1 # 6)%Q /\
      wallDist_ b2 = wallDist_ next_copy /\
      wallDist_ b1 = wallDist_ root_copy).
Proof.
  split; [reflexivity|].
  assert (Hcopy : copy_of root_copy worker_block).
  { repeat split; reflexivity. }
  assert (Hno : no_message 0 (rank_ worker_block) (globalPos_ worker_block)
                  ([] : network Qc (list Qc))) by reflexivity.
  assert (Hrank : rank_ worker_block <> 0) by (vm_compute; discriminate).
  destruct (solution_gather_arrays 0 worker_block root_copy [] [] 1 []
              Hcopy Hno) as (_ & _ & _ & Hgather & Hwhole).
  split.
  { destruct (Hgather Hrank) as (net1 & Hsend & Hrecv).
    exists net1. split; [exact Hsend|].
    eexists. split; [exact Hrecv|]. split; reflexivity. }
  destruct (Hwhole [(1, [worker_block; next_block])]
              [next_copy; one_cell; root_copy] [local_block])
    as (sent & Hsent & Hall).
  - apply Forall_cons_2; [discriminate|apply Forall_nil_2].
  - apply (bool_decide_unpack _). vm_compute. exact I.
  - intros i blk Hi Hr.
    destruct i as [|[|[|i]]]; simpl in Hi; [| | |discriminate Hi];
      injection Hi as <-.
    + exists next_block. split; [|by repeat split].
      apply list_elem_of_further, list_elem_of_here.
    + by destruct Hr.
    + exists worker_block. split; [|by repeat split].
      apply list_elem_of_here.
  - intros i j bi bj Hi Hj Hr Hrk Hgp.
    destruct i as [|[|[|i]]]; simpl in Hi; [| | |discriminate Hi];
      injection Hi as <-;
      (destruct j as [|[|[|j]]]; simpl in Hj; [| | |discriminate Hj];
       injection Hj as <-); first [reflexivity|discriminate|by destruct Hr].
  - vm_compute. lia.
  - exists sent. split; [exact Hsent|].
    injection Hsent as <-. split; [reflexivity|]. split; [reflexivity|].
    destruct (Hall _ (reflexivity _)) as (blocks' & rest & Hret & Hlen & Hblk).
    destruct (Hblk 0%nat next_copy eq_refl) as [_ H2].
    destruct (Hblk 1%nat one_cell eq_refl) as [H0 _].
    destruct (Hblk 2%nat root_copy eq_refl) as [_ H1].
    specialize (H2 ltac:(discriminate) next_block
                  ltac:(apply list_elem_of_further, list_elem_of_here)
                  eq_refl).
    specialize (H1 ltac:(discriminate) worker_block
                  ltac:(apply list_elem_of_here) eq_refl).
    specialize (H0 eq_refl).
    destruct blocks' as [|c2 [|c0 [|c1 [|]]]]; try discriminate Hlen.
    injection H2 as ->. injection H0 as ->. injection H1 as ->.
    eexists _, _. split.
    + rewrite Hret. f_equal. f_equal. vm_compute in Hret.
      by injection Hret as <-.
    + repeat split; reflexivity.
Defined.
End GatherLoopProofs.

(** *** Geometry of the ghost cells: no failure, and what is passed over *)

Module GhostMoreProofs.
Import Ghost Notions.
Section Proofs.
Context {D PV : Type} `{DoubleOps D}.

Ltac branch_returns :=
  cbv zeta;
  repeat (rewrite Insert_ok by (simpl; lia); cbn [res_bind]);
  eexists; split; reflexivity.

Lemma AssignGhostCellsGeom_I_returns (x : ghostIndices)
      (jmin jmax kmin kmax jmaxF kmaxF : Z) (b : procBlock D PV) :
  exists b2,
    AssignGhostCellsGeom_I x jmin jmax kmin kmax jmaxF kmaxF b = Ok b2 /\
    solution_members b2 = solution_members b.
Proof.
  unfold AssignGhostCellsGeom_I. destruct (NumI b <? 2); branch_returns.
Qed.

Lemma AssignGhostCellsGeom_J_returns (x : ghostIndices)
      (imin imax kmin kmax imaxF kmaxF : Z) (b : procBlock D PV) :
  exists b2,
    AssignGhostCellsGeom_J x imin imax kmin kmax imaxF kmaxF b = Ok b2 /\
    solution_members b2 = solution_members b.
Proof.
  unfold AssignGhostCellsGeom_J. destruct (NumJ b <? 2); branch_returns.
Qed.

Lemma AssignGhostCellsGeom_K_returns (x : ghostIndices)
      (imin imax jmin jmax imaxF jmaxF : Z) (b : procBlock D PV) :
  exists b2,
    AssignGhostCellsGeom_K x imin imax jmin jmax imaxF jmaxF b = Ok b2 /\
    solution_members b2 = solution_members b.
Proof.
  unfold AssignGhostCellsGeom_K. destruct (NumK b <? 2); branch_returns.
Qed.

Lemma AssignGhostCellsGeom_surface_returns (s : boundarySurface)
      (b : procBlock D PV) :
  exists b2,
    AssignGhostCellsGeom_surface s b = Ok b2 /\
    solution_members b2 = solution_members b /\
    (passed_over s -> b2 = b).
Proof.
  unfold AssignGhostCellsGeom_surface. cbv zeta.
  destruct (((surfaceType s =? 1) || (surfaceType s =? 2)) &&
            negb (bcType s =? "interblock")%string) eqn:EI.
  { destruct (AssignGhostCellsGeom_I_returns
                (surface_indices (surfaceType s) (iMax s - 2 + numGhosts_ b)
                   (jMax s - 2 + numGhosts_ b) (kMax s - 2 + numGhosts_ b))
                (jMin s - 1 + numGhosts_ b) (jMax s - 2 + numGhosts_ b)
                (kMin s - 1 + numGhosts_ b) (kMax s - 2 + numGhosts_ b)
                (jMax s - 2 + numGhosts_ b + 1)
                (kMax s - 2 + numGhosts_ b + 1) b) as (b2 & -> & Hs).
    exists b2. split; [done|]. split; [done|].
    intros [Hib|Ht]; exfalso; apply andb_prop in EI as [Et Eb].
    - apply negb_true_iff, String.eqb_neq in Eb. done.
    - apply orb_prop in Et as [Et|Et]; apply Z.eqb_eq in Et; lia. }
  destruct (((surfaceType s =? 3) || (surfaceType s =? 4)) &&
            negb (bcType s =? "interblock")%string) eqn:EJ.
  { destruct (AssignGhostCellsGeom_J_returns
                (surface_indices (surfaceType s) (iMax s - 2 + numGhosts_ b)
                   (jMax s - 2 + numGhosts_ b) (kMax s - 2 + numGhosts_ b))
                (iMin s - 1 + numGhosts_ b) (iMax s - 2 + numGhosts_ b)
                (kMin s - 1 + numGhosts_ b) (kMax s - 2 + numGhosts_ b)
                (iMax s - 2 + numGhosts_ b + 1)
                (kMax s - 2 + numGhosts_ b + 1) b) as (b2 & -> & Hs).
    exists b2. split; [done|]. split; [done|].
    intros [Hib|Ht]; exfalso; apply andb_prop in EJ as [Et Eb].
    - apply negb_true_iff, String.eqb_neq in Eb. done.
    - apply orb_prop in Et as [Et|Et]; apply Z.eqb_eq in Et; lia. }
  destruct (((surfaceType s =? 5) || (surfaceType s =? 6)) &&
            negb (bcType s =? "interblock")%string) eqn:EK.
  { destruct (AssignGhostCellsGeom_K_returns
                (surface_indices (surfaceType s) (iMax s - 2 + numGhosts_ b)
                   (jMax s - 2 + numGhosts_ b) (kMax s - 2 + numGhosts_ b))
                (iMin s - 1 + numGhosts_ b) (iMax s - 2 + numGhosts_ b)
                (jMin s - 1 + numGhosts_ b) (jMax s - 2 + numGhosts_ b)
                (iMax s - 2 + numGhosts_ b + 1)
                (jMax s - 2 + numGhosts_ b + 1) b) as (b2 & -> & Hs).
    exists b2. split; [done|]. split; [done|].
    intros [Hib|Ht]; exfalso; apply andb_prop in EK as [Et Eb].
    - apply negb_true_iff, String.eqb_neq in Eb. done.
    - apply orb_prop in Et as [Et|Et]; apply Z.eqb_eq in Et; lia. }
  by exists b.
Qed.
End Proofs.

(** X16: no [Insert] of [AssignGhostCellsGeom] fails on a shape mismatch,
    whatever the block and its surfaces: every slice has the extents of the
    range it is inserted into, so the function always returns (an index
    outside an array is no error of the arrays as modelled).  It changes
    geometry only, and a block all of whose surfaces are inter-block surfaces
    (or of a type that is none of the six sides) is returned as it was. *)
Theorem AssignGhostCellsGeom_returns {D PV : Type} `{DoubleOps D}
        (b : procBlock D PV) :
  exists b',
    AssignGhostCellsGeom b = Ok b' /\
    solution_members b' = solution_members b /\
    (Forall passed_over (bc_ b) -> b' = b).
Proof.
  unfold AssignGhostCellsGeom, for_loop_res.
  apply (for_loop_ind
           (fun (_ : Z) (r : res (procBlock D PV)) =>
              exists b', r = Ok b' /\
                solution_members b' = solution_members b /\
                (Forall passed_over (bc_ b) -> b' = b))).
  - unfold NumSurfaces. lia.
  - by exists b.
  - intros x r Hx (b1 & -> & Hs1 & Hp1). cbn [res_bind].
    assert (Hbc : bc_ b1 = bc_ b).
    { unfold solution_members in Hs1. by injection Hs1. }
    rewrite Hbc.
    destruct (nthZ (bc_ b) x) as [s|] eqn:Es; [|by exists b1].
    destruct (AssignGhostCellsGeom_surface_returns s b1)
      as (b2 & -> & Hs2 & Hp2).
    exists b2. split; [done|]. split; [by rewrite Hs2|].
    intros Hall. rewrite <- (Hp1 Hall). apply Hp2.
    unfold nthZ in Es. destruct (x <? 0); [done|].
    by apply (Forall_lookup_1 _ _ _ _ Hall Es).
Qed.

Import Examples.

(** The unit cube whose only surface is an inter-block surface comes back
    as it was. *)
Lemma AssignGhostCellsGeom_returns_witness :
  AssignGhostCellsGeom joined_cell = Ok joined_cell.
Proof.
  destruct (AssignGhostCellsGeom_returns joined_cell) as (b' & -> & _ & Hp).
  f_equal. apply Hp. apply Forall_cons_2; [by left|apply Forall_nil_2].
Defined.
End GhostMoreProofs.

(** *** Volumes of the ghost cells *)

Module GhostVolumeProofs.
Import Ghost Notions GhostProofs.
Section Proofs.
Context {D PV : Type} `{DoubleOps D}.

Ltac insert_steps :=
  repeat (rewrite Insert_ok by (simpl; lia); cbn [res_bind]).

Ltac vol_effect_proof Hx :=
  insert_steps;
  (eexists; split; [reflexivity|]);
  (split; [done|]);
  unfold vol_effect, mirrored, vol_I, vol_J, vol_K; cbn [vol_];
  destruct Hx as [-> | ->]; cbn [g1 g2 i1 i2];
  (split;
   [intros n a c Hout; by rewrite !ma_get_overwrite_out by lia
   |intros a c Ha Hc; split;
    [rewrite ma_get_overwrite_out by lia;
     rewrite ma_get_overwrite_in by lia;
     unfold Slice, ma_get; cbn [maData]; f_equal; lia
    |rewrite ma_get_overwrite_in by lia;
     unfold Slice, ma_get at 1; cbn [maData];
     rewrite ?ma_get_overwrite_out by lia;
     unfold ma_get; f_equal; lia]]).

Lemma AssignGhostCellsGeom_I_vol (x : ghostIndices)
      (jmin jmax kmin kmax jmaxF kmaxF : Z) (b : procBlock D PV) :
  normal_indices (NumI b) x ->
  exists b2,
    AssignGhostCellsGeom_I x jmin jmax kmin kmax jmaxF kmaxF b =
      Ok b2 /\
    ghost_frame b b2 /\
    vol_effect x (NumI b <? 2) jmin jmax kmin kmax
      (vol_I b) (vol_I b2).
Proof.
  intros Hx. unfold AssignGhostCellsGeom_I, ghost_frame. cbv zeta.
  destruct (NumI b <? 2); vol_effect_proof Hx.
Qed.

Lemma AssignGhostCellsGeom_J_vol (x : ghostIndices)
      (imin imax kmin kmax imaxF kmaxF : Z) (b : procBlock D PV) :
  normal_indices (NumJ b) x ->
  exists b2,
    AssignGhostCellsGeom_J x imin imax kmin kmax imaxF kmaxF b =
      Ok b2 /\
    ghost_frame b b2 /\
    vol_effect x (NumJ b <? 2) imin imax kmin kmax
      (vol_J b) (vol_J b2).
Proof.
  intros Hx. unfold AssignGhostCellsGeom_J, ghost_frame. cbv zeta.
  destruct (NumJ b <? 2); vol_effect_proof Hx.
Qed.

Lemma AssignGhostCellsGeom_K_vol (x : ghostIndices)
      (imin imax jmin jmax imaxF jmaxF : Z) (b : procBlock D PV) :
  normal_indices (NumK b) x ->
  exists b2,
    AssignGhostCellsGeom_K x imin imax jmin jmax imaxF jmaxF b =
      Ok b2 /\
    ghost_frame b b2 /\
    vol_effect x (NumK b <? 2) imin imax jmin jmax
      (vol_K b) (vol_K b2).
Proof.
  intros Hx. unfold AssignGhostCellsGeom_K, ghost_frame. cbv zeta.
  destruct (NumK b <? 2); vol_effect_proof Hx.
Qed.

Lemma vol_effect_I_keeps (b b1 b2 : procBlock D PV) (xu : ghostIndices)
      (jmin jmax kmin kmax : Z) :
  numGhosts_ b = 2 -> 0 < NumI b ->
  normal_indices (NumI b) xu ->
  (forall a, jmin <= a <= jmax -> 2 <= a < NumJ b + 2) ->
  (forall c, kmin <= c <= kmax -> 2 <= c < NumK b + 2) ->
  (forall i j k, off_faces b i j k ->
     ma_get (vol_ b1) i j k = ma_get (vol_ b) i j k) ->
  vol_effect xu (NumI b <? 2) jmin jmax kmin kmax
    (vol_I b1) (vol_I b2) ->
  (forall i j k, off_faces b i j k ->
     ma_get (vol_ b2) i j k = ma_get (vol_ b) i j k) /\
  (forall s, surface_ok b s -> ghost_volumes b b1 s -> ghost_volumes b b2 s) /\
  (forall a c, jmin <= a <= jmax -> kmin <= c <= kmax ->
     mirrored (vol_I b) (vol_I b2) xu (NumI b <? 2) a c).
Proof.
  intros HG HN Hxu HA HC Hoff [Hout Hin].
  unfold mirrored, vol_I in Hout, Hin.
  assert (Hphys : forall i j k,
            2 <= i < NumI b + 2 -> 2 <= j < NumJ b + 2 ->
            2 <= k < NumK b + 2 ->
            ma_get (vol_ b1) i j k = ma_get (vol_ b) i j k).
  { intros i j k Hi Hj Hk. apply Hoff. unfold off_faces. rewrite HG.
    cbv zeta. by left. }
  split; [|split].
  - intros i j k Ho. rewrite Hout; [by apply Hoff|].
    unfold off_faces in Ho. rewrite HG in Ho. cbv zeta in Ho.
    match goal with
    | |- _ \/ ~ ?P => destruct (decide P) as [[Ha Hc]|Hn]; [left|by right]
    end.
    apply HA in Ha. apply HC in Hc.
    destruct Hxu as [-> | ->]; cbn [g1 g2]; lia.
  - intros s Hok (HsI & HsJ & HsK).
    pose proof Hok as (Hside & HpI & HpJ & HpK).
    unfold ghost_volumes in *. rewrite HG in *. cbv zeta in *.
    split; [|split]; intros Ht.
    + specialize (HsI Ht).
      pose proof (surface_indices_I b s Hok Ht) as Hxs.
      intros a c Ha Hc. specialize (HsI a c Ha Hc).
      assert (2 <= a < NumJ b + 2)
        by (eapply on_patch_within; [apply HpJ; lia|done]).
      assert (2 <= c < NumK b + 2)
        by (eapply on_patch_within; [apply HpK; lia|done]).
      unfold mirrored, vol_I, vol_J, vol_K in *.
      destruct (decide (jmin <= a <= jmax /\ kmin <= c <= kmax))
        as [[Ha' Hc']|Hn].
      2:{ rewrite !Hout by (by right). exact HsI. }
      destruct (Hin a c Ha' Hc') as [Hin1 Hin2].
      destruct (Z.ltb_spec (NumI b) 2);
        destruct Hxs as [Exs|Exs], Hxu as [Exu|Exu]; rewrite Exs in *;
        subst xu; cbn [g1 g2 i1 i2] in *;
        first [ rewrite !Hout by (left; lia); exact HsI
              | rewrite Hin1, Hin2; split; apply Hphys; lia ].
    + specialize (HsJ Ht). intros a c Ha Hc. specialize (HsJ a c Ha Hc).
      assert (2 <= a < NumI b + 2)
        by (eapply on_patch_within; [apply HpI; lia|done]).
      unfold mirrored, vol_I, vol_J, vol_K in *.
      rewrite !Hout by (left; destruct Hxu as [-> | ->]; cbn [g1 g2]; lia).
      exact HsJ.
    + specialize (HsK Ht). intros a c Ha Hc. specialize (HsK a c Ha Hc).
      assert (2 <= a < NumI b + 2)
        by (eapply on_patch_within; [apply HpI; lia|done]).
      unfold mirrored, vol_I, vol_J, vol_K in *.
      rewrite !Hout by (left; destruct Hxu as [-> | ->]; cbn [g1 g2]; lia).
      exact HsK.
  - intros a c Ha Hc. destruct (Hin a c Ha Hc) as [Hin1 Hin2].
    apply HA in Ha. apply HC in Hc.
    unfold mirrored, vol_I, vol_J, vol_K. rewrite Hin1, Hin2.
    destruct (Z.ltb_spec (NumI b) 2);
      destruct Hxu as [-> | ->]; cbn [g1 g2 i1 i2];
      split; apply Hphys; lia.
Qed.

Lemma vol_effect_J_keeps (b b1 b2 : procBlock D PV) (xu : ghostIndices)
      (imin imax kmin kmax : Z) :
  numGhosts_ b = 2 -> 0 < NumJ b ->
  normal_indices (NumJ b) xu ->
  (forall a, imin <= a <= imax -> 2 <= a < NumI b + 2) ->
  (forall c, kmin <= c <= kmax -> 2 <= c < NumK b + 2) ->
  (forall i j k, off_faces b i j k ->
     ma_get (vol_ b1) i j k = ma_get (vol_ b) i j k) ->
  vol_effect xu (NumJ b <? 2) imin imax kmin kmax
    (vol_J b1) (vol_J b2) ->
  (forall i j k, off_faces b i j k ->
     ma_get (vol_ b2) i j k = ma_get (vol_ b) i j k) /\
  (forall s, surface_ok b s -> ghost_volumes b b1 s -> ghost_volumes b b2 s) /\
  (forall a c, imin <= a <= imax -> kmin <= c <= kmax ->
     mirrored (vol_J b) (vol_J b2) xu (NumJ b <? 2) a c).
Proof.
  intros HG HN Hxu HA HC Hoff [Hout Hin].
  unfold mirrored, vol_J in Hout, Hin.
  assert (Hphys : forall i j k,
            2 <= i < NumI b + 2 -> 2 <= j < NumJ b + 2 ->
            2 <= k < NumK b + 2 ->
            ma_get (vol_ b1) i j k = ma_get (vol_ b) i j k).
  { intros i j k Hi Hj Hk. apply Hoff. unfold off_faces. rewrite HG.
    cbv zeta. by left. }
  split; [|split].
  - intros i j k Ho. rewrite Hout; [by apply Hoff|].
    unfold off_faces in Ho. rewrite HG in Ho. cbv zeta in Ho.
    match goal with
    | |- _ \/ ~ ?P => destruct (decide P) as [[Ha Hc]|Hn]; [left|by right]
    end.
    apply HA in Ha. apply HC in Hc.
    destruct Hxu as [-> | ->]; cbn [g1 g2]; lia.
  - intros s Hok (HsI & HsJ & HsK).
    pose proof Hok as (Hside & HpI & HpJ & HpK).
    unfold ghost_volumes in *. rewrite HG in *. cbv zeta in *.
    split; [|split]; intros Ht.
    + specialize (HsI Ht). intros a c Ha Hc. specialize (HsI a c Ha Hc).
      assert (2 <= a < NumJ b + 2)
        by (eapply on_patch_within; [apply HpJ; lia|done]).
      unfold mirrored, vol_I, vol_J, vol_K in *.
      rewrite !Hout by (left; destruct Hxu as [-> | ->]; cbn [g1 g2]; lia).
      exact HsI.
    + specialize (HsJ Ht).
      pose proof (surface_indices_J b s Hok Ht) as Hxs.
      intros a c Ha Hc. specialize (HsJ a c Ha Hc).
      assert (2 <= a < NumI b + 2)
        by (eapply on_patch_within; [apply HpI; lia|done]).
      assert (2 <= c < NumK b + 2)
        by (eapply on_patch_within; [apply HpK; lia|done]).
      unfold mirrored, vol_I, vol_J, vol_K in *.
      destruct (decide (imin <= a <= imax /\ kmin <= c <= kmax))
        as [[Ha' Hc']|Hn].
      2:{ rewrite !Hout by (by right). exact HsJ. }
      destruct (Hin a c Ha' Hc') as [Hin1 Hin2].
      destruct (Z.ltb_spec (NumJ b) 2);
        destruct Hxs as [Exs|Exs], Hxu as [Exu|Exu]; rewrite Exs in *;
        subst xu; cbn [g1 g2 i1 i2] in *;
        first [ rewrite !Hout by (left; lia); exact HsJ
              | rewrite Hin1, Hin2; split; apply Hphys; lia ].
    + specialize (HsK Ht). intros a c Ha Hc. specialize (HsK a c Ha Hc).
      assert (2 <= c < NumJ b + 2)
        by (eapply on_patch_within; [apply HpJ; lia|done]).
      unfold mirrored, vol_I, vol_J, vol_K in *.
      rewrite !Hout by (left; destruct Hxu as [-> | ->]; cbn [g1 g2]; lia).
      exact HsK.
  - intros a c Ha Hc. destruct (Hin a c Ha Hc) as [Hin1 Hin2].
    apply HA in Ha. apply HC in Hc.
    unfold mirrored, vol_I, vol_J, vol_K. rewrite Hin1, Hin2.
    destruct (Z.ltb_spec (NumJ b) 2);
      destruct Hxu as [-> | ->]; cbn [g1 g2 i1 i2];
      split; apply Hphys; lia.
Qed.

Lemma vol_effect_K_keeps (b b1 b2 : procBlock D PV) (xu : ghostIndices)
      (imin imax jmin jmax : Z) :
  numGhosts_ b = 2 -> 0 < NumK b ->
  normal_indices (NumK b) xu ->
  (forall a, imin <= a <= imax -> 2 <= a < NumI b + 2) ->
  (forall c, jmin <= c <= jmax -> 2 <= c < NumJ b + 2) ->
  (forall i j k, off_faces b i j k ->
     ma_get (vol_ b1) i j k = ma_get (vol_ b) i j k) ->
  vol_effect xu (NumK b <? 2) imin imax jmin jmax
    (vol_K b1) (vol_K b2) ->
  (forall i j k, off_faces b i j k ->
     ma_get (vol_ b2) i j k = ma_get (vol_ b) i j k) /\
  (forall s, surface_ok b s -> ghost_volumes b b1 s -> ghost_volumes b b2 s) /\
  (forall a c, imin <= a <= imax -> jmin <= c <= jmax ->
     mirrored (vol_K b) (vol_K b2) xu (NumK b <? 2) a c).
Proof.
  intros HG HN Hxu HA HC Hoff [Hout Hin].
  unfold mirrored, vol_K in Hout, Hin.
  assert (Hphys : forall i j k,
            2 <= i < NumI b + 2 -> 2 <= j < NumJ b + 2 ->
            2 <= k < NumK b + 2 ->
            ma_get (vol_ b1) i j k = ma_get (vol_ b) i j k).
  { intros i j k Hi Hj Hk. apply Hoff. unfold off_faces. rewrite HG.
    cbv zeta. by left. }
  split; [|split].
  - intros i j k Ho. rewrite Hout; [by apply Hoff|].
    unfold off_faces in Ho. rewrite HG in Ho. cbv zeta in Ho.
    match goal with
    | |- _ \/ ~ ?P => destruct (decide P) as [[Ha Hc]|Hn]; [left|by right]
    end.
    apply HA in Ha. apply HC in Hc.
    destruct Hxu as [-> | ->]; cbn [g1 g2]; lia.
  - intros s Hok (HsI & HsJ & HsK).
    pose proof Hok as (Hside & HpI & HpJ & HpK).
    unfold ghost_volumes in *. rewrite HG in *. cbv zeta in *.
    split; [|split]; intros Ht.
    + specialize (HsI Ht). intros a c Ha Hc. specialize (HsI a c Ha Hc).
      assert (2 <= c < NumK b + 2)
        by (eapply on_patch_within; [apply HpK; lia|done]).
      unfold mirrored, vol_I, vol_J, vol_K in *.
      rewrite !Hout by (left; destruct Hxu as [-> | ->]; cbn [g1 g2]; lia).
      exact HsI.
    + specialize (HsJ Ht). intros a c Ha Hc. specialize (HsJ a c Ha Hc).
      assert (2 <= c < NumK b + 2)
        by (eapply on_patch_within; [apply HpK; lia|done]).
      unfold mirrored, vol_I, vol_J, vol_K in *.
      rewrite !Hout by (left; destruct Hxu as [-> | ->]; cbn [g1 g2]; lia).
      exact HsJ.
    + specialize (HsK Ht).
      pose proof (surface_indices_K b s Hok Ht) as Hxs.
      intros a c Ha Hc. specialize (HsK a c Ha Hc).
      assert (2 <= a < NumI b + 2)
        by (eapply on_patch_within; [apply HpI; lia|done]).
      assert (2 <= c < NumJ b + 2)
        by (eapply on_patch_within; [apply HpJ; lia|done]).
      unfold mirrored, vol_I, vol_J, vol_K in *.
      destruct (decide (imin <= a <= imax /\ jmin <= c <= jmax))
        as [[Ha' Hc']|Hn].
      2:{ rewrite !Hout by (by right). exact HsK. }
      destruct (Hin a c Ha' Hc') as [Hin1 Hin2].
      destruct (Z.ltb_spec (NumK b) 2);
        destruct Hxs as [Exs|Exs], Hxu as [Exu|Exu]; rewrite Exs in *;
        subst xu; cbn [g1 g2 i1 i2] in *;
        first [ rewrite !Hout by (left; lia); exact HsK
              | rewrite Hin1, Hin2; split; apply Hphys; lia ].
  - intros a c Ha Hc. destruct (Hin a c Ha Hc) as [Hin1 Hin2].
    apply HA in Ha. apply HC in Hc.
    unfold mirrored, vol_I, vol_J, vol_K. rewrite Hin1, Hin2.
    destruct (Z.ltb_spec (NumK b) 2);
      destruct Hxu as [-> | ->]; cbn [g1 g2 i1 i2];
      split; apply Hphys; lia.
Qed.

Lemma patch_physical (lo hi n : Z) :
  patch_within lo hi n ->
  forall a, lo - 1 + 2 <= a <= hi - 2 + 2 -> 2 <= a < n + 2.
Proof. unfold patch_within. lia. Qed.

(** One iteration of the loop, seen from the volumes. *)
Lemma AssignGhostCellsGeom_surface_vol (b b1 : procBlock D PV)
      (u : boundarySurface) :
  numGhosts_ b = 2 -> 0 < NumI b -> 0 < NumJ b -> 0 < NumK b ->
  ghost_frame b b1 -> surface_ok b u ->
  (forall i j k, off_faces b i j k ->
     ma_get (vol_ b1) i j k = ma_get (vol_ b) i j k) ->
  exists b2,
    AssignGhostCellsGeom_surface u b1 = Ok b2 /\
    ghost_frame b1 b2 /\
    (forall i j k, off_faces b i j k ->
       ma_get (vol_ b2) i j k = ma_get (vol_ b) i j k) /\
    (forall s, surface_ok b s -> ghost_volumes b b1 s ->
               ghost_volumes b b2 s) /\
    (bcType u <> "interblock"%string -> ghost_volumes b b2 u).
Proof.
  intros HG HNI HNJ HNK (Hbc & HG1 & Hres) Hok Hoff.
  assert (HI1 : NumI b1 = NumI b) by (unfold NumI; by rewrite Hres).
  assert (HJ1 : NumJ b1 = NumJ b) by (unfold NumJ; by rewrite Hres).
  assert (HK1 : NumK b1 = NumK b) by (unfold NumK; by rewrite Hres).
  unfold AssignGhostCellsGeom_surface. rewrite HG1, HG. cbv zeta.
  destruct (bcType u =? "interblock")%string eqn:Ebc.
  { apply String.eqb_eq in Ebc. rewrite !andb_false_r.
    exists b1. split; [done|]. split; [done|]. split; [done|]. done. }
  rewrite !andb_true_r.
  pose proof Hok as (Hside & HpI & HpJ & HpK).
  destruct ((surfaceType u =? 1) || (surfaceType u =? 2)) eqn:EI.
  { assert (Ht : surfaceType u = 1 \/ surfaceType u = 2).
    { apply orb_prop in EI. destruct EI as [E|E]; apply Z.eqb_eq in E; auto. }
    pose proof (surface_indices_I b u Hok Ht) as Hxu.
    destruct (AssignGhostCellsGeom_I_vol
                (surface_indices (surfaceType u) (iMax u - 2 + 2)
                   (jMax u - 2 + 2) (kMax u - 2 + 2))
                (jMin u - 1 + 2) (jMax u - 2 + 2) (kMin u - 1 + 2)
                (kMax u - 2 + 2) (jMax u - 2 + 2 + 1) (kMax u - 2 + 2 + 1) b1)
      as (b2 & Hb2 & Hfr & Heff); [by rewrite HI1|].
    rewrite HI1 in Heff.
    destruct (vol_effect_I_keeps b b1 b2 _ _ _ _ _ HG HNI Hxu
                (patch_physical _ _ _ (HpJ ltac:(lia) ltac:(lia)))
                (patch_physical _ _ _ (HpK ltac:(lia) ltac:(lia)))
                Hoff Heff) as (Hoff2 & Hkeep & Hown).
    exists b2. split; [exact Hb2|]. split; [exact Hfr|].
    split; [exact Hoff2|]. split; [exact Hkeep|].
    intros _. unfold ghost_volumes. rewrite HG. cbv zeta.
    split; [|split]; intros Ht'; [|lia|lia].
    intros a c Ha Hc. by apply Hown. }
  destruct ((surfaceType u =? 3) || (surfaceType u =? 4)) eqn:EJ.
  { assert (Ht : surfaceType u = 3 \/ surfaceType u = 4).
    { apply orb_prop in EJ. destruct EJ as [E|E]; apply Z.eqb_eq in E; auto. }
    pose proof (surface_indices_J b u Hok Ht) as Hxu.
    destruct (AssignGhostCellsGeom_J_vol
                (surface_indices (surfaceType u) (iMax u - 2 + 2)
                   (jMax u - 2 + 2) (kMax u - 2 + 2))
                (iMin u - 1 + 2) (iMax u - 2 + 2) (kMin u - 1 + 2)
                (kMax u - 2 + 2) (iMax u - 2 + 2 + 1) (kMax u - 2 + 2 + 1) b1)
      as (b2 & Hb2 & Hfr & Heff); [by rewrite HJ1|].
    rewrite HJ1 in Heff.
    destruct (vol_effect_J_keeps b b1 b2 _ _ _ _ _ HG HNJ Hxu
                (patch_physical _ _ _ (HpI ltac:(lia) ltac:(lia)))
                (patch_physical _ _ _ (HpK ltac:(lia) ltac:(lia)))
                Hoff Heff) as (Hoff2 & Hkeep & Hown).
    exists b2. split; [exact Hb2|]. split; [exact Hfr|].
    split; [exact Hoff2|]. split; [exact Hkeep|].
    intros _. unfold ghost_volumes. rewrite HG. cbv zeta.
    split; [|split]; intros Ht'; [lia| |lia].
    intros a c Ha Hc. by apply Hown. }
  destruct ((surfaceType u =? 5) || (surfaceType u =? 6)) eqn:EK.
  { assert (Ht : surfaceType u = 5 \/ surfaceType u = 6).
    { apply orb_prop in EK. destruct EK as [E|E]; apply Z.eqb_eq in E; auto. }
    pose proof (surface_indices_K b u Hok Ht) as Hxu.
    destruct (AssignGhostCellsGeom_K_vol
                (surface_indices (surfaceType u) (iMax u - 2 + 2)
                   (jMax u - 2 + 2) (kMax u - 2 + 2))
                (iMin u - 1 + 2) (iMax u - 2 + 2) (jMin u - 1 + 2)
                (jMax u - 2 + 2) (iMax u - 2 + 2 + 1) (jMax u - 2 + 2 + 1) b1)
      as (b2 & Hb2 & Hfr & Heff); [by rewrite HK1|].
    rewrite HK1 in Heff.
    destruct (vol_effect_K_keeps b b1 b2 _ _ _ _ _ HG HNK Hxu
                (patch_physical _ _ _ (HpI ltac:(lia) ltac:(lia)))
                (patch_physical _ _ _ (HpJ ltac:(lia) ltac:(lia)))
                Hoff Heff) as (Hoff2 & Hkeep & Hown).
    exists b2. split; [exact Hb2|]. split; [exact Hfr|].
    split; [exact Hoff2|]. split; [exact Hkeep|].
    intros _. unfold ghost_volumes. rewrite HG. cbv zeta.
    split; [|split]; intros Ht'; [lia|lia|].
    intros a c Ha Hc. by apply Hown. }
  exfalso.
  apply orb_false_elim in EI, EJ, EK.
  destruct EI as [E1 E2], EJ as [E3 E4], EK as [E5 E6].
  apply Z.eqb_neq in E1, E2, E3, E4, E5, E6. lia.
Qed.
End Proofs.

(** X17: on a block with two ghost layers whose surfaces lie on the sides
    their types name, [AssignGhostCellsGeom] returns a block in which the
    volume of every physical cell and of every ghost cell at an edge or a
    corner is as before, and behind every cell of every surface patch that is
    not an inter-block patch the first ghost cell has the volume of the
    interior cell next to the boundary and the second ghost cell that of the
    second interior cell, or of the first again in a block one cell thick. *)
Theorem AssignGhostCellsGeom_volumes {D PV : Type} `{DoubleOps D}
        (b : procBlock D PV) :
  block_ok b ->
  exists b',
    AssignGhostCellsGeom b = Ok b' /\
    (forall i j k, off_faces b i j k ->
       ma_get (vol_ b') i j k = ma_get (vol_ b) i j k) /\
    forall s, s ∈ bc_ b -> bcType s <> "interblock"%string ->
      ghost_volumes b b' s.
Proof.
  intros (HG & HNI & HNJ & HNK & Hsurf).
  unfold AssignGhostCellsGeom, for_loop_res.
  match goal with
  | |- exists b', for_loop ?n ?f ?r = _ /\ _ =>
      assert (HP : volumes_inv b n (for_loop n f r))
  end.
  { apply (for_loop_ind (volumes_inv b)); unfold volumes_inv.
    - unfold NumSurfaces. lia.
    - exists b. split; [done|]. split; [done|]. split; [done|].
      intros n s Hn. lia.
    - intros m r Hm (b1 & -> & Hfr & Hoff & Hdone). cbn [res_bind].
      pose proof Hfr as (Hbc & HG1 & Hres).
      unfold NumSurfaces in Hm.
      destruct (lookup_lt_is_Some_2 (bc_ b) (Z.to_nat m)) as [u Hu]; [lia|].
      rewrite Hbc. unfold nthZ.
      destruct (m <? 0) eqn:Em; [apply Z.ltb_lt in Em; lia|].
      rewrite Hu.
      assert (Hu_in : u ∈ bc_ b) by (eapply list_elem_of_lookup_2; eauto).
      destruct (AssignGhostCellsGeom_surface_vol b b1 u HG HNI HNJ HNK Hfr
                  (Hsurf u Hu_in) Hoff)
        as (b2 & Hb2 & Hfr2 & Hoff2 & Hpres & Hself).
      exists b2. split; [exact Hb2|].
      split; [by apply (ghost_frame_trans b b1)|].
      split; [exact Hoff2|].
      intros n s Hn Hs Hnib.
      destruct (decide (Z.of_nat n = m)) as [Heq|Hne].
      + assert (s = u) as ->.
        { rewrite <- Heq, Nat2Z.id in Hu.
          pose proof (eq_trans (eq_sym Hs) Hu) as Hsu. by injection Hsu. }
        by apply Hself.
      + apply Hpres.
        * apply Hsurf. eapply list_elem_of_lookup_2; eauto.
        * apply (Hdone n); [lia|done|done]. }
  destruct HP as (b' & Hb' & Hfr & Hoff & Hdone).
  exists b'. split; [exact Hb'|]. split; [exact Hoff|].
  intros s Hs Hnib. apply list_elem_of_lookup_1 in Hs as [n Hn].
  apply (Hdone n); [|done|done].
  apply lookup_lt_Some in Hn. unfold NumSurfaces. lia.
Qed.
Import Examples.

Lemma block_ok_graded_block : block_ok graded_block.
Proof.
  split; [reflexivity|]. do 3 (split; [reflexivity|]).
  intros s Hs. unfold graded_block, cube_block in Hs.
  cbn [bc_ set_vol_] in Hs.
  apply elem_of_cons in Hs as [->|Hs]; [|by apply elem_of_nil in Hs].
  unfold surface_ok, patch_within. cbn. lia.
Qed.

(** Two cells along i whose volumes are 3 and 4, with a wall on the lower
    i-side: the ghost cells behind the wall get the volumes 3 and 4, the
    first physical cell keeps its volume 3 and the ghost cell (1, 1, 2) at
    an edge its volume 2. *)
Lemma AssignGhostCellsGeom_volumes_witness :
  exists b',
    AssignGhostCellsGeom graded_block = Ok b' /\
    this (ma_get (vol_ b') 1 2 2) = 3%Q /\
    this (ma_get (vol_ b') 0 2 2) = 4%Q /\
    this (ma_get (vol_ b') 2 2 2) = 3%Q /\
    this (ma_get (vol_ b') 1 1 2) = 2%Q.
Proof.
  destruct (AssignGhostCellsGeom_volumes graded_block block_ok_graded_block)
    as (b' & Hok & Hoff & Hvol).
  exists b'. split; [exact Hok|].
  destruct (Hvol wall_i_lower) as (HI & _);
    [apply list_elem_of_here|discriminate|].
  assert (Hp : on_patch 1 2 2 2) by (unfold on_patch; lia).
  destruct (HI (or_introl eq_refl) 2 2 Hp Hp) as [H1 H2].
  unfold vol_I in H1, H2. cbn in H1, H2. rewrite H1, H2.
  split; [reflexivity|]. split; [reflexivity|].
  rewrite (Hoff 2 2 2), (Hoff 1 1 2).
  - split; reflexivity.
  - unfold off_faces. cbn. lia.
  - unfold off_faces. cbn. lia.
Defined.
End GhostVolumeProofs.

(** *** The cell that belongs to a position of a slice *)

Module SwapLocProofs.
Import Swap Notions.

(** X18: on the second patch of a pair and for every orientation, the
    cell that [GetSwapLoc] gives for a position lies within the patch: for
    l1 and l2 within the lengths of the directions they run along (those of
    the second and the first direction of the patch when the orientation
    swaps the two, those of the first and the second otherwise), the
    coordinates of the cell along the two directions of the patch lie
    between the start and the end of the patch, also where a direction is
    reversed, and the coordinate along the normal is the constant surface
    plus l3. *)
Theorem GetSwapLoc_in_patch (inter : interblock) (l1 l2 l3 : Z)
        (loc : vector3d Z) :
  GetSwapLoc l1 l2 l3 inter false = Ok loc ->
  let o := Orientation inter in
  let swapped := (o =? 2) || (o =? 4) || (o =? 5) || (o =? 7) in
  0 <= (if swapped then l2 else l1)
    < Dir1EndSecond inter - Dir1StartSecond inter ->
  0 <= (if swapped then l1 else l2)
    < Dir2EndSecond inter - Dir2StartSecond inter ->
  exists c1 c2,
    along (Direction3Second inter) loc =
      (c1, c2, ConstSurfaceSecond inter + l3) /\
    Dir1StartSecond inter <= c1 < Dir1EndSecond inter /\
    Dir2StartSecond inter <= c2 < Dir2EndSecond inter.
Proof.
  unfold GetSwapLoc, along. cbv zeta.
  destruct (Direction3Second inter =? "i")%string;
    [|destruct (Direction3Second inter =? "j")%string;
      [|destruct (Direction3Second inter =? "k")%string; [|done]]].
  all: destruct (_ || _ || _ || _).
  all: repeat match goal with
         | |- context [if ?c then _ else _] => destruct c
         end.
  all: intros [= <-] H1 H2; cbn [v0 v1 v2].
  all: eexists _, _; split; [reflexivity|lia].
Qed.

Import Examples.

(** In the orientation 7 the position (5, 3, 1) of the slice belongs to the
    cell (0, 1, 0) of the partner: l1 = 5 runs down the six cells of the
    second direction and l2 = 3 down the four cells of the first. *)
Lemma GetSwapLoc_in_patch_witness :
  GetSwapLoc 5 3 1 turned_patch false = Ok (Vec3 0 1 0) /\
  exists c1 c2,
    along "j" (Vec3 0 1 0) = (c1, c2, 1) /\ 0 <= c1 < 4 /\ 0 <= c2 < 6.
Proof.
  split; [reflexivity|].
  apply (GetSwapLoc_in_patch turned_patch 5 3 1 (Vec3 0 1 0) eq_refl);
    cbn; lia.
Defined.
End SwapLocProofs.

(** *** The time step of all blocks *)

Module DriverProofs.
Import Solver Driver.
Section Proofs.
Context {D PV : Type} `{DoubleOps D} `{!Physics D PV}.

Lemma CalcTimeStep_inv (inp : input D) (aRef : D)
      (states : list (procBlock D PV)) :
  blocks_inv inp aRef states (Z.of_nat (length states))
    (CalcTimeStep inp aRef states).
Proof.
  unfold CalcTimeStep, for_loop_res.
  apply (for_loop_ind (blocks_inv inp aRef states)); [lia| |].
  - split; [done|]. split; [done|]. intros i b Hi. lia.
  - intros x r Hx Hr. destruct r as [l|]; cbn [res_bind].
    2:{ destruct Hr as (i & b & Hi & Hb & Ha). exists i, b.
        split; [lia|done]. }
    destruct Hr as (Hlen & Hge & Hlt).
    unfold nthZ. destruct (x <? 0) eqn:Ex; [apply Z.ltb_lt in Ex; lia|].
    rewrite Hge by lia.
    destruct (lookup_lt_is_Some_2 states (Z.to_nat x)) as [b Hb]; [lia|].
    rewrite Hb.
    destruct (CalcBlockTimeStep inp aRef b) as [b'|] eqn:Eb; cbn [res_bind].
    2:{ exists (Z.to_nat x), b. split; [lia|done]. }
    split; [by rewrite length_insert|]. split.
    + intros i Hi. rewrite list_lookup_insert_ne by lia. apply Hge. lia.
    + intros i bi Hi Hbi.
      destruct (decide (i = Z.to_nat x)) as [->|Hne].
      * assert (bi = b) as -> by congruence. exists b'.
        split; [|done]. apply list_lookup_insert_eq. lia.
      * rewrite list_lookup_insert_ne by lia. apply Hlt; [lia|done].
Qed.
End Proofs.

(** X19: [CalcTimeStep] treats the blocks independently of each other: it
    returns the list [states'] exactly when [CalcBlockTimeStep] returns for
    every block and [states'] is the list of the results, block by block; and
    it terminates the job exactly when [CalcBlockTimeStep] does so for one
    of the blocks. *)
Theorem CalcTimeStep_block_by_block {D PV : Type} `{DoubleOps D}
        `{!Physics D PV} (inp : input D) (aRef : D)
        (states : list (procBlock D PV)) :
  (forall states',
     CalcTimeStep inp aRef states = Ok states' <->
     Forall2 (fun b b' => CalcBlockTimeStep inp aRef b = Ok b')
             states states') /\
  (CalcTimeStep inp aRef states = Abort <->
   exists b, b ∈ states /\ CalcBlockTimeStep inp aRef b = Abort).
Proof.
  pose proof (CalcTimeStep_inv inp aRef states) as Hinv.
  assert (Hok : forall l, CalcTimeStep inp aRef states = Ok l ->
            Forall2 (fun b b' => CalcBlockTimeStep inp aRef b = Ok b')
                    states l).
  { intros l El. rewrite El in Hinv. destruct Hinv as (Hlen & _ & Hlt).
    apply Forall2_same_length_lookup_2; [done|].
    intros i b b' Hb Hb'.
    destruct (Hlt i b) as (b2 & Hb2 & Hres); [|done|congruence].
    apply lookup_lt_Some in Hb. lia. }
  assert (Habort : CalcTimeStep inp aRef states = Abort ->
            exists b, b ∈ states /\ CalcBlockTimeStep inp aRef b = Abort).
  { intros El. rewrite El in Hinv. destruct Hinv as (i & b & _ & Hb & Ha).
    exists b. split; [|done]. by eapply list_elem_of_lookup_2. }
  split.
  - intros states'. split; [apply Hok|]. intros Hall.
    destruct (CalcTimeStep inp aRef states) as [l|] eqn:El.
    + f_equal. specialize (Hok l eq_refl).
      apply Forall2_length in Hok as Hl1.
      apply Forall2_length in Hall as Hl2.
      apply list_eq_same_length with (length states); [done|done|].
      intros i x y Hi Hx Hy.
      destruct (lookup_lt_is_Some_2 states i Hi) as [b Hb].
      pose proof (Forall2_lookup_lr _ _ _ _ _ _ Hok Hb Hx) as E1.
      pose proof (Forall2_lookup_lr _ _ _ _ _ _ Hall Hb Hy) as E2.
      congruence.
    + destruct (Habort eq_refl) as (b & Hb & Ha).
      apply list_elem_of_lookup_1 in Hb as [i Hb].
      destruct (Forall2_lookup_l _ _ _ _ _ Hall Hb) as (b' & _ & Hres).
      congruence.
  - split; [exact Habort|]. intros (b & Hb & Ha).
    destruct (CalcTimeStep inp aRef states) as [l|] eqn:El; [|done].
    specialize (Hok l eq_refl).
    apply list_elem_of_lookup_1 in Hb as [i Hb].
    destruct (Forall2_lookup_l _ _ _ _ _ Hok Hb) as (b' & _ & Hres).
    congruence.
Qed.
End DriverProofs.

(** *** Loops with bodies that agree *)

Section LoopExt.
Context {S : Type}.
Lemma for_loop_ext (n : Z) (f g : Z -> S -> S) (s : S) :
  (forall x s', 0 <= x < n -> f x s' = g x s') ->
  for_loop n f s = for_loop n g s.
Proof.
  intros Hext. destruct (decide (0 <= n)) as [Hn|Hn].
  2:{ by rewrite !for_loop_nonpos by lia. }
  apply (for_loop_ind (fun m r => r = for_loop m g s)); [done| |].
  - by rewrite for_loop_nonpos.
  - intros x s' Hx ->. rewrite for_loop_succ by lia. by apply Hext.
Qed.
End LoopExt.

(** *** Allocation of a block *)

Module AllocProofs.
Import Alloc.

(** X20: [CleanResizeVecs(numI, numJ, numK)] keeps the surfaces and the
    integer members of the block and gives it [numI] x [numJ] x [numK]
    physical cells, but the arrays that carry ghost cells get [numGhosts_]
    more elements per direction than there are physical cells: all arrays
    have the extents that the allocating constructor
    [procBlock(numI, numJ, numK, numGhosts_)] gives them, which has
    [2 * numGhosts_] more, if and only if [numGhosts_] is 0. *)
Theorem CleanResizeVecs_extents {D PV : Type} `{DoubleOps D}
        (primVars0 : PV) (DEFAULTWALLDIST : D) (numI numJ numK : Z)
        (b : procBlock D PV) :
  let b' := CleanResizeVecs primVars0 DEFAULTWALLDIST numI numJ numK b in
  let G := numGhosts_ b in
  (NumI b', NumJ b', NumK b') = (numI, numJ, numK) /\
  (bc_ b', numGhosts_ b', parBlock_ b', rank_ b', globalPos_ b',
   localPos_ b') =
    (bc_ b, G, parBlock_ b, rank_ b, globalPos_ b, localPos_ b) /\
  extents (state_ b') = (numI + G, numJ + G, numK + G) /\
  (block_extents b' =
     block_extents (procBlock_alloc primVars0 numI numJ numK G) <->
   G = 0).
Proof.
  cbv zeta. split; [reflexivity|]. split; [reflexivity|].
  split; [reflexivity|].
  unfold block_extents, extents, CleanResizeVecs, procBlock_alloc,
    ClearResize. cbn.
  split.
  - intros [= E _]. lia.
  - intros ->. repeat f_equal; lia.
Qed.
End AllocProofs.

(** *** Coefficients of the WENO reconstructions *)

Module WenoProofs.
Import Stencil Weno TimeStepFormula.

Section Shift.
Context {D : Type} `{DoubleOps D}.

Lemma accumulate_shift (pre l post : list D) (s e : Z) (init : D) :
  let P := Z.of_nat (length pre) in
  P <= s <= P + Z.of_nat (length l) -> e <= P + Z.of_nat (length l) ->
  accumulate (pre ++ l ++ post) s e init = accumulate l (s - P) (e - P) init.
Proof.
  intros P Hs He. unfold accumulate.
  replace (e - P - (s - P)) with (e - s) by lia.
  replace (Z.to_nat s) with (length pre + Z.to_nat (s - P))%nat by lia.
  rewrite drop_app_add. rewrite drop_app_le by lia.
  rewrite take_app_le; [done|]. rewrite length_drop. lia.
Qed.

Lemma StencilWidth_shift (pre l post : list D) (s e : Z) :
  let P := Z.of_nat (length pre) in
  P <= s <= P + Z.of_nat (length l) -> P <= e <= P + Z.of_nat (length l) ->
  StencilWidth (pre ++ l ++ post) s e = StencilWidth l (s - P) (e - P).
Proof.
  intros P Hs He. unfold StencilWidth. cbv zeta.
  destruct (Z.gtb_spec e s), (Z.gtb_spec (e - P) (s - P)); try lia.
  - apply accumulate_shift; lia.
  - destruct (Z.gtb_spec s e), (Z.gtb_spec (s - P) (e - P)); try lia;
      [|done].
    f_equal. apply accumulate_shift; lia.
Qed.

Lemma numer_denom_shift (pre l post : list D) (degree rr mm : Z) :
  -1 <= rr <= degree -> Z.of_nat (length l) = degree + 1 ->
  0 <= mm <= degree + 1 ->
  let ii := Z.of_nat (length pre) + rr in
  for_loop (degree + 2) (fun ll nd =>
    if negb (ll =? mm) then
      ((fst nd +
        for_loop (degree + 2) (fun qq numProd =>
          if negb (qq =? mm) && negb (qq =? ll)
          then (numProd *
                StencilWidth (pre ++ l ++ post) (ii - rr + qq) (ii + 1))%dbl
          else numProd) (dlit 1))%dbl,
       (snd nd *
        StencilWidth (pre ++ l ++ post) (ii - rr + ll) (ii - rr + mm))%dbl)
    else nd) (dlit 0, dlit 1) =
  for_loop (degree + 2) (fun ll nd =>
    if negb (ll =? mm) then
      ((fst nd +
        for_loop (degree + 2) (fun qq numProd =>
          if negb (qq =? mm) && negb (qq =? ll)
          then (numProd * StencilWidth l (rr - rr + qq) (rr + 1))%dbl
          else numProd) (dlit 1))%dbl,
       (snd nd * StencilWidth l (rr - rr + ll) (rr - rr + mm))%dbl)
    else nd) (dlit 0, dlit 1).
Proof.
  intros Hrr Hl Hmm ii. subst ii.
  apply for_loop_ext. intros ll nd Hll.
  destruct (negb (ll =? mm)); [|done].
  f_equal.
  - f_equal. apply for_loop_ext. intros qq np Hqq.
    destruct (negb (qq =? mm) && negb (qq =? ll)); [|done].
    f_equal. rewrite StencilWidth_shift by lia. f_equal; lia.
  - f_equal. rewrite StencilWidth_shift by lia. f_equal; lia.
Qed.

(** The coefficients depend on the widths of the cells of the stencil
    only. *)
Lemma LagrangeCoeff_shift (pre l post : list D) (degree rr : Z) :
  -1 <= rr <= degree -> Z.of_nat (length l) = degree + 1 ->
  LagrangeCoeff (pre ++ l ++ post) degree rr (Z.of_nat (length pre) + rr) =
  LagrangeCoeff l degree rr rr.
Proof.
  intros Hrr Hl. unfold LagrangeCoeff. cbv zeta.
  rewrite length_replicate.
  apply for_loop_ext. intros jj r Hjj. destruct r as [coeffs|]; [|done].
  cbn [mbind option_bind].
  assert (Hw : nthZ (pre ++ l ++ post) (Z.of_nat (length pre) + rr - rr + jj) =
               nthZ l (rr - rr + jj)).
  { unfold nthZ.
    destruct (Z.ltb_spec (Z.of_nat (length pre) + rr - rr + jj) 0); [lia|].
    destruct (Z.ltb_spec (rr - rr + jj) 0); [lia|].
    rewrite lookup_app_r by lia. rewrite lookup_app_l by lia.
    f_equal. lia. }
  rewrite Hw. destruct (nthZ l (rr - rr + jj)) as [w|]; [|done].
  cbn [mbind option_bind]. do 2 f_equal.
  apply for_loop_ext. intros x cs Hx.
  pose proof (numer_denom_shift pre l post degree rr (jj + 1 + x) Hrr Hl)
    as Hnd.
  cbv zeta in Hnd. rewrite Hnd by lia. reflexivity.
Qed.
End Shift.

Lemma Qc_pos_add (x y : Qc) : (0 < x -> 0 < y -> 0 < x + y)%Qc.
Proof.
  intros Hx Hy. apply Qclt_le_trans with (x + 0)%Qc.
  - by rewrite Qcplus_0_r.
  - apply Qcplus_le_compat; [apply Qcle_refl|by apply Qclt_le_weak].
Qed.

Lemma Qc_pos_neq (x : Qc) : (0 < x)%Qc -> x <> 0%Qc.
Proof. intros Hx ->. by apply (Qclt_not_eq 0 0). Qed.

Ltac unroll :=
  cbv [LagrangeCoeff for_loop foldl seqZ replicate Z.to_nat Pos.to_nat
       Pos.iter_op Init.Nat.add length Z.of_nat Pos.of_succ_nat Pos.succ
       Z.add Z.sub Z.opp Pos.add Pos.add_carry Z.pos_sub Z.succ_double
       Z.pred_double Z.double Pos.pred_double Z.eqb Pos.eqb negb andb
       fmap list_fmap seq Z.succ Z.pred Z.abs_nat Z.abs_N N.to_nat
       mbind option_bind nthZ Z.ltb Z.compare Pos.compare Pos.compare_cont
       lookup list_lookup alter list_alter fst snd
       StencilWidth accumulate Z.gtb take drop
       dlit dadd dsub dmul ddiv Qc_ops].

(** The three cells of a stencil with the widths [a], [b], [c]. *)
Lemma LagrangeCoeff_stencil (a b c : Qc) (rr : Z) :
  -1 <= rr <= 2 ->
  (0 < a)%Qc -> (0 < b)%Qc -> (0 < c)%Qc ->
  exists c0 c1 c2,
    LagrangeCoeff [a; b; c] 2 rr rr = Some [c0; c1; c2] /\
    (c0 + c1 + c2 = 1)%Qc.
Proof.
  intros Hrr Ha Hb Hc.
  pose proof (Qc_pos_add _ _ Ha Hb) as Hab.
  pose proof (Qc_pos_add _ _ Hb Hc) as Hbc.
  pose proof (Qc_pos_add _ _ Hab Hc) as Habc.
  apply Qc_pos_neq in Ha, Hb, Hc, Hab, Hbc, Habc.
  assert (Hm : Q2Qc (-1) <> 0%Qc) by discriminate.
  assert (Hcases : rr = -1 \/ rr = 0 \/ rr = 1 \/ rr = 2) by lia.
  destruct Hcases as [->|[->|[->| ->]]]; unroll.
  all: eexists _, _, _; (split; [reflexivity|]).
  all: change (Q2Qc 0) with 0%Qc in *; change (Q2Qc (-1)) with (- (1))%Qc.
  all: field; repeat split; assumption.
Qed.

(** X21: in exact rational arithmetic and for the degree 2 (the three
    third-order reconstructions of the fifth-order WENO scheme), whenever
    the three cells [ii - rr], ..., [ii - rr + 2] of the stencil lie in the
    vector of widths and have positive widths, [LagrangeCoeff] returns three
    coefficients whose sum is 1, for each of the stencils rr = -1, 0, 1, 2
    and whatever the other entries of the vector: the reconstruction
    reproduces a constant on every grid. *)
Theorem LagrangeCoeff_sum_to_one (cellWidth : list Qc) (rr ii : Z)
        (a b c : Qc) :
  -1 <= rr <= 2 ->
  nthZ cellWidth (ii - rr) = Some a ->
  nthZ cellWidth (ii - rr + 1) = Some b ->
  nthZ cellWidth (ii - rr + 2) = Some c ->
  (0 < a)%Qc -> (0 < b)%Qc -> (0 < c)%Qc ->
  exists c0 c1 c2,
    LagrangeCoeff cellWidth 2 rr ii = Some [c0; c1; c2] /\
    (c0 + c1 + c2 = 1)%Qc.
Proof.
  intros Hrr Ea Eb Ec Ha Hb Hc.
  unfold nthZ in Ea, Eb, Ec.
  destruct (Z.ltb_spec (ii - rr) 0); [done|].
  destruct (Z.ltb_spec (ii - rr + 1) 0); [done|].
  destruct (Z.ltb_spec (ii - rr + 2) 0); [done|].
  set (n := Z.to_nat (ii - rr)) in *.
  replace (Z.to_nat (ii - rr + 1)) with (S n) in Eb by lia.
  replace (Z.to_nat (ii - rr + 2)) with (S (S n)) in Ec by lia.
  assert (Hcw : cellWidth =
                take n cellWidth ++ [a; b; c] ++ drop (S (S (S n))) cellWidth).
  { rewrite <- (take_drop n cellWidth) at 1. f_equal.
    rewrite (drop_S _ _ _ Ea), (drop_S _ _ _ Eb), (drop_S _ _ _ Ec). done. }
  assert (Hn : Z.of_nat (length (take n cellWidth)) = ii - rr).
  { rewrite length_take. apply lookup_lt_Some in Ea. lia. }
  rewrite Hcw. replace ii with (Z.of_nat (length (take n cellWidth)) + rr)
    by lia.
  rewrite LagrangeCoeff_shift by (simpl; lia).
  by apply LagrangeCoeff_stencil.
Qed.

(** On a uniform grid the coefficients are those of the classical scheme,
    1/3, 5/6 and -1/6 for the stencil rr = 0; on the grid of the widths
    1, 2, 3, 5, 7 they are 1/2, 7/12 and -1/12. *)
Lemma LagrangeCoeff_sum_to_one_witness :
  let u := Q2Qc <$> [1; 1; 1; 1; 1]%Q in
  let g := Q2Qc <$> [1; 2; 3; 5; 7]%Q in
  option_map (map this) (LagrangeCoeff u 2 0 2) =
    Some [1 # 3; 5 # 6; -1 # 6]%Q /\
  option_map (map this) (LagrangeCoeff g 2 0 2) =
    Some [1 # 2; 7 # 12; -1 # 12]%Q /\
  exists c0 c1 c2,
    LagrangeCoeff g 2 0 2 = Some [c0; c1; c2] /\ (c0 + c1 + c2 = 1)%Qc.
Proof.
  intros u g. split; [reflexivity|]. split; [reflexivity|].
  apply (LagrangeCoeff_sum_to_one g 0 2 (Q2Qc 3) (Q2Qc 5) (Q2Qc 7));
    (lia || reflexivity).
Defined.
End WenoProofs.
